(** * Pixel Plex Optimizer: the block optimizer of [app/welcome/optimize.tsx]

    A shallow embedding of the catalog expander
    ([buildVariantsFromDefinitions]), the single-block beam search
    ([optimizeBlockIncomeFromDefinitions]) and the multi-block driver
    ([optimizeMultipleBlocks]), followed by the properties of the
    specification that were checked against them.  The repository also
    holds an earlier copy of the single-block optimizer, with fixed
    starting resources and no exemption of mandatory variants from the
    staffing filter; its expander, pruner and selection loop are the ones
    embedded here.

    The second half of the properties is read off the code alone: the
    build orders behind the states of the table, the bookkeeping of keys,
    masks and rows, the income simulation and the efficiency report, the
    driver block by block, and the [Block] class that the earlier copy
    declares.

    Numbers.  The catalog carries integers (sizes, incomes, capacities,
    costs), so every catalog number is a [Z]; negative values are kept,
    because nothing in the source rejects them.  The source computes its
    heuristic score and the simulated income in IEEE doubles; the embedding
    computes the same expressions exactly in [Q] and rounds with
    [Math.round] = floor (x + 1/2).  An optional JSON field is an [option];
    [x || d], [x ?? d] and the truth test of a number are written out below.

    Names.  The source uses plain objects as maps from building names to
    indices and to report entries.  Such an object inherits the properties
    of [Object.prototype]: an assignment to the name [__proto__] stores
    nothing, and a read of that name or of an inherited name gives
    something that is not a number.  The index objects and the report are
    embedded with that behaviour.  The rows of a result are keyed in the
    source by the string [`name:lvlN`], which is split again at [":"]; the
    embedding keeps the pair of name and level, which is what the split
    returns for a name without a colon, and the properties of the rows are
    stated for such names.

    Completions.  A table access at a negative index (a variant of negative
    size) makes the source throw a [TypeError]; a back-walk through a cycle
    of parent pointers does not end.  Both are kept as outcomes of the
    embedded functions, next to the normal return.  The table itself is a
    list; the source cannot allocate it for a size limit of 2^32 - 1 or
    more, and what a call returns or throws is stated below that limit.

    Store.  The driver copies the catalog it is given and assigns to the
    copy; the catalog objects live in a store and the driver is a function
    on stores. *)

From Stdlib Require Import ZArith QArith Qround List String Ascii Bool Lia Lqa Permutation Sorted.
From stdpp Require Import base list.
Import ListNotations.
Local Open Scope Z_scope.

(** ** JavaScript operators on optional numbers *)

(** [x ? .. : ..] on a number: absent, and 0, are false. *)
Definition truthy (o : option Z) : bool :=
  match o with
  | Some z => negb (z =? 0)
  | None => false
  end.

(** [x || d] on a number. *)
Definition orElse (o : option Z) (d : Z) : Z :=
  match o with
  | Some z => if z =? 0 then d else z
  | None => d
  end.

(** [x ?? d]. *)
Definition nullish {A : Type} (o : option A) (d : A) : A :=
  match o with
  | Some a => a
  | None => d
  end.

(** ** Data model *)

(** [type ResourceCost]: each axis is optional; readers use [c.axis || 0]. *)
Record ResourceCost := mkCost {
  c_money : option Z;
  c_wood : option Z;
  c_cement : option Z;
  c_steel : option Z
}.

(** The object literal [{}]. *)
Definition noCost : ResourceCost := mkCost None None None None.

(** [Object.keys(c).length > 0]. *)
Definition hasKeys (c : ResourceCost) : bool :=
  match c_money c, c_wood c, c_cement c, c_steel c with
  | None, None, None, None => false
  | _, _, _, _ => true
  end.

(** A resource record with its four axes present: the starting resources,
    the resource part of a state key and the storage totals of the driver. *)
Record Resources := mkRes {
  money : Z;
  wood : Z;
  cement : Z;
  steel : Z
}.

(** [storageCapacity?: number | ResourceCost]. *)
Inductive Storage :=
| StoNum (n : Z)
| StoObj (c : ResourceCost).

Inductive WorkerType := employees | residents.

Record BuildingUpgrade := mkUpgrade {
  u_level : Z;
  u_income : option Z;
  u_additionalIncome : option Z;
  u_employees : option Z;
  u_peopleCapacity : option Z;
  u_storageCapacity : option Storage;
  u_capacity : option Z;
  u_mandatory : bool;
  u_cost : option ResourceCost;
  u_prefers : option (list string)
}.

Record BuildingDefinition := mkDef {
  d_baseIncome : option Z;
  d_size : option Z;
  d_employees : option Z;
  d_peopleCapacity : option Z;
  d_storageCapacity : option Storage;
  d_capacity : option Z;
  d_mandatory : bool;
  d_baseCost : option ResourceCost;
  d_prefers : option (list string);
  d_upgrades : option (list BuildingUpgrade)
}.

(** [BuildingDefinitions]: the two nested objects are kept as association
    lists in property order, which is the order [Object.entries] and
    [for .. in] visit them. *)
Record BuildingDefinitions := mkDefs {
  buildingTypes : list (string * list (string * BuildingDefinition))
}.

(** [type Variant]; its [id] string is never read and is left out. *)
Record Variant := mkVariant {
  v_type : string;
  v_name : string;
  v_level : Z;
  v_size : Z;
  v_income : Z;
  v_capacity : Z;
  v_storageCapacity : Storage;
  v_mandatory : bool;
  v_costs : ResourceCost;
  v_workerType : option WorkerType;
  v_prefers : option (list string)
}.

Definition isEmployees (v : Variant) : bool :=
  match v_workerType v with Some employees => true | _ => false end.

Definition isResidents (v : Variant) : bool :=
  match v_workerType v with Some residents => true | _ => false end.

(** [isStorageBuilding], and the inline test of the transition loop: an
    object-shaped storage capacity on a variant without workers. *)
Definition isStorageBuilding (v : Variant) : bool :=
  match v_storageCapacity v, v_workerType v with
  | StoObj _, None => true
  | _, _ => false
  end.

(** ** Catalog expander *)

(** [upgrades.slice().sort((a, b) => a.level - b.level)]: a stable sort by
    ascending level. *)
Fixpoint insertUpgrade (u : BuildingUpgrade) (l : list BuildingUpgrade) : list BuildingUpgrade :=
  match l with
  | [] => [u]
  | y :: l' => if u_level u <=? u_level y then u :: l else y :: insertUpgrade u l'
  end.

Definition sortUpgrades (l : list BuildingUpgrade) : list BuildingUpgrade :=
  fold_right insertUpgrade [] l.

Definition baseWorkerType (def : BuildingDefinition) : option WorkerType :=
  if truthy (d_employees def) then Some employees
  else if truthy (d_peopleCapacity def) then Some residents
  else None.

Definition baseWorkers (def : BuildingDefinition) : Z :=
  match d_employees def with
  | Some e => e
  | None => nullish (d_peopleCapacity def) 0
  end.

Definition baseStorage (def : BuildingDefinition) : Storage :=
  match d_storageCapacity def with
  | Some s => s
  | None => match d_capacity def with Some n => StoNum n | None => StoNum 0 end
  end.

Definition baseVariant (typeName buildingName : string) (def : BuildingDefinition) : Variant :=
  {| v_type := typeName;
     v_name := buildingName;
     v_level := 1;
     v_size := orElse (d_size def) 1;
     v_income := orElse (d_baseIncome def) 0;
     v_capacity := baseWorkers def;
     v_storageCapacity := baseStorage def;
     v_mandatory := d_mandatory def;
     v_costs := nullish (d_baseCost def) noCost;
     v_workerType := baseWorkerType def;
     v_prefers := d_prefers def |}.

(** The running income of the upgrade loop after upgrade [up]. *)
Definition stepIncome (accumulatedIncome : Z) (up : BuildingUpgrade) : Z :=
  match u_income up with
  | Some i => i
  | None => accumulatedIncome + orElse (u_additionalIncome up) 0
  end.

(** The running worker capacity of the upgrade loop after upgrade [up]. *)
Definition stepWorkers (currentWorkers : Z) (up : BuildingUpgrade) : Z :=
  let w := match u_employees up with Some e => e | None => currentWorkers end in
  match u_peopleCapacity up with Some p => p | None => w end.

(** [currentStorage]: restarts from the base storage at every upgrade; only
    a numeric upgrade field overrides it. *)
Definition upgradeStorage (def : BuildingDefinition) (up : BuildingUpgrade) : Storage :=
  let s := match u_storageCapacity up with Some (StoNum n) => StoNum n | _ => baseStorage def end in
  match u_capacity up with Some n => StoNum n | None => s end.

Definition upgradeWorkerType (def : BuildingDefinition) (up : BuildingUpgrade) : option WorkerType :=
  if truthy (u_employees up) then Some employees
  else if truthy (u_peopleCapacity up) then Some residents
  else baseWorkerType def.

Definition upgradeVariant (typeName buildingName : string) (def : BuildingDefinition)
    (accumulatedIncome currentWorkers : Z) (up : BuildingUpgrade) : Variant :=
  let upCosts := nullish (u_cost up) noCost in
  {| v_type := typeName;
     v_name := buildingName;
     v_level := u_level up;
     v_size := orElse (d_size def) 1;
     v_income := accumulatedIncome;
     v_capacity := currentWorkers;
     v_storageCapacity := upgradeStorage def up;
     v_mandatory := u_mandatory up || d_mandatory def;
     v_costs := if hasKeys upCosts then upCosts else nullish (d_baseCost def) noCost;
     v_workerType := upgradeWorkerType def up;
     v_prefers := match u_prefers up with Some p => Some p | None => d_prefers def end |}.

(** The body of [for (const up of sortedUpgrades)], threading
    [accumulatedIncome] and [currentWorkers]. *)
Fixpoint upgradeVariants (typeName buildingName : string) (def : BuildingDefinition)
    (accumulatedIncome currentWorkers : Z) (ups : list BuildingUpgrade) : list Variant :=
  match ups with
  | [] => []
  | up :: rest =>
      let income' := stepIncome accumulatedIncome up in
      let workers' := stepWorkers currentWorkers up in
      upgradeVariant typeName buildingName def income' workers' up
        :: upgradeVariants typeName buildingName def income' workers' rest
  end.

(** The variants of one building: level 1, then one per upgrade. *)
Definition buildingVariants (typeName buildingName : string) (def : BuildingDefinition) : list Variant :=
  baseVariant typeName buildingName def
    :: upgradeVariants typeName buildingName def
         (orElse (d_baseIncome def) 0) (baseWorkers def)
         (sortUpgrades (nullish (d_upgrades def) [])).

Definition buildVariantsFromDefinitions (defs : BuildingDefinitions) : list Variant :=
  flat_map (fun tg : string * list (string * BuildingDefinition) =>
              flat_map (fun bd : string * BuildingDefinition =>
                          buildingVariants (fst tg) (fst bd) (snd bd))
                       (snd tg))
           (buildingTypes defs).

(** ** Completions

    A call of the source returns normally, throws, or does not return.
    Two errors are kept.  The [RangeError] of a table allocation beyond
    2^32 - 1 buckets is not: the properties that depend on it are stated
    below that limit (see [MAX_TABLE_LIMIT]). *)

Inductive JsError :=
| TypeError      (* a property read on [undefined] *)
| BlockCountError (* [Error("Number of blocks must be at least 1")] *).

Inductive completion (A : Type) :=
| Normal (a : A)
| Throw (e : JsError)
| Diverge.

Arguments Normal {A} a.
Arguments Throw {A} e.
Arguments Diverge {A}.

Definition cbind {A B : Type} (c : completion A) (k : A -> completion B) : completion B :=
  match c with
  | Normal a => k a
  | Throw e => Throw e
  | Diverge => Diverge
  end.

Notation "'let*' x ':=' c 'in' k" := (cbind c (fun x => k))
  (at level 10, x pattern, c at level 100, k at level 200).

(** A loop body folded over a list, left to right, stopping at the first
    abrupt completion. *)
Fixpoint foldC {A S : Type} (f : S -> A -> completion S) (l : list A) (s : S) : completion S :=
  match l with
  | [] => Normal s
  | a :: l' => let* s' := f s a in foldC f l' s'
  end.

(** ** 32-bit operators and small helpers *)

(** ToInt32. *)
Definition toInt32 (z : Z) : Z := (z + 2 ^ 31) mod 2 ^ 32 - 2 ^ 31.

(** [a << n]: the shift count is taken modulo 32 and the result wraps. *)
Definition jsShl (a n : Z) : Z := toInt32 (Z.shiftl (toInt32 a) (n mod 32)).

(** [a | b]. *)
Definition jsOr (a b : Z) : Z := Z.lor (toInt32 a) (toInt32 b).

(** [Array.from(new Set(l))]: first occurrences, in order. *)
Definition setFromList (l : list string) : list string :=
  fold_left (fun acc x => if existsb (String.eqb x) acc then acc else acc ++ [x]) l [].

(** The index objects [miscIndex] and [businessIndex]: plain objects used
    as maps from a name to a number.  Only the own properties that hold a
    number matter, because every read is guarded by
    [typeof .. === "number"]. *)
Fixpoint indexSet (index : list (string * nat)) (name : string) (i : nat)
  : list (string * nat) :=
  match index with
  | [] => [(name, i)]
  | e :: rest =>
      if String.eqb (fst e) name then (name, i) :: rest else e :: indexSet rest name i
  end.

(** [index[name] = i]: an assignment to ["__proto__"] reaches the setter of
    [Object.prototype], which ignores a number, and stores nothing. *)
Definition indexAssign (index : list (string * nat)) (name : string) (i : nat)
  : list (string * nat) :=
  if String.eqb name "__proto__" then index else indexSet index name i.

(** [for (let i = 0; i < names.length; i++) index[names[i]] = i]. *)
Definition indexObject (names : list string) : list (string * nat) :=
  fold_left (fun index e => indexAssign index (snd e) (fst e))
            (combine (seq 0 (length names)) names) [].

(** [index[name]] when it is a number, for the index object of [names]:
    [None] stands for a read that is not a number, which is [undefined],
    an inherited function or, for ["__proto__"], the prototype object. *)
Definition indexOf (name : string) (names : list string) : option nat :=
  match find (fun e => String.eqb (fst e) name) (indexObject names) with
  | Some e => Some (snd e)
  | None => None
  end.

(** [arr[i] || 0]. *)
Definition getZ (arr : list Z) (i : nat) : Z := nth i arr 0.

Definition sumZ (l : list Z) : Z := fold_left Z.add l 0.

Definition qmax (a b : Q) : Q := if Qle_bool a b then b else a.

Definition Qltb (a b : Q) : bool := negb (Qle_bool b a).

(** [Math.round], on the exact value: the source rounds a double, which
    can differ from the exact value by an ulp and so round to the other
    side at a half. *)
Definition jsRound (x : Q) : Z := Qfloor (x + (1 # 2))%Q.

(** ** Optimizer configuration *)

Definition DEFAULT_BEAM_WIDTH : Z := 400.
Definition DUPLICATE_PENALTY_THRESHOLD : Z := 2.
Definition DUPLICATE_PENALTY_RATE : Q := 1 # 10.
Definition SPACE_EFFICIENCY_BONUS : Q := 1 # 10.
Definition MIN_STAFFING_RATIO : Q := 9 # 10.
Definition STORAGE_PENALTY : Q := 0.
Definition MAX_RESIDENTS : Z := 1000.
Definition MAX_RESOURCE_UPPER : Z := 100000.
Definition DEFAULT_BASE_RESOURCES : Resources := mkRes 1000 100 100 100.

(** [opts].  [startingResources] is taken with its four axes present, as
    the multi-block driver passes it. *)
Record Options := mkOpts {
  debug : bool;
  beamWidth : option Z;
  startingResources : option Resources
}.

Definition defaultOptions : Options := mkOpts false None None.

(** ** State table *)

(** The state key [`r:money:wood:cement:steel:mask:counts`].  The string
    is a faithful print of this tuple (decimal numbers, counts of fixed
    length joined by commas), so keys are compared as tuples. *)
Record Key := mkKey {
  k_r : Z;
  k_money : Z;
  k_wood : Z;
  k_cement : Z;
  k_steel : Z;
  k_mask : Z;
  k_counts : list Z
}.

Fixpoint counts_eqb (a b : list Z) : bool :=
  match a, b with
  | [], [] => true
  | x :: a', y :: b' => (x =? y) && counts_eqb a' b'
  | _, _ => false
  end.

Definition key_eqb (a b : Key) : bool :=
  (k_r a =? k_r b) && (k_money a =? k_money b) && (k_wood a =? k_wood b)
  && (k_cement a =? k_cement b) && (k_steel a =? k_steel b) && (k_mask a =? k_mask b)
  && counts_eqb (k_counts a) (k_counts b).

(** The aggregated DP node. *)
Record Node := mkNode {
  prevKey : option Key;
  prevW : Z;
  variantIndex : Z;
  incomeNeutral : Z;
  houseBaseIncome : Z;
  totalHouseCapacity : Z;
  businessIncomeBaseArr : list Z;
  businessCapacityArr : list Z;
  countsArr : list Z;
  totalStorage : Z;
  total : Z;
  preferenceCapacity : list Z
}.

(** A [Map<string, any>] in insertion order. *)
Abbreviation Bucket := (list (Key * Node)).

Definition mapGet (m : Bucket) (k : Key) : option Node :=
  option_map snd (find (fun e => key_eqb (fst e) k) m).

(** [m.set(k, n)]: an existing key keeps its position. *)
Fixpoint mapSet (m : Bucket) (k : Key) (n : Node) : Bucket :=
  match m with
  | [] => [(k, n)]
  | e :: m' => if key_eqb (fst e) k then (k, n) :: m' else e :: mapSet m' k n
  end.

(** The values the closures of [optimizeBlockIncomeFromDefinitions] share. *)
Record Ctx := mkCtx {
  variants : list Variant;
  capacity : Z;
  miscNames : list string;
  requiredMask : Z;
  businessNames : list string;
  maxResidents : Z;
  maxResourceUpper : Resources;
  BEAM_WIDTH : Z
}.

Definition nBusinesses (ctx : Ctx) : nat := length (businessNames ctx).

Definition costAxis (o : option Z) : Z := orElse o 0.

Definition storageObject (v : Variant) : ResourceCost :=
  match v_storageCapacity v with
  | StoObj c => c
  | StoNum _ => noCost
  end.

(** [(sc.axis || 0) / Math.max(1, v.size)]. *)
Definition perSize (amount : Z) (v : Variant) : Q :=
  (inject_Z amount / inject_Z (Z.max 1 (v_size v)))%Q.

Definition maxPerSize (axis : ResourceCost -> option Z) (vs : list Variant) : Q :=
  fold_left (fun m v => qmax m (perSize (costAxis (axis (storageObject v))) v)) vs 0%Q.

Definition upperBound (base cap : Z) (perUnit : Q) : Z :=
  Z.min MAX_RESOURCE_UPPER (base + Qceiling (inject_Z cap * perUnit)%Q).

Definition makeCtx (defs : BuildingDefinitions) (sizeLimit : Z) (opts : Options) : Ctx :=
  let vs := buildVariantsFromDefinitions defs in
  let cap := Z.max 0 sizeLimit in
  let misc := setFromList (map v_name
                (List.filter (fun v => String.eqb (v_type v) "misc" && v_mandatory v) vs)) in
  let biz := setFromList (map v_name (List.filter isEmployees vs)) in
  let baseResources := nullish (startingResources opts) DEFAULT_BASE_RESOURCES in
  let houseVariants := List.filter isResidents vs in
  let maxPeoplePerSize :=
    fold_left (fun m v => qmax m (perSize (v_capacity v) v)) houseVariants 0%Q in
  let storageVariants := List.filter isStorageBuilding vs in
  {| variants := vs;
     capacity := cap;
     miscNames := misc;
     requiredMask :=
       if (0 <? length misc)%nat then jsShl 1 (Z.of_nat (length misc)) - 1 else 0;
     businessNames := biz;
     maxResidents := Z.min MAX_RESIDENTS (Qceiling (inject_Z cap * maxPeoplePerSize)%Q);
     maxResourceUpper :=
       {| money := upperBound (money baseResources) cap (maxPerSize c_money storageVariants);
          wood := upperBound (wood baseResources) cap (maxPerSize c_wood storageVariants);
          cement := upperBound (cement baseResources) cap (maxPerSize c_cement storageVariants);
          steel := upperBound (steel baseResources) cap (maxPerSize c_steel storageVariants) |};
     BEAM_WIDTH := nullish (beamWidth opts) DEFAULT_BEAM_WIDTH |}.

Definition initialNode (ctx : Ctx) : Node :=
  {| prevKey := None;
     prevW := -1;
     variantIndex := -1;
     incomeNeutral := 0;
     houseBaseIncome := 0;
     totalHouseCapacity := 0;
     businessIncomeBaseArr := replicate (nBusinesses ctx) 0;
     businessCapacityArr := replicate (nBusinesses ctx) 0;
     countsArr := replicate (nBusinesses ctx) 0;
     totalStorage := 0;
     total := 0;
     preferenceCapacity := replicate (nBusinesses ctx) 0 |}.

Definition initialKey (ctx : Ctx) (baseResources : Resources) : Key :=
  {| k_r := 0;
     k_money := money baseResources;
     k_wood := wood baseResources;
     k_cement := cement baseResources;
     k_steel := steel baseResources;
     k_mask := 0;
     k_counts := replicate (nBusinesses ctx) 0 |}.

(** ** Transition engine *)

(** The negation of [money < needMoney || wood < needWood || ..]. *)
Definition affordable (key : Key) (v : Variant) : bool :=
  negb ((k_money key <? costAxis (c_money (v_costs v)))
        || (k_wood key <? costAxis (c_wood (v_costs v)))
        || (k_cement key <? costAxis (c_cement (v_costs v)))
        || (k_steel key <? costAxis (c_steel (v_costs v)))).

(** The staffing filter: [true] when the loop takes its [continue]. *)
Definition staffingRejects (ctx : Ctx) (node : Node) (v : Variant) : bool :=
  isEmployees v && negb (v_mandatory v) &&
  (let newBusinessCapacity := sumZ (businessCapacityArr node) + v_capacity v in
   let currentHouseCapacity := totalHouseCapacity node in
   let bi := indexOf (v_name v) (businessNames ctx) in
   let availableForThisBiz :=
     match bi with Some b => getZ (preferenceCapacity node) b | None => 0 end in
   let currentlyUsedForThisBiz :=
     match bi with Some b => getZ (businessCapacityArr node) b | None => 0 end in
   let wouldHaveStaffing := currentlyUsedForThisBiz + v_capacity v <=? availableForThisBiz in
   (0 <? newBusinessCapacity)
   && (Qltb (inject_Z currentHouseCapacity / inject_Z newBusinessCapacity)%Q MIN_STAFFING_RATIO
       || negb wouldHaveStaffing)).

(** [Math.max(0, Math.min(upper, x))]. *)
Definition clamp (upper x : Z) : Z := Z.max 0 (Z.min upper x).

(** The resource balances after placing [v]: only a storage variant
    changes them. *)
Definition newResources (ctx : Ctx) (key : Key) (v : Variant) : Resources :=
  let add (axis : ResourceCost -> option Z) :=
    if isStorageBuilding v then costAxis (axis (storageObject v)) else 0 in
  {| money := clamp (money (maxResourceUpper ctx)) (k_money key + add c_money);
     wood := clamp (wood (maxResourceUpper ctx)) (k_wood key + add c_wood);
     cement := clamp (cement (maxResourceUpper ctx)) (k_cement key + add c_cement);
     steel := clamp (steel (maxResourceUpper ctx)) (k_steel key + add c_steel) |}.

Definition willBeMask (ctx : Ctx) (v : Variant) : Z :=
  if String.eqb (v_type v) "misc" then
    match indexOf (v_name v) (miscNames ctx) with
    | Some idx => jsShl 1 (Z.of_nat idx)
    | None => 0
    end
  else 0.

(** [arr[i] = (arr[i] || 0) + d] on an array of length [nBusinesses]; every
    index the source uses is below that length. *)
Definition bump (arr : list Z) (i : nat) (d : Z) : list Z := <[ i := getZ arr i + d ]> arr.

(** The preference capacities after placing a house of capacity
    [houseCapacity]. *)
Definition addPreferences (ctx : Ctx) (v : Variant) (houseCapacity : Z) (pref : list Z) : list Z :=
  match v_prefers v with
  | Some (p :: ps) =>
      fold_left (fun acc prefBizName =>
                   match indexOf prefBizName (businessNames ctx) with
                   | Some bi => bump acc bi houseCapacity
                   | None => acc
                   end) (p :: ps) pref
  | _ => fold_left (fun acc bi => bump acc bi houseCapacity) (seq 0 (nBusinesses ctx)) pref
  end.

(** The aggregate sums of the successor; [prevKey], [prevW], [variantIndex]
    and [total] are filled in by [successor]. *)
Definition aggregatesNext (ctx : Ctx) (node : Node) (v : Variant) : Node :=
  match v_workerType v with
  | Some employees =>
      match indexOf (v_name v) (businessNames ctx) with
      | Some bi =>
          {| prevKey := prevKey node; prevW := prevW node; variantIndex := variantIndex node;
             incomeNeutral := incomeNeutral node;
             houseBaseIncome := houseBaseIncome node;
             totalHouseCapacity := totalHouseCapacity node;
             businessIncomeBaseArr := bump (businessIncomeBaseArr node) bi (v_income v);
             businessCapacityArr := bump (businessCapacityArr node) bi (v_capacity v);
             countsArr := bump (countsArr node) bi 1;
             totalStorage := totalStorage node;
             total := total node;
             preferenceCapacity := preferenceCapacity node |}
      | None => node
      end
  | Some residents =>
      {| prevKey := prevKey node; prevW := prevW node; variantIndex := variantIndex node;
         incomeNeutral := incomeNeutral node;
         houseBaseIncome := houseBaseIncome node + v_income v;
         totalHouseCapacity := totalHouseCapacity node + v_capacity v;
         businessIncomeBaseArr := businessIncomeBaseArr node;
         businessCapacityArr := businessCapacityArr node;
         countsArr := countsArr node;
         totalStorage := totalStorage node;
         total := total node;
         preferenceCapacity := addPreferences ctx v (v_capacity v) (preferenceCapacity node) |}
  | None =>
      {| prevKey := prevKey node; prevW := prevW node; variantIndex := variantIndex node;
         incomeNeutral := incomeNeutral node + v_income v;
         houseBaseIncome := houseBaseIncome node;
         totalHouseCapacity := totalHouseCapacity node;
         businessIncomeBaseArr := businessIncomeBaseArr node;
         businessCapacityArr := businessCapacityArr node;
         countsArr := countsArr node;
         totalStorage := totalStorage node;
         total := total node;
         preferenceCapacity := preferenceCapacity node |}
  end.

(** ** Heuristic estimator *)

Record Item := mkItem {
  incomePerWorker : Q;
  it_capacity : Z;
  it_count : Z;
  businessIndex : nat
}.

(** [Math.max(0, 1 - duplicatePenalty)] for [cnt] placed copies. *)
Definition penaltyMultiplier (cnt : Z) : Q :=
  let duplicatePenalty :=
    if DUPLICATE_PENALTY_THRESHOLD <? cnt
    then (DUPLICATE_PENALTY_RATE * inject_Z (cnt - DUPLICATE_PENALTY_THRESHOLD))%Q
    else 0%Q in
  qmax 0 (1 - duplicatePenalty)%Q.

Definition staffingItems (ctx : Ctx) (next : Node) : list Item :=
  flat_map (fun bi =>
              let totalIncomeBase := getZ (businessIncomeBaseArr next) bi in
              let totalCap := getZ (businessCapacityArr next) bi in
              let availableResidents := getZ (preferenceCapacity next) bi in
              let cnt := getZ (countsArr next) bi in
              let effectiveStaffing := Z.min totalCap availableResidents in
              let ipw := if 0 <? totalCap
                         then (inject_Z totalIncomeBase / inject_Z totalCap * penaltyMultiplier cnt)%Q
                         else 0%Q in
              if (0 <? totalCap) && (0 <? effectiveStaffing)
              then [mkItem ipw effectiveStaffing cnt bi] else [])
           (seq 0 (nBusinesses ctx)).

(** [items.sort((a, b) => b.incomePerWorker - a.incomePerWorker)]: stable,
    descending. *)
Fixpoint insertItem (it : Item) (l : list Item) : list Item :=
  match l with
  | [] => [it]
  | y :: l' =>
      if Qle_bool (incomePerWorker y) (incomePerWorker it) then it :: l
      else y :: insertItem it l'
  end.

Definition sortItems (l : list Item) : list Item := fold_right insertItem [] l.

(** The greedy allocation loop: [(usedCapacity, businessIncomeEst,
    totalAllocatedEst)]. *)
Definition allocateStep (next : Node) (st : list Z * Q * Z) (it : Item) : list Z * Q * Z :=
  let '(usedCapacity, businessIncomeEst, totalAllocatedEst) := st in
  let bi := businessIndex it in
  let availableForBiz := getZ (preferenceCapacity next) bi in
  let alreadyUsed := getZ usedCapacity bi in
  let canStillAllocate := Z.min (availableForBiz - alreadyUsed) (it_capacity it) in
  if 0 <? canStillAllocate
  then (bump usedCapacity bi canStillAllocate,
        (businessIncomeEst + inject_Z canStillAllocate * incomePerWorker it)%Q,
        totalAllocatedEst + canStillAllocate)
  else st.

(** [(totalEst, totalAllocatedEst)] for the aggregate sums [next] of a
    successor at size [nw]. *)
Definition estimate (ctx : Ctx) (next : Node) (nw : Z) : Z * Z :=
  let n := nBusinesses ctx in
  let '(usedCapacity, businessIncomeEst, totalAllocatedEst) :=
    fold_left (allocateStep next) (sortItems (staffingItems ctx next)) (replicate n 0, 0%Q, 0) in
  let totalUnstaffedCapacity :=
    fold_left (fun acc bi =>
                 acc + Z.max 0 (getZ (businessCapacityArr next) bi - getZ usedCapacity bi))
              (seq 0 n) 0 in
  let totalBusinessCapacity :=
    fold_left (fun acc bi => acc + getZ (businessCapacityArr next) bi) (seq 0 n) 0 in
  let totalBusinessIncome :=
    fold_left (fun acc bi => acc + getZ (businessIncomeBaseArr next) bi) (seq 0 n) 0 in
  let potentialAvgIncomePerWorker :=
    if 0 <? totalBusinessCapacity
    then (inject_Z totalBusinessIncome / inject_Z totalBusinessCapacity)%Q
    else 15%Q in
  let understaffingPenalty := (inject_Z totalUnstaffedCapacity * potentialAvgIncomePerWorker)%Q in
  let houseEfficiencyEst :=
    if 0 <? totalHouseCapacity next
    then (inject_Z totalAllocatedEst / inject_Z (totalHouseCapacity next))%Q
    else 1%Q in
  let scaledHouseIncomeEst := (inject_Z (houseBaseIncome next) * houseEfficiencyEst)%Q in
  let freeSpace := capacity ctx - nw in
  let spaceEfficiencyBonus := (inject_Z freeSpace * SPACE_EFFICIENCY_BONUS)%Q in
  let storagePenalty := STORAGE_PENALTY in
  (jsRound (businessIncomeEst + scaledHouseIncomeEst + inject_Z (incomeNeutral next)
            - understaffingPenalty + spaceEfficiencyBonus - storagePenalty)%Q,
   totalAllocatedEst).

(** One trip through the body of [for (let i ..)] up to the table access:
    [None] is a [continue]; otherwise the destination size, the successor's
    key and its node. *)
Definition successor (ctx : Ctx) (w : Z) (key : Key) (node : Node) (i : nat) (v : Variant)
  : option (Z * Key * Node) :=
  let nw := w + v_size v in
  if capacity ctx <? nw then None
  else if negb (isStorageBuilding v) && negb (affordable key v) then None
  else if staffingRejects ctx node v then None
  else
    let res := newResources ctx key v in
    let next := aggregatesNext ctx node v in
    let '(totalEst, totalAllocatedEst) := estimate ctx next nw in
    let maskNew := jsOr (k_mask key) (willBeMask ctx v) in
    let nr := Z.min (maxResidents ctx) (Z.max 0 (totalHouseCapacity next - totalAllocatedEst)) in
    Some (nw,
          {| k_r := nr; k_money := money res; k_wood := wood res; k_cement := cement res;
             k_steel := steel res; k_mask := maskNew; k_counts := countsArr next |},
          {| prevKey := Some key; prevW := w; variantIndex := Z.of_nat i;
             incomeNeutral := incomeNeutral next;
             houseBaseIncome := houseBaseIncome next;
             totalHouseCapacity := totalHouseCapacity next;
             businessIncomeBaseArr := businessIncomeBaseArr next;
             businessCapacityArr := businessCapacityArr next;
             countsArr := countsArr next;
             totalStorage := totalStorage next;
             total := totalEst;
             preferenceCapacity := preferenceCapacity next |}).

(** [updatedIndices.add(i)]. *)
Definition setAdd (i : nat) (s : list nat) : list nat :=
  if existsb (Nat.eqb i) s then s else s ++ [i].

(** The whole body of [for (let i ..)]: the table [dpMaps] and the set
    [updatedIndices] after it.  [dpMaps[nw]] is [undefined] for a negative
    [nw], and reading [.get] of it throws. *)
Definition transition (ctx : Ctx) (w : Z) (key : Key) (node : Node)
    (st : list Bucket * list nat) (iv : nat * Variant) : completion (list Bucket * list nat) :=
  match successor ctx w key node (fst iv) (snd iv) with
  | None => Normal st
  | Some (nw, newKey, newNode) =>
      if nw <? 0 then Throw TypeError
      else
        match fst st !! Z.to_nat nw with
        | None => Throw TypeError
        | Some bucket =>
            let better :=
              match mapGet bucket newKey with
              | None => true
              | Some existing => total existing <? total newNode
              end in
            if better
            then Normal (<[ Z.to_nat nw := mapSet bucket newKey newNode ]> (fst st),
                         setAdd (Z.to_nat nw) (snd st))
            else Normal st
        end
  end.

Definition indexed {A : Type} (l : list A) : list (nat * A) := combine (seq 0 (length l)) l.

(** The loop over the live states of [dpMaps[w]], before pruning.  No
    variant has size 0, so the bucket being read is not written. *)
Definition expandBucket (ctx : Ctx) (w : nat) (dpMaps : list Bucket)
  : completion (list Bucket * list nat) :=
  match dpMaps !! w with
  | None => Throw TypeError
  | Some map =>
      foldC (fun st e =>
               foldC (transition ctx (Z.of_nat w) (fst e) (snd e)) (indexed (variants ctx)) st)
            map (dpMaps, [])
  end.

(** ** Beam pruner *)

(** The sort key of [pruneMapToBeam]: the node's score, plus 1e9 for a key
    whose mask field is the required mask. *)
Definition pruneScore (ctx : Ctx) (e : Key * Node) : Z :=
  total (snd e)
  + (if negb (requiredMask ctx =? 0) && (k_mask (fst e) =? requiredMask ctx)
     then 1000000000 else 0).

(** [arr.sort((a, b) => bScore - aScore)]: stable, descending. *)
Fixpoint insertByScore (ctx : Ctx) (e : Key * Node) (l : list (Key * Node)) : list (Key * Node) :=
  match l with
  | [] => [e]
  | y :: l' =>
      if pruneScore ctx y <=? pruneScore ctx e then e :: l
      else y :: insertByScore ctx e l'
  end.

Definition sortByScore (ctx : Ctx) (l : list (Key * Node)) : list (Key * Node) :=
  fold_right (insertByScore ctx) [] l.

(** [arr.slice(0, n)]: a negative [n] counts from the end. *)
Definition sliceFromStart {A : Type} (l : list A) (n : Z) : list A :=
  if n <? 0 then firstn (Z.to_nat (Z.of_nat (length l) + n)) l
  else firstn (Z.to_nat n) l.

Definition pruneMapToBeam (ctx : Ctx) (m : Bucket) (beam : Z) : Bucket :=
  if Z.of_nat (length m) <=? beam then m
  else
    let toKeep := map fst (sliceFromStart (sortByScore ctx m) beam) in
    List.filter (fun e => existsb (key_eqb (fst e)) toKeep) m.

(** [for (const idx of updatedIndices) pruneMapToBeam(dpMaps[idx], BEAM_WIDTH)]. *)
Definition pruneUpdated (ctx : Ctx) (dpMaps : list Bucket) (updatedIndices : list nat) : list Bucket :=
  fold_left (fun dp idx =>
               match dp !! idx with
               | Some m => <[ idx := pruneMapToBeam ctx m (BEAM_WIDTH ctx) ]> dp
               | None => dp
               end) updatedIndices dpMaps.

(** ** The outer loop *)

(** One iteration of [for (let w = 0; w <= capacity; w++)]. *)
Definition dpPass (ctx : Ctx) (dpMaps : list Bucket) (w : nat) : completion (list Bucket) :=
  let* st := expandBucket ctx w dpMaps in
  Normal (pruneUpdated ctx (fst st) (snd st)).

(** [Array.from({ length: capacity + 1 }, () => new Map())] with the root
    state in bucket 0.  The source allocates the table only up to
    2^32 - 1 buckets; the list has no such limit. *)
Definition initialTable (ctx : Ctx) (baseResources : Resources) : list Bucket :=
  <[ 0%nat := [(initialKey ctx baseResources, initialNode ctx)] ]>
    (replicate (S (Z.to_nat (capacity ctx))) []).

(** The table at the end of the outer loop. *)
Definition runDP (ctx : Ctx) (baseResources : Resources) : completion (list Bucket) :=
  foldC (dpPass ctx) (seq 0 (S (Z.to_nat (capacity ctx)))) (initialTable ctx baseResources).

(** ** Selection *)

(** The six variables of the selection loop; [None] as a value is
    [Number.NEGATIVE_INFINITY]. *)
Record Best := mkBest {
  bestW : Z;
  bestKey : option Key;
  bestValue : option Z;
  bestWithAllW : Z;
  bestWithAllKey : option Key;
  bestWithAllValue : option Z
}.

Definition initialBest : Best := mkBest 0 None None (-1) None None.

(** [x > best]. *)
Definition exceeds (x : Z) (best : option Z) : bool :=
  match best with
  | None => true
  | Some b => b <? x
  end.

(** The body of the selection loop for the entry [e] of [dpMaps[w]].  The
    key is split at [":"] and the source reads [parts[1]] as the available
    capacity and [parts[2]] as the mask; in the seven-field key these are
    the money and the wood fields. *)
Definition selectStep (ctx : Ctx) (w : nat) (b : Best) (e : Key * Node) : Best :=
  let capAvail := k_money (fst e) in
  let maskVal := k_wood (fst e) in
  if capAvail <? 0 then b
  else
    let b1 :=
      if negb (requiredMask ctx =? 0) && (maskVal =? requiredMask ctx)
      then
        if exceeds (total (snd e)) (bestWithAllValue b)
        then mkBest (bestW b) (bestKey b) (bestValue b)
                    (Z.of_nat w) (Some (fst e)) (Some (total (snd e)))
        else b
      else b in
    if exceeds (total (snd e)) (bestValue b1)
    then mkBest (Z.of_nat w) (Some (fst e)) (Some (total (snd e)))
                (bestWithAllW b1) (bestWithAllKey b1) (bestWithAllValue b1)
    else b1.

Definition selectBest (ctx : Ctx) (dpMaps : list Bucket) : Best :=
  fold_left (fun b wm => fold_left (selectStep ctx (fst wm)) (snd wm) b)
            (indexed dpMaps) initialBest.

(** The state the back-walk starts from, or [None] for [return null]. *)
Definition chooseStart (ctx : Ctx) (b : Best) : option (Z * option Key) :=
  if negb (requiredMask ctx =? 0) then
    match bestWithAllKey b with
    | None => None
    | Some k => Some (bestWithAllW b, Some k)
    end
  else Some (bestW b, bestKey b).

(** ** Back-reconstruction *)

(** [while (curW > 0 && curKey) ..], pushing onto [chosenSequence].  The
    walk is deterministic over a fixed table, so once it has read more
    nodes than the table holds it is in a cycle and the loop of the source
    does not end: called with fuel above the number of nodes, [Diverge]
    stands for exactly that. *)
Fixpoint backtrack (ctx : Ctx) (dpMaps : list Bucket) (fuel : nat)
    (curW : Z) (curKey : option Key) (chosenSequence : list Variant)
  : completion (list Variant) :=
  match fuel with
  | O => Diverge
  | S fuel' =>
      match curKey with
      | None => Normal chosenSequence
      | Some key =>
          if curW <=? 0 then Normal chosenSequence
          else
            match dpMaps !! Z.to_nat curW with
            | None => Throw TypeError
            | Some m =>
                match mapGet m key with
                | None => Normal chosenSequence
                | Some node =>
                    let idx := variantIndex node in
                    if 0 <=? idx then
                      match variants ctx !! Z.to_nat idx with
                      | None => Throw TypeError
                      | Some v =>
                          backtrack ctx dpMaps fuel' (prevW node) (prevKey node)
                                    (chosenSequence ++ [v])
                      end
                    else backtrack ctx dpMaps fuel' (prevW node) (prevKey node) chosenSequence
                end
            end
      end
  end.

Definition walkFuel (dpMaps : list Bucket) : nat := S (length (concat dpMaps)).

(** ** Forward simulator *)

(** [prefers.slice().sort()]: ascending in the order of the strings. *)
Fixpoint insertString (s : string) (l : list string) : list string :=
  match l with
  | [] => [s]
  | y :: l' =>
      match String.compare s y with
      | Gt => y :: insertString s l'
      | _ => s :: l
      end
  end.

Definition sortStrings (l : list string) : list string := fold_right insertString [] l.

(** [l.join(",")]. *)
Fixpoint joinComma (l : list string) : string :=
  match l with
  | [] => EmptyString
  | [s] => s
  | s :: rest => String.append s (String "," (joinComma rest))
  end.

(** [s.split(",")]. *)
Fixpoint splitComma (s : string) : list string :=
  match s with
  | EmptyString => [EmptyString]
  | String c rest =>
      if Ascii.eqb c "," then EmptyString :: splitComma rest
      else
        match splitComma rest with
        | p :: ps => String c p :: ps
        | [] => [String c EmptyString]
        end
  end.

(** The pool a house's residents join. *)
Definition prefKeyOf (v : Variant) : string :=
  match v_prefers v with
  | Some (p :: ps) => joinComma (sortStrings (p :: ps))
  | _ => "*"%string
  end.

(** [residentPools]: a [Map<string, number>] in insertion order. *)
Abbreviation Pools := (list (string * Z)).

Definition poolGet (pools : Pools) (k : string) : Z :=
  match find (fun e => String.eqb (fst e) k) pools with
  | Some e => snd e
  | None => 0
  end.

Fixpoint poolSet (pools : Pools) (k : string) (n : Z) : Pools :=
  match pools with
  | [] => [(k, n)]
  | e :: rest => if String.eqb (fst e) k then (k, n) :: rest else e :: poolSet rest k n
  end.

(** The quantities of the first pass that the income depends on. *)
Record Inventory := mkInventory {
  inv_pools : Pools;
  inv_totalHouseCapacity : Z;
  inv_houseBaseIncome : Z;
  inv_neutralIncome : Z
}.

Definition inventoryStep (inv : Inventory) (v : Variant) : Inventory :=
  match v_workerType v with
  | Some residents =>
      {| inv_pools := poolSet (inv_pools inv) (prefKeyOf v)
                              (poolGet (inv_pools inv) (prefKeyOf v) + v_capacity v);
         inv_totalHouseCapacity := inv_totalHouseCapacity inv + v_capacity v;
         inv_houseBaseIncome := inv_houseBaseIncome inv + v_income v;
         inv_neutralIncome := inv_neutralIncome inv |}
  | Some employees => inv
  | None =>
      {| inv_pools := inv_pools inv;
         inv_totalHouseCapacity := inv_totalHouseCapacity inv;
         inv_houseBaseIncome := inv_houseBaseIncome inv;
         inv_neutralIncome := inv_neutralIncome inv + v_income v |}
  end.

(** The inner loop of the second pass over a snapshot [entries] of the
    pools: the workers drawn for one business of capacity [cap]. *)
Fixpoint drawWorkers (name : string) (cap : Z) (entries : Pools) (allocated : Z) (pools : Pools)
  : Z * Pools :=
  match entries with
  | [] => (allocated, pools)
  | (prefKey, available) :: rest =>
      if available <=? 0 then drawWorkers name cap rest allocated pools
      else if negb (String.eqb prefKey "*"
                    || existsb (String.eqb name) (splitComma prefKey))
      then drawWorkers name cap rest allocated pools
      else
        let needed := cap - allocated in
        let toAllocate := Z.min available needed in
        let allocated' := allocated + toAllocate in
        let pools' := poolSet pools prefKey (available - toAllocate) in
        if cap <=? allocated' then (allocated', pools')
        else drawWorkers name cap rest allocated' pools'
  end.

(** The second pass: [(residentPools, businessIncome, totalAllocatedEmployees)]. *)
Definition staffStep (seq : list Variant) (st : Pools * Q * Z) (v : Variant) : Pools * Q * Z :=
  let '(pools, businessIncome, totalAllocatedEmployees) := st in
  if isEmployees v then
    let cap := v_capacity v in
    let '(allocated, pools') := drawWorkers (v_name v) cap pools 0 pools in
    let efficiency := if 0 <? cap then (inject_Z allocated / inject_Z cap)%Q else 1%Q in
    let count :=
      Z.of_nat (length (List.filter (fun x => String.eqb (v_name x) (v_name v) && isEmployees x) seq)) in
    (pools',
     (businessIncome + inject_Z (v_income v) * efficiency * penaltyMultiplier count)%Q,
     totalAllocatedEmployees + allocated)
  else st.

(** [simulateSequence(seq).totalIncome].  The per-name capacity and
    allocation maps of the source feed only the efficiency report, which is
    not modelled. *)
Definition simulateSequence (seq : list Variant) : Z :=
  let inv := fold_left inventoryStep seq (mkInventory [] 0 0 0) in
  let '(_, businessIncome, totalAllocatedEmployees) :=
    fold_left (staffStep seq) seq (inv_pools inv, 0%Q, 0) in
  let houseEfficiency :=
    if 0 <? inv_totalHouseCapacity inv
    then (inject_Z totalAllocatedEmployees / inject_Z (inv_totalHouseCapacity inv))%Q
    else 1%Q in
  let scaledHouseIncome := (inject_Z (inv_houseBaseIncome inv) * houseEfficiency)%Q in
  jsRound (businessIncome + scaledHouseIncome + inject_Z (inv_neutralIncome inv))%Q.

(** ** Single-block result *)

(** One entry of [combination].  The source keys its count map by the
    string [`name:lvlN`] and splits it again at [":"]; for building names
    without a colon that is the pair of the name and the level. *)
Record CombinationItem := mkItemC {
  ci_name : string;
  ci_level : Z;
  ci_count : Z;
  ci_size : Z;
  ci_incomePerBuilding : Z;
  ci_capacity : Z;
  ci_storageCapacity : Storage;
  ci_workerType : option WorkerType;
  ci_type : option string;
  ci_totalIncome : Z;
  ci_totalSize : Z
}.

(** The result object, without [averageEfficiencyByType] and [debugInfo]. *)
Record BlockSolution := mkSolution {
  combination : list CombinationItem;
  totalIncome : Z;
  totalSize : Z;
  r_totalStorage : Z
}.

Definition sameNameLevel (name : string) (level : Z) (x : Variant) : bool :=
  String.eqb (v_name x) name && (v_level x =? level).

(** [finalCounts]: a [Map] in insertion order.  The source keys it by the
    string [`name:lvlN`]; kept here is the pair (name, level), which
    determines the string and, for a name without a colon, is what
    [key.split(":")] and [Number(lvlPart.replace("lvl", ""))] read back
    out of it. *)
Fixpoint countVariant (counts : list (string * Z * Z)) (name : string) (level : Z)
  : list (string * Z * Z) :=
  match counts with
  | [] => [(name, level, 1)]
  | (n, l, c) :: rest =>
      if String.eqb n name && (l =? level) then (n, l, c + 1) :: rest
      else (n, l, c) :: countVariant rest name level
  end.

Definition finalCounts (finalSeq : list Variant) : list (string * Z * Z) :=
  fold_left (fun counts v => countVariant counts (v_name v) (v_level v)) finalSeq [].

(** One row of [combinationFinal], for a key whose name holds no colon:
    the catalog data come from the first variant with that name and
    level. *)
Definition combinationRow (ctx : Ctx) (entry : string * Z * Z) : completion CombinationItem :=
  let '(name, level, count) := entry in
  match find (sameNameLevel name level) (variants ctx) with
  | None => Throw TypeError
  | Some variant =>
      Normal {| ci_name := name;
                ci_level := level;
                ci_count := count;
                ci_size := v_size variant;
                ci_incomePerBuilding := v_income variant;
                ci_capacity := v_capacity variant;
                ci_storageCapacity := v_storageCapacity variant;
                ci_workerType := v_workerType variant;
                ci_type := Some (v_type variant);
                ci_totalIncome := v_income variant * count;
                ci_totalSize := v_size variant * count |}
  end.

Fixpoint mapC {A B : Type} (f : A -> completion B) (l : list A) : completion (list B) :=
  match l with
  | [] => Normal []
  | a :: l' => let* b := f a in let* bs := mapC f l' in Normal (b :: bs)
  end.

(** Everything after the selection, for the start state [(w, key)]. *)
Definition reconstruct (ctx : Ctx) (dpMaps : list Bucket) (w : Z) (key : option Key)
  : completion BlockSolution :=
  let* chosenSequence := backtrack ctx dpMaps (walkFuel dpMaps) w key [] in
  let finalSeq := rev chosenSequence in
  let* combinationFinal := mapC (combinationRow ctx) (finalCounts finalSeq) in
  Normal {| combination := combinationFinal;
            totalIncome := simulateSequence finalSeq;
            totalSize := fold_left (fun s c => s + ci_totalSize c) combinationFinal 0;
            r_totalStorage := 0 |}.

(** [optimizeBlockIncomeFromDefinitions(defs, sizeLimit, opts)]:
    [Normal None] is [return null]. *)
Definition optimizeBlockIncomeFromDefinitions (defs : BuildingDefinitions) (sizeLimit : Z)
    (opts : Options) : completion (option BlockSolution) :=
  let ctx := makeCtx defs sizeLimit opts in
  let baseResources := nullish (startingResources opts) DEFAULT_BASE_RESOURCES in
  let* dpMaps := runDP ctx baseResources in
  match chooseStart ctx (selectBest ctx dpMaps) with
  | None => Normal None
  | Some (w, key) => let* r := reconstruct ctx dpMaps w key in Normal (Some r)
  end.

(** ** Object store

    [optimizeMultipleBlocks] receives a reference to the catalog object,
    copies it with [JSON.parse(JSON.stringify(defs))] and assigns to fields
    of the copy.  A store of catalog objects makes the references and the
    assignments explicit: a reference is an index of the store, a copy is a
    new cell, an assignment rewrites one cell. *)

Abbreviation Ref := nat.
Abbreviation Store := (list BuildingDefinitions).

Definition Eff (A : Type) : Type := Store -> completion A * Store.

Definition eret {A : Type} (a : A) : Eff A := fun h => (Normal a, h).

Definition ebind {A B : Type} (c : Eff A) (k : A -> Eff B) : Eff B :=
  fun h =>
    match c h with
    | (Normal a, h') => k a h'
    | (Throw e, h') => (Throw e, h')
    | (Diverge, h') => (Diverge, h')
    end.

Notation "'letE' x ':=' c 'in' k" := (ebind c (fun x => k))
  (at level 10, x pattern, c at level 100, k at level 200).

(** A pure call that may complete abruptly. *)
Definition liftC {A : Type} (c : completion A) : Eff A := fun h => (c, h).

(** Reading through a reference. *)
Definition deref (r : Ref) : Eff BuildingDefinitions :=
  fun h =>
    match h !! r with
    | Some d => (Normal d, h)
    | None => (Throw TypeError, h)
    end.

(** [JSON.parse(JSON.stringify(defs))]: a new object with the same
    contents (integers, booleans, strings, arrays and plain objects survive
    the round trip), sharing nothing with the original.  The single-block
    optimizer only reads the catalog it is given (it sorts copies of the
    upgrade and prefers arrays), so it stays a function of the catalog
    value. *)
Definition jsonClone (r : Ref) : Eff Ref :=
  fun h =>
    match h !! r with
    | Some d => (Normal (length h), h ++ [d])
    | None => (Throw TypeError, h)
    end.

(** Assignments to fields of the object behind [r]. *)
Definition assign (r : Ref) (f : BuildingDefinitions -> BuildingDefinitions) : Eff unit :=
  fun h =>
    match h !! r with
    | Some d => (Normal tt, <[ r := f d ]> h)
    | None => (Throw TypeError, h)
    end.

(** [building.mandatory = false; building.upgrades.forEach(up => up.mandatory = false)]. *)
Definition clearMandatory (building : BuildingDefinition) : BuildingDefinition :=
  {| d_baseIncome := d_baseIncome building;
     d_size := d_size building;
     d_employees := d_employees building;
     d_peopleCapacity := d_peopleCapacity building;
     d_storageCapacity := d_storageCapacity building;
     d_capacity := d_capacity building;
     d_mandatory := false;
     d_baseCost := d_baseCost building;
     d_prefers := d_prefers building;
     d_upgrades :=
       option_map (map (fun up =>
                          {| u_level := u_level up;
                             u_income := u_income up;
                             u_additionalIncome := u_additionalIncome up;
                             u_employees := u_employees up;
                             u_peopleCapacity := u_peopleCapacity up;
                             u_storageCapacity := u_storageCapacity up;
                             u_capacity := u_capacity up;
                             u_mandatory := false;
                             u_cost := u_cost up;
                             u_prefers := u_prefers up |}))
                  (d_upgrades building) |}.

Definition clearGroup (group : list (string * BuildingDefinition)) : list (string * BuildingDefinition) :=
  map (fun nb => (fst nb, clearMandatory (snd nb))) group.

(** [obj.misc]: the property named "misc", if there is one. *)
Fixpoint miscGroup (types : list (string * list (string * BuildingDefinition)))
  : option (list (string * BuildingDefinition)) :=
  match types with
  | [] => None
  | (typeName, group) :: rest =>
      if String.eqb typeName "misc" then Some group else miscGroup rest
  end.

(** The stripping of the last block: through the property
    [modifiedDefs.buildingTypes.misc]. *)
Fixpoint stripMiscProperty (types : list (string * list (string * BuildingDefinition)))
  : list (string * list (string * BuildingDefinition)) :=
  match types with
  | [] => []
  | (typeName, group) :: rest =>
      if String.eqb typeName "misc" then (typeName, clearGroup group) :: rest
      else (typeName, group) :: stripMiscProperty rest
  end.

(** The stripping of the other blocks: [for (const typeName in ..)] with
    the test [typeName === "misc"] inside. *)
Definition stripMiscTypes (types : list (string * list (string * BuildingDefinition)))
  : list (string * list (string * BuildingDefinition)) :=
  map (fun tg => if String.eqb (fst tg) "misc" then (fst tg, clearGroup (snd tg)) else tg) types.

(** ** Multi-block driver *)

Record DriverOptions := mkDriverOpts {
  drv_debug : bool;
  drv_beamWidth : option Z
}.

Record BlockResult := mkBlock {
  blockNumber : Z;
  b_combination : list CombinationItem;
  b_totalIncome : Z;
  b_totalSize : Z;
  blockStorage : Resources
}.

Record MultiBlockResult := mkMulti {
  blocks : list BlockResult;
  aggregateTotalIncome : Z;
  aggregateTotalStorage : Resources;
  mb_baseStorage : Resources
}.

Definition zeroResources : Resources := mkRes 0 0 0 0.

Definition addResources (a b : Resources) : Resources :=
  {| money := money a + money b;
     wood := wood a + wood b;
     cement := cement a + cement b;
     steel := steel a + steel b |}.

(** What one combination item adds to [blockStorageContribution]. *)
Definition itemStorage (item : CombinationItem) : Resources :=
  match ci_storageCapacity item with
  | StoObj sc =>
      {| money := costAxis (c_money sc) * ci_count item;
         wood := costAxis (c_wood sc) * ci_count item;
         cement := costAxis (c_cement sc) * ci_count item;
         steel := costAxis (c_steel sc) * ci_count item |}
  | StoNum _ => zeroResources
  end.

(** [blockStorageContribution] after the loop over the combination. *)
Definition storageContribution (comb : list CombinationItem) : Resources :=
  fold_left (fun acc item => addResources acc (itemStorage item)) comb zeroResources.

(** [mandatoryMiscBuildings]: for each misc building flagged mandatory at
    its base or at an upgrade, its mandatory variant of highest level. *)
Definition reserveMandatory (defs : BuildingDefinitions) : list Variant :=
  match miscGroup (buildingTypes defs) with
  | None => []
  | Some misc =>
      flat_map (fun nb : string * BuildingDefinition =>
                  let buildingName := fst nb in
                  let building := snd nb in
                  let isMandatory :=
                    d_mandatory building
                    || existsb u_mandatory (nullish (d_upgrades building) []) in
                  if isMandatory then
                    match List.filter (fun v => String.eqb (v_name v) buildingName && v_mandatory v)
                                      (buildVariantsFromDefinitions defs) with
                    | [] => []
                    | first :: others =>
                        [fold_left (fun best curr =>
                                      if v_level best <? v_level curr then curr else best)
                                   others first]
                    end
                  else [])
               misc
  end.

(** The item injected into the last block for a reserved variant. *)
Definition mandatoryItem (variant : Variant) : CombinationItem :=
  {| ci_name := v_name variant;
     ci_level := v_level variant;
     ci_count := 1;
     ci_size := v_size variant;
     ci_incomePerBuilding := v_income variant;
     ci_capacity := v_capacity variant;
     ci_storageCapacity := v_storageCapacity variant;
     ci_workerType := v_workerType variant;
     ci_type := Some (v_type variant);
     ci_totalIncome := v_income variant;
     ci_totalSize := v_size variant |}.

(** The accumulators of the block loop. *)
Record DriverState := mkDriverState {
  blockResults : list BlockResult;
  aggregateIncome : Z;
  aggregateStorageFromBuildings : Resources
}.

(** One iteration of the block loop; [None] is the [return null] of a
    failed block. *)
Definition solveBlock (defs : Ref) (numBlocks sizeLimit : Z) (opts : DriverOptions)
    (mandatoryMiscBuildings : list Variant) (st : DriverState) (blockIdx : nat)
  : Eff (option DriverState) :=
  let baseResources := DEFAULT_BASE_RESOURCES in
  let reservedSize := fold_left (fun s v => s + v_size v) mandatoryMiscBuildings 0 in
  let reservedIncome := fold_left (fun s v => s + v_income v) mandatoryMiscBuildings 0 in
  let blockNum := Z.of_nat blockIdx + 1 in
  let cumulativeStorage := addResources baseResources (aggregateStorageFromBuildings st) in
  let isLastBlock := Z.of_nat blockIdx =? numBlocks - 1 in
  let effectiveSizeLimit := if isLastBlock then sizeLimit - reservedSize else sizeLimit in
  letE modifiedDefs := jsonClone defs in
  letE _ := assign modifiedDefs
              (fun d => mkDefs (if isLastBlock then stripMiscProperty (buildingTypes d)
                                else stripMiscTypes (buildingTypes d))) in
  letE stripped := deref modifiedDefs in
  letE blockResult :=
    liftC (optimizeBlockIncomeFromDefinitions stripped effectiveSizeLimit
             (mkOpts (drv_debug opts) (drv_beamWidth opts) (Some cumulativeStorage))) in
  match blockResult with
  | None => eret None
  | Some result =>
      let inject := isLastBlock && (0 <? length mandatoryMiscBuildings)%nat in
      let comb :=
        if inject then combination result ++ map mandatoryItem mandatoryMiscBuildings
        else combination result in
      let income := if inject then totalIncome result + reservedIncome else totalIncome result in
      let size := if inject then totalSize result + reservedSize else totalSize result in
      let blockStorageContribution := storageContribution comb in
      eret (Some {| blockResults :=
                      blockResults st
                      ++ [mkBlock blockNum comb income size blockStorageContribution];
                    aggregateIncome := aggregateIncome st + income;
                    aggregateStorageFromBuildings :=
                      addResources (aggregateStorageFromBuildings st) blockStorageContribution |})
  end.

(** [for (let blockIdx = 0; blockIdx < numBlocks; blockIdx++)]. *)
Fixpoint blockLoop (defs : Ref) (numBlocks sizeLimit : Z) (opts : DriverOptions)
    (mandatoryMiscBuildings : list Variant) (indices : list nat) (st : DriverState)
  : Eff (option DriverState) :=
  match indices with
  | [] => eret (Some st)
  | blockIdx :: rest =>
      letE r := solveBlock defs numBlocks sizeLimit opts mandatoryMiscBuildings st blockIdx in
      match r with
      | None => eret None
      | Some st' => blockLoop defs numBlocks sizeLimit opts mandatoryMiscBuildings rest st'
      end
  end.

(** [optimizeMultipleBlocks(defs, numBlocks, sizeLimit, opts)]. *)
Definition optimizeMultipleBlocks (defs : Ref) (numBlocks sizeLimit : Z) (opts : DriverOptions)
  : Eff (option MultiBlockResult) :=
  if numBlocks <? 1 then liftC (Throw BlockCountError)
  else
    let baseResources := DEFAULT_BASE_RESOURCES in
    if numBlocks =? 1 then
      letE d := deref defs in
      letE result :=
        liftC (optimizeBlockIncomeFromDefinitions d sizeLimit
                 (mkOpts (drv_debug opts) (drv_beamWidth opts) None)) in
      match result with
      | None => eret None
      | Some result =>
          let blockStorageContribution := storageContribution (combination result) in
          eret (Some {| blocks := [mkBlock 1 (combination result) (totalIncome result)
                                           (totalSize result) blockStorageContribution];
                        aggregateTotalIncome := totalIncome result;
                        aggregateTotalStorage := addResources baseResources blockStorageContribution;
                        mb_baseStorage := baseResources |})
      end
    else
      letE d := deref defs in
      let mandatoryMiscBuildings := reserveMandatory d in
      letE r := blockLoop defs numBlocks sizeLimit opts mandatoryMiscBuildings
                  (seq 0 (Z.to_nat numBlocks)) (mkDriverState [] 0 zeroResources) in
      match r with
      | None => eret None
      | Some st =>
          eret (Some {| blocks := blockResults st;
                        aggregateTotalIncome := aggregateIncome st;
                        aggregateTotalStorage :=
                          addResources baseResources (aggregateStorageFromBuildings st);
                        mb_baseStorage := baseResources |})
      end.

(** A call on a catalog value: the store holds just that catalog, at
    reference 0. *)
Definition runDriver (defs : BuildingDefinitions) (numBlocks sizeLimit : Z) (opts : DriverOptions)
  : completion (option MultiBlockResult) :=
  fst (optimizeMultipleBlocks 0%nat numBlocks sizeLimit opts [defs]).

(** ** Quantities the specification talks about *)

(** The size a combination occupies: the sum of size times count. *)
Definition combinationSize (comb : list CombinationItem) : Z :=
  fold_right (fun item acc => ci_size item * ci_count item + acc) 0 comb.

(** The mandatory misc names of a catalog, as the optimizer collects them. *)
Definition mandatoryMiscNames (defs : BuildingDefinitions) : list string :=
  miscNames (makeCtx defs 0 defaultOptions).

(** Some definition of the catalog has a negative size or a negative base
    income. *)
Definition hasNegativeDefinition (defs : BuildingDefinitions) : bool :=
  existsb (fun tg : string * list (string * BuildingDefinition) =>
             existsb (fun bd : string * BuildingDefinition =>
                        (nullish (d_size (snd bd)) 0 <? 0)
                        || (nullish (d_baseIncome (snd bd)) 0 <? 0))
                     (snd tg))
          (buildingTypes defs).

(** The sum of [additionalIncome] (0 when absent) over a list of upgrades. *)
Definition sumAdditional (ups : list BuildingUpgrade) : Z :=
  fold_right (fun up acc => orElse (u_additionalIncome up) 0 + acc) 0 ups.

(** The closed form of the documentation for a level without an absolute
    income: the base income plus every [additionalIncome] up to level [L]. *)
Definition incrementalIncome (def : BuildingDefinition) (L : Z) : Z :=
  orElse (d_baseIncome def) 0
  + sumAdditional (List.filter (fun up => u_level up <=? L) (nullish (d_upgrades def) [])).

(** The position of the first occurrence of [name] in [names]. *)
Fixpoint positionOf (name : string) (names : list string) : option nat :=
  match names with
  | [] => None
  | n :: rest =>
      if String.eqb n name then Some 0%nat
      else option_map S (positionOf name rest)
  end.

(** The entry of a per-business array of the state for the business called
    [name]: the arrays [businessCapacityArr], [preferenceCapacity] and the
    like have one entry per business, in the order of [businessNames].  A
    name that is no business has no entry, which counts as 0. *)
Definition byBusiness (ctx : Ctx) (arr : list Z) (name : string) : Z :=
  match positionOf name (businessNames ctx) with
  | Some bi => getZ arr bi
  | None => 0
  end.

(** The size a placement sequence occupies. *)
Definition sequenceSize (seq : list Variant) : Z :=
  fold_right (fun v acc => v_size v + acc) 0 seq.

(** The back pointer of a node stored in bucket [w]: the root carries
    (-1, -1); any other node names the variant that was placed and the
    bucket it was placed from, [w] minus the size of that variant. *)
Definition pointerOk (ctx : Ctx) (w : nat) (node : Node) : Prop :=
  (variantIndex node = -1 /\ prevW node = -1)
  \/ exists i v,
       variantIndex node = Z.of_nat i
       /\ variants ctx !! i = Some v
       /\ 0 <= prevW node
       /\ prevW node = Z.of_nat w - v_size v.

Definition pointersOk (ctx : Ctx) (T : list Bucket) : Prop :=
  forall w bucket e, T !! w = Some bucket -> In e bucket -> pointerOk ctx w (snd e).





(** The capacities a state has accumulated are not negative. *)
Definition nonNegativeNode (node : Node) : Prop :=
  0 <= totalHouseCapacity node
  /\ Forall (fun c => 0 <= c) (businessCapacityArr node)
  /\ Forall (fun c => 0 <= c) (preferenceCapacity node).

Definition nonNegativeBucket (m : Bucket) : Prop :=
  Forall (fun e : Key * Node => nonNegativeNode (snd e)) m.

(** The ranking of the pruner in the words of the specification: the score,
    plus 10^9 when a mask is required and the state carries it. *)
Definition beamRank (required : Z) (e : Key * Node) : Z :=
  total (snd e)
  + (if (0 <? required) && (k_mask (fst e) =? required) then 10 ^ 9 else 0).

(** The keys of a bucket are pairwise different, as in any [Map]. *)
Definition keysDistinct (m : Bucket) : Prop := List.NoDup (map fst m).

(** What one pass has done to the table [T0] it started from, before
    pruning: the table has kept its length, the keys of every bucket are
    distinct, and a bucket outside [updatedIndices] is as it was. *)
Definition passInvariant (T0 : list Bucket) (st : list Bucket * list nat) : Prop :=
  length (fst st) = length T0
  /\ Forall keysDistinct (fst st)
  /\ forall idx, ~ In idx (snd st) -> fst st !! idx = T0 !! idx.

(** A bucket with distinct keys and at most [BEAM_WIDTH] entries. *)
Definition withinBeam (ctx : Ctx) (b : Bucket) : Prop :=
  keysDistinct b /\ Z.of_nat (length b) <= BEAM_WIDTH ctx.

(** Every object of the store [h] is still there, unchanged, in [h']. *)
Definition preserved (h h' : Store) : Prop :=
  forall (r : Ref) (d : BuildingDefinitions), h !! r = Some d -> h' !! r = Some d.

(** The storage one combination contributes on an axis: over its items
    with an object-shaped [storageCapacity], the axis entry times the count. *)
Definition storageOnAxis (axis : ResourceCost -> option Z) (comb : list CombinationItem) : Z :=
  fold_right (fun item acc =>
                match ci_storageCapacity item with
                | StoObj sc => costAxis (axis sc) * ci_count item
                | StoNum _ => 0
                end + acc) 0 comb.

(** The same, summed over the blocks of a result. *)
Definition blocksOnAxis (axis : ResourceCost -> option Z) (bs : list BlockResult) : Z :=
  fold_right (fun b acc => storageOnAxis axis (b_combination b) + acc) 0 bs.

(** The accumulated storage of the block loop is the sum over the blocks
    recorded so far. *)
Definition storageTallies (st : DriverState) : Prop :=
  money (aggregateStorageFromBuildings st) = blocksOnAxis c_money (blockResults st)
  /\ wood (aggregateStorageFromBuildings st) = blocksOnAxis c_wood (blockResults st)
  /\ cement (aggregateStorageFromBuildings st) = blocksOnAxis c_cement (blockResults st)
  /\ steel (aggregateStorageFromBuildings st) = blocksOnAxis c_steel (blockResults st).

(** ** Catalogs used as concrete inputs *)

Definition emptyDefinition : BuildingDefinition :=
  mkDef None None None None None None false None None None.

(** [{ misc: { M1: { mandatory: true } } }]. *)
Definition oneMandatoryCatalog : BuildingDefinitions :=
  mkDefs [("misc"%string,
           [("M1"%string, mkDef None None None None None None true None None None)])].

(** [{ misc: { M1: { mandatory: true, baseIncome: 5 } } }]. *)
Definition payingMandatoryCatalog : BuildingDefinitions :=
  mkDefs [("misc"%string,
           [("M1"%string, mkDef (Some 5) None None None None None true None None None)])].

(** [{ misc: { M1: { mandatory: true, size: 2 }, M2: { mandatory: true, size: 2 } } }]. *)
Definition twoMandatoryCatalog : BuildingDefinitions :=
  mkDefs [("misc"%string,
           [("M1"%string, mkDef None (Some 2) None None None None true None None None);
            ("M2"%string, mkDef None (Some 2) None None None None true None None None)])].

(** [{ shops: { Stall: { baseIncome: -5 } } }]. *)
Definition negativeIncomeCatalog : BuildingDefinitions :=
  mkDefs [("shops"%string,
           [("Stall"%string, mkDef (Some (-5)) None None None None None false None None None)])].

Definition plainUpgrade (level : Z) (income additionalIncome : option Z) : BuildingUpgrade :=
  mkUpgrade level income additionalIncome None None None None false None None.

(** [{ baseIncome: 10, upgrades: [{ level: 3, additionalIncome: 5 },
     { level: 2, income: 50 }] }]. *)
Definition mixedUpgradeDefinition : BuildingDefinition :=
  mkDef (Some 10) None None None None None false None None
        (Some [plainUpgrade 3 None (Some 5); plainUpgrade 2 (Some 50) None]).

(** [{ halls: { Depot: { size: 3 } }, stands: { Depot: { baseIncome: 5 } } }]:
    one building name under two types. *)
Definition sharedNameCatalog : BuildingDefinitions :=
  mkDefs [("halls"%string,
           [("Depot"%string, mkDef None (Some 3) None None None None false None None None)]);
          ("stands"%string,
           [("Depot"%string, mkDef (Some 5) None None None None None false None None None)])].

(** [{ storage: { Vault: { baseIncome: 3, storageCapacity: { money: 500 } } } }]. *)
Definition vaultCatalog : BuildingDefinitions :=
  mkDefs [("storage"%string,
           [("Vault"%string,
             mkDef (Some 3) None None None
                   (Some (StoObj (mkCost (Some 500) None None None)))
                   None false None None None)])].

(** [{ houses: { Hut: { peopleCapacity: 2 }, Lodge: { peopleCapacity: 3 } } }]. *)
Definition twoHousesCatalog : BuildingDefinitions :=
  mkDefs [("houses"%string,
           [("Hut"%string, mkDef None None None (Some 2) None None false None None None);
            ("Lodge"%string, mkDef None None None (Some 3) None None false None None None)])].

(** [{ peopleCapacity: 10 }]: a house for ten residents, without a
    preference. *)
Definition hutDefinition : BuildingDefinition :=
  mkDef None None None (Some 10) None None false None None None.

(** [{ baseIncome: 50, employees: 2 }]: a business with two jobs. *)
Definition shopDefinition : BuildingDefinition :=
  mkDef (Some 50) None (Some 2) None None None false None None None.

(** The catalog [JSON.parse] gives for
    [{"houses": {"Hut": {"peopleCapacity": 10}},
      "shops": {"__proto__": {"baseIncome": 50, "employees": 2}}}]:
    the business is an own property called [__proto__]. *)
Definition protoShopCatalog : BuildingDefinitions :=
  mkDefs [("houses"%string, [("Hut"%string, hutDefinition)]);
          ("shops"%string, [("__proto__"%string, shopDefinition)])].

(** The same catalog with the business called [Mill]. *)
Definition millShopCatalog : BuildingDefinitions :=
  mkDefs [("houses"%string, [("Hut"%string, hutDefinition)]);
          ("shops"%string, [("Mill"%string, shopDefinition)])].

(** [{ beamWidth: 1 }]. *)
Definition narrowBeamOptions : Options := mkOpts false (Some 1) None.

(** [startingResources: { money: 1000, wood: 1, cement: 100, steel: 100 }]. *)
Definition oneWoodOptions : Options := mkOpts false None (Some (mkRes 1000 1 100 100)).

Definition plainDriverOptions : DriverOptions := mkDriverOpts false None.

Definition emptySolution : BlockSolution := mkSolution [] 0 0 0.

(** * Definitions for the properties of the code

    What the table, the result and the driver stand for, and the parts of
    the repository that the specification does not mention. *)

(** ** Catalogs without negative sizes *)

(** No building definition of the catalog has a negative [size]. *)
Definition sizesNotNegative (defs : BuildingDefinitions) : bool :=
  forallb (fun tg : string * list (string * BuildingDefinition) =>
             forallb (fun bd : string * BuildingDefinition => 0 <=? nullish (d_size (snd bd)) 0)
                     (snd tg))
          (buildingTypes defs).

(** ** Names without a colon, and size limits

    The source keys the rows of a combination by the string
    [`name:lvlN`] and splits that string again at [":"].  For a building
    name without a colon the two parts are the name and the level, which
    is what [finalCounts] and [combinationRow] keep; for a name with a
    colon the source reads another name and level out of the key, and
    throws a [TypeError] when the catalog has no such variant.  The
    properties of the rows are therefore stated for names without a
    colon. *)

(** The string holds a colon. *)
Fixpoint hasColon (s : string) : bool :=
  match s with
  | EmptyString => false
  | String c rest => Ascii.eqb c ":" || hasColon rest
  end.

(** No building of the catalog has a colon in its name. *)
Definition namesWithoutColon (defs : BuildingDefinitions) : bool :=
  forallb (fun tg : string * list (string * BuildingDefinition) =>
             forallb (fun bd : string * BuildingDefinition => negb (hasColon (fst bd)))
                     (snd tg))
          (buildingTypes defs).

(** [Array.from({ length: capacity + 1 }, ..)] throws a [RangeError] for
    a length above 2^32 - 1.  The table of the embedding is a list, so
    the properties that say what a call returns or throws are stated for
    the size limits below [MAX_TABLE_LIMIT], for which the source
    allocates its table. *)
Definition MAX_TABLE_LIMIT : Z := 2 ^ 32 - 1.

(** ** Build orders

    What the table of the optimizer stands for: every stored state is a
    sequence of placements, each one a trip through the transition loop. *)

(** The state [e] of bucket [w] is what the transition loop makes of a
    state [(pk, pn)] stored in bucket [p] and a variant of the catalog. *)
Definition derivedFrom (ctx : Ctx) (T : list Bucket) (w : nat) (e : Key * Node) : Prop :=
  exists (i : nat) (v : Variant) (p : nat) (bucket : Bucket) (pk : Key) (pn : Node),
    variants ctx !! i = Some v
    /\ T !! p = Some bucket
    /\ mapGet bucket pk = Some pn
    /\ successor ctx (Z.of_nat p) pk pn i v = Some (Z.of_nat w, fst e, snd e).

(** Every state of the table is the root state in bucket 0 or is derived
    from a state that the table still holds. *)
Definition explained (ctx : Ctx) (res : Resources) (T : list Bucket) : Prop :=
  forall w bucket e,
    T !! w = Some bucket -> In e bucket ->
    (w = 0%nat /\ e = (initialKey ctx res, initialNode ctx)) \/ derivedFrom ctx T w e.

(** The state of one pass of the outer loop, between two transitions: the
    buckets up to [w] are those the pass started with, only later buckets
    are marked as updated, and every state is explained by a parent in a
    bucket up to [w]. *)
Definition passExplained (ctx : Ctx) (res : Resources) (w : nat) (T0 : list Bucket)
    (st : list Bucket * list nat) : Prop :=
  passInvariant T0 st
  /\ (forall idx, In idx (snd st) -> (w < idx)%nat)
  /\ forall j bucket e,
       fst st !! j = Some bucket -> In e bucket ->
       (j = 0%nat /\ e = (initialKey ctx res, initialNode ctx))
       \/ (derivedFrom ctx (fst st) j e /\ prevW (snd e) <= Z.of_nat w).

(** The table before pass [w] of the outer loop: the keys of every bucket
    are distinct and every state is explained by a parent in a bucket
    below [w]. *)
Definition tableExplained (ctx : Ctx) (res : Resources) (w : nat) (T : list Bucket) : Prop :=
  Forall keysDistinct T
  /\ forall j bucket e,
       T !! j = Some bucket -> In e bucket ->
       (j = 0%nat /\ e = (initialKey ctx res, initialNode ctx))
       \/ (derivedFrom ctx T j e /\ prevW (snd e) < Z.of_nat w).

(** [placement ctx res w key node seq]: placing the variants of [seq] one
    after the other, starting from the root state, passes the filters of
    the transition loop at every step and ends in the state [(key, node)]
    of bucket [w]. *)
Inductive placement (ctx : Ctx) (res : Resources) : nat -> Key -> Node -> list Variant -> Prop :=
| placement_root :
    placement ctx res 0 (initialKey ctx res) (initialNode ctx) []
| placement_step w key node seq i v nw key' node' :
    placement ctx res w key node seq ->
    variants ctx !! i = Some v ->
    successor ctx (Z.of_nat w) key node i v = Some (Z.of_nat nw, key', node') ->
    placement ctx res nw key' node' (seq ++ [v]).

(** [storedPlacement ctx res T w key node seq]: a placement all of whose
    earlier states are still stored in the table [T], each under its key
    in the bucket of its size, the root state in bucket 0: the chain of
    parents that the back-walk follows from [(key, node)] is intact. *)
Inductive storedPlacement (ctx : Ctx) (res : Resources) (T : list Bucket)
  : nat -> Key -> Node -> list Variant -> Prop :=
| stored_root bucket :
    T !! 0%nat = Some bucket ->
    mapGet bucket (initialKey ctx res) = Some (initialNode ctx) ->
    storedPlacement ctx res T 0 (initialKey ctx res) (initialNode ctx) []
| stored_step w bucket key node seq i v nw key' node' :
    storedPlacement ctx res T w key node seq ->
    T !! w = Some bucket ->
    mapGet bucket key = Some node ->
    variants ctx !! i = Some v ->
    successor ctx (Z.of_nat w) key node i v = Some (Z.of_nat nw, key', node') ->
    prevW node' = Z.of_nat w ->
    prevKey node' = Some key ->
    storedPlacement ctx res T nw key' node' (seq ++ [v]).

(** ** What the selection loop computes *)

(** The states of a table with the index of their bucket, in the order in
    which the selection loop visits them. *)
Definition entriesOf (T : list Bucket) : list (nat * (Key * Node)) :=
  flat_map (fun wm : nat * Bucket => map (fun e => (fst wm, e)) (snd wm)) (indexed T).

(** The test a state passes to compete for [bestKey]: the key field the
    loop reads as the available capacity is not negative. *)
Definition competes (k : Key) : bool := 0 <=? k_money k.

(** The test a state passes to compete for [bestWithAllKey]. *)
Definition competesWithAll (ctx : Ctx) (k : Key) : bool :=
  (0 <=? k_money k) && negb (requiredMask ctx =? 0) && (k_wood k =? requiredMask ctx).

(** [(bw, bk, bv)] is the leader among the states of [seen] that pass
    [cond]: none passes and the three variables are as initialised (with
    [w0] for the bucket), or they name a passing state whose score no
    passing state exceeds. *)
Definition leadsAmong (cond : Key -> bool) (seen : list (nat * (Key * Node)))
    (bw : Z) (bk : option Key) (bv : option Z) (w0 : Z) : Prop :=
  match bk with
  | None =>
      bv = None /\ bw = w0 /\ forall we, In we seen -> cond (fst (snd we)) = false
  | Some k =>
      exists (w : nat) (node : Node),
        In (w, (k, node)) seen /\ bw = Z.of_nat w /\ bv = Some (total node)
        /\ cond k = true
        /\ forall we, In we seen -> cond (fst (snd we)) = true ->
             total (snd (snd we)) <= total node
  end.

Definition selected (ctx : Ctx) (seen : list (nat * (Key * Node))) (b : Best) : Prop :=
  leadsAmong competes seen (bestW b) (bestKey b) (bestValue b) 0
  /\ leadsAmong (competesWithAll ctx) seen
       (bestWithAllW b) (bestWithAllKey b) (bestWithAllValue b) (-1).

(** ** What a state records about its build order *)

(** The sum of [f] over the variants of [seq] that pass [p]. *)
Definition sumWhere (p : Variant -> bool) (f : Variant -> Z) (seq : list Variant) : Z :=
  fold_right (fun v acc => (if p v then f v else 0) + acc) 0 seq.

(** A variant without workers. *)
Definition isNeutral (v : Variant) : bool :=
  match v_workerType v with None => true | Some _ => false end.

(** [businessIndex[name]] is the number [bi]. *)
Definition namesBusiness (ctx : Ctx) (bi : nat) (name : string) : bool :=
  match indexOf name (businessNames ctx) with
  | Some b => Nat.eqb b bi
  | None => false
  end.

(** An employees variant of the business of index [bi]. *)
Definition placedAt (ctx : Ctx) (bi : nat) (v : Variant) : bool :=
  isEmployees v && namesBusiness ctx bi (v_name v).

(** How often the residents of the house [v] count towards the business
    of index [bi]: once for every entry of [prefers] that names it, and
    once when the house has no preferences. *)
Definition prefersCount (ctx : Ctx) (bi : nat) (v : Variant) : Z :=
  match v_prefers v with
  | Some (p :: ps) => Z.of_nat (length (List.filter (namesBusiness ctx bi) (p :: ps)))
  | _ => 1
  end.

(** What the key and the node of a state say about a sequence of
    placements: the bucket is the size of the sequence, the mask collects
    the bits of its misc variants, the sums of the node are the sums over
    its neutral variants, its houses and, business by business, its
    employees variants. *)
Definition records (ctx : Ctx) (w : nat) (key : Key) (node : Node) (seq : list Variant) : Prop :=
  sequenceSize seq = Z.of_nat w
  /\ k_mask key = fold_left (fun m v => jsOr m (willBeMask ctx v)) seq 0
  /\ k_counts key = countsArr node
  /\ incomeNeutral node = sumWhere isNeutral v_income seq
  /\ houseBaseIncome node = sumWhere isResidents v_income seq
  /\ totalHouseCapacity node = sumWhere isResidents v_capacity seq
  /\ (length (countsArr node) = nBusinesses ctx
      /\ length (businessCapacityArr node) = nBusinesses ctx
      /\ length (businessIncomeBaseArr node) = nBusinesses ctx
      /\ length (preferenceCapacity node) = nBusinesses ctx)
  /\ forall bi, (bi < nBusinesses ctx)%nat ->
       getZ (countsArr node) bi = sumWhere (placedAt ctx bi) (fun _ => 1) seq
       /\ getZ (businessCapacityArr node) bi = sumWhere (placedAt ctx bi) v_capacity seq
       /\ getZ (businessIncomeBaseArr node) bi = sumWhere (placedAt ctx bi) v_income seq
       /\ getZ (preferenceCapacity node) bi
          = sumWhere isResidents (fun v => v_capacity v * prefersCount ctx bi v) seq.

(** ** The mask of a build order *)

(** The mask field of the state a build order leads to. *)
Definition maskOf (ctx : Ctx) (seq : list Variant) : Z :=
  fold_left (fun m v => jsOr m (willBeMask ctx v)) seq 0.

(** The sequence holds a variant of type misc called [name]. *)
Definition placesMisc (name : string) (seq : list Variant) : Prop :=
  exists v, In v seq /\ v_type v = "misc"%string /\ v_name v = name.

(** The bit a variant contributes, as an index into the misc names. *)
Definition miscBit (ctx : Ctx) (v : Variant) : option nat :=
  if String.eqb (v_type v) "misc" then indexOf (v_name v) (miscNames ctx) else None.

(** A catalog with 32 mandatory misc buildings, called A, B, ... *)
Definition thirtyTwoNames : list string :=
  ["A"; "B"; "C"; "D"; "E"; "F"; "G"; "H"; "I"; "J"; "K"; "L"; "M"; "N"; "O"; "P";
   "Q"; "R"; "S"; "T"; "U"; "V"; "W"; "X"; "Y"; "Z"; "a"; "b"; "c"; "d"; "e"; "f"]%string.

Definition thirtyTwoMandatoryCatalog : BuildingDefinitions :=
  mkDefs [("misc"%string,
           map (fun name => (name, mkDef None None None None None None true None None None))
               thirtyTwoNames)].

(** ** Bounds on the state keys *)

(** The residents and resource fields of a key are within the limits of
    the configuration. *)
Definition keyWithinLimits (k : Key) : Prop :=
  0 <= k_r k <= MAX_RESIDENTS
  /\ 0 <= k_money k <= MAX_RESOURCE_UPPER
  /\ 0 <= k_wood k <= MAX_RESOURCE_UPPER
  /\ 0 <= k_cement k <= MAX_RESOURCE_UPPER
  /\ 0 <= k_steel k <= MAX_RESOURCE_UPPER.

(** ** The count map of a build order *)

(** [counts.get(`name:lvlN`) || 0]. *)
Definition countOf (counts : list (string * Z * Z)) (name : string) (level : Z) : Z :=
  match find (fun r => String.eqb (fst (fst r)) name && (snd (fst r) =? level)) counts with
  | Some r => snd r
  | None => 0
  end.

(** How many variants of the sequence have this name and level. *)
Definition occurrences (name : string) (level : Z) (seq : list Variant) : Z :=
  Z.of_nat (length (List.filter (sameNameLevel name level) seq)).

(** ** Houses, pools and businesses *)

(** The string holds a comma. *)
Fixpoint hasComma (s : string) : bool :=
  match s with
  | EmptyString => false
  | String c rest => Ascii.eqb c "," || hasComma rest
  end.

(** The residents of the house [v] may work at the business called
    [name]: the house has no preferences, or it lists the name, or its one
    preference is the string of the wildcard pool. *)
Definition servesBusiness (v : Variant) (name : string) : bool :=
  match v_prefers v with
  | Some (p :: ps) =>
      existsb (String.eqb name) (p :: ps)
      || match ps with [] => String.eqb p "*" | _ => false end
  | _ => true
  end.

(** The residents the pools hold. *)
Definition poolsTotal (pools : Pools) : Z :=
  fold_right (fun e acc => snd e + acc) 0 pools.

(** The invariant of the pools: no pool name twice, no negative pool. *)
Definition poolsOk (pools : Pools) : Prop :=
  List.NoDup (map fst pools) /\ Forall (fun e : string * Z => 0 <= snd e) pools.

(** ** The blocks of the driver, one by one *)

(** The copy of the catalog a block is solved on: the mandatory flags of
    the misc buildings cleared, through the property [misc] for the last
    block and by a loop over the types for the others. *)
Definition strippedCatalog (d : BuildingDefinitions) (isLast : bool) : BuildingDefinitions :=
  mkDefs (if isLast then stripMiscProperty (buildingTypes d)
          else stripMiscTypes (buildingTypes d)).

(** The storage the buildings of the blocks [bs] contribute. *)
Definition storageOf (bs : list BlockResult) : Resources :=
  fold_left (fun acc b => addResources acc (blockStorage b)) bs zeroResources.

(** The income of the blocks [bs]. *)
Definition incomeOf (bs : list BlockResult) : Z :=
  fold_left (fun acc b => acc + b_totalIncome b) bs 0.

(** The block the driver records for a solution of the single-block
    optimizer; [inject] says whether the reserved buildings are added. *)
Definition recordedBlock (blockNum : Z) (inject : bool) (reserved : list Variant)
    (sol : BlockSolution) : BlockResult :=
  let comb :=
    if inject then combination sol ++ map mandatoryItem reserved else combination sol in
  mkBlock blockNum comb
          (if inject then totalIncome sol + fold_left (fun s v => s + v_income v) reserved 0
           else totalIncome sol)
          (if inject then totalSize sol + fold_left (fun s v => s + v_size v) reserved 0
           else totalSize sol)
          (storageContribution comb).

(** The call of the single-block optimizer for block [i], counted from 0,
    after the blocks [before]. *)
Definition blockCall (d : BuildingDefinitions) (numBlocks sizeLimit : Z) (opts : DriverOptions)
    (before : list BlockResult) (i : nat) : completion (option BlockSolution) :=
  let isLast := Z.of_nat i =? numBlocks - 1 in
  optimizeBlockIncomeFromDefinitions
    (strippedCatalog d isLast)
    (if isLast then sizeLimit - fold_left (fun s v => s + v_size v) (reserveMandatory d) 0
     else sizeLimit)
    (mkOpts (drv_debug opts) (drv_beamWidth opts)
            (Some (addResources DEFAULT_BASE_RESOURCES (storageOf before)))).

(** What the block loop has recorded after [k] blocks. *)
Definition loopRecord (d : BuildingDefinitions) (numBlocks sizeLimit : Z) (opts : DriverOptions)
    (k : nat) (st : DriverState) : Prop :=
  length (blockResults st) = k
  /\ aggregateStorageFromBuildings st = storageOf (blockResults st)
  /\ aggregateIncome st = incomeOf (blockResults st)
  /\ forall i b,
       blockResults st !! i = Some b ->
       exists sol,
         blockCall d numBlocks sizeLimit opts (firstn i (blockResults st)) i = Normal (Some sol)
         /\ b = recordedBlock (Z.of_nat i + 1)
                  ((Z.of_nat i =? numBlocks - 1) && (0 <? length (reserveMandatory d))%nat)
                  (reserveMandatory d) sol.


(** ** Options used below *)


(** ** The levels of a building *)

(** [{ upgrades: [{ level: 3 }, { level: 2, employees: 5 }] }]: a building
    without workers at level 1, staffed at level 2. *)
Definition staffedUpgradeDefinition : BuildingDefinition :=
  mkDef None None None None None None false None None
        (Some [plainUpgrade 3 None None;
               mkUpgrade 2 None None (Some 5) None None None false None None]).

(** [{ storageCapacity: { money: 500 },
       upgrades: [{ level: 2, storageCapacity: { money: 900 } }] }]. *)
Definition depotDefinition : BuildingDefinition :=
  mkDef None None None None (Some (StoObj (mkCost (Some 500) None None None))) None false
        None None
        (Some [mkUpgrade 2 None None None None
                 (Some (StoObj (mkCost (Some 900) None None None))) None false None None]).

(** A variant with its mandatory flag cleared when its type is "misc". *)
Definition withoutMiscFlag (v : Variant) : Variant :=
  if String.eqb (v_type v) "misc"
  then {| v_type := v_type v; v_name := v_name v; v_level := v_level v; v_size := v_size v;
          v_income := v_income v; v_capacity := v_capacity v;
          v_storageCapacity := v_storageCapacity v; v_mandatory := false;
          v_costs := v_costs v; v_workerType := v_workerType v; v_prefers := v_prefers v |}
  else v.

(** [{ misc: { Gate: { mandatory: true, upgrades: [{ level: 2, mandatory: true }] } },
       shops: { Stall: { baseIncome: 5, mandatory: true } } }]. *)
Definition flaggedCatalog : BuildingDefinitions :=
  mkDefs [("misc"%string,
           [("Gate"%string,
             mkDef None None None None None None true None None
                   (Some [mkUpgrade 2 None None None None None None true None None]))]);
          ("shops"%string,
           [("Stall"%string, mkDef (Some 5) None None None None None true None None None)])].

(** ** The block class of the earlier copy

    [class Building] and [class Block], which the earlier copy of the
    optimizer declares ahead of it.  A building is its fields; a block is
    passed along and returned, [addBuilding] giving the block after the
    call or the error it throws, in which case the block is unchanged. *)

Record Building := mkBuilding {
  bld_name : string;
  bld_level : Z;
  bld_size : Z;
  buildingId : string
}.

Record Block := mkBlockOf {
  blk_id : string;
  buildings : list Building
}.

(** [new Block(id)]. *)
Definition newBlock (id : string) : Block := mkBlockOf id [].

(** [buildings.reduce((total, building) => total + building.size, 0)]. *)
Definition getTotalBuildingSize (b : Block) : Z :=
  fold_left (fun total building => total + bld_size building) (buildings b) 0.

(** [Error("Block is full")]. *)
Inductive BlockError := BlockIsFull.

Definition addBuilding (b : Block) (building : Building) : BlockError + Block :=
  if 16 <? bld_size building + getTotalBuildingSize b then inl BlockIsFull
  else inr (mkBlockOf (blk_id b) (buildings b ++ [building])).

(** [buildings.find(building => building.buildingId === buildingId) || null]. *)
Definition getBuilding (b : Block) (id : string) : option Building :=
  find (fun building => String.eqb (buildingId building) id) (buildings b).

(** The blocks a program can hold: a new block, after any number of calls
    of [addBuilding] that returned. *)
Inductive filled : Block -> Prop :=
| filled_new id : filled (newBlock id)
| filled_add b building b' :
    filled b -> addBuilding b building = inr b' -> filled b'.

(** ** The efficiency report

    [averageEfficiencyByType], the part of the result that the embedding
    of the optimizer above leaves out, with the three maps of
    [simulateSequence] that feed it.  The report is a plain object: only
    its own properties are modelled, not the order of its keys. *)

(** [m.set(v.name, (m.get(v.name) || 0) + capacity)]. *)
Definition addCapacity (m : Pools) (v : Variant) : Pools :=
  poolSet m (v_name v) (poolGet m (v_name v) + v_capacity v).

(** [businessCapacityByName] after the first loop. *)
Definition businessCapacityByName (seq : list Variant) : Pools :=
  fold_left (fun m v => if isResidents v then m
                        else if isEmployees v then addCapacity m v
                        else m) seq [].

(** [houseCapacityByName] after the first loop. *)
Definition houseCapacityByName (seq : list Variant) : Pools :=
  fold_left (fun m v => if isResidents v then addCapacity m v else m) seq [].

(** The second loop, for the pools, [totalAllocatedEmployees] and
    [businessAllocatedByName]. *)
Definition allocationStep (st : Pools * Z * Pools) (v : Variant) : Pools * Z * Pools :=
  let '(pools, totalAllocatedEmployees, businessAllocatedByName) := st in
  if isEmployees v then
    let cap := v_capacity v in
    let '(allocated, pools') := drawWorkers (v_name v) cap pools 0 pools in
    (pools',
     totalAllocatedEmployees + allocated,
     poolSet businessAllocatedByName (v_name v)
             (poolGet businessAllocatedByName (v_name v) + allocated))
  else st.

Definition allocations (seq : list Variant) : Pools * Z * Pools :=
  fold_left allocationStep seq
            (inv_pools (fold_left inventoryStep seq (mkInventory [] 0 0 0)), 0, []).

Definition businessAllocatedByName (seq : list Variant) : Pools := snd (allocations seq).

(** An entry of the report: ["NN%"] or ["N/A"]. *)
Inductive Efficiency :=
| Percent (p : Z)
| NotApplicable.

Abbreviation Report := (list (string * Efficiency)).

(** The properties every plain object inherits from [Object.prototype]. *)
Definition inheritedNames : list string :=
  ["constructor"; "hasOwnProperty"; "isPrototypeOf"; "propertyIsEnumerable";
   "toLocaleString"; "toString"; "valueOf"; "__proto__";
   "__defineGetter__"; "__defineSetter__"; "__lookupGetter__"; "__lookupSetter__"]%string.

(** The own property [name] of the report. *)
Definition reportGet (r : Report) (name : string) : option Efficiency :=
  match find (fun e => String.eqb (fst e) name) r with
  | Some e => Some (snd e)
  | None => None
  end.

Fixpoint reportSet (r : Report) (name : string) (e : Efficiency) : Report :=
  match r with
  | [] => [(name, e)]
  | x :: rest => if String.eqb (fst x) name then (name, e) :: rest else x :: reportSet rest name e
  end.

(** [report[name] = e]: an assignment to ["__proto__"] reaches the setter
    of [Object.prototype], which ignores a string. *)
Definition reportAssign (r : Report) (name : string) (e : Efficiency) : Report :=
  if String.eqb name "__proto__" then r else reportSet r name e.

(** [name in report]: own or inherited. *)
Definition reportHas (r : Report) (name : string) : bool :=
  existsb (fun e => String.eqb (fst e) name) r || existsb (String.eqb name) inheritedNames.

(** The entry of the business name [name] with the capacity [cap]. *)
Definition businessEfficiency (seq : list Variant) (name : string) (cap : Z) : Efficiency :=
  let allocated := poolGet (businessAllocatedByName seq) name in
  let count :=
    Z.of_nat (length (List.filter (fun x => String.eqb (v_name x) name && isEmployees x) seq)) in
  let duplicatePenalty :=
    if DUPLICATE_PENALTY_THRESHOLD <? count
    then (DUPLICATE_PENALTY_RATE * inject_Z (count - DUPLICATE_PENALTY_THRESHOLD))%Q
    else 0%Q in
  let baseEff := if 0 <? cap then (inject_Z allocated / inject_Z cap)%Q else 1%Q in
  let eff := qmax 0 (baseEff - duplicatePenalty)%Q in
  Percent (jsRound (eff * 100)%Q).

(** The entry of every house name. *)
Definition houseEfficiency (seq : list Variant) : Efficiency :=
  let totalCapacity :=
    inv_totalHouseCapacity (fold_left inventoryStep seq (mkInventory [] 0 0 0)) in
  let totalAllocatedEmployees := snd (fst (allocations seq)) in
  let eff := if 0 <? totalCapacity
             then (inject_Z totalAllocatedEmployees / inject_Z totalCapacity)%Q
             else 1%Q in
  Percent (jsRound (eff * 100)%Q).

(** The entry of a row whose name is neither a business nor a house. *)
Definition neutralEfficiency (item : CombinationItem) : Efficiency :=
  match ci_storageCapacity item, ci_workerType item with
  | StoObj _, None => NotApplicable
  | _, _ => Percent 100
  end.

Definition averageEfficiencyByType (finalSeq : list Variant)
    (combinationFinal : list CombinationItem) : Report :=
  let businesses :=
    fold_left (fun r e => reportAssign r (fst e) (businessEfficiency finalSeq (fst e) (snd e)))
              (businessCapacityByName finalSeq) [] in
  let houses :=
    fold_left (fun r (e : string * Z) => reportAssign r (fst e) (houseEfficiency finalSeq))
              (houseCapacityByName finalSeq) businesses in
  fold_left (fun r item =>
               if reportHas r (ci_name item) then r
               else reportAssign r (ci_name item) (neutralEfficiency item))
            combinationFinal houses.

(** The names of the houses, and of the businesses, of a build order. *)
Definition isHouseName (seq : list Variant) (name : string) : bool :=
  existsb (fun v => isResidents v && String.eqb (v_name v) name) seq.

Definition isBusinessName (seq : list Variant) (name : string) : bool :=
  existsb (fun v => isEmployees v && String.eqb (v_name v) name) seq.

(** [{ houses: { Hut: { baseIncome: 4, peopleCapacity: 2 } },
       shops: { Mill: { baseIncome: 10, employees: 4 } },
       storage: { Depot: { storageCapacity: { money: 500 } } },
       misc: { Well: { baseIncome: 1 } } }]. *)
Definition townCatalog : BuildingDefinitions :=
  mkDefs [("houses"%string,
           [("Hut"%string, mkDef (Some 4) None None (Some 2) None None false None None None)]);
          ("shops"%string,
           [("Mill"%string, mkDef (Some 10) None (Some 4) None None None false None None None)]);
          ("storage"%string,
           [("Depot"%string,
             mkDef None None None None (Some (StoObj (mkCost (Some 500) None None None))) None
                   false None None None)]);
          ("misc"%string,
           [("Well"%string, mkDef (Some 1) None None None None None false None None None)])].

(** * Properties *)

(** ** Folds and lists *)

Lemma foldC_invariant {A S : Type} (P : S -> Prop) (f : S -> A -> completion S) l s s' :
  (forall s a s', P s -> f s a = Normal s' -> P s') ->
  P s -> foldC f l s = Normal s' -> P s'.
Proof.
  intros Hstep. revert s. induction l as [| a l IH]; simpl; intros s Hs Hfold.
  - injection Hfold as <-. exact Hs.
  - destruct (f s a) as [s1 | e |] eqn:E; simpl in Hfold; try discriminate.
    eapply IH; [| exact Hfold]. eapply Hstep; eassumption.
Qed.

Lemma foldC_invariant_In {A S : Type} (P : S -> Prop) (f : S -> A -> completion S) l s s' :
  (forall s a s', In a l -> P s -> f s a = Normal s' -> P s') ->
  P s -> foldC f l s = Normal s' -> P s'.
Proof.
  revert s. induction l as [| a l IH]; simpl; intros s Hstep Hs Hfold.
  - injection Hfold as <-. exact Hs.
  - destruct (f s a) as [s1 | e |] eqn:E; simpl in Hfold; try discriminate.
    eapply IH; [| | exact Hfold].
    + intros s2 b s3 Hb. apply Hstep. right. exact Hb.
    + eapply Hstep; [left; reflexivity | exact Hs | exact E].
Qed.

Lemma foldC_unchanged {A S : Type} (f : S -> A -> completion S) l s :
  (forall a, In a l -> f s a = Normal s) -> foldC f l s = Normal s.
Proof.
  induction l as [| a l IH]; simpl; intros H; [reflexivity |].
  rewrite (H a (or_introl eq_refl)). simpl. apply IH. intros b Hb. apply H. right. exact Hb.
Qed.


Lemma fold_left_add_acc l a : fold_left Z.add l a = a + fold_left Z.add l 0.
Proof.
  revert a. induction l as [| x l IH]; intros a; simpl; [lia |].
  rewrite (IH (a + x)), (IH (0 + x)). lia.
Qed.

Lemma sumZ_cons x l : sumZ (x :: l) = x + sumZ l.
Proof. unfold sumZ. simpl. rewrite fold_left_add_acc. lia. Qed.

Lemma getZ_bounds l i :
  Forall (fun c => 0 <= c) l -> 0 <= getZ l i <= sumZ l.
Proof.
  intros Hall. revert i. induction Hall as [| x l Hx Hl IH]; intros i.
  - unfold getZ, sumZ. destruct i; simpl; lia.
  - rewrite sumZ_cons. destruct i as [| i]; unfold getZ in *; simpl.
    + specialize (IH 0%nat). lia.
    + specialize (IH i). lia.
Qed.

Lemma prefix_In {A : Type} (n : nat) (l : list A) x : In x (firstn n l) -> In x l.
Proof. intros H. rewrite <- (firstn_skipn n l). apply in_or_app. left. exact H. Qed.

Lemma suffix_In {A : Type} (n : nat) (l : list A) x : In x (skipn n l) -> In x l.
Proof. intros H. rewrite <- (firstn_skipn n l). apply in_or_app. right. exact H. Qed.

Lemma filter_length_perm {A : Type} (p : A -> bool) l l' :
  Permutation l l' -> length (List.filter p l) = length (List.filter p l').
Proof.
  induction 1 as [| x l l' _ IH | x y l | l l' l'' _ IH1 _ IH2]; simpl.
  - reflexivity.
  - destruct (p x); simpl; congruence.
  - destruct (p x), (p y); reflexivity.
  - congruence.
Qed.

Lemma filter_all {A : Type} (p : A -> bool) l :
  (forall x, In x l -> p x = true) -> List.filter p l = l.
Proof.
  induction l as [| x l IH]; simpl; intros H; [reflexivity |].
  rewrite (H x (or_introl eq_refl)). f_equal. apply IH. intros y Hy. apply H. right. exact Hy.
Qed.

Lemma filter_none {A : Type} (p : A -> bool) l :
  (forall x, In x l -> p x = false) -> List.filter p l = [].
Proof.
  induction l as [| x l IH]; simpl; intros H; [reflexivity |].
  rewrite (H x (or_introl eq_refl)). apply IH. intros y Hy. apply H. right. exact Hy.
Qed.

Lemma NoDup_app_disjoint {A : Type} (l1 l2 : list A) x :
  List.NoDup (l1 ++ l2) -> In x l1 -> In x l2 -> False.
Proof.
  induction l1 as [| y l1 IH]; simpl; intros Hnd H1 H2; [destruct H1 |].
  inversion Hnd as [| ? ? Hnot Hnd']; subst.
  destruct H1 as [-> | H1].
  - apply Hnot. apply in_or_app. right. exact H2.
  - apply IH; assumption.
Qed.

Lemma indexed_In {A : Type} (l : list A) i a : In (i, a) (indexed l) -> In a l.
Proof. unfold indexed. intros H. eapply in_combine_r, H. Qed.

Lemma indexed_lookup_from {A : Type} (l : list A) start i a :
  In (i, a) (combine (seq start (length l)) l) ->
  exists j, i = (start + j)%nat /\ l !! j = Some a.
Proof.
  revert start. induction l as [| x l IH]; intros start; simpl; [intros [] |].
  intros [[= <- <-] | Hin].
  - exists 0%nat. split; [lia | reflexivity].
  - destruct (IH (S start) Hin) as (j & -> & Hj). exists (S j). split; [lia | exact Hj].
Qed.

Lemma indexed_lookup {A : Type} (l : list A) i a : In (i, a) (indexed l) -> l !! i = Some a.
Proof.
  intros H. destruct (indexed_lookup_from l 0 i a H) as (j & -> & Hj). exact Hj.
Qed.

Lemma setAdd_In i s x : In x (setAdd i s) <-> x = i \/ In x s.
Proof.
  unfold setAdd. destruct (existsb (Nat.eqb i) s) eqn:E.
  - split; [auto |]. intros [-> | H]; [| exact H].
    apply existsb_exists in E. destruct E as (y & Hy & He).
    apply Nat.eqb_eq in He. subst. exact Hy.
  - rewrite in_app_iff. simpl. split.
    + intros [H | [<- | []]]; auto.
    + intros [-> | H]; auto.
Qed.

Lemma existsb_eqb_In idx upd : existsb (Nat.eqb idx) upd = true <-> In idx upd.
Proof.
  rewrite existsb_exists. split.
  - intros (x & Hx & He). apply Nat.eqb_eq in He. subst. exact Hx.
  - intros H. exists idx. split; [exact H | apply Nat.eqb_refl].
Qed.

Lemma In_indexed_from {A : Type} (l : list A) start a :
  In a l -> exists i, In (i, a) (combine (seq start (length l)) l).
Proof.
  revert start. induction l as [| x l IH]; intros start; simpl; [intros [] |].
  intros [-> | H].
  - exists start. left. reflexivity.
  - destruct (IH (S start) H) as [i Hi]. exists i. right. exact Hi.
Qed.

(** ** Index objects *)

Lemma indexSet_find index name i name' :
  find (fun e : string * nat => String.eqb (fst e) name') (indexSet index name i)
  = if String.eqb name name' then Some (name, i)
    else find (fun e : string * nat => String.eqb (fst e) name') index.
Proof.
  induction index as [| [k j] index IH]; simpl.
  - destruct (String.eqb name name'); reflexivity.
  - destruct (String.eqb_spec k name) as [-> | Hne]; simpl.
    + destruct (String.eqb name name'); reflexivity.
    + destruct (String.eqb_spec k name') as [-> | Hne'].
      * destruct (String.eqb_spec name name'); [congruence | reflexivity].
      * exact IH.
Qed.

Lemma combine_snoc {A B : Type} (l1 : list A) (l2 : list B) a b :
  length l1 = length l2 -> combine (l1 ++ [a]) (l2 ++ [b]) = combine l1 l2 ++ [(a, b)].
Proof.
  revert l2. induction l1 as [| x l1 IH]; intros [| y l2]; simpl; try discriminate.
  - reflexivity.
  - intros [= H]. rewrite (IH l2 H). reflexivity.
Qed.

Lemma indexObject_snoc names n :
  indexObject (names ++ [n]) = indexAssign (indexObject names) n (length names).
Proof.
  unfold indexObject. rewrite length_app. simpl.
  rewrite Nat.add_1_r, seq_S. simpl.
  rewrite combine_snoc by (rewrite length_seq; reflexivity).
  rewrite fold_left_app. reflexivity.
Qed.

(** The index object, name by name: a later assignment replaces an earlier
    one, and an assignment to ["__proto__"] stores nothing. *)
Lemma indexOf_snoc name names n :
  indexOf name (names ++ [n])
  = if String.eqb n name && negb (String.eqb n "__proto__") then Some (length names)
    else indexOf name names.
Proof.
  unfold indexOf. rewrite indexObject_snoc. unfold indexAssign.
  destruct (String.eqb n "__proto__"); simpl.
  - rewrite andb_false_r. reflexivity.
  - rewrite andb_true_r, indexSet_find. destruct (String.eqb n name); reflexivity.
Qed.

Lemma indexOf_lt name names i : indexOf name names = Some i -> (i < length names)%nat.
Proof.
  revert i. induction names as [| n names IH] using rev_ind; intros i; [discriminate |].
  rewrite indexOf_snoc, length_app. simpl.
  destruct (String.eqb n name && negb (String.eqb n "__proto__")).
  - intros [= <-]. lia.
  - intros H. specialize (IH i H). lia.
Qed.

Lemma indexOf_lookup name names i : indexOf name names = Some i -> names !! i = Some name.
Proof.
  revert i. induction names as [| n names IH] using rev_ind; intros i; [discriminate |].
  rewrite indexOf_snoc.
  destruct (String.eqb n name && negb (String.eqb n "__proto__")) eqn:E.
  - intros [= <-]. apply andb_true_iff in E. destruct E as [E _]. apply String.eqb_eq in E.
    subst n. rewrite lookup_app_r by lia. rewrite Nat.sub_diag. reflexivity.
  - intros H. pose proof (indexOf_lt _ _ _ H). rewrite lookup_app_l by lia. apply IH, H.
Qed.

(** The read of ["__proto__"] is never a number. *)
Lemma indexOf_proto names : indexOf "__proto__" names = None.
Proof.
  induction names as [| n names IH] using rev_ind; [reflexivity |].
  rewrite indexOf_snoc, IH. destruct (String.eqb n "__proto__"); reflexivity.
Qed.

Lemma indexOf_of_lookup name names i :
  List.NoDup names -> name <> "__proto__"%string ->
  names !! i = Some name -> indexOf name names = Some i.
Proof.
  intros Hnd Hp. revert i. induction names as [| n names IH] using rev_ind; intros i;
    [discriminate |].
  apply NoDup_remove in Hnd. rewrite app_nil_r in Hnd. destruct Hnd as [Hnd Hnot].
  rewrite indexOf_snoc. intros Hi.
  destruct (String.eqb_spec n name) as [-> | Hne]; simpl.
  - rewrite (proj2 (String.eqb_neq _ _) Hp). simpl. f_equal.
    destruct (Nat.lt_ge_cases i (length names)) as [Hlt | Hge].
    + rewrite lookup_app_l in Hi by exact Hlt. exfalso. apply Hnot.
      apply list_elem_of_In. eapply list_elem_of_lookup_2, Hi.
    + apply lookup_lt_Some in Hi. rewrite length_app in Hi. simpl in Hi. lia.
  - destruct (Nat.lt_ge_cases i (length names)) as [Hlt | Hge].
    + rewrite lookup_app_l in Hi by exact Hlt. apply IH; assumption.
    + rewrite lookup_app_r in Hi by exact Hge.
      destruct (i - length names)%nat; simpl in Hi; [congruence | discriminate].
Qed.

Lemma indexOf_iff name names i :
  List.NoDup names ->
  indexOf name names = Some i <-> names !! i = Some name /\ name <> "__proto__"%string.
Proof.
  intros Hnd. split.
  - intros H. split; [apply indexOf_lookup, H |].
    intros ->. rewrite indexOf_proto in H. discriminate.
  - intros [Hi Hp]. apply indexOf_of_lookup; assumption.
Qed.

Lemma indexOf_None name names :
  indexOf name names = None <-> ~ In name names \/ name = "__proto__"%string.
Proof.
  induction names as [| n names IH] using rev_ind.
  - split; [intros _; left; intros [] | reflexivity].
  - rewrite indexOf_snoc, in_app_iff. simpl.
    destruct (String.eqb_spec n name) as [-> | Hne]; simpl.
    + destruct (String.eqb_spec name "__proto__") as [Hp | Hp]; simpl.
      * rewrite IH. split; [intros _; right; exact Hp | intros _; right; exact Hp].
      * split; [discriminate |]. intros [H | H]; [exfalso; apply H; auto | contradiction].
    + rewrite IH. split.
      * intros [H | H]; [left | right; exact H]. intros [Hin | [Heq | []]]; [auto | contradiction].
      * intros [H | H]; [left | right; exact H]. intros Hin. apply H. left. exact Hin.
Qed.

(** ** Catalog expander *)

(** *** Validation (C2) *)

Lemma In_buildVariants defs typeName group buildingName def v :
  In (typeName, group) (buildingTypes defs) ->
  In (buildingName, def) group ->
  In v (buildingVariants typeName buildingName def) ->
  In v (buildVariantsFromDefinitions defs).
Proof.
  intros Ht Hb Hv. unfold buildVariantsFromDefinitions.
  apply in_flat_map. exists (typeName, group). split; [exact Ht |].
  apply in_flat_map. exists (buildingName, def). split; [exact Hb | exact Hv].
Qed.

Lemma initialTable_root ctx res :
  initialTable ctx res !! 0%nat = Some [(initialKey ctx res, initialNode ctx)].
Proof. reflexivity. Qed.

(** Counterexample to C2 as stated: a catalog with a negative base income
    is solved like any other; here the unprofitable stall is left out. *)
Lemma negative_income_catalog_is_solved :
  hasNegativeDefinition negativeIncomeCatalog = true
  /\ optimizeBlockIncomeFromDefinitions negativeIncomeCatalog 1 defaultOptions
     = Normal (Some emptySolution).
Proof. split; vm_compute; reflexivity. Qed.

(** C2, amended.  The source validates nothing and has no [InvalidCatalog]
    error: for every catalog, every definition is expanded, and its level-1
    variant carries the definition's size (when given and not 0) and base
    income unchanged, negative or not; and the root state is put into
    bucket 0 whatever the catalog holds. *)
Theorem expander_accepts_every_definition defs typeName group buildingName def :
  In (typeName, group) (buildingTypes defs) ->
  In (buildingName, def) group ->
  (exists v,
      In v (buildVariantsFromDefinitions defs)
      /\ v_type v = typeName /\ v_name v = buildingName /\ v_level v = 1
      /\ (forall s, d_size def = Some s -> s <> 0 -> v_size v = s)
      /\ (forall i, d_baseIncome def = Some i -> v_income v = i))
  /\ (forall sizeLimit opts res,
        initialTable (makeCtx defs sizeLimit opts) res !! 0%nat
        = Some [(initialKey (makeCtx defs sizeLimit opts) res,
                 initialNode (makeCtx defs sizeLimit opts))]).
Proof.
  intros Ht Hb. split.
  - exists (baseVariant typeName buildingName def).
    split.
    { eapply In_buildVariants; eauto. left. reflexivity. }
    repeat split; simpl.
    + intros s Hs Hne. rewrite Hs. simpl. destruct (Z.eqb_spec s 0); congruence.
    + intros i Hi. rewrite Hi. simpl. destruct (Z.eqb_spec i 0); congruence.
  - intros. apply initialTable_root.
Qed.

Lemma expander_accepts_every_definition_witness :
  exists v,
    In v (buildVariantsFromDefinitions negativeIncomeCatalog)
    /\ v_name v = "Stall"%string /\ v_income v = -5.
Proof.
  destruct (expander_accepts_every_definition negativeIncomeCatalog "shops"%string
              [("Stall"%string, mkDef (Some (-5)) None None None None None false None None None)]
              "Stall"%string
              (mkDef (Some (-5)) None None None None None false None None None))
    as [[v (Hin & _ & Hn & _ & _ & Hinc)] _].
  - simpl. left. reflexivity.
  - simpl. left. reflexivity.
  - exists v. split; [exact Hin |]. split; [exact Hn |]. apply Hinc. reflexivity.
Defined.

Lemma buildingVariants_size_nonzero typeName buildingName def v :
  In v (buildingVariants typeName buildingName def) -> v_size v <> 0.
Proof.
  assert (Hs : orElse (d_size def) 1 <> 0).
  { unfold orElse. destruct (d_size def) as [s |]; [| lia].
    destruct (Z.eqb_spec s 0); lia. }
  unfold buildingVariants. intros [<- | Hin]; [exact Hs |].
  revert Hin. generalize (orElse (d_baseIncome def) 0) (baseWorkers def).
  induction (sortUpgrades (nullish (d_upgrades def) [])) as [| up ups IH];
    intros acc workers; simpl; [intros [] |].
  intros [<- | Hin]; [exact Hs | eapply IH, Hin].
Qed.

Lemma buildVariants_size_nonzero defs v :
  In v (buildVariantsFromDefinitions defs) -> v_size v <> 0.
Proof.
  unfold buildVariantsFromDefinitions. intros H.
  apply in_flat_map in H. destruct H as ([typeName group] & _ & H).
  apply in_flat_map in H. destruct H as ([buildingName def] & _ & H).
  eapply buildingVariants_size_nonzero, H.
Qed.

(** *** Upgrade income (C6) *)

Lemma insertUpgrade_perm u l : Permutation (u :: l) (insertUpgrade u l).
Proof.
  induction l as [| y l IH]; simpl.
  - apply Permutation_refl.
  - destruct (u_level u <=? u_level y).
    + apply Permutation_refl.
    + eapply perm_trans; [apply perm_swap |]. apply perm_skip. exact IH.
Qed.

Lemma sortUpgrades_perm l : Permutation l (sortUpgrades l).
Proof.
  induction l as [| u l IH]; simpl.
  - apply perm_nil.
  - eapply perm_trans; [apply perm_skip; exact IH |]. apply insertUpgrade_perm.
Qed.

Lemma insertUpgrade_sorted u l :
  StronglySorted (fun a b => u_level a <= u_level b) l ->
  StronglySorted (fun a b => u_level a <= u_level b) (insertUpgrade u l).
Proof.
  induction l as [| y l IH]; simpl; intros Hs.
  - constructor; [constructor | constructor].
  - inversion Hs as [| ? ? Hl Hy]; subst.
    destruct (Z.leb_spec (u_level u) (u_level y)) as [Hle | Hgt].
    + constructor; [exact Hs |].
      constructor; [exact Hle |].
      rewrite List.Forall_forall in Hy |- *. intros z Hz. specialize (Hy z Hz). lia.
    + constructor; [apply IH; exact Hl |].
      rewrite List.Forall_forall in Hy |- *. intros z Hz.
      apply (Permutation_in z (Permutation_sym (insertUpgrade_perm u l))) in Hz.
      destruct Hz as [<- | Hz]; [lia | apply Hy; exact Hz].
Qed.

Lemma sortUpgrades_sorted l :
  StronglySorted (fun a b => u_level a <= u_level b) (sortUpgrades l).
Proof.
  induction l as [| u l IH]; simpl.
  - constructor.
  - apply insertUpgrade_sorted. exact IH.
Qed.

(** The variant emitted for the upgrade that follows the prefix [pre]
    carries the income of the running accumulator. *)
Lemma upgradeVariants_nth typeName buildingName def pre up post acc workers :
  exists w,
    nth_error (upgradeVariants typeName buildingName def acc workers (pre ++ up :: post))
              (length pre)
    = Some (upgradeVariant typeName buildingName def
              (stepIncome (fold_left stepIncome pre acc) up) w up).
Proof.
  revert acc workers. induction pre as [| p pre IH]; intros acc workers; simpl.
  - eexists. reflexivity.
  - apply IH.
Qed.

Lemma running_income_incremental pre acc :
  Forall (fun u => u_income u = None) pre ->
  fold_left stepIncome pre acc = acc + sumAdditional pre.
Proof.
  revert acc. induction pre as [| p pre IH]; intros acc Hall; simpl.
  - lia.
  - inversion Hall as [| ? ? Hp Hrest]; subst.
    rewrite (IH _ Hrest). unfold stepIncome at 1. rewrite Hp. lia.
Qed.

Lemma running_income_after_absolute pre1 a mid x acc :
  u_income a = Some x ->
  Forall (fun u => u_income u = None) mid ->
  fold_left stepIncome (pre1 ++ a :: mid) acc = x + sumAdditional mid.
Proof.
  intros Ha Hmid. rewrite fold_left_app. simpl.
  rewrite (running_income_incremental _ _ Hmid).
  unfold stepIncome at 1. rewrite Ha. reflexivity.
Qed.

Lemma sumAdditional_snoc l up :
  sumAdditional (l ++ [up]) = sumAdditional l + orElse (u_additionalIncome up) 0.
Proof.
  induction l as [| y l IH]; simpl; [lia |]. unfold sumAdditional in *. simpl in *. lia.
Qed.

(** C6.  An absolute income overrides the accumulation for the later
    levels too.  The documentation of the source reads: income at level L
    is [baseIncome] plus the sum of [additionalIncome] over the upgrades
    with level <= L, and an [upgrade.income] overrides the accumulation
    for that level.  For [{ baseIncome: 10, upgrades: [{ level: 3,
    additionalIncome: 5 }, { level: 2, income: 50 }] }] the upgrade to
    level 3 declares no absolute income, so the documented income at
    level 3 is 10 + 0 + 5 = 15.  The expander keeps one running variable,
    which the absolute income of level 2 overwrites, and the level-3
    variant earns 50 + 5 = 55. *)
Theorem income_after_absolute_upgrade :
  exists v,
    nth_error (buildingVariants "shops" "Stall" mixedUpgradeDefinition) 2 = Some v
    /\ v_level v = 3
    /\ v_income v = 55
    /\ incrementalIncome mixedUpgradeDefinition 3 = 15.
Proof. eexists. repeat split. Qed.

(** What the expander computes.  Upgrades are processed in ascending
    level order.  The variant of an upgrade earns [upgrade.income] when the
    upgrade declares an absolute income.  Otherwise it earns the income of
    the level before it plus its [additionalIncome] (0 when absent): that
    is the documented sum, the base income plus the increments up to its
    level, when no earlier upgrade declares an absolute income, and
    otherwise the latest earlier absolute income plus the increments after
    that one. *)
Lemma upgrade_income_accumulates typeName buildingName def :
  Permutation (nullish (d_upgrades def) []) (sortUpgrades (nullish (d_upgrades def) []))
  /\ StronglySorted (fun a b => u_level a <= u_level b)
                    (sortUpgrades (nullish (d_upgrades def) []))
  /\ forall pre up post,
       sortUpgrades (nullish (d_upgrades def) []) = pre ++ up :: post ->
       exists v,
         nth_error (buildingVariants typeName buildingName def) (S (length pre)) = Some v
         /\ v_level v = u_level up
         /\ (forall i, u_income up = Some i -> v_income v = i)
         /\ (u_income up = None ->
             (Forall (fun u => u_income u = None) pre ->
              v_income v = orElse (d_baseIncome def) 0 + sumAdditional (pre ++ [up]))
             /\ (forall pre1 a mid x,
                   pre = pre1 ++ a :: mid ->
                   u_income a = Some x ->
                   Forall (fun u => u_income u = None) mid ->
                   v_income v = x + sumAdditional (mid ++ [up]))).
Proof.
  split; [apply sortUpgrades_perm |].
  split; [apply sortUpgrades_sorted |].
  intros pre up post Hsorted.
  unfold buildingVariants. rewrite Hsorted. simpl.
  destruct (upgradeVariants_nth typeName buildingName def pre up post
              (orElse (d_baseIncome def) 0) (baseWorkers def)) as [w Hw].
  eexists. split; [exact Hw |]. simpl.
  split; [reflexivity |].
  split.
  - intros i Hi. unfold stepIncome. rewrite Hi. reflexivity.
  - intros Hnone. split.
    + intros Hpre. rewrite (running_income_incremental _ _ Hpre).
      rewrite sumAdditional_snoc. unfold stepIncome. rewrite Hnone. lia.
    + intros pre1 a mid x -> Ha Hmid.
      rewrite (running_income_after_absolute _ _ _ _ _ Ha Hmid).
      rewrite sumAdditional_snoc. unfold stepIncome. rewrite Hnone. lia.
Qed.

Lemma upgrade_income_accumulates_witness :
  exists v,
    nth_error (buildingVariants "shops" "Stall" mixedUpgradeDefinition) 2 = Some v
    /\ v_income v = 50 + sumAdditional ([] ++ [plainUpgrade 3 None (Some 5)]).
Proof.
  destruct (upgrade_income_accumulates "shops" "Stall" mixedUpgradeDefinition)
    as (_ & _ & H).
  destruct (H [plainUpgrade 2 (Some 50) None] (plainUpgrade 3 None (Some 5)) [] eq_refl)
    as (v & Hnth & _ & _ & Hinc).
  exists v. split; [exact Hnth |].
  destruct (Hinc eq_refl) as [_ Habs].
  apply (Habs [] (plainUpgrade 2 (Some 50) None) [] 50 eq_refl eq_refl).
  constructor.
Defined.

(** ** State table *)

Lemma counts_eqb_eq a b : counts_eqb a b = true <-> a = b.
Proof.
  revert b. induction a as [| x a IH]; intros [| y b]; simpl; split; try congruence.
  - rewrite andb_true_iff, Z.eqb_eq, IH. intros [-> ->]. reflexivity.
  - intros [= -> ->]. rewrite Z.eqb_refl. simpl. apply IH. reflexivity.
Qed.

Lemma key_eqb_eq a b : key_eqb a b = true <-> a = b.
Proof.
  unfold key_eqb. split.
  - rewrite !andb_true_iff, !Z.eqb_eq, counts_eqb_eq.
    destruct a, b; simpl. intros ((((((-> & ->) & ->) & ->) & ->) & ->) & ->). reflexivity.
  - intros ->. rewrite !Z.eqb_refl. simpl. apply counts_eqb_eq. reflexivity.
Qed.

Lemma existsb_key_In k ks : existsb (key_eqb k) ks = true <-> In k ks.
Proof.
  rewrite existsb_exists. split.
  - intros (x & Hx & He). apply key_eqb_eq in He. subst. exact Hx.
  - intros H. exists k. split; [exact H | apply key_eqb_eq; reflexivity].
Qed.

(** [m.set] keeps the keys of a map distinct. *)
Lemma mapSet_keys m k n :
  map fst (mapSet m k n) = if existsb (key_eqb k) (map fst m) then map fst m else map fst m ++ [k].
Proof.
  induction m as [| e m IH]; simpl; [reflexivity |].
  destruct (key_eqb (fst e) k) eqn:E.
  - apply key_eqb_eq in E. subst k. simpl.
    assert (key_eqb (fst e) (fst e) = true) as -> by (apply key_eqb_eq; reflexivity).
    reflexivity.
  - simpl. rewrite IH.
    assert (key_eqb k (fst e) = false) as ->.
    { destruct (key_eqb k (fst e)) eqn:E'; [| reflexivity].
      apply key_eqb_eq in E'. subst. 
      assert (key_eqb (fst e) (fst e) = true) by (apply key_eqb_eq; reflexivity). congruence. }
    simpl. destruct (existsb (key_eqb k) (map fst m)); reflexivity.
Qed.

Lemma mapSet_keysDistinct m k n : keysDistinct m -> keysDistinct (mapSet m k n).
Proof.
  unfold keysDistinct. intros H. rewrite mapSet_keys.
  destruct (existsb (key_eqb k) (map fst m)) eqn:E; [exact H |].
  apply List.NoDup_app; [exact H | |].
  - constructor; [intros [] | constructor].
  - intros x Hx [<- | []]. apply existsb_key_In in Hx. congruence.
Qed.

Lemma mapSet_In (m : Bucket) k n e : In e (mapSet m k n) -> e = (k, n) \/ In e m.
Proof.
  induction m as [| x m IH]; simpl.
  - intros [<- | []]. left. reflexivity.
  - destruct (key_eqb (fst x) k); simpl.
    + intros [<- | H]; [left; reflexivity | right; right; exact H].
    + intros [<- | H]; [right; left; reflexivity |].
      destruct (IH H) as [-> | H']; [left; reflexivity | right; right; exact H'].
Qed.

Lemma mapGet_In (m : Bucket) k n : mapGet m k = Some n -> In (k, n) m.
Proof.
  unfold mapGet. destruct (find (fun e => key_eqb (fst e) k) m) as [e |] eqn:E; [| discriminate].
  apply find_some in E. destruct E as [Hin Hk]. apply key_eqb_eq in Hk.
  simpl. intros [= <-]. rewrite <- Hk. destruct e. exact Hin.
Qed.

(** Two entries of a map with the same key are the same entry. *)
Lemma keysDistinct_same_key (m : Bucket) a b :
  keysDistinct m -> In a m -> In b m -> fst a = fst b -> a = b.
Proof.
  unfold keysDistinct. induction m as [| e m IH]; simpl; intros Hnd Ha Hb Hk; [destruct Ha |].
  inversion Hnd as [| ? ? Hnot Hnd']; subst.
  destruct Ha as [<- | Ha], Hb as [<- | Hb].
  - reflexivity.
  - exfalso. apply Hnot. rewrite Hk. apply in_map. exact Hb.
  - exfalso. apply Hnot. rewrite <- Hk. apply in_map. exact Ha.
  - apply IH; assumption.
Qed.

Lemma keysDistinct_perm (m m' : Bucket) : Permutation m m' -> keysDistinct m -> keysDistinct m'.
Proof.
  unfold keysDistinct. intros Hp Hnd.
  eapply Permutation_NoDup; [apply Permutation_map, Hp | exact Hnd].
Qed.

Lemma keysDistinct_filter (p : Key * Node -> bool) (m : Bucket) :
  keysDistinct m -> keysDistinct (List.filter p m).
Proof.
  unfold keysDistinct. induction m as [| e m IH]; simpl; intros Hnd; [constructor |].
  inversion Hnd as [| ? ? Hnot Hnd']; subst.
  destruct (p e); simpl; [| apply IH; exact Hnd'].
  constructor; [| apply IH; exact Hnd'].
  intros Hin. apply Hnot. apply in_map_iff in Hin. destruct Hin as (x & Hx & Hin).
  apply filter_In in Hin. rewrite <- Hx. apply in_map. apply Hin.
Qed.

(** ** Staffing prefeasibility (C5) *)

Lemma Qltb_true_iff a b : Qltb a b = true <-> (a < b)%Q.
Proof.
  unfold Qltb. rewrite negb_true_iff. split.
  - intros H. apply Qnot_le_lt. intros Hle. apply Qle_bool_iff in Hle. congruence.
  - intros H. destruct (Qle_bool b a) eqn:E; [| reflexivity].
    apply Qle_bool_iff in E. exfalso. apply (Qlt_not_le _ _ H E).
Qed.

(** For a positive denominator, [H / B < 9/10] is [H < 9/10 * B]. *)
Lemma ratio_below_iff H B :
  0 < B ->
  (inject_Z H / inject_Z B < MIN_STAFFING_RATIO)%Q <-> (inject_Z H < (9 # 10) * inject_Z B)%Q.
Proof.
  intros HB. destruct B as [| p | p]; try lia.
  unfold Qlt, Qdiv, Qmult, Qinv, inject_Z, MIN_STAFFING_RATIO. simpl. lia.
Qed.

(** *** Positions and the index object *)

Lemma positionOf_lookup name names i :
  positionOf name names = Some i -> names !! i = Some name.
Proof.
  revert i. induction names as [| n names IH]; intros i; simpl; [discriminate |].
  destruct (String.eqb n name) eqn:E.
  - intros [= <-]. apply String.eqb_eq in E. subst. reflexivity.
  - destruct (positionOf name names) as [j |]; simpl; [| discriminate].
    intros [= <-]. simpl. apply IH. reflexivity.
Qed.

Lemma positionOf_None name names : positionOf name names = None <-> ~ In name names.
Proof.
  induction names as [| n names IH]; simpl.
  - split; [intros _ [] | reflexivity].
  - destruct (String.eqb n name) eqn:E.
    + apply String.eqb_eq in E. split; [discriminate | intros H; exfalso; apply H; auto].
    + apply String.eqb_neq in E. destruct (positionOf name names); simpl.
      * split; [discriminate |]. intros H. exfalso.
        assert (Hn : ~ In name names) by (intros Hin; apply H; right; exact Hin).
        apply IH in Hn. discriminate.
      * split; [| reflexivity]. intros _ [H | H]; [contradiction |].
        apply (proj1 IH eq_refl H).
Qed.

(** Read under [typeof .. === "number"], the index object of a list
    without repetitions gives the position of every name but
    ["__proto__"]. *)
Lemma indexOf_positionOf names name :
  List.NoDup names -> name <> "__proto__"%string ->
  indexOf name names = positionOf name names.
Proof.
  intros Hnd Hname. destruct (positionOf name names) as [i |] eqn:E.
  - apply indexOf_of_lookup; [exact Hnd | exact Hname |].
    apply positionOf_lookup, E.
  - apply indexOf_None. left. apply positionOf_None, E.
Qed.

(** *** The filter for a business with an index

    The filter as the specification describes it, for every business
    whose name is not [__proto__]: with non-negative capacities, as the
    data model has them, a non-mandatory employees variant is rejected by
    the staffing filter if and only if the house capacity H is below 0.9
    times the business capacity B' after the placement, or the preference
    capacity of the variant's business is below its business capacity plus
    the variant's capacity.  For B' > 0, H < 0.9 * B' is H / B' < 0.9; at
    B' = 0 there is no quotient and the source does not reject.  Mandatory
    employees variants and the other worker kinds are never rejected by
    this filter. *)
Lemma staffing_filter_rejects_iff ctx node v :
  List.NoDup (businessNames ctx) ->
  v_name v <> "__proto__"%string ->
  0 <= totalHouseCapacity node ->
  Forall (fun c => 0 <= c) (businessCapacityArr node) ->
  Forall (fun c => 0 <= c) (preferenceCapacity node) ->
  0 <= v_capacity v ->
  (v_workerType v = Some employees -> v_mandatory v = false ->
   (staffingRejects ctx node v = true <->
    (inject_Z (totalHouseCapacity node)
     < (9 # 10) * inject_Z (sumZ (businessCapacityArr node) + v_capacity v))%Q
    \/ byBusiness ctx (preferenceCapacity node) (v_name v)
       < byBusiness ctx (businessCapacityArr node) (v_name v) + v_capacity v))
  /\ (0 < sumZ (businessCapacityArr node) + v_capacity v ->
      ((inject_Z (totalHouseCapacity node)
        / inject_Z (sumZ (businessCapacityArr node) + v_capacity v) < 9 # 10)%Q
       <-> (inject_Z (totalHouseCapacity node)
            < (9 # 10) * inject_Z (sumZ (businessCapacityArr node) + v_capacity v))%Q))
  /\ (v_workerType v <> Some employees \/ v_mandatory v = true ->
      staffingRejects ctx node v = false).
Proof.
  intros Hnd Hname HH Hcap Hpref Hv.
  split; [| split; [apply ratio_below_iff |]].
  - intros Hemp Hman. unfold staffingRejects, isEmployees, byBusiness.
    rewrite <- (indexOf_positionOf _ _ Hnd Hname).
    rewrite Hemp, Hman. simpl.
    set (B := sumZ (businessCapacityArr node) + v_capacity v).
    set (pref := match indexOf (v_name v) (businessNames ctx) with
                 | Some b => getZ (preferenceCapacity node) b | None => 0 end).
    set (used := match indexOf (v_name v) (businessNames ctx) with
                 | Some b => getZ (businessCapacityArr node) b | None => 0 end).
    assert (Hpref0 : 0 <= pref).
    { unfold pref. destruct (indexOf _ _); [apply getZ_bounds; assumption | lia]. }
    assert (Hused : 0 <= used <= sumZ (businessCapacityArr node)).
    { unfold used. destruct (indexOf _ _).
      - apply getZ_bounds; assumption.
      - pose proof (getZ_bounds _ 0%nat Hcap). lia. }
    destruct (Z.ltb_spec 0 B) as [HB | HB]; simpl.
    + rewrite orb_true_iff, Qltb_true_iff, negb_true_iff, Z.leb_gt.
      rewrite (ratio_below_iff _ _ HB). reflexivity.
    + split; [discriminate |]. intros [Hq | Hz]; exfalso.
      * assert (B = 0) by (unfold B in *; lia). rewrite H in Hq.
        revert Hq. unfold Qlt, Qmult, inject_Z. simpl. lia.
      * unfold B in HB. lia.
  - intros [Hne | Hman]; unfold staffingRejects, isEmployees.
    + destruct (v_workerType v) as [[|] |]; try reflexivity. congruence.
    + rewrite Hman. simpl. rewrite andb_false_r. reflexivity.
Qed.

(** *** The filter and the table

    A rejected transition leaves the table and the set of updated buckets
    as they were. *)
Lemma rejected_transition_stores_nothing ctx w key node st i v :
  staffingRejects ctx node v = true ->
  successor ctx w key node i v = None
  /\ transition ctx w key node st (i, v) = Normal st.
Proof.
  intros Hrej. unfold transition, successor. simpl.
  destruct (capacity ctx <? w + v_size v); [split; reflexivity |].
  destruct (negb (isStorageBuilding v) && negb (affordable key v)); [split; reflexivity |].
  rewrite Hrej. split; reflexivity.
Qed.

Lemma mapGet_mapSet (m : Bucket) k n : mapGet (mapSet m k n) k = Some n.
Proof.
  unfold mapGet. induction m as [| e m IH]; simpl.
  - rewrite (proj2 (key_eqb_eq k k) eq_refl). reflexivity.
  - destruct (key_eqb (fst e) k) eqn:E; simpl.
    + rewrite (proj2 (key_eqb_eq k k) eq_refl). reflexivity.
    + rewrite E. exact IH.
Qed.

(** A transition the filter does not reject, of a variant that fits and
    can be paid for (or is a storage building), has a successor, and after
    it the destination bucket holds the successor's key with a node that
    scores at least as much as the successor. *)
Lemma passed_transition_stores_successor ctx w key node st i v bucket :
  staffingRejects ctx node v = false ->
  w + v_size v <= capacity ctx ->
  isStorageBuilding v || affordable key v = true ->
  0 <= w + v_size v ->
  fst st !! Z.to_nat (w + v_size v) = Some bucket ->
  exists key' node' st' bucket' stored,
    successor ctx w key node i v = Some (w + v_size v, key', node')
    /\ transition ctx w key node st (i, v) = Normal st'
    /\ fst st' !! Z.to_nat (w + v_size v) = Some bucket'
    /\ mapGet bucket' key' = Some stored
    /\ total node' <= total stored.
Proof.
  intros Hpass Hfit Hpay Hnw Hbucket.
  assert (Hgate : negb (isStorageBuilding v) && negb (affordable key v) = false).
  { destruct (isStorageBuilding v), (affordable key v); simpl in *; congruence. }
  unfold transition, successor. simpl.
  replace (capacity ctx <? w + v_size v) with false by (symmetry; apply Z.ltb_ge; exact Hfit).
  rewrite Hgate, Hpass.
  destruct (estimate ctx (aggregatesNext ctx node v) (w + v_size v)) as [totalEst allocated].
  replace (w + v_size v <? 0) with false by (symmetry; apply Z.ltb_ge; exact Hnw).
  rewrite Hbucket.
  match goal with
  | |- context [Some (?n, ?k, ?nd)] => set (key' := k); set (node' := nd)
  end.
  destruct (mapGet bucket key') as [existing |] eqn:Eget.
  - destruct (total existing <? total node') eqn:Elt.
    + exists key', node'. eexists. exists (mapSet bucket key' node'), node'.
      split; [reflexivity |]. split; [reflexivity |]. simpl.
      split; [apply list_lookup_insert_eq, (lookup_lt_Some _ _ _ Hbucket) |].
      split; [apply mapGet_mapSet | lia].
    + exists key', node', st, bucket, existing.
      split; [reflexivity |]. split; [reflexivity |].
      split; [exact Hbucket |]. split; [exact Eget |].
      apply Z.ltb_ge in Elt. exact Elt.
  - exists key', node'. eexists. exists (mapSet bucket key' node'), node'.
    split; [reflexivity |]. split; [reflexivity |]. simpl.
    split; [apply list_lookup_insert_eq, (lookup_lt_Some _ _ _ Hbucket) |].
    split; [apply mapGet_mapSet | lia].
Qed.

(** *** A business called [__proto__] *)

(** C5.  The staffing filter rejects a business that the placed houses can
    staff.  In the catalog with the house [Hut] (ten residents, no
    preference) and the business called [__proto__] (two jobs), the state
    with one hut is live in bucket 1 when the outer loop ends.  For this
    state and the non-mandatory employees variant of the business, the
    house capacity is H = 10, the business capacity after the placement is
    B' = 2, so H / B' = 5 is not below 0.9, and the preference capacity of
    the business, 10, is not below its business capacity plus the
    variant's capacity, 2: neither condition of the filter holds.  The
    source nevertheless takes the [continue]: [businessIndex] is a plain
    object, the assignment [businessIndex["__proto__"] = 0] stores nothing,
    [typeof bi === "number"] fails, and the filter compares a capacity of 2
    with a preference capacity read as 0.  No successor is made, the table
    is left as it was, and the optimizer returns the empty combination;
    with the business called [Mill], the same catalog gives one hut and
    one mill with an income of 50. *)
Theorem staffing_filter_rejects_staffable_business :
  let ctx := makeCtx protoShopCatalog 2 defaultOptions in
  let hut := mkVariant "houses" "Hut" 1 1 0 10 (StoNum 0) false noCost (Some residents) None in
  let shop :=
    mkVariant "shops" "__proto__" 1 1 50 2 (StoNum 0) false noCost (Some employees) None in
  variants ctx = [hut; shop]
  /\ (exists T key node,
        runDP ctx DEFAULT_BASE_RESOURCES = Normal T
        /\ T !! 1%nat = Some [(key, node)]
        /\ placement ctx DEFAULT_BASE_RESOURCES 1 key node [hut]
        /\ totalHouseCapacity node = 10
        /\ sumZ (businessCapacityArr node) + v_capacity shop = 2
        /\ byBusiness ctx (preferenceCapacity node) (v_name shop) = 10
        /\ byBusiness ctx (businessCapacityArr node) (v_name shop) + v_capacity shop = 2
        /\ ~ ((inject_Z (totalHouseCapacity node)
               / inject_Z (sumZ (businessCapacityArr node) + v_capacity shop) < 9 # 10)%Q
              \/ byBusiness ctx (preferenceCapacity node) (v_name shop)
                 < byBusiness ctx (businessCapacityArr node) (v_name shop) + v_capacity shop)
        /\ staffingRejects ctx node shop = true
        /\ successor ctx 1 key node 1 shop = None
        /\ forall st, transition ctx 1 key node st (1%nat, shop) = Normal st)
  /\ optimizeBlockIncomeFromDefinitions protoShopCatalog 2 defaultOptions
     = Normal (Some emptySolution)
  /\ exists r,
       optimizeBlockIncomeFromDefinitions millShopCatalog 2 defaultOptions = Normal (Some r)
       /\ map (fun c => (ci_name c, ci_count c)) (combination r)
          = [("Hut"%string, 1); ("Mill"%string, 1)]
       /\ totalIncome r = 50.
Proof.
  intros ctx hut shop. split; [vm_compute; reflexivity |]. split; [| split].
  - eexists _, _, _.
    split; [vm_compute; reflexivity |].
    split; [vm_compute; reflexivity |].
    split.
    { eapply (placement_step ctx DEFAULT_BASE_RESOURCES 0 _ _ [] 0%nat hut 1);
        [constructor | vm_compute; reflexivity | vm_compute; reflexivity]. }
    split; [vm_compute; reflexivity |].
    split; [vm_compute; reflexivity |].
    split; [vm_compute; reflexivity |].
    split; [vm_compute; reflexivity |].
    split; [intros [H | H]; vm_compute in H; discriminate |].
    assert (Hrej : staffingRejects ctx
                     (mkNode (Some (initialKey ctx DEFAULT_BASE_RESOURCES)) 0 0 0 0 10
                             [0] [0] [0] 0 0 [10]) shop = true)
      by (vm_compute; reflexivity).
    split; [exact Hrej |].
    split.
    + exact (proj1 (rejected_transition_stores_nothing ctx 1 _ _ ([], []) 1%nat shop Hrej)).
    + intros st.
      exact (proj2 (rejected_transition_stores_nothing ctx 1 _ _ st 1%nat shop Hrej)).
  - vm_compute. reflexivity.
  - eexists. split; [vm_compute; reflexivity |]. split; vm_compute; reflexivity.
Qed.

(** *** The live states of a catalog without negative capacities

    The hypotheses of [staffing_filter_rejects_iff] on the state hold for
    every state the search ever holds, when no variant of the catalog has a
    negative capacity. *)

Lemma bump_nonneg arr i d :
  0 <= d -> Forall (fun c => 0 <= c) arr -> Forall (fun c => 0 <= c) (bump arr i d).
Proof.
  intros Hd Harr. unfold bump. apply Forall_insert; [exact Harr |].
  pose proof (getZ_bounds arr i Harr). lia.
Qed.

Lemma addPreferences_nonneg ctx v houseCapacity pref :
  0 <= houseCapacity ->
  Forall (fun c => 0 <= c) pref ->
  Forall (fun c => 0 <= c) (addPreferences ctx v houseCapacity pref).
Proof.
  intros Hc. unfold addPreferences.
  assert (Hnames : forall names acc,
             Forall (fun c => 0 <= c) acc ->
             Forall (fun c => 0 <= c)
               (fold_left (fun acc prefBizName =>
                             match indexOf prefBizName (businessNames ctx) with
                             | Some bi => bump acc bi houseCapacity
                             | None => acc
                             end) names acc)).
  { induction names as [| n names IH]; intros acc Hacc; simpl; [exact Hacc |].
    apply IH. destruct (indexOf n (businessNames ctx)); [apply bump_nonneg |]; assumption. }
  assert (Hall : forall idxs acc,
             Forall (fun c => 0 <= c) acc ->
             Forall (fun c => 0 <= c)
               (fold_left (fun acc bi => bump acc bi houseCapacity) idxs acc)).
  { induction idxs as [| n idxs IH]; intros acc Hacc; simpl; [exact Hacc |].
    apply IH. apply bump_nonneg; assumption. }
  intros Hpref. destruct (v_prefers v) as [[| p ps] |]; auto.
Qed.

Lemma aggregatesNext_nonneg ctx node v :
  0 <= v_capacity v -> nonNegativeNode node -> nonNegativeNode (aggregatesNext ctx node v).
Proof.
  intros Hv (Hh & Hb & Hp). unfold aggregatesNext.
  destruct (v_workerType v) as [[|] |].
  - destruct (indexOf (v_name v) (businessNames ctx)); [| repeat split; assumption].
    repeat split; simpl; try assumption. apply bump_nonneg; assumption.
  - repeat split; simpl; [lia | assumption | apply addPreferences_nonneg; assumption].
  - repeat split; assumption.
Qed.

Lemma successor_nonneg ctx w key node i v nw newKey newNode :
  0 <= v_capacity v -> nonNegativeNode node ->
  successor ctx w key node i v = Some (nw, newKey, newNode) ->
  nonNegativeNode newNode.
Proof.
  intros Hv Hn. unfold successor.
  destruct (capacity ctx <? w + v_size v); [discriminate |].
  destruct (negb (isStorageBuilding v) && negb (affordable key v)); [discriminate |].
  destruct (staffingRejects ctx node v); [discriminate |].
  destruct (estimate ctx (aggregatesNext ctx node v) (w + v_size v)) as [totalEst alloc].
  intros [= _ _ <-]. apply (aggregatesNext_nonneg ctx node v Hv Hn).
Qed.

Lemma mapSet_nonneg (m : Bucket) k n :
  nonNegativeBucket m -> nonNegativeNode n -> nonNegativeBucket (mapSet m k n).
Proof.
  unfold nonNegativeBucket. intros Hm Hn. induction Hm as [| e m He Hm IH]; simpl.
  - constructor; [exact Hn | constructor].
  - destruct (key_eqb (fst e) k); constructor; assumption.
Qed.

Lemma pruneMapToBeam_nonneg ctx (m : Bucket) beam :
  nonNegativeBucket m -> nonNegativeBucket (pruneMapToBeam ctx m beam).
Proof.
  unfold nonNegativeBucket, pruneMapToBeam. intros Hm.
  destruct (Z.of_nat (length m) <=? beam); [exact Hm |].
  rewrite List.Forall_forall in Hm |- *. intros e He. apply filter_In in He. apply Hm, He.
Qed.

Lemma pruneUpdated_nonneg ctx upd T :
  Forall nonNegativeBucket T -> Forall nonNegativeBucket (pruneUpdated ctx T upd).
Proof.
  unfold pruneUpdated. revert T. induction upd as [| i upd IH]; intros T HT; simpl; [exact HT |].
  apply IH. destruct (T !! i) as [m |] eqn:E; [| exact HT].
  apply Forall_insert; [exact HT |]. apply pruneMapToBeam_nonneg.
  eapply Forall_lookup_1; eassumption.
Qed.

Lemma transition_nonneg ctx w key node st i v st' :
  0 <= v_capacity v -> nonNegativeNode node ->
  Forall nonNegativeBucket (fst st) ->
  transition ctx w key node st (i, v) = Normal st' ->
  Forall nonNegativeBucket (fst st').
Proof.
  intros Hv Hn Hs. unfold transition. cbn [fst snd].
  destruct (successor ctx w key node i v) as [[[nw newKey] newNode] |] eqn:Es;
    [| intros [= <-]; exact Hs].
  destruct (nw <? 0); [discriminate |].
  destruct (fst st !! Z.to_nat nw) as [bucket |] eqn:Eb; [| discriminate].
  destruct (match mapGet bucket newKey with
            | Some existing => total existing <? total newNode
            | None => true
            end); intros [= <-]; [| exact Hs].
  cbn [fst]. apply Forall_insert; [exact Hs |].
  apply mapSet_nonneg; [eapply Forall_lookup_1; eassumption |].
  eapply successor_nonneg; eassumption.
Qed.

Lemma dpPass_nonneg ctx T w T' :
  (forall v, In v (variants ctx) -> 0 <= v_capacity v) ->
  Forall nonNegativeBucket T ->
  dpPass ctx T w = Normal T' ->
  Forall nonNegativeBucket T'.
Proof.
  intros Hcat HT. unfold dpPass.
  destruct (expandBucket ctx w T) as [[T1 upd] | e |] eqn:E; simpl; try discriminate.
  intros [= <-]. apply pruneUpdated_nonneg.
  revert E. unfold expandBucket. destruct (T !! w) as [map |] eqn:Ew; [| discriminate].
  assert (Hmap : nonNegativeBucket map) by (eapply Forall_lookup_1; eassumption).
  intros E. change T1 with (fst (T1, upd)). revert E.
  apply (foldC_invariant_In (fun s => Forall nonNegativeBucket (fst s))); [| exact HT].
  intros s e s' He Hs.
  apply (foldC_invariant_In (fun s => Forall nonNegativeBucket (fst s))); [| exact Hs].
  intros s1 [i v] s2 Hiv Hs1. apply transition_nonneg; [| | exact Hs1].
  - apply Hcat. eapply indexed_In, Hiv.
  - unfold nonNegativeBucket in Hmap. rewrite List.Forall_forall in Hmap. apply Hmap, He.
Qed.

(** X1.  Every state of the table with which an iteration of the outer
    loop starts has non-negative capacities, for a catalog whose variants
    have non-negative capacities: the house capacity, the capacity of
    every business and the capacity of the houses that prefer it. *)
Lemma live_states_nonnegative ctx res w dpMaps :
  (forall v, In v (variants ctx) -> 0 <= v_capacity v) ->
  foldC (dpPass ctx) (seq 0 w) (initialTable ctx res) = Normal dpMaps ->
  forall bucket key node,
    In bucket dpMaps -> In (key, node) bucket -> nonNegativeNode node.
Proof.
  intros Hcat Hrun.
  assert (H : Forall nonNegativeBucket dpMaps).
  { revert Hrun. apply (foldC_invariant (Forall nonNegativeBucket)).
    - intros T k T'. apply dpPass_nonneg. exact Hcat.
    - unfold initialTable. apply Forall_insert.
      + apply Forall_replicate. constructor.
      + constructor; [| constructor]. simpl.
        repeat split; simpl; [lia | apply Forall_replicate; lia | apply Forall_replicate; lia]. }
  intros bucket key node Hb He.
  rewrite List.Forall_forall in H. specialize (H bucket Hb).
  unfold nonNegativeBucket in H. rewrite List.Forall_forall in H. apply (H (key, node) He).
Qed.

Lemma live_states_nonnegative_witness :
  let ctx := makeCtx twoHousesCatalog 2 defaultOptions in
  (forall v, In v (variants ctx) -> 0 <= v_capacity v)
  /\ exists dpMaps,
       foldC (dpPass ctx) (seq 0 2) (initialTable ctx DEFAULT_BASE_RESOURCES) = Normal dpMaps
       /\ length (concat dpMaps) = 6%nat
       /\ forall bucket key node,
            In bucket dpMaps -> In (key, node) bucket -> nonNegativeNode node.
Proof.
  intros ctx.
  assert (Hcap : forall v, In v (variants ctx) -> 0 <= v_capacity v).
  { intros v [<- | [<- | []]]; vm_compute; discriminate. }
  split; [exact Hcap |]. eexists.
  match goal with |- ?P /\ _ => assert (H : P) by (vm_compute; reflexivity) end.
  split; [exact H |]. split; [reflexivity |].
  exact (live_states_nonnegative ctx DEFAULT_BASE_RESOURCES 2 _ Hcap H).
Defined.

(** ** Beam pruning (C7) *)

Lemma insertByScore_perm ctx e l : Permutation (e :: l) (insertByScore ctx e l).
Proof.
  induction l as [| y l IH]; simpl.
  - apply Permutation_refl.
  - destruct (pruneScore ctx y <=? pruneScore ctx e).
    + apply Permutation_refl.
    + eapply perm_trans; [apply perm_swap |]. apply perm_skip. exact IH.
Qed.

Lemma sortByScore_perm ctx l : Permutation l (sortByScore ctx l).
Proof.
  induction l as [| e l IH]; simpl.
  - apply perm_nil.
  - eapply perm_trans; [apply perm_skip; exact IH |]. apply insertByScore_perm.
Qed.

Lemma insertByScore_sorted ctx e l :
  StronglySorted (fun a b => pruneScore ctx b <= pruneScore ctx a) l ->
  StronglySorted (fun a b => pruneScore ctx b <= pruneScore ctx a) (insertByScore ctx e l).
Proof.
  induction l as [| y l IH]; simpl; intros Hs.
  - constructor; constructor.
  - inversion Hs as [| ? ? Hl Hy]; subst.
    destruct (Z.leb_spec (pruneScore ctx y) (pruneScore ctx e)) as [Hle | Hgt].
    + constructor; [exact Hs |].
      constructor; [exact Hle |].
      rewrite List.Forall_forall in Hy |- *. intros z Hz. specialize (Hy z Hz). lia.
    + constructor; [apply IH; exact Hl |].
      rewrite List.Forall_forall in Hy |- *. intros z Hz.
      apply (Permutation_in z (Permutation_sym (insertByScore_perm ctx e l))) in Hz.
      destruct Hz as [<- | Hz]; [lia | apply Hy; exact Hz].
Qed.

Lemma sortByScore_sorted ctx l :
  StronglySorted (fun a b => pruneScore ctx b <= pruneScore ctx a) (sortByScore ctx l).
Proof.
  induction l as [| e l IH]; simpl.
  - constructor.
  - apply insertByScore_sorted. exact IH.
Qed.

(** In a descending list, whatever lies in the first [n] entries ranks at
    least as high as whatever lies behind them. *)
Lemma sorted_prefix_dominates ctx l n a b :
  StronglySorted (fun a b => pruneScore ctx b <= pruneScore ctx a) l ->
  In a (firstn n l) -> In b (skipn n l) -> pruneScore ctx b <= pruneScore ctx a.
Proof.
  intros Hs. revert n. induction Hs as [| x l Hl IH Hx]; intros n Ha Hb.
  - rewrite firstn_nil in Ha. destruct Ha.
  - destruct n as [| n]; simpl in Ha, Hb; [destruct Ha |].
    destruct Ha as [<- | Ha].
    + rewrite List.Forall_forall in Hx. apply Hx. eapply suffix_In, Hb.
    + eapply IH; eassumption.
Qed.

(** With distinct keys, keeping the keys of the first [n] sorted entries
    keeps exactly those entries. *)
Lemma kept_iff_in_prefix (m sorted : Bucket) n e :
  keysDistinct m -> Permutation m sorted ->
  In e m ->
  (existsb (key_eqb (fst e)) (map fst (firstn n sorted)) = true <-> In e (firstn n sorted)).
Proof.
  intros Hnd Hp He. rewrite existsb_key_In. split.
  - intros Hin. apply in_map_iff in Hin. destruct Hin as (x & Hx & Hin).
    assert (x = e) as <-; [| exact Hin].
    apply (keysDistinct_same_key m); try assumption.
    eapply Permutation_in; [apply Permutation_sym, Hp |]. eapply prefix_In, Hin.
  - intros Hin. apply in_map. exact Hin.
Qed.

(** What [pruneMapToBeam] does to a map with distinct keys, for a
    non-negative beam: it keeps [min (size, beam)] entries of the map, and
    every entry it keeps scores at least as high as every entry it drops. *)
Lemma pruneMapToBeam_spec ctx (m : Bucket) beam :
  0 <= beam -> keysDistinct m ->
  keysDistinct (pruneMapToBeam ctx m beam)
  /\ length (pruneMapToBeam ctx m beam) = Nat.min (length m) (Z.to_nat beam)
  /\ (forall e, In e (pruneMapToBeam ctx m beam) -> In e m)
  /\ (forall e e',
        In e (pruneMapToBeam ctx m beam) -> In e' m -> ~ In e' (pruneMapToBeam ctx m beam) ->
        pruneScore ctx e' <= pruneScore ctx e).
Proof.
  intros Hbeam Hnd. unfold pruneMapToBeam.
  destruct (Z.leb_spec (Z.of_nat (length m)) beam) as [Hle | Hgt].
  - split; [exact Hnd |]. split; [lia |]. split; [auto |]. intros e e' _ He' Hn. contradiction.
  - unfold sliceFromStart. destruct (Z.ltb_spec beam 0) as [Hneg | _]; [lia |].
    set (n := Z.to_nat beam). set (sorted := sortByScore ctx m).
    set (p := fun e : Key * Node => existsb (key_eqb (fst e)) (map fst (firstn n sorted))).
    assert (Hp : Permutation m sorted) by apply sortByScore_perm.
    assert (Hsplit : sorted = firstn n sorted ++ skipn n sorted)
      by (symmetry; apply firstn_skipn).
    assert (Hnds : List.NoDup (firstn n sorted ++ skipn n sorted)).
    { rewrite <- Hsplit. apply (keysDistinct_perm m sorted Hp) in Hnd.
      unfold keysDistinct in Hnd. eapply NoDup_map_inv, Hnd. }
    assert (Hkept : forall e, In e m -> (p e = true <-> In e (firstn n sorted))).
    { intros e He. apply (kept_iff_in_prefix m sorted n e Hnd Hp He). }
    split; [apply keysDistinct_filter; exact Hnd |].
    split.
    + rewrite (filter_length_perm p m sorted Hp). rewrite Hsplit at 1.
      rewrite List.filter_app, List.length_app.
      rewrite (filter_all p (firstn n sorted)).
      * rewrite (filter_none p (skipn n sorted)).
        -- simpl. rewrite length_firstn. rewrite <- (Permutation_length Hp). lia.
        -- intros x Hx. destruct (p x) eqn:E; [| reflexivity]. exfalso.
           assert (Hxm : In x m).
           { eapply Permutation_in; [apply Permutation_sym, Hp |]. eapply suffix_In, Hx. }
           apply (Hkept x Hxm) in E. eapply NoDup_app_disjoint; eassumption.
      * intros x Hx. apply Hkept; [| exact Hx].
        eapply Permutation_in; [apply Permutation_sym, Hp |]. eapply prefix_In, Hx.
    + split.
      * intros e He. apply filter_In in He. apply He.
      * intros e e' He He' Hn. apply filter_In in He. destruct He as [Hem Hpe].
        apply (Hkept e Hem) in Hpe.
        assert (Hpe' : p e' = false).
        { destruct (p e') eqn:E; [| reflexivity]. exfalso. apply Hn.
          apply filter_In. split; assumption. }
        assert (Hs' : In e' (skipn n sorted)).
        { assert (Hin : In e' sorted) by (eapply Permutation_in; eassumption).
          rewrite Hsplit in Hin. apply in_app_or in Hin. destruct Hin as [Hin | Hin]; [| exact Hin].
          apply (Hkept e' He') in Hin. congruence. }
        eapply sorted_prefix_dominates; [apply sortByScore_sorted | exact Hpe | exact Hs'].
Qed.

Lemma pruneMapToBeam_idempotent ctx (m : Bucket) beam :
  0 <= beam -> keysDistinct m ->
  pruneMapToBeam ctx (pruneMapToBeam ctx m beam) beam = pruneMapToBeam ctx m beam.
Proof.
  intros Hbeam Hnd.
  destruct (pruneMapToBeam_spec ctx m beam Hbeam Hnd) as (_ & Hlen & _).
  unfold pruneMapToBeam at 1.
  destruct (Z.leb_spec (Z.of_nat (length (pruneMapToBeam ctx m beam))) beam) as [_ | Hgt];
    [reflexivity | lia].
Qed.

Lemma pruneMapToBeam_In ctx (m : Bucket) beam e : In e (pruneMapToBeam ctx m beam) -> In e m.
Proof.
  unfold pruneMapToBeam. destruct (Z.of_nat (length m) <=? beam); [auto |].
  intros H. apply filter_In in H. apply H.
Qed.

(** For a required mask that is not negative, the sort key of the pruner
    is the ranking of the specification. *)
Lemma pruneScore_beamRank ctx e :
  0 <= requiredMask ctx -> pruneScore ctx e = beamRank (requiredMask ctx) e.
Proof.
  intros H. unfold pruneScore, beamRank. f_equal.
  destruct (Z.eqb_spec (requiredMask ctx) 0) as [E0 | N0];
    destruct (Z.ltb_spec 0 (requiredMask ctx)); simpl; try lia; reflexivity.
Qed.

Lemma transition_invariant ctx w key node T0 st iv st' :
  passInvariant T0 st ->
  transition ctx w key node st iv = Normal st' ->
  passInvariant T0 st'.
Proof.
  intros (Hlen & Hnd & Hsame). unfold transition.
  destruct (successor ctx w key node (fst iv) (snd iv)) as [[[nw newKey] newNode] |];
    [| intros [= <-]; repeat split; assumption].
  destruct (nw <? 0); [discriminate |].
  destruct (fst st !! Z.to_nat nw) as [bucket |] eqn:Eb; [| discriminate].
  destruct (match mapGet bucket newKey with
            | Some existing => total existing <? total newNode
            | None => true
            end);
    intros [= <-]; [| repeat split; assumption].
  unfold passInvariant. simpl. split; [| split].
  - rewrite length_insert. exact Hlen.
  - apply Forall_insert; [exact Hnd |].
    apply mapSet_keysDistinct. eapply Forall_lookup_1; eassumption.
  - intros idx Hidx. rewrite setAdd_In in Hidx.
    rewrite list_lookup_insert_ne; [| intros Heq; apply Hidx; left; symmetry; exact Heq].
    apply Hsame. intros H. apply Hidx. right. exact H.
Qed.

Lemma transition_length ctx w key node st iv st' :
  transition ctx w key node st iv = Normal st' -> length (fst st') = length (fst st).
Proof.
  unfold transition.
  destruct (successor ctx w key node (fst iv) (snd iv)) as [[[nw newKey] newNode] |];
    [| intros [= <-]; reflexivity].
  destruct (nw <? 0); [discriminate |].
  destruct (fst st !! Z.to_nat nw) as [bucket |]; [| discriminate].
  destruct (match mapGet bucket newKey with
            | Some existing => total existing <? total newNode
            | None => true
            end); intros [= <-]; [| reflexivity].
  cbn [fst]. apply length_insert.
Qed.

Lemma expandBucket_invariant ctx w T st :
  Forall keysDistinct T ->
  expandBucket ctx w T = Normal st ->
  passInvariant T st.
Proof.
  intros Hnd. unfold expandBucket. destruct (T !! w) as [map |]; [| discriminate].
  apply (foldC_invariant (passInvariant T)).
  - intros s e s' Hs. apply (foldC_invariant (passInvariant T)); [| exact Hs].
    intros s1 iv s2. apply transition_invariant.
  - split; [reflexivity | split; [exact Hnd | reflexivity]].
Qed.

(** The table after the pruning loop, bucket by bucket. *)
Lemma pruneUpdated_lookup ctx upd T idx :
  0 <= BEAM_WIDTH ctx -> Forall keysDistinct T ->
  pruneUpdated ctx T upd !! idx
  = match T !! idx with
    | Some m => Some (if existsb (Nat.eqb idx) upd
                      then pruneMapToBeam ctx m (BEAM_WIDTH ctx) else m)
    | None => None
    end.
Proof.
  intros Hbeam. unfold pruneUpdated. revert T.
  induction upd as [| i upd IH]; intros T Hnd; simpl.
  - destruct (T !! idx); reflexivity.
  - destruct (T !! i) as [mi |] eqn:Ei.
    + assert (Hmi : keysDistinct mi) by (eapply Forall_lookup_1; eassumption).
      destruct (pruneMapToBeam_spec ctx mi (BEAM_WIDTH ctx) Hbeam Hmi) as (Hnd' & _).
      rewrite IH; [| apply Forall_insert; assumption].
      destruct (Nat.eqb_spec idx i) as [-> | Hne]; simpl.
      * rewrite list_lookup_insert_eq; [| eapply lookup_lt_Some; eassumption].
        rewrite Ei. f_equal.
        destruct (existsb (Nat.eqb i) upd); [| reflexivity].
        apply pruneMapToBeam_idempotent; assumption.
      * rewrite list_lookup_insert_ne; [| congruence]. reflexivity.
    + rewrite IH; [| exact Hnd].
      destruct (Nat.eqb_spec idx i) as [-> | Hne]; simpl; [| reflexivity].
      rewrite Ei. reflexivity.
Qed.

Lemma pruneUpdated_length ctx upd T : length (pruneUpdated ctx T upd) = length T.
Proof.
  unfold pruneUpdated. revert T. induction upd as [| i upd IH]; intros T; simpl; [reflexivity |].
  rewrite IH. destruct (T !! i); [apply length_insert | reflexivity].
Qed.

(** One iteration of the outer loop keeps every bucket within the beam. *)
Lemma dpPass_withinBeam ctx T w T' :
  0 <= BEAM_WIDTH ctx ->
  Forall (withinBeam ctx) T ->
  dpPass ctx T w = Normal T' ->
  Forall (withinBeam ctx) T'.
Proof.
  intros Hbeam Hin. unfold dpPass.
  destruct (expandBucket ctx w T) as [[T1 upd] | e |] eqn:E; simpl; try discriminate.
  intros [= <-].
  assert (HndT : Forall keysDistinct T).
  { eapply Forall_impl; [exact Hin |]. intros b Hb. apply Hb. }
  destruct (expandBucket_invariant ctx w T _ HndT E) as (_ & Hnd1 & Hsame). simpl in *.
  apply Forall_lookup_2. intros idx b Hb.
  rewrite (pruneUpdated_lookup ctx upd T1 idx Hbeam Hnd1) in Hb.
  destruct (T1 !! idx) as [m |] eqn:Em; [| discriminate]. injection Hb as <-.
  assert (Hm : keysDistinct m) by (eapply Forall_lookup_1; eassumption).
  destruct (existsb (Nat.eqb idx) upd) eqn:Eu.
  - destruct (pruneMapToBeam_spec ctx m (BEAM_WIDTH ctx) Hbeam Hm) as (Hk & Hlen & _).
    split; [exact Hk | lia].
  - assert (Hnot : ~ In idx upd).
    { intros H. apply existsb_eqb_In in H. congruence. }
    rewrite (Hsame idx Hnot) in Em. eapply Forall_lookup_1; eassumption.
Qed.

Lemma initialTable_withinBeam ctx res :
  1 <= BEAM_WIDTH ctx -> Forall (withinBeam ctx) (initialTable ctx res).
Proof.
  intros Hbeam. unfold initialTable. apply Forall_insert.
  - apply Forall_replicate. split; [constructor | simpl; lia].
  - split; [| simpl; lia]. constructor; [intros [] | constructor].
Qed.

Lemma runDP_withinBeam ctx res dpMaps :
  1 <= BEAM_WIDTH ctx ->
  runDP ctx res = Normal dpMaps ->
  Forall (withinBeam ctx) dpMaps.
Proof.
  intros Hbeam. unfold runDP.
  apply (foldC_invariant (Forall (withinBeam ctx))).
  - intros T w T' HT. apply dpPass_withinBeam; [lia | exact HT].
  - apply initialTable_withinBeam. exact Hbeam.
Qed.

(** C7.  For a beam width of at least 1 and a required mask that is not
    negative.  First part: take the table [dpMaps] with which iteration [w]
    of the outer loop starts, and the table [T1] and the set [upd] of
    updated buckets with which its transitions end.  The iteration ends by
    pruning the buckets of [upd]; for each of them, the pruned bucket [m']
    holds at most [BEAM_WIDTH] entries, all of them entries of the bucket
    [m] before pruning, [min (size of m, BEAM_WIDTH)] many, and each one
    ranks at least as high as every entry that was dropped, in the order by
    score plus 10^9 for a state that carries the required mask.  Second
    part: in the table the selection reads, every bucket holds at most
    [BEAM_WIDTH] entries. *)
Theorem beam_pruning_keeps_the_top_states :
  (forall ctx res w dpMaps T1 upd idx m,
      1 <= BEAM_WIDTH ctx ->
      0 <= requiredMask ctx ->
      foldC (dpPass ctx) (seq 0 w) (initialTable ctx res) = Normal dpMaps ->
      expandBucket ctx w dpMaps = Normal (T1, upd) ->
      In idx upd ->
      T1 !! idx = Some m ->
      dpPass ctx dpMaps w = Normal (pruneUpdated ctx T1 upd)
      /\ exists m',
          pruneUpdated ctx T1 upd !! idx = Some m'
          /\ Z.of_nat (length m') <= BEAM_WIDTH ctx
          /\ length m' = Nat.min (length m) (Z.to_nat (BEAM_WIDTH ctx))
          /\ (forall e, In e m' -> In e m)
          /\ (forall e e',
                In e m' -> In e' m -> ~ In e' m' ->
                beamRank (requiredMask ctx) e' <= beamRank (requiredMask ctx) e))
  /\ (forall ctx res dpMaps,
         1 <= BEAM_WIDTH ctx ->
         runDP ctx res = Normal dpMaps ->
         Forall (fun bucket => Z.of_nat (length bucket) <= BEAM_WIDTH ctx) dpMaps).
Proof.
  split.
  - intros ctx res w dpMaps T1 upd idx m Hbeam Hmask Hrun Hexp Hidx Hm.
    assert (Hbeam0 : 0 <= BEAM_WIDTH ctx) by lia.
    assert (Hin : Forall (withinBeam ctx) dpMaps).
    { revert Hrun. apply (foldC_invariant (Forall (withinBeam ctx))).
      - intros T k T' HT. apply dpPass_withinBeam; assumption.
      - apply initialTable_withinBeam. exact Hbeam. }
    assert (Hnd : Forall keysDistinct dpMaps).
    { eapply Forall_impl; [exact Hin |]. intros b Hb. apply Hb. }
    destruct (expandBucket_invariant ctx w dpMaps _ Hnd Hexp) as (_ & Hnd1 & _).
    simpl in Hnd1.
    split; [unfold dpPass; rewrite Hexp; reflexivity |].
    assert (Hmd : keysDistinct m) by (eapply Forall_lookup_1; eassumption).
    destruct (pruneMapToBeam_spec ctx m (BEAM_WIDTH ctx) Hbeam0 Hmd)
      as (_ & Hlen & Hsub & Htop).
    exists (pruneMapToBeam ctx m (BEAM_WIDTH ctx)).
    split.
    { rewrite (pruneUpdated_lookup ctx upd T1 idx Hbeam0 Hnd1), Hm.
      apply existsb_eqb_In in Hidx. rewrite Hidx. reflexivity. }
    split; [lia |]. split; [exact Hlen |]. split; [exact Hsub |].
    intros e e' He He' Hn. rewrite <- !pruneScore_beamRank by exact Hmask.
    apply Htop; assumption.
  - intros ctx res dpMaps Hbeam Hrun.
    eapply Forall_impl; [apply (runDP_withinBeam ctx res dpMaps Hbeam Hrun) |].
    intros b Hb. apply Hb.
Qed.

Lemma beam_pruning_keeps_the_top_states_witness :
  let ctx := makeCtx twoHousesCatalog 1 narrowBeamOptions in
  let st := match expandBucket ctx 0 (initialTable ctx DEFAULT_BASE_RESOURCES) with
            | Normal s => s
            | _ => ([], [])
            end in
  (length (nth 1 (fst st) []) = 2%nat
   /\ exists m',
       pruneUpdated ctx (fst st) (snd st) !! 1%nat = Some m'
       /\ length m' = 1%nat)
  /\ exists dpMaps,
       runDP ctx DEFAULT_BASE_RESOURCES = Normal dpMaps
       /\ Forall (fun bucket => Z.of_nat (length bucket) <= 1) dpMaps.
Proof.
  intros ctx st. split.
  - split; [vm_compute; reflexivity |].
    destruct (proj1 beam_pruning_keeps_the_top_states ctx DEFAULT_BASE_RESOURCES 0%nat
                (initialTable ctx DEFAULT_BASE_RESOURCES) (fst st) (snd st) 1%nat
                (nth 1 (fst st) []))
      as (_ & m' & Hm' & _ & Hlen & _).
    + vm_compute. discriminate.
    + vm_compute. discriminate.
    + reflexivity.
    + vm_compute. reflexivity.
    + vm_compute. left. reflexivity.
    + vm_compute. reflexivity.
    + exists m'. split; [exact Hm' |]. rewrite Hlen. vm_compute. reflexivity.
  - eexists. split; [vm_compute; reflexivity |].
    refine (proj2 beam_pruning_keeps_the_top_states ctx DEFAULT_BASE_RESOURCES _ _ _).
    + vm_compute. discriminate.
    + vm_compute. reflexivity.
Defined.

(** ** Selection *)

(** *** Mandatory coverage (C1) *)

(** C1.  The claim is that a returned result covers every mandatory misc
    name and that [null] is returned exactly when no state of the table
    carries the full mask.  The selection loop does not read the mask field
    of the key: it compares the wood field with the required mask.  On the
    catalog with the single mandatory building M1 and size limit 1, run
    with the default options, the table holds a state whose mask is the
    required mask 1, and the optimizer still returns [null]; run with one
    unit of wood, it returns a result whose combination is empty, so M1 is
    missing from it. *)
Theorem selection_compares_wood_with_required_mask :
  (requiredMask (makeCtx oneMandatoryCatalog 1 defaultOptions) = 1
   /\ (exists dpMaps bucket e,
         runDP (makeCtx oneMandatoryCatalog 1 defaultOptions) DEFAULT_BASE_RESOURCES
           = Normal dpMaps
         /\ In bucket dpMaps /\ In e bucket
         /\ k_mask (fst e) = requiredMask (makeCtx oneMandatoryCatalog 1 defaultOptions))
   /\ optimizeBlockIncomeFromDefinitions oneMandatoryCatalog 1 defaultOptions = Normal None)
  /\ (requiredMask (makeCtx oneMandatoryCatalog 1 oneWoodOptions) = 1
      /\ mandatoryMiscNames oneMandatoryCatalog = ["M1"%string]
      /\ optimizeBlockIncomeFromDefinitions oneMandatoryCatalog 1 oneWoodOptions
           = Normal (Some emptySolution)).
Proof.
  split; [split; [reflexivity | split] | repeat split].
  - eexists _, _, _. split; [vm_compute; reflexivity |].
    split; [right; left; reflexivity |].
    split; [left; reflexivity | reflexivity].
  - vm_compute. reflexivity.
Qed.

(** What the selection does decide on: the optimizer answers [null]
    exactly when a mask is required and no state with non-negative money
    has a wood field equal to the required mask. *)
Lemma selectStep_covering ctx w b e :
  (bestWithAllKey b = None <-> bestWithAllValue b = None) ->
  (bestWithAllKey (selectStep ctx w b e) = None
   <-> bestWithAllValue (selectStep ctx w b e) = None)
  /\ (bestWithAllKey (selectStep ctx w b e) = None
      <-> bestWithAllKey b = None
          /\ ~ (0 <= k_money (fst e) /\ requiredMask ctx <> 0
                /\ k_wood (fst e) = requiredMask ctx)).
Proof.
  intros Hinv. unfold selectStep.
  destruct (Z.ltb_spec (k_money (fst e)) 0) as [Hneg | Hpos].
  { split; [exact Hinv |]. split; [intros H; split; [exact H | lia] | intros [H _]; exact H]. }
  destruct (Z.eqb_spec (requiredMask ctx) 0) as [Hz | Hnz]; simpl.
  { destruct (exceeds (total (snd e)) (bestValue b)); simpl;
      (split; [exact Hinv |]);
      (split; [intros H; split; [exact H | intros (_ & Hc & _); contradiction]
              | intros [H _]; exact H]). }
  destruct (Z.eqb_spec (k_wood (fst e)) (requiredMask ctx)) as [Hw | Hw].
  - destruct (bestWithAllValue b) as [val |] eqn:Ev; simpl.
    + assert (Hk : bestWithAllKey b <> None).
      { intros Hk. apply Hinv in Hk. discriminate. }
      destruct (val <? total (snd e)); simpl;
        match goal with
        | |- context [exceeds ?x ?y] => destruct (exceeds x y)
        end; simpl; rewrite ?Ev;
        (split; [split; intros H; try discriminate; try (apply Hinv in H; discriminate);
                 try contradiction
                | split; [intros H; try discriminate; contradiction
                         | intros [H _]; contradiction]]).
    + match goal with
      | |- context [exceeds ?x ?y] => destruct (exceeds x y)
      end; simpl;
        (split; [split; intros H; discriminate
                | split; [intros H; discriminate
                         | intros [_ H]; exfalso; apply H; repeat split; assumption]]).
  - match goal with
    | |- context [exceeds ?x ?y] => destruct (exceeds x y)
    end; simpl;
      (split; [exact Hinv |]);
      (split; [intros H; split; [exact H | intros (_ & _ & Hc); contradiction]
              | intros [H _]; exact H]).
Qed.

Lemma selectBest_covering ctx (T : list Bucket) :
  bestWithAllKey (selectBest ctx T) = None
  <-> forall bucket e,
        In bucket T -> In e bucket ->
        ~ (0 <= k_money (fst e) /\ requiredMask ctx <> 0
           /\ k_wood (fst e) = requiredMask ctx).
Proof.
  unfold selectBest.
  assert (Hentries : forall w (m : Bucket) b,
             (bestWithAllKey b = None <-> bestWithAllValue b = None) ->
             (bestWithAllKey (fold_left (selectStep ctx w) m b) = None
              <-> bestWithAllValue (fold_left (selectStep ctx w) m b) = None)
             /\ (bestWithAllKey (fold_left (selectStep ctx w) m b) = None
                 <-> bestWithAllKey b = None
                     /\ forall e, In e m ->
                          ~ (0 <= k_money (fst e) /\ requiredMask ctx <> 0
                             /\ k_wood (fst e) = requiredMask ctx))).
  { intros w m. induction m as [| e m IH]; intros b Hinv; simpl.
    - split; [exact Hinv |]. split; [intros H; split; [exact H | intros e []] | intros [H _]; exact H].
    - destruct (selectStep_covering ctx w b e Hinv) as [Hinv' Hstep].
      destruct (IH _ Hinv') as [Hinv'' Hrest]. split; [exact Hinv'' |].
      rewrite Hrest, Hstep. split.
      + intros [[Hb He] Hm]. split; [exact Hb |]. intros x [<- | Hx]; [exact He | apply Hm, Hx].
      + intros [Hb Hall]. split; [split; [exact Hb | apply Hall; left; reflexivity] |].
        intros x Hx. apply Hall. right. exact Hx. }
  assert (Hbuckets : forall (l : list (nat * Bucket)) b,
             (bestWithAllKey b = None <-> bestWithAllValue b = None) ->
             (bestWithAllKey (fold_left (fun b wm => fold_left (selectStep ctx (fst wm)) (snd wm) b)
                                       l b) = None
              <-> bestWithAllKey b = None
                  /\ forall wm e, In wm l -> In e (snd wm) ->
                       ~ (0 <= k_money (fst e) /\ requiredMask ctx <> 0
                          /\ k_wood (fst e) = requiredMask ctx))).
  { induction l as [| [w m] l IH]; intros b Hinv; simpl.
    - split; [intros H; split; [exact H | intros wm e []] | intros [H _]; exact H].
    - destruct (Hentries w m b Hinv) as [Hinv' Hm].
      rewrite (IH _ Hinv'), Hm. split.
      + intros [[Hb Hhere] Hrest]. split; [exact Hb |].
        intros wm e [<- | Hwm] He; [apply Hhere, He | eapply Hrest; eassumption].
      + intros [Hb Hall]. split; [split; [exact Hb |] |].
        * intros e He. apply (Hall (w, m) e); [left; reflexivity | exact He].
        * intros wm e Hwm He. apply (Hall wm e); [right; exact Hwm | exact He]. }
  rewrite Hbuckets by (simpl; tauto). simpl. split.
  - intros [_ H] bucket e Hb He.
    destruct (In_indexed_from T 0 bucket Hb) as [i Hi].
    apply (H (i, bucket) e); [exact Hi | exact He].
  - intros H. split; [reflexivity |]. intros [i m] e Hwm He.
    apply (H m e); [eapply indexed_In, Hwm | exact He].
Qed.

Lemma optimizer_returns_null_iff ctx (T : list Bucket) :
  chooseStart ctx (selectBest ctx T) = None
  <-> requiredMask ctx <> 0
      /\ forall bucket e,
           In bucket T -> In e bucket ->
           0 <= k_money (fst e) -> k_wood (fst e) <> requiredMask ctx.
Proof.
  unfold chooseStart. destruct (Z.eqb_spec (requiredMask ctx) 0) as [Hz | Hnz]; simpl.
  - split; [discriminate | intros [H _]; contradiction].
  - destruct (bestWithAllKey (selectBest ctx T)) as [k |] eqn:E.
    + split; [discriminate |]. intros [_ H]. exfalso.
      assert (Hnone : bestWithAllKey (selectBest ctx T) = None); [| congruence].
      apply selectBest_covering. intros bucket e Hb He (Hm & _ & Hw).
      apply (H bucket e Hb He Hm Hw).
    + split; [| reflexivity]. intros _. split; [exact Hnz |].
      intros bucket e Hb He Hm Hw.
      apply (proj1 (selectBest_covering ctx T) E bucket e Hb He).
      repeat split; assumption.
Qed.

(** *** Size limit 0 (C8) *)

(** C8.  The claim is that with size limit 0 the optimizer returns [null]
    whenever a mask is required.  The selection compares the wood field of
    the key with the required mask (the defect of C1): with one mandatory
    building and one unit of wood among the starting resources, the root
    state passes for a covering state and a result with an empty
    combination is returned. *)
Theorem zero_size_limit_returns_a_result_despite_the_mask :
  0 < requiredMask (makeCtx oneMandatoryCatalog 0 oneWoodOptions)
  /\ optimizeBlockIncomeFromDefinitions oneMandatoryCatalog 0 oneWoodOptions
     = Normal (Some emptySolution).
Proof. split; vm_compute; reflexivity. Qed.

(** Apart from that defect the boundary behaviour holds: the wood field of
    the root key has to differ from the required mask, as it does with the
    default starting resources, 100 not being a required mask. *)

(** No required mask is 100: it is 0, a power of two minus 1, or
    -2^31 - 1. *)
Lemma requiredMask_not_100 defs sizeLimit opts :
  requiredMask (makeCtx defs sizeLimit opts) <> 100.
Proof.
  unfold makeCtx. simpl.
  match goal with |- context [length ?l] => generalize (length l) end.
  intros n. destruct (0 <? n)%nat; [| lia].
  unfold jsShl.
  assert (Hk : 0 <= Z.of_nat n mod 32 < 32) by (apply Z.mod_pos_bound; lia).
  generalize dependent (Z.of_nat n mod 32). intros k Hk.
  assert (Hcases : forallb (fun k => negb (toInt32 (Z.shiftl (toInt32 1) k) - 1 =? 100))
                          (map Z.of_nat (seq 0 32)) = true) by (vm_compute; reflexivity).
  rewrite forallb_forall in Hcases.
  specialize (Hcases k).
  assert (Hin : In k (map Z.of_nat (seq 0 32))).
  { apply in_map_iff. exists (Z.to_nat k). split; [lia |]. apply in_seq. lia. }
  apply Hcases in Hin. apply negb_true_iff, Z.eqb_neq in Hin. exact Hin.
Qed.

(** With capacity 0 and no variant of size below 1, the outer loop leaves
    the table at its root state. *)
Lemma runDP_zero_capacity ctx res :
  capacity ctx = 0 ->
  (forall v, In v (variants ctx) -> 1 <= v_size v) ->
  runDP ctx res = Normal [[(initialKey ctx res, initialNode ctx)]].
Proof.
  intros Hcap Hsize. unfold runDP, initialTable. rewrite Hcap. simpl.
  unfold dpPass, expandBucket. simpl.
  rewrite foldC_unchanged; [reflexivity |].
  intros [i v] Hin. apply indexed_In in Hin. specialize (Hsize v Hin).
  unfold transition, successor. cbn [fst snd]. rewrite Hcap.
  destruct (Z.ltb_spec 0 (Z.of_nat 0 + v_size v)) as [_ | Hle]; [reflexivity |].
  simpl in Hle. lia.
Qed.

(** The selection over a table that holds only the root state, when the
    wood field of the root key is not the required mask. *)
Lemma chooseStart_root ctx res :
  wood res <> requiredMask ctx ->
  chooseStart ctx (selectBest ctx [[(initialKey ctx res, initialNode ctx)]])
  = if requiredMask ctx =? 0
    then Some (0, if money res <? 0 then None else Some (initialKey ctx res))
    else None.
Proof.
  intros Hwood. unfold selectBest, chooseStart, selectStep. simpl.
  destruct (money res <? 0); simpl.
  - destruct (requiredMask ctx =? 0); reflexivity.
  - destruct (Z.eqb_spec (wood res) (requiredMask ctx)) as [E | _]; [contradiction |].
    rewrite andb_false_r. simpl.
    destruct (requiredMask ctx =? 0); reflexivity.
Qed.

(** The boundary behaviour at size limit 0 holds whenever the wood among
    the starting resources is not the required mask. *)
Lemma zero_size_limit_unless_wood_matches defs opts :
  wood (nullish (startingResources opts) DEFAULT_BASE_RESOURCES)
    <> requiredMask (makeCtx defs 0 opts) ->
  (forall v, In v (buildVariantsFromDefinitions defs) -> 0 <= v_size v) ->
  (requiredMask (makeCtx defs 0 opts) = 0 ->
   optimizeBlockIncomeFromDefinitions defs 0 opts = Normal (Some emptySolution))
  /\ (requiredMask (makeCtx defs 0 opts) <> 0 ->
      optimizeBlockIncomeFromDefinitions defs 0 opts = Normal None).
Proof.
  intros Hwood Hsize.
  set (res := nullish (startingResources opts) DEFAULT_BASE_RESOURCES) in *.
  assert (Hrun : runDP (makeCtx defs 0 opts) res
                 = Normal [[(initialKey (makeCtx defs 0 opts) res,
                             initialNode (makeCtx defs 0 opts))]]).
  { apply runDP_zero_capacity; [reflexivity |].
    intros v Hin.
    change (variants (makeCtx defs 0 opts)) with (buildVariantsFromDefinitions defs) in Hin.
    pose proof (buildVariants_size_nonzero defs v Hin).
    pose proof (Hsize v Hin). lia. }
  unfold optimizeBlockIncomeFromDefinitions. fold res.
  rewrite Hrun. cbn [cbind]. rewrite (chooseStart_root _ _ Hwood).
  split; intros Hmask.
  - rewrite Hmask. simpl. destruct (money res <? 0); reflexivity.
  - destruct (Z.eqb_spec (requiredMask (makeCtx defs 0 opts)) 0) as [E | _];
      [contradiction | reflexivity].
Qed.

(** X2.  Size limit 0 with the default starting resources, for a catalog
    without negative sizes: the call returns the empty combination with
    income 0 when no mask is required, and [null] when one is. *)
Lemma zero_size_limit_default_resources defs opts :
  startingResources opts = None ->
  (forall v, In v (buildVariantsFromDefinitions defs) -> 0 <= v_size v) ->
  (requiredMask (makeCtx defs 0 opts) = 0 ->
   optimizeBlockIncomeFromDefinitions defs 0 opts = Normal (Some emptySolution))
  /\ (requiredMask (makeCtx defs 0 opts) <> 0 ->
      optimizeBlockIncomeFromDefinitions defs 0 opts = Normal None).
Proof.
  intros Hres. apply zero_size_limit_unless_wood_matches.
  rewrite Hres. simpl. intros E.
  apply (requiredMask_not_100 defs 0 opts). symmetry. exact E.
Qed.

Lemma zero_size_limit_default_resources_witness :
  startingResources defaultOptions = None
  /\ (forall v, In v (buildVariantsFromDefinitions oneMandatoryCatalog) -> 0 <= v_size v)
  /\ requiredMask (makeCtx oneMandatoryCatalog 0 defaultOptions) <> 0
  /\ optimizeBlockIncomeFromDefinitions oneMandatoryCatalog 0 defaultOptions = Normal None
  /\ requiredMask (makeCtx twoHousesCatalog 0 defaultOptions) = 0
  /\ optimizeBlockIncomeFromDefinitions twoHousesCatalog 0 defaultOptions
     = Normal (Some emptySolution).
Proof.
  assert (Hs : forall v, In v (buildVariantsFromDefinitions oneMandatoryCatalog) -> 0 <= v_size v).
  { intros v [<- | []]; vm_compute; discriminate. }
  assert (Hs2 : forall v, In v (buildVariantsFromDefinitions twoHousesCatalog) -> 0 <= v_size v).
  { intros v [<- | [<- | []]]; vm_compute; discriminate. }
  assert (Hm : requiredMask (makeCtx oneMandatoryCatalog 0 defaultOptions) <> 0)
    by (vm_compute; discriminate).
  assert (Hz : requiredMask (makeCtx twoHousesCatalog 0 defaultOptions) = 0)
    by (vm_compute; reflexivity).
  split; [reflexivity |]. split; [exact Hs |]. split; [exact Hm |].
  split; [exact (proj2 (zero_size_limit_default_resources oneMandatoryCatalog defaultOptions
                          eq_refl Hs) Hm) |].
  split; [exact Hz |].
  exact (proj1 (zero_size_limit_default_resources twoHousesCatalog defaultOptions eq_refl Hs2) Hz).
Defined.

(** ** Back-reconstruction and the size of a combination

    When variants that share name and level agree on their size, a
    returned combination occupies at most the capacity. *)

Lemma successor_pointer ctx w key node i v nw newKey newNode :
  variants ctx !! i = Some v ->
  0 <= nw ->
  successor ctx (Z.of_nat w) key node i v = Some (nw, newKey, newNode) ->
  pointerOk ctx (Z.to_nat nw) newNode.
Proof.
  intros Hv Hnw. unfold successor.
  destruct (capacity ctx <? Z.of_nat w + v_size v); [discriminate |].
  destruct (negb (isStorageBuilding v) && negb (affordable key v)); [discriminate |].
  destruct (staffingRejects ctx node v); [discriminate |].
  destruct (estimate ctx (aggregatesNext ctx node v) (Z.of_nat w + v_size v)) as [t a].
  intros [= <- _ <-]. right. exists i, v. simpl.
  split; [reflexivity |]. split; [exact Hv |]. split; lia.
Qed.

Lemma transition_pointers ctx w key node st i v st' :
  variants ctx !! i = Some v ->
  pointersOk ctx (fst st) ->
  transition ctx (Z.of_nat w) key node st (i, v) = Normal st' ->
  pointersOk ctx (fst st').
Proof.
  intros Hv Hs. unfold transition. cbn [fst snd].
  destruct (successor ctx (Z.of_nat w) key node i v) as [[[nw newKey] newNode] |] eqn:Es;
    [| intros [= <-]; exact Hs].
  destruct (Z.ltb_spec nw 0) as [| Hnw]; [discriminate |].
  destruct (fst st !! Z.to_nat nw) as [bucket |] eqn:Eb; [| discriminate].
  destruct (match mapGet bucket newKey with
            | Some existing => total existing <? total newNode
            | None => true
            end); intros [= <-]; [| exact Hs].
  cbn [fst]. intros w' b' e Hb' He.
  destruct (Nat.eq_dec (Z.to_nat nw) w') as [<- | Hne].
  - rewrite list_lookup_insert_eq in Hb' by (eapply lookup_lt_Some; eassumption).
    injection Hb' as <-. apply mapSet_In in He. destruct He as [-> | He].
    + simpl. eapply successor_pointer; eassumption.
    + eapply Hs; eassumption.
  - rewrite list_lookup_insert_ne in Hb' by exact Hne. eapply Hs; eassumption.
Qed.

Lemma pruneUpdated_pointers ctx upd T :
  pointersOk ctx T -> pointersOk ctx (pruneUpdated ctx T upd).
Proof.
  unfold pruneUpdated. revert T. induction upd as [| i upd IH]; intros T HT; simpl; [exact HT |].
  apply IH. destruct (T !! i) as [m |] eqn:E; [| exact HT].
  intros w b e Hb He. destruct (Nat.eq_dec i w) as [<- | Hne].
  - rewrite list_lookup_insert_eq in Hb by (eapply lookup_lt_Some; eassumption).
    injection Hb as <-. apply pruneMapToBeam_In in He. eapply HT; eassumption.
  - rewrite list_lookup_insert_ne in Hb by exact Hne. eapply HT; eassumption.
Qed.

Lemma dpPass_pointers ctx T w T' :
  pointersOk ctx T ->
  dpPass ctx T w = Normal T' ->
  pointersOk ctx T' /\ length T' = length T.
Proof.
  intros HT. unfold dpPass.
  destruct (expandBucket ctx w T) as [[T1 upd] | e |] eqn:E; simpl; try discriminate.
  intros [= <-]. rewrite pruneUpdated_length.
  assert (H1 : pointersOk ctx (fst (T1, upd)) /\ length (fst (T1, upd)) = length T).
  { revert E. unfold expandBucket. destruct (T !! w) as [map |]; [| discriminate].
    apply (foldC_invariant (fun s => pointersOk ctx (fst s) /\ length (fst s) = length T));
      [| split; [exact HT | reflexivity]].
    intros s e s' Hs.
    apply (foldC_invariant_In
             (fun s => pointersOk ctx (fst s) /\ length (fst s) = length T)); [| exact Hs].
    intros s1 [i v] s2 Hiv [Hp Hl] Ht. split.
    - eapply transition_pointers; [eapply indexed_lookup, Hiv | exact Hp | exact Ht].
    - rewrite (transition_length _ _ _ _ _ _ _ Ht). exact Hl. }
  destruct H1 as [Hp Hl]. split; [apply pruneUpdated_pointers; exact Hp | exact Hl].
Qed.

Lemma initialTable_pointers ctx res : pointersOk ctx (initialTable ctx res).
Proof.
  unfold initialTable. intros w b e Hb He.
  destruct w as [| w].
  - simpl in Hb. injection Hb as <-. destruct He as [<- | []]. left. split; reflexivity.
  - simpl in Hb. apply lookup_replicate_1 in Hb. destruct Hb as [-> _]. destruct He.
Qed.

Lemma runDP_pointers ctx res dpMaps :
  runDP ctx res = Normal dpMaps ->
  pointersOk ctx dpMaps /\ length dpMaps = S (Z.to_nat (capacity ctx)).
Proof.
  unfold runDP.
  apply (foldC_invariant
           (fun T => pointersOk ctx T /\ length T = S (Z.to_nat (capacity ctx)))).
  - intros T w T' [Hp Hl] Hpass.
    destruct (dpPass_pointers ctx T w T' Hp Hpass) as [Hp' Hl'].
    split; [exact Hp' | congruence].
  - split; [apply initialTable_pointers |].
    unfold initialTable. rewrite length_insert, length_replicate. reflexivity.
Qed.

Lemma sequenceSize_app a b : sequenceSize (a ++ b) = sequenceSize a + sequenceSize b.
Proof. induction a as [| x a IH]; simpl; [reflexivity |]. unfold sequenceSize in *. simpl. lia. Qed.












(** ** Multi-block driver *)

(** *** The catalog argument (C10) *)

Lemma preserved_refl h : preserved h h.
Proof. intros r d H. exact H. Qed.

Lemma preserved_trans h1 h2 h3 : preserved h1 h2 -> preserved h2 h3 -> preserved h1 h3.
Proof. intros H12 H23 r d H. apply H23, H12, H. Qed.

(** A copy is a new cell: the cells of the store stay as they are. *)
Lemma jsonClone_preserved r h : preserved h (snd (jsonClone r h)).
Proof.
  unfold jsonClone. destruct (h !! r) as [d |]; cbn [snd]; [| apply preserved_refl].
  intros r' d' H. rewrite lookup_app_l; [exact H |]. eapply lookup_lt_Some, H.
Qed.

Lemma jsonClone_fresh r h r' :
  fst (jsonClone r h) = Normal r' -> r' = length h /\ length (snd (jsonClone r h)) = S (length h).
Proof.
  unfold jsonClone. destruct (h !! r) as [d |]; simpl; [| discriminate].
  intros [= <-]. split; [reflexivity |]. rewrite length_app. simpl. lia.
Qed.

(** An assignment through [r] leaves every other cell as it is. *)
Lemma assign_other r f h r' d :
  r' <> r -> h !! r' = Some d -> snd (assign r f h) !! r' = Some d.
Proof.
  intros Hne H. unfold assign. destruct (h !! r); cbn [snd]; [| exact H].
  rewrite list_lookup_insert_ne; [exact H | congruence].
Qed.

Lemma deref_store r h : snd (deref r h) = h.
Proof. unfold deref. destruct (h !! r); reflexivity. Qed.

(** One block: the cells that existed before the iteration are unchanged
    after it; the assignments go to the copy. *)
Lemma solveBlock_preserved defs numBlocks sizeLimit opts reserved st blockIdx h :
  preserved h (snd (solveBlock defs numBlocks sizeLimit opts reserved st blockIdx h)).
Proof.
  unfold solveBlock, ebind.
  destruct (jsonClone defs h) as [c1 h1] eqn:E1.
  pose proof (jsonClone_preserved defs h) as P1. rewrite E1 in P1. simpl in P1.
  destruct c1 as [modifiedDefs | e |]; simpl; [| exact P1 | exact P1].
  pose proof (jsonClone_fresh defs h modifiedDefs) as F. rewrite E1 in F.
  destruct (F eq_refl) as [Hfresh _]. clear F.
  match goal with |- context [assign modifiedDefs ?f h1] =>
    destruct (assign modifiedDefs f h1) as [c2 h2] eqn:E2;
    assert (P2 : preserved h h2)
  end.
  { intros r d H.
    match type of E2 with assign _ ?f _ = _ =>
      pose proof (assign_other modifiedDefs f h1 r d) as A end.
    rewrite E2 in A. simpl in A. apply A.
    - apply lookup_lt_Some in H. lia.
    - apply P1, H. }
  destruct c2 as [[] | e |]; simpl; [| exact P2 | exact P2].
  destruct (deref modifiedDefs h2) as [c3 h3] eqn:E3.
  pose proof (deref_store modifiedDefs h2) as D. rewrite E3 in D. simpl in D. subst h3.
  destruct c3 as [stripped | e |]; simpl; [| exact P2 | exact P2].
  unfold liftC.
  destruct (optimizeBlockIncomeFromDefinitions _ _ _) as [[result |] | e |]; simpl; exact P2.
Qed.

Lemma blockLoop_preserved defs numBlocks sizeLimit opts reserved indices st h :
  preserved h (snd (blockLoop defs numBlocks sizeLimit opts reserved indices st h)).
Proof.
  revert st h. induction indices as [| blockIdx rest IH]; intros st h; simpl.
  - apply preserved_refl.
  - unfold ebind.
    pose proof (solveBlock_preserved defs numBlocks sizeLimit opts reserved st blockIdx h) as P.
    destruct (solveBlock defs numBlocks sizeLimit opts reserved st blockIdx h) as [c h1].
    simpl in P.
    destruct c as [[st' |] | e |]; simpl; try exact P.
    eapply preserved_trans; [exact P | apply IH].
Qed.

(** C10.  Whatever the catalog, the number of blocks and the way the call
    completes, every object that was in the store before the call of
    [optimizeMultipleBlocks], the catalog behind [defs] among them, is
    there unchanged after it: the mandatory flags are cleared in the copy
    made for each block. *)
Theorem driver_leaves_catalog_unchanged defs numBlocks sizeLimit opts h d :
  h !! defs = Some d ->
  snd (optimizeMultipleBlocks defs numBlocks sizeLimit opts h) !! defs = Some d
  /\ preserved h (snd (optimizeMultipleBlocks defs numBlocks sizeLimit opts h)).
Proof.
  intros Hd.
  assert (P : preserved h (snd (optimizeMultipleBlocks defs numBlocks sizeLimit opts h))).
  { unfold optimizeMultipleBlocks.
    destruct (numBlocks <? 1); [apply preserved_refl |].
    destruct (numBlocks =? 1); unfold ebind, deref, liftC; rewrite Hd; simpl.
    - destruct (optimizeBlockIncomeFromDefinitions _ _ _) as [[result |] | e |];
        simpl; apply preserved_refl.
    - match goal with |- context [blockLoop ?a ?b ?c ?o ?m ?i ?s h] =>
        pose proof (blockLoop_preserved a b c o m i s h) as P;
        destruct (blockLoop a b c o m i s h) as [c1 h1]
      end.
      simpl in P. destruct c1 as [[st |] | e |]; simpl; exact P. }
  split; [apply P, Hd | exact P].
Qed.

Lemma driver_leaves_catalog_unchanged_witness :
  snd (optimizeMultipleBlocks 0%nat 2 1 plainDriverOptions [payingMandatoryCatalog]) !! 0%nat
  = Some payingMandatoryCatalog.
Proof.
  exact (proj1 (driver_leaves_catalog_unchanged 0%nat 2 1 plainDriverOptions
                  [payingMandatoryCatalog] payingMandatoryCatalog eq_refl)).
Defined.

(** *** Storage aggregation (C9) *)

Lemma storageContribution_from comb acc :
  let r := fold_left (fun a item => addResources a (itemStorage item)) comb acc in
  money r = money acc + storageOnAxis c_money comb
  /\ wood r = wood acc + storageOnAxis c_wood comb
  /\ cement r = cement acc + storageOnAxis c_cement comb
  /\ steel r = steel acc + storageOnAxis c_steel comb.
Proof.
  revert acc. induction comb as [| item comb IH]; intros acc; simpl.
  - repeat split; lia.
  - destruct (IH (addResources acc (itemStorage item))) as (Hm & Hw & Hc & Hs).
    rewrite Hm, Hw, Hc, Hs. unfold itemStorage.
    destruct (ci_storageCapacity item); simpl; repeat split; lia.
Qed.

Lemma storageContribution_axes comb :
  money (storageContribution comb) = storageOnAxis c_money comb
  /\ wood (storageContribution comb) = storageOnAxis c_wood comb
  /\ cement (storageContribution comb) = storageOnAxis c_cement comb
  /\ steel (storageContribution comb) = storageOnAxis c_steel comb.
Proof.
  destruct (storageContribution_from comb zeroResources) as (Hm & Hw & Hc & Hs).
  unfold storageContribution. rewrite Hm, Hw, Hc, Hs. simpl. repeat split; lia.
Qed.

Lemma blocksOnAxis_snoc axis bs b :
  blocksOnAxis axis (bs ++ [b]) = blocksOnAxis axis bs + storageOnAxis axis (b_combination b).
Proof.
  induction bs as [| x bs IH]; simpl; [lia |]. unfold blocksOnAxis in *. simpl in *. lia.
Qed.

Lemma solveBlock_result defs numBlocks sizeLimit opts reserved st blockIdx h st' h' :
  solveBlock defs numBlocks sizeLimit opts reserved st blockIdx h = (Normal (Some st'), h') ->
  exists b,
    blockResults st' = blockResults st ++ [b]
    /\ aggregateStorageFromBuildings st'
       = addResources (aggregateStorageFromBuildings st) (storageContribution (b_combination b)).
Proof.
  unfold solveBlock, ebind.
  destruct (jsonClone defs h) as [[modifiedDefs | e |] h1]; try discriminate.
  destruct (assign modifiedDefs _ h1) as [[[] | e |] h2]; try discriminate.
  destruct (deref modifiedDefs h2) as [[stripped | e |] h3]; try discriminate.
  unfold liftC.
  destruct (optimizeBlockIncomeFromDefinitions _ _ _) as [[result |] | e |];
    try discriminate.
  unfold eret. intros [= <- _]. simpl. eexists. split; reflexivity.
Qed.

Lemma solveBlock_tallies defs numBlocks sizeLimit opts reserved st blockIdx h st' h' :
  storageTallies st ->
  solveBlock defs numBlocks sizeLimit opts reserved st blockIdx h = (Normal (Some st'), h') ->
  storageTallies st'.
Proof.
  intros (Hm & Hw & Hc & Hs) Hsolve.
  destruct (solveBlock_result _ _ _ _ _ _ _ _ _ _ Hsolve) as (b & Hb & Hagg).
  destruct (storageContribution_axes (b_combination b)) as (Cm & Cw & Cc & Cs).
  unfold storageTallies. rewrite Hb, Hagg, !blocksOnAxis_snoc. simpl.
  rewrite Hm, Hw, Hc, Hs, Cm, Cw, Cc, Cs. repeat split; reflexivity.
Qed.

Lemma blockLoop_tallies defs numBlocks sizeLimit opts reserved indices st h st' h' :
  storageTallies st ->
  blockLoop defs numBlocks sizeLimit opts reserved indices st h = (Normal (Some st'), h') ->
  storageTallies st'.
Proof.
  revert st h. induction indices as [| blockIdx rest IH]; intros st h Hst; simpl.
  - unfold eret. intros [= <- _]. exact Hst.
  - unfold ebind.
    destruct (solveBlock defs numBlocks sizeLimit opts reserved st blockIdx h)
      as [[[st1 |] | e |] h1] eqn:E; try discriminate.
    intros Hloop. eapply IH; [| exact Hloop].
    eapply solveBlock_tallies; [exact Hst | exact E].
Qed.

(** C9.  Whenever [optimizeMultipleBlocks] returns a result, on each of
    the four resource axes the aggregate total storage is the base
    resources on that axis plus, summed over the blocks of the result, the
    sum over the block's combination items with an object-shaped storage
    capacity of the item's entry on that axis times its count. *)
Theorem aggregate_storage_sums_blocks defs numBlocks sizeLimit opts h r h' :
  optimizeMultipleBlocks defs numBlocks sizeLimit opts h = (Normal (Some r), h') ->
  mb_baseStorage r = DEFAULT_BASE_RESOURCES
  /\ money (aggregateTotalStorage r)
     = money (mb_baseStorage r) + blocksOnAxis c_money (blocks r)
  /\ wood (aggregateTotalStorage r)
     = wood (mb_baseStorage r) + blocksOnAxis c_wood (blocks r)
  /\ cement (aggregateTotalStorage r)
     = cement (mb_baseStorage r) + blocksOnAxis c_cement (blocks r)
  /\ steel (aggregateTotalStorage r)
     = steel (mb_baseStorage r) + blocksOnAxis c_steel (blocks r).
Proof.
  unfold optimizeMultipleBlocks.
  destruct (numBlocks <? 1); [discriminate |].
  destruct (numBlocks =? 1); unfold ebind.
  - destruct (deref defs h) as [[d | e |] h1]; try discriminate.
    unfold liftC.
    destruct (optimizeBlockIncomeFromDefinitions _ _ _) as [[result |] | e |];
      try discriminate.
    unfold eret. intros [= <- _]. simpl.
    destruct (storageContribution_axes (combination result)) as (Cm & Cw & Cc & Cs).
    rewrite Cm, Cw, Cc, Cs. repeat split; lia.
  - destruct (deref defs h) as [[d | e |] h1]; try discriminate.
    destruct (blockLoop _ _ _ _ _ _ _ h1) as [[[st |] | e |] h2] eqn:E; try discriminate.
    unfold eret. intros [= <- _]. simpl.
    assert (T0 : storageTallies (mkDriverState [] 0 zeroResources)).
    { repeat split. }
    destruct (blockLoop_tallies _ _ _ _ _ _ _ _ _ _ T0 E) as (Hm & Hw & Hc & Hs).
    rewrite Hm, Hw, Hc, Hs. repeat split; reflexivity.
Qed.

Lemma aggregate_storage_sums_blocks_witness :
  exists r,
    runDriver vaultCatalog 2 1 plainDriverOptions = Normal (Some r)
    /\ money (aggregateTotalStorage r) = 2000
    /\ money (aggregateTotalStorage r)
       = money (mb_baseStorage r) + blocksOnAxis c_money (blocks r).
Proof.
  eexists. split; [vm_compute; reflexivity |].
  split; [reflexivity |].
  refine (proj1 (proj2 (aggregate_storage_sums_blocks 0%nat 2 1 plainDriverOptions
                          [vaultCatalog] _ _ _))).
  vm_compute. reflexivity.
Defined.

(** *** Reservation of the mandatory buildings (C4) *)

(** C4.  The claim is that no block before the last contains a building
    with a mandatory misc name.  The driver only clears the mandatory flags
    in the copy it solves; the misc buildings stay in the catalog of every
    block.  With the mandatory building M1 earning 5, two blocks and size
    limit 1, the first block places M1. *)
Theorem first_block_places_mandatory_building :
  mandatoryMiscNames payingMandatoryCatalog = ["M1"%string]
  /\ exists r b item,
       runDriver payingMandatoryCatalog 2 1 plainDriverOptions = Normal (Some r)
       /\ nth_error (blocks r) 0 = Some b
       /\ blockNumber b = 1
       /\ In item (b_combination b)
       /\ ci_name item = "M1"%string
       /\ ci_count item = 1.
Proof.
  split; [reflexivity |].
  eexists _, _, _. split; [vm_compute; reflexivity |].
  split; [reflexivity |]. split; [reflexivity |].
  split; [left; reflexivity |]. split; reflexivity.
Qed.

(** *** Size budget (C3) *)

(** C3.  The claim is that a returned combination fits the size budget, in
    the single-block optimizer and in every block of the driver.  With two
    reserved buildings of size 2 and a size limit of 3, the driver solves
    the last block with the size limit 3 - 4, which the optimizer clamps to
    0, and then injects both buildings: the last block occupies 4 > 3.  In
    the single-block optimizer the rows of the combination are looked up by
    name and level only: with the name Depot under two types, three placed
    stands of size 1 are reported with the size 3 of the hall, 9 > 3. *)
Theorem last_block_exceeds_size_limit :
  (exists r b,
      runDriver twoMandatoryCatalog 2 3 plainDriverOptions = Normal (Some r)
      /\ nth_error (blocks r) 1 = Some b
      /\ blockNumber b = 2
      /\ combinationSize (b_combination b) = 4
      /\ b_totalSize b = 4)
  /\ (exists r,
         optimizeBlockIncomeFromDefinitions sharedNameCatalog 3 defaultOptions
         = Normal (Some r)
         /\ combinationSize (combination r) = 9).
Proof.
  split.
  - eexists _, _. split; [vm_compute; reflexivity |]. repeat split.
  - eexists. split; [vm_compute; reflexivity |]. reflexivity.
Qed.

(** Outside those two defects the budget holds for every block.  Clearing
    the mandatory flags changes neither names nor levels nor sizes, so the
    bound of the single-block optimizer carries over to the catalog each
    block is solved on; the last block stays within the limit as long as
    the reserved buildings fit into it. *)

Lemma clearUpgrade_insert u l :
  let clear := fun up =>
    {| u_level := u_level up; u_income := u_income up;
       u_additionalIncome := u_additionalIncome up; u_employees := u_employees up;
       u_peopleCapacity := u_peopleCapacity up; u_storageCapacity := u_storageCapacity up;
       u_capacity := u_capacity up; u_mandatory := false; u_cost := u_cost up;
       u_prefers := u_prefers up |} in
  insertUpgrade (clear u) (map clear l) = map clear (insertUpgrade u l).
Proof.
  intros clear. induction l as [| y l IH]; simpl; [reflexivity |].
  destruct (u_level u <=? u_level y); simpl; [reflexivity |]. rewrite IH. reflexivity.
Qed.

Lemma clearUpgrade_sort l :
  let clear := fun up =>
    {| u_level := u_level up; u_income := u_income up;
       u_additionalIncome := u_additionalIncome up; u_employees := u_employees up;
       u_peopleCapacity := u_peopleCapacity up; u_storageCapacity := u_storageCapacity up;
       u_capacity := u_capacity up; u_mandatory := false; u_cost := u_cost up;
       u_prefers := u_prefers up |} in
  sortUpgrades (map clear l) = map clear (sortUpgrades l).
Proof.
  intros clear. induction l as [| u l IH]; simpl; [reflexivity |].
  rewrite IH. apply clearUpgrade_insert.
Qed.














(** * Properties of the code *)

(** ** Build orders *)

Lemma lookup_In {A : Type} (l : list A) i x : l !! i = Some x -> In x l.
Proof. intros H. apply list_elem_of_In. eapply list_elem_of_lookup_2, H. Qed.

Lemma mapGet_of_In (m : Bucket) k n : keysDistinct m -> In (k, n) m -> mapGet m k = Some n.
Proof.
  intros Hnd Hin. unfold mapGet.
  destruct (find (fun e => key_eqb (fst e) k) m) as [e |] eqn:E.
  - apply find_some in E. destruct E as [He Hk]. apply key_eqb_eq in Hk.
    rewrite (keysDistinct_same_key m e (k, n) Hnd He Hin Hk). reflexivity.
  - exfalso. apply (find_none _ _ E) in Hin. simpl in Hin.
    assert (key_eqb k k = true) by (apply key_eqb_eq; reflexivity). congruence.
Qed.

(** A successor lies in the bucket of its size, which is the parent's
    bucket plus the size of the variant, within the capacity. *)
Lemma successor_size ctx w key node i v nw key' node' :
  successor ctx w key node i v = Some (nw, key', node') ->
  nw = w + v_size v /\ nw <= capacity ctx.
Proof.
  unfold successor. destruct (Z.ltb_spec (capacity ctx) (w + v_size v)); [discriminate |].
  destruct (negb (isStorageBuilding v) && negb (affordable key v)); [discriminate |].
  destruct (staffingRejects ctx node v); [discriminate |].
  destruct (estimate ctx (aggregatesNext ctx node v) (w + v_size v)) as [totalEst alloc].
  intros [= <- _ _]. split; [reflexivity | assumption].
Qed.

Lemma pruneMapToBeam_keysDistinct ctx (m : Bucket) beam :
  keysDistinct m -> keysDistinct (pruneMapToBeam ctx m beam).
Proof.
  intros H. unfold pruneMapToBeam. destruct (Z.of_nat (length m) <=? beam); [exact H |].
  apply keysDistinct_filter. exact H.
Qed.

(** The pruning loop only removes entries, and only from updated buckets. *)
Lemma pruneUpdated_sub ctx upd T :
  Forall keysDistinct T ->
  Forall keysDistinct (pruneUpdated ctx T upd)
  /\ (forall idx, ~ In idx upd -> pruneUpdated ctx T upd !! idx = T !! idx)
  /\ (forall idx b' e, pruneUpdated ctx T upd !! idx = Some b' -> In e b' ->
        exists b, T !! idx = Some b /\ In e b).
Proof.
  unfold pruneUpdated. revert T. induction upd as [| i upd IH]; intros T Hnd; simpl.
  - split; [exact Hnd | split; [reflexivity |]]. intros idx b' e Hb He. exists b'. auto.
  - destruct (T !! i) as [mi |] eqn:Ei.
    + assert (Hmi : keysDistinct mi) by (eapply Forall_lookup_1; eassumption).
      assert (Hnd' : Forall keysDistinct (<[ i := pruneMapToBeam ctx mi (BEAM_WIDTH ctx) ]> T)).
      { apply Forall_insert; [exact Hnd | apply pruneMapToBeam_keysDistinct; exact Hmi]. }
      destruct (IH _ Hnd') as (H1 & H2 & H3). split; [exact H1 | split].
      * intros idx Hidx. rewrite H2; [| tauto].
        apply list_lookup_insert_ne. intros ->. apply Hidx. left. reflexivity.
      * intros idx b' e Hb He. destruct (H3 idx b' e Hb He) as (b & Hb' & He').
        destruct (Nat.eq_dec i idx) as [-> | Hne].
        -- rewrite list_lookup_insert_eq in Hb' by (eapply lookup_lt_Some; eassumption).
           injection Hb' as <-. exists mi. split; [exact Ei |].
           eapply pruneMapToBeam_In; eassumption.
        -- rewrite list_lookup_insert_ne in Hb' by exact Hne. exists b. auto.
    + destruct (IH _ Hnd) as (H1 & H2 & H3). split; [exact H1 | split].
      * intros idx Hidx. apply H2. tauto.
      * exact H3.
Qed.

Lemma successor_node ctx w key node i v nw key' node' :
  successor ctx w key node i v = Some (nw, key', node') ->
  prevKey node' = Some key /\ prevW node' = w /\ variantIndex node' = Z.of_nat i.
Proof.
  unfold successor. destruct (capacity ctx <? w + v_size v); [discriminate |].
  destruct (negb (isStorageBuilding v) && negb (affordable key v)); [discriminate |].
  destruct (staffingRejects ctx node v); [discriminate |].
  destruct (estimate ctx (aggregatesNext ctx node v) (w + v_size v)) as [totalEst alloc].
  intros [= _ _ <-]. simpl. auto.
Qed.

Lemma transition_explained ctx res w T0 map key node st i v st' :
  (forall x, In x (variants ctx) -> 1 <= v_size x) ->
  T0 !! w = Some map -> keysDistinct map -> In (key, node) map ->
  variants ctx !! i = Some v ->
  passExplained ctx res w T0 st ->
  transition ctx (Z.of_nat w) key node st (i, v) = Normal st' ->
  passExplained ctx res w T0 st'.
Proof.
  intros Hsize Hmap Hnd Hin Hv (Hinv & Hupd & Hexp) Ht.
  pose proof (transition_invariant _ _ _ _ _ _ _ _ Hinv Ht) as Hinv'.
  split; [exact Hinv' |]. revert Ht. unfold transition. cbn [fst snd].
  destruct (successor ctx (Z.of_nat w) key node i v) as [[[nw newKey] newNode] |] eqn:Es;
    [| intros [= <-]; split; assumption].
  destruct (Z.ltb_spec nw 0) as [| Hnw]; [discriminate |].
  destruct (fst st !! Z.to_nat nw) as [bucket |] eqn:Eb; [| discriminate].
  destruct (match mapGet bucket newKey with
            | Some existing => total existing <? total newNode
            | None => true
            end); intros [= <-]; [| split; assumption].
  destruct (successor_size _ _ _ _ _ _ _ _ _ Es) as [Hnw' _].
  assert (Hlt : (w < Z.to_nat nw)%nat).
  { assert (1 <= v_size v) by (apply Hsize; eapply lookup_In, Hv). lia. }
  cbn [fst snd]. split.
  - intros idx Hidx. apply setAdd_In in Hidx. destruct Hidx as [-> | Hidx]; [exact Hlt | auto].
  - assert (Hlow : forall p, (p <= w)%nat ->
                     <[ Z.to_nat nw := mapSet bucket newKey newNode ]> (fst st) !! p = fst st !! p).
    { intros p Hp. apply list_lookup_insert_ne. lia. }
    assert (Hold : forall j e, derivedFrom ctx (fst st) j e /\ prevW (snd e) <= Z.of_nat w ->
                     derivedFrom ctx (<[ Z.to_nat nw := mapSet bucket newKey newNode ]> (fst st)) j e
                     /\ prevW (snd e) <= Z.of_nat w).
    { intros j e [(i0 & v0 & p & b0 & pk & pn & H1 & H2 & H3 & H4) Hle]. split; [| exact Hle].
      exists i0, v0, p, b0, pk, pn. repeat split; try assumption.
      rewrite Hlow; [exact H2 |].
      destruct (successor_node _ _ _ _ _ _ _ _ _ H4) as (_ & Hp & _). lia. }
    intros j b e Hb He. destruct (Nat.eq_dec (Z.to_nat nw) j) as [<- | Hne].
    + rewrite list_lookup_insert_eq in Hb by (eapply lookup_lt_Some; eassumption).
      injection Hb as <-. apply mapSet_In in He. destruct He as [-> | He].
      * right. destruct (successor_node _ _ _ _ _ _ _ _ _ Es) as (_ & Hp & _). simpl.
        split; [| lia]. exists i, v, w, map, key, node. simpl.
        split; [exact Hv |]. split.
        -- rewrite Hlow by lia. destruct Hinv as (_ & _ & Hsame).
           rewrite Hsame; [exact Hmap | intros Hc; apply Hupd in Hc; lia].
        -- split; [apply mapGet_of_In; assumption |]. rewrite Z2Nat.id by lia. exact Es.
      * destruct (Hexp _ _ _ Eb He) as [H | H]; [left; exact H | right; apply Hold; exact H].
    + rewrite list_lookup_insert_ne in Hb by exact Hne.
      destruct (Hexp _ _ _ Hb He) as [H | H]; [left; exact H | right; apply Hold; exact H].
Qed.

Lemma derivedFrom_parent_bucket ctx T j e :
  derivedFrom ctx T j e ->
  exists p, Z.of_nat p = prevW (snd e).
Proof.
  intros (i & v & p & b & pk & pn & _ & _ & _ & Hs).
  exists p. destruct (successor_node _ _ _ _ _ _ _ _ _ Hs) as (_ & Hp & _). congruence.
Qed.

(** Two tables that agree on the buckets up to the parent's explain a
    state alike. *)
Lemma derivedFrom_agree ctx T T' j e :
  (forall p : nat, Z.of_nat p = prevW (snd e) -> T' !! p = T !! p) ->
  derivedFrom ctx T j e -> derivedFrom ctx T' j e.
Proof.
  intros Hsame (i & v & p & b & pk & pn & H1 & H2 & H3 & H4).
  exists i, v, p, b, pk, pn. repeat split; try assumption.
  rewrite Hsame; [exact H2 |].
  destruct (successor_node _ _ _ _ _ _ _ _ _ H4) as (_ & Hp & _). congruence.
Qed.

Lemma dpPass_explained ctx res w T T' :
  (forall x, In x (variants ctx) -> 1 <= v_size x) ->
  tableExplained ctx res w T ->
  dpPass ctx T w = Normal T' ->
  tableExplained ctx res (S w) T'.
Proof.
  intros Hsize [Hnd Hexp]. unfold dpPass.
  destruct (expandBucket ctx w T) as [[T1 upd] | e |] eqn:E; simpl; try discriminate.
  intros [= <-].
  assert (H1 : passExplained ctx res w T (T1, upd)).
  { revert E. unfold expandBucket. destruct (T !! w) as [map |] eqn:Emap; [| discriminate].
    assert (Hmap : keysDistinct map) by (eapply Forall_lookup_1; eassumption).
    apply (foldC_invariant_In (passExplained ctx res w T)).
    - intros s [key node] s' Hin Hs. cbn [fst snd].
      apply (foldC_invariant_In (passExplained ctx res w T)); [| exact Hs].
      intros s1 [i v] s2 Hiv Hs1 Ht.
      eapply transition_explained; try eassumption. apply indexed_lookup. exact Hiv.
    - split; [split; [reflexivity | split; [exact Hnd | reflexivity]] |].
      split; [intros idx [] |]. cbn [fst]. intros j b e Hb He.
      destruct (Hexp j b e Hb He) as [H | [H Hlt]]; [left; exact H | right].
      split; [exact H | lia]. }
  destruct H1 as ((_ & Hnd1 & _) & Hupd & Hexp1). cbn [fst snd] in *.
  destruct (pruneUpdated_sub ctx upd T1 Hnd1) as (Hnd2 & Hsame & Hsub).
  split; [exact Hnd2 |]. intros j b' e Hb' He'.
  destruct (Hsub j b' e Hb' He') as (b & Hb & He).
  destruct (Hexp1 j b e Hb He) as [H | [H Hle]]; [left; exact H | right].
  split; [| lia]. eapply derivedFrom_agree; [| exact H].
  intros p Hp. apply Hsame. intros Hc. apply Hupd in Hc. lia.
Qed.

Lemma passes_explained ctx res n start T T' :
  (forall x, In x (variants ctx) -> 1 <= v_size x) ->
  tableExplained ctx res start T ->
  foldC (dpPass ctx) (seq start n) T = Normal T' ->
  tableExplained ctx res (start + n) T'.
Proof.
  intros Hsize. revert start T. induction n as [| n IH]; intros start T HT; simpl.
  - intros [= <-]. rewrite Nat.add_0_r. exact HT.
  - destruct (dpPass ctx T start) as [T1 | e |] eqn:E; simpl; try discriminate.
    intros Hrest. replace (start + S n)%nat with (S start + n)%nat by lia.
    eapply IH; [| exact Hrest]. eapply dpPass_explained; eassumption.
Qed.

Lemma initialTable_explained ctx res : tableExplained ctx res 0 (initialTable ctx res).
Proof.
  unfold initialTable. split.
  - apply Forall_insert; [apply Forall_replicate; constructor |].
    constructor; [intros [] | constructor].
  - intros j b e Hb He. destruct j as [| j].
    + simpl in Hb. injection Hb as <-. destruct He as [<- | []]. left. auto.
    + simpl in Hb. apply lookup_replicate_1 in Hb. destruct Hb as [-> _]. destruct He.
Qed.

Lemma runDP_explained ctx res dpMaps :
  (forall x, In x (variants ctx) -> 1 <= v_size x) ->
  runDP ctx res = Normal dpMaps ->
  explained ctx res dpMaps /\ Forall keysDistinct dpMaps.
Proof.
  intros Hsize Hrun. unfold runDP in Hrun.
  destruct (passes_explained ctx res _ 0 _ _ Hsize (initialTable_explained ctx res) Hrun)
    as [Hnd Hexp].
  split; [| exact Hnd]. intros w b e Hb He.
  destruct (Hexp w b e Hb He) as [H | [H _]]; [left | right]; exact H.
Qed.

(** ** What the selection loop computes *)

Lemma indexed_lookup_iff {A : Type} (l : list A) i a : In (i, a) (indexed l) <-> l !! i = Some a.
Proof.
  split; [apply indexed_lookup |]. unfold indexed.
  assert (H : forall start, l !! i = Some a -> In ((start + i)%nat, a) (combine (seq start (length l)) l)).
  { revert i. induction l as [| x l IH]; intros i start Hi; [discriminate |].
    destruct i as [| i]; simpl in *.
    - injection Hi as <-. left. f_equal. lia.
    - right. replace (start + S i)%nat with (S start + i)%nat by lia. apply IH. exact Hi. }
  apply (H 0%nat).
Qed.

Lemma entriesOf_In (T : list Bucket) w e :
  In (w, e) (entriesOf T) <-> exists bucket, T !! w = Some bucket /\ In e bucket.
Proof.
  unfold entriesOf. rewrite in_flat_map. split.
  - intros ([j b] & Hjb & Hin). cbn [fst snd] in Hin. apply in_map_iff in Hin.
    destruct Hin as (x & [= <- <-] & Hx). exists b. split; [apply indexed_lookup, Hjb | exact Hx].
  - intros (b & Hb & He). exists (w, b). split; [apply indexed_lookup_iff, Hb |].
    cbn [fst snd]. apply in_map_iff. exists e. auto.
Qed.

Lemma fold_left_flat_map {A B S : Type} (f : S -> B -> S) (g : A -> list B) l s :
  fold_left f (flat_map g l) s = fold_left (fun s x => fold_left f (g x) s) l s.
Proof.
  revert s. induction l as [| x l IH]; intros s; simpl; [reflexivity |].
  rewrite fold_left_app. apply IH.
Qed.

Lemma fold_left_map_arg {A B S : Type} (f : S -> B -> S) (h : A -> B) l s :
  fold_left f (map h l) s = fold_left (fun s x => f s (h x)) l s.
Proof. revert s. induction l as [| x l IH]; intros s; simpl; [reflexivity | apply IH]. Qed.

(** The two nested loops of the selection are one loop over the states. *)
Lemma selectBest_entries ctx T :
  selectBest ctx T
  = fold_left (fun b we => selectStep ctx (fst we) b (snd we)) (entriesOf T) initialBest.
Proof.
  unfold selectBest, entriesOf. rewrite fold_left_flat_map.
  generalize initialBest. induction (indexed T) as [| wm l IH]; intros b; simpl; [reflexivity |].
  rewrite fold_left_map_arg. cbn [fst snd]. apply IH.
Qed.

(** The loop body, variable by variable. *)
Lemma selectStep_components ctx w b e :
  let c1 := competes (fst e) && exceeds (total (snd e)) (bestValue b) in
  let c2 := competesWithAll ctx (fst e) && exceeds (total (snd e)) (bestWithAllValue b) in
  selectStep ctx w b e
  = mkBest (if c1 then Z.of_nat w else bestW b)
           (if c1 then Some (fst e) else bestKey b)
           (if c1 then Some (total (snd e)) else bestValue b)
           (if c2 then Z.of_nat w else bestWithAllW b)
           (if c2 then Some (fst e) else bestWithAllKey b)
           (if c2 then Some (total (snd e)) else bestWithAllValue b).
Proof.
  unfold selectStep, competes, competesWithAll. destruct b as [bw bk bv aw ak av]. simpl.
  destruct (Z.ltb_spec (k_money (fst e)) 0), (Z.leb_spec 0 (k_money (fst e))); try lia; simpl;
    [reflexivity |].
  destruct (negb (requiredMask ctx =? 0) && (k_wood (fst e) =? requiredMask ctx)); simpl;
    [destruct (exceeds (total (snd e)) av); simpl |];
    destruct (exceeds (total (snd e)) bv); reflexivity.
Qed.

Lemma leadsAmong_step cond seen bw bk bv w0 w e :
  leadsAmong cond seen bw bk bv w0 ->
  let c := cond (fst e) && exceeds (total (snd e)) bv in
  leadsAmong cond (seen ++ [(w, e)])
             (if c then Z.of_nat w else bw)
             (if c then Some (fst e) else bk)
             (if c then Some (total (snd e)) else bv) w0.
Proof.
  intros H. cbv zeta. destruct e as [k node]. cbn [fst snd].
  destruct (cond k) eqn:Ec; simpl.
  - destruct bk as [k0 |]; simpl in H.
    + destruct H as (w1 & n1 & Hin & -> & -> & Hc & Hmax). simpl.
      destruct (Z.ltb_spec (total n1) (total node)).
      * exists w, node. split; [apply in_or_app; right; left; reflexivity |].
        repeat split; try assumption.
        intros we Hwe Hcond. apply in_app_or in Hwe. destruct Hwe as [Hwe | [<- | []]].
        -- specialize (Hmax we Hwe Hcond). lia.
        -- simpl. lia.
      * exists w1, n1. split; [apply in_or_app; left; exact Hin |].
        repeat split; try assumption.
        intros we Hwe Hcond. apply in_app_or in Hwe. destruct Hwe as [Hwe | [<- | []]].
        -- apply Hmax; assumption.
        -- simpl. lia.
    + destruct H as (-> & -> & Hnone). simpl.
      exists w, node. split; [apply in_or_app; right; left; reflexivity |].
      repeat split; try assumption.
      intros we Hwe Hcond. apply in_app_or in Hwe. destruct Hwe as [Hwe | [<- | []]].
      * rewrite (Hnone we Hwe) in Hcond. discriminate.
      * simpl. lia.
  - destruct bk as [k0 |]; simpl in *.
    + destruct H as (w1 & n1 & Hin & -> & -> & Hc & Hmax).
      exists w1, n1. split; [apply in_or_app; left; exact Hin |].
      repeat split; try assumption.
      intros we Hwe Hcond. apply in_app_or in Hwe. destruct Hwe as [Hwe | [<- | []]].
      * apply Hmax; assumption.
      * simpl in Hcond. congruence.
    + destruct H as (-> & -> & Hnone). repeat split.
      intros we Hwe. apply in_app_or in Hwe. destruct Hwe as [Hwe | [<- | []]].
      * apply Hnone, Hwe.
      * exact Ec.
Qed.

Lemma selectBest_selected ctx T : selected ctx (entriesOf T) (selectBest ctx T).
Proof.
  rewrite selectBest_entries.
  assert (H : forall l seen b,
             selected ctx seen b ->
             selected ctx (seen ++ l)
                      (fold_left (fun b we => selectStep ctx (fst we) b (snd we)) l b)).
  { induction l as [| [w e] l IH]; intros seen b Hb; simpl.
    - rewrite app_nil_r. exact Hb.
    - replace (seen ++ (w, e) :: l) with ((seen ++ [(w, e)]) ++ l)
        by (rewrite <- app_assoc; reflexivity).
      apply IH. rewrite selectStep_components. destruct Hb as [H1 H2].
      split; cbn [bestW bestKey bestValue bestWithAllW bestWithAllKey bestWithAllValue].
      + apply leadsAmong_step. exact H1.
      + apply leadsAmong_step. exact H2. }
  apply (H (entriesOf T) [] initialBest). split; simpl; repeat split; intros we [].
Qed.

Lemma leadsAmong_entry cond (T : list Bucket) bw bk bv w0 :
  leadsAmong cond (entriesOf T) bw (Some bk) bv w0 ->
  exists (j : nat) bucket node,
    bw = Z.of_nat j /\ T !! j = Some bucket /\ In (bk, node) bucket
    /\ cond bk = true
    /\ forall j' bucket' e',
         T !! j' = Some bucket' -> In e' bucket' -> cond (fst e') = true ->
         total (snd e') <= total node.
Proof.
  intros (j & node & Hin & Hw & _ & Hc & Hmax).
  apply entriesOf_In in Hin. destruct Hin as (bucket & Hb & He).
  exists j, bucket, node. repeat split; try assumption.
  intros j' b' e' Hb' He' Hc'.
  apply (Hmax (j', e')); [apply entriesOf_In; exists b'; auto | exact Hc'].
Qed.

(** The start of the back-walk is a state of the table, or bucket 0
    without a key. *)
Lemma selection_choice ctx (T : list Bucket) w key :
  chooseStart ctx (selectBest ctx T) = Some (w, key) ->
  match key with
  | None => w = 0 /\ requiredMask ctx = 0
  | Some k =>
      exists (j : nat) bucket node, w = Z.of_nat j /\ T !! j = Some bucket /\ In (k, node) bucket
  end.
Proof.
  destruct (selectBest_selected ctx T) as [Hall Hmask].
  unfold chooseStart. destruct (Z.eqb_spec (requiredMask ctx) 0) as [Hz | Hnz]; simpl.
  - intros [= <- <-]. destruct (bestKey (selectBest ctx T)) as [k |] eqn:Ek.
    + destruct (leadsAmong_entry _ _ _ _ _ _ Hall) as (j & b & n & H1 & H2 & H3 & _).
      exists j, b, n. auto.
    + destruct Hall as (_ & Hw & _). auto.
  - destruct (bestWithAllKey (selectBest ctx T)) as [k |] eqn:Ek; [| discriminate].
    intros [= <- <-].
    destruct (leadsAmong_entry _ _ _ _ _ _ Hmask) as (j & b & n & H1 & H2 & H3 & _).
    exists j, b, n. auto.
Qed.

(** X4.  The state the back-walk starts from.  Without a required mask it is
    the state of highest score among those whose money field is not
    negative; with a required mask, among those whose wood field equals
    the mask as well.  A start without a key happens only without a
    required mask, in bucket 0, when the money field of every state is
    negative. *)
Theorem selection_starts_from_the_highest_score ctx (T : list Bucket) w key :
  chooseStart ctx (selectBest ctx T) = Some (w, key) ->
  let cond := if requiredMask ctx =? 0 then competes else competesWithAll ctx in
  match key with
  | None =>
      w = 0 /\ requiredMask ctx = 0
      /\ forall j bucket e, T !! j = Some bucket -> In e bucket -> k_money (fst e) < 0
  | Some k =>
      exists (j : nat) bucket node,
        w = Z.of_nat j /\ T !! j = Some bucket /\ In (k, node) bucket
        /\ cond k = true
        /\ forall j' bucket' e',
             T !! j' = Some bucket' -> In e' bucket' -> cond (fst e') = true ->
             total (snd e') <= total node
  end.
Proof.
  intros Hstart. cbv zeta.
  destruct (selectBest_selected ctx T) as [Hall Hmask].
  revert Hstart. unfold chooseStart.
  destruct (Z.eqb_spec (requiredMask ctx) 0) as [Hz | Hnz]; simpl.
  - intros [= <- <-]. destruct (bestKey (selectBest ctx T)) as [k |] eqn:Ek.
    + eapply leadsAmong_entry. exact Hall.
    + destruct Hall as (_ & Hw & Hnone).
      split; [exact Hw |]. split; [exact Hz |]. intros j b e Hb He.
      assert (Hc : competes (fst e) = false).
      { apply (Hnone (j, e)). apply entriesOf_In. exists b. auto. }
      unfold competes in Hc. apply Z.leb_gt in Hc. exact Hc.
  - destruct (bestWithAllKey (selectBest ctx T)) as [k |] eqn:Ek; [| discriminate].
    intros [= <- <-]. eapply leadsAmong_entry. exact Hmask.
Qed.

Lemma selection_starts_from_the_highest_score_witness :
  let ctx := makeCtx twoHousesCatalog 1 defaultOptions in
  let T := match runDP ctx DEFAULT_BASE_RESOURCES with Normal T => T | _ => [] end in
  exists w k,
    chooseStart ctx (selectBest ctx T) = Some (w, Some k)
    /\ exists (j : nat) bucket node,
         w = Z.of_nat j /\ T !! j = Some bucket /\ In (k, node) bucket
         /\ competes k = true
         /\ forall j' bucket' e',
              T !! j' = Some bucket' -> In e' bucket' -> competes (fst e') = true ->
              total (snd e') <= total node.
Proof.
  intros ctx T. eexists _, _.
  match goal with |- ?E /\ _ => assert (H : E) by (vm_compute; reflexivity) end.
  split; [exact H |].
  pose proof (selection_starts_from_the_highest_score ctx T _ _ H) as P.
  cbv beta iota zeta in P.
  assert (Hr : (requiredMask ctx =? 0) = true) by (vm_compute; reflexivity).
  rewrite Hr in P. exact P.
Defined.

(** *** From the table to a build order *)

Lemma explained_placement ctx res T :
  (forall x, In x (variants ctx) -> 1 <= v_size x) ->
  explained ctx res T ->
  forall w bucket e,
    T !! w = Some bucket -> In e bucket ->
    exists seq, placement ctx res w (fst e) (snd e) seq.
Proof.
  intros Hsize Hexp w. induction w as [w IH] using lt_wf_ind. intros bucket e Hb He.
  destruct (Hexp w bucket e Hb He) as [[-> ->] | (i & v & p & bp & pk & pn & Hv & Hbp & Hg & Hs)].
  - exists []. constructor.
  - destruct (successor_size _ _ _ _ _ _ _ _ _ Hs) as [Hw _].
    assert (1 <= v_size v) by (apply Hsize; eapply lookup_In, Hv).
    destruct (IH p ltac:(lia) bp (pk, pn) Hbp (mapGet_In _ _ _ Hg)) as [seq Hseq].
    exists (seq ++ [v]). econstructor; eassumption.
Qed.

Lemma concat_prefix_length {A : Type} (T : list (list A)) n m :
  (n <= m)%nat -> (length (concat (firstn n T)) <= length (concat (firstn m T)))%nat.
Proof.
  revert n m. induction T as [| b T IH]; intros n m Hnm.
  - rewrite !firstn_nil. simpl. lia.
  - destruct n as [| n]; [simpl; lia |]. destruct m as [| m]; [lia |].
    simpl. rewrite !length_app. specialize (IH n m ltac:(lia)). lia.
Qed.

Lemma concat_prefix_bucket {A : Type} (T : list (list A)) p w b :
  (p < w)%nat -> T !! w = Some b -> b <> [] ->
  (length (concat (firstn (S p) T)) < length (concat (firstn (S w) T)))%nat.
Proof.
  intros Hpw Hb Hne.
  rewrite (take_S_r T w b Hb), concat_app, length_app. simpl. rewrite app_nil_r.
  pose proof (concat_prefix_length T (S p) w ltac:(lia)).
  destruct b; [congruence | simpl; lia].
Qed.

(** The back-walk over an explained table ends, and what it collects is
    a build order of the state it started from, last placement first. *)
Lemma backtrack_walk ctx res T :
  (forall x, In x (variants ctx) -> 1 <= v_size x) ->
  explained ctx res T ->
  forall fuel w bucket key node chosen,
    T !! w = Some bucket -> mapGet bucket key = Some node ->
    (length (concat (firstn (S w) T)) < fuel)%nat ->
    exists seq,
      backtrack ctx T fuel (Z.of_nat w) (Some key) chosen = Normal (chosen ++ rev seq)
      /\ placement ctx res w key node seq.
Proof.
  intros Hsize Hexp. induction fuel as [| fuel IH]; intros w bucket key node chosen Hb Hg Hfuel;
    [lia |].
  pose proof (mapGet_In _ _ _ Hg) as Hin.
  destruct (Hexp w bucket (key, node) Hb Hin)
    as [[-> [= -> ->]] | (i & v & p & bp & pk & pn & Hv & Hbp & Hgp & Hs)].
  - exists []. simpl. rewrite app_nil_r. split; [reflexivity | constructor].
  - cbn [fst snd] in Hs.
    destruct (successor_size _ _ _ _ _ _ _ _ _ Hs) as [Hw _].
    destruct (successor_node _ _ _ _ _ _ _ _ _ Hs) as (Hpk & Hpw & Hidx).
    assert (1 <= v_size v) by (apply Hsize; eapply lookup_In, Hv).
    assert (Hne : bucket <> []) by (intros ->; destruct Hin).
    destruct (IH p bp pk pn (chosen ++ [v]) Hbp Hgp) as (seq & Hrec & Hseq).
    { pose proof (concat_prefix_bucket T p w bucket ltac:(lia) Hb Hne). lia. }
    exists (seq ++ [v]). split; [| econstructor; eassumption].
    simpl. destruct (Z.leb_spec (Z.of_nat w) 0) as [| _]; [lia |].
    rewrite Nat2Z.id, Hb, Hg, Hidx.
    destruct (Z.leb_spec 0 (Z.of_nat i)) as [_ |]; [| lia].
    rewrite Nat2Z.id, Hv, Hpw, Hpk, Hrec, rev_app_distr. simpl.
    rewrite <- app_assoc. reflexivity.
Qed.

(** Every row of the count map of a sequence of catalog variants finds
    its variant again. *)
Lemma countVariant_names counts name level row :
  In row (countVariant counts name level) ->
  fst row = (name, level) \/ exists r, In r counts /\ fst r = fst row.
Proof.
  induction counts as [| [[n l] c] counts IH]; simpl.
  - intros [<- | []]. left. reflexivity.
  - destruct (String.eqb n name && (l =? level)) eqn:E; simpl.
    + intros [<- | H].
      * right. exists (n, l, c). split; [left; reflexivity | reflexivity].
      * right. exists row. split; [right; exact H | reflexivity].
    + intros [<- | H].
      * right. exists (n, l, c). split; [left; reflexivity | reflexivity].
      * destruct (IH H) as [Hr | (r & Hr & Hf)]; [left; exact Hr |].
        right. exists r. split; [right; exact Hr | exact Hf].
Qed.

Lemma finalCounts_names seq row :
  In row (finalCounts seq) -> exists v, In v seq /\ fst row = (v_name v, v_level v).
Proof.
  unfold finalCounts.
  assert (H : forall counts,
             In row (fold_left (fun counts v => countVariant counts (v_name v) (v_level v))
                               seq counts) ->
             (exists r, In r counts /\ fst r = fst row)
             \/ exists v, In v seq /\ fst row = (v_name v, v_level v)).
  { induction seq as [| v seq IH]; intros counts; simpl.
    - intros Hin. left. exists row. auto.
    - intros Hin. destruct (IH _ Hin) as [(r & Hr & Hf) | (x & Hx & Hf)].
      + destruct (countVariant_names _ _ _ _ Hr) as [Hn | (r' & Hr' & Hf')].
        * right. exists v. split; [left; reflexivity | congruence].
        * left. exists r'. split; [exact Hr' | congruence].
      + right. exists x. split; [right; exact Hx | exact Hf]. }
  intros Hin. destruct (H [] Hin) as [(r & [] & _) | Hv]. exact Hv.
Qed.

Lemma mapC_total {A B : Type} (f : A -> completion B) l :
  (forall a, In a l -> exists b, f a = Normal b) -> exists bs, mapC f l = Normal bs.
Proof.
  induction l as [| a l IH]; intros H; simpl; [eexists; reflexivity |].
  destruct (H a (or_introl eq_refl)) as [b ->].
  destruct IH as [bs ->]; [intros x Hx; apply H; right; exact Hx |].
  simpl. eexists. reflexivity.
Qed.

Lemma combinationRows_total ctx seq :
  (forall v, In v seq -> In v (variants ctx)) ->
  exists comb, mapC (combinationRow ctx) (finalCounts seq) = Normal comb.
Proof.
  intros Hseq. apply mapC_total. intros [[name level] count] Hrow.
  destruct (finalCounts_names seq _ Hrow) as (v & Hv & Hf). simpl in Hf. injection Hf as -> ->.
  unfold combinationRow.
  destruct (find (sameNameLevel (v_name v) (v_level v)) (variants ctx)) as [x |] eqn:E;
    [eexists; reflexivity |].
  exfalso. pose proof (find_none _ _ E v (Hseq v Hv)) as Hf.
  unfold sameNameLevel in Hf. rewrite String.eqb_refl, Z.eqb_refl in Hf. discriminate.
Qed.

Lemma placement_variants ctx res w key node seq :
  placement ctx res w key node seq -> forall v, In v seq -> In v (variants ctx).
Proof.
  induction 1 as [| w key node seq i v nw key' node' _ IH Hv _]; intros x Hx; [destruct Hx |].
  apply in_app_or in Hx. destruct Hx as [Hx | [<- | []]]; [apply IH, Hx | eapply lookup_In, Hv].
Qed.

(** *** The optimizer returns *)

Lemma foldC_total {A S : Type} (P : S -> Prop) (f : S -> A -> completion S) l s :
  (forall s a, In a l -> P s -> exists s', f s a = Normal s' /\ P s') ->
  P s -> exists s', foldC f l s = Normal s' /\ P s'.
Proof.
  revert s. induction l as [| a l IH]; intros s Hstep Hs; simpl.
  - exists s. auto.
  - destruct (Hstep s a (or_introl eq_refl) Hs) as (s1 & -> & Hs1). simpl.
    apply IH; [| exact Hs1]. intros s2 b Hb. apply Hstep. right. exact Hb.
Qed.

Lemma transition_total ctx w key node st iv :
  (forall x, In x (variants ctx) -> 1 <= v_size x) ->
  In (snd iv) (variants ctx) ->
  length (fst st) = S (Z.to_nat (capacity ctx)) ->
  exists st', transition ctx (Z.of_nat w) key node st iv = Normal st'
              /\ length (fst st') = S (Z.to_nat (capacity ctx)).
Proof.
  intros Hsize Hv Hlen. unfold transition.
  destruct (successor ctx (Z.of_nat w) key node (fst iv) (snd iv))
    as [[[nw newKey] newNode] |] eqn:Es; [| exists st; auto].
  destruct (successor_size _ _ _ _ _ _ _ _ _ Es) as [Hnw Hcap].
  specialize (Hsize _ Hv).
  destruct (Z.ltb_spec nw 0); [lia |].
  destruct (lookup_lt_is_Some_2 (fst st) (Z.to_nat nw) ltac:(lia)) as [bucket ->].
  destruct (match mapGet bucket newKey with
            | Some existing => total existing <? total newNode
            | None => true
            end); eexists; (split; [reflexivity |]); [| exact Hlen].
  cbn [fst]. rewrite length_insert. exact Hlen.
Qed.

Lemma dpPass_total ctx T w :
  (forall x, In x (variants ctx) -> 1 <= v_size x) ->
  (w <= Z.to_nat (capacity ctx))%nat ->
  length T = S (Z.to_nat (capacity ctx)) ->
  exists T', dpPass ctx T w = Normal T' /\ length T' = S (Z.to_nat (capacity ctx)).
Proof.
  intros Hsize Hw Hlen. unfold dpPass, expandBucket.
  destruct (lookup_lt_is_Some_2 T w ltac:(lia)) as [map ->].
  destruct (foldC_total (fun st => length (fst st) = S (Z.to_nat (capacity ctx)))
              (fun st e => foldC (transition ctx (Z.of_nat w) (fst e) (snd e))
                                 (indexed (variants ctx)) st)
              map (T, [])) as (st & -> & Hst); [| exact Hlen |].
  - intros s e _ Hs. apply foldC_total; [| exact Hs].
    intros s1 [i v] Hiv Hs1. apply transition_total; try assumption.
    eapply indexed_In, Hiv.
  - simpl. eexists. split; [reflexivity |]. rewrite pruneUpdated_length. exact Hst.
Qed.

Lemma runDP_total ctx res :
  (forall x, In x (variants ctx) -> 1 <= v_size x) ->
  exists dpMaps, runDP ctx res = Normal dpMaps.
Proof.
  intros Hsize. unfold runDP.
  destruct (foldC_total (fun T => length T = S (Z.to_nat (capacity ctx))) (dpPass ctx)
              (seq 0 (S (Z.to_nat (capacity ctx)))) (initialTable ctx res))
    as (T & HT & _).
  - intros T w Hw HT. apply dpPass_total; [exact Hsize | | exact HT].
    apply in_seq in Hw. lia.
  - unfold initialTable. rewrite length_insert, length_replicate. reflexivity.
  - exists T. exact HT.
Qed.

(** What a call makes of a catalog whose variants have a size of at
    least 1: the table is built, and the call returns [null] or the rows
    and the simulated income of a build order. *)
Lemma optimizer_outcome defs sizeLimit opts :
  (forall v, In v (buildVariantsFromDefinitions defs) -> 0 <= v_size v) ->
  let ctx := makeCtx defs sizeLimit opts in
  let res := nullish (startingResources opts) DEFAULT_BASE_RESOURCES in
  exists dpMaps,
    runDP ctx res = Normal dpMaps
    /\ match chooseStart ctx (selectBest ctx dpMaps) with
       | None => optimizeBlockIncomeFromDefinitions defs sizeLimit opts = Normal None
       | Some _ =>
           exists (w : nat) key node seq comb,
             placement ctx res w key node seq
             /\ Z.of_nat w <= capacity ctx
             /\ mapC (combinationRow ctx) (finalCounts seq) = Normal comb
             /\ optimizeBlockIncomeFromDefinitions defs sizeLimit opts
                = Normal (Some {| combination := comb;
                                  totalIncome := simulateSequence seq;
                                  totalSize := fold_left (fun s c => s + ci_totalSize c) comb 0;
                                  r_totalStorage := 0 |})
       end.
Proof.
  intros Hnonneg ctx res.
  assert (Hsize : forall x, In x (variants ctx) -> 1 <= v_size x).
  { intros x Hx. pose proof (Hnonneg x Hx). pose proof (buildVariants_size_nonzero defs x Hx). lia. }
  destruct (runDP_total ctx res Hsize) as [T HT]. exists T. split; [exact HT |].
  destruct (runDP_explained ctx res T Hsize HT) as [Hexp Hnd].
  destruct (runDP_pointers ctx res T HT) as [_ Hlen].
  assert (Hcap : 0 <= capacity ctx) by (unfold ctx; simpl; lia).
  unfold optimizeBlockIncomeFromDefinitions. fold ctx. fold res. rewrite HT. simpl.
  destruct (chooseStart ctx (selectBest ctx T)) as [[w key] |] eqn:Ec; [| reflexivity].
  pose proof (selection_choice ctx T w key Ec) as Hsel.
  assert (Hwalk : exists (j : nat) k node seq,
             placement ctx res j k node seq /\ Z.of_nat j <= capacity ctx
             /\ backtrack ctx T (walkFuel T) w key [] = Normal (rev seq)).
  { destruct key as [k |].
    - destruct Hsel as (j & bucket & node & -> & Hb & Hin).
      assert (Hg : mapGet bucket k = Some node).
      { apply mapGet_of_In; [eapply Forall_lookup_1; eassumption | exact Hin]. }
      destruct (backtrack_walk ctx res T Hsize Hexp (walkFuel T) j bucket k node [] Hb Hg)
        as (seq & Hbt & Hpl).
      { unfold walkFuel. pose proof (concat_prefix_length T (S j) (length T)).
        rewrite firstn_all in H. apply lookup_lt_Some in Hb. lia. }
      exists j, k, node, seq. split; [exact Hpl |]. split; [| exact Hbt].
      apply lookup_lt_Some in Hb. lia.
    - destruct Hsel as [-> _]. exists 0%nat, (initialKey ctx res), (initialNode ctx), [].
      split; [constructor |]. split; [simpl; lia | reflexivity]. }
  destruct Hwalk as (j & k & node & seq & Hpl & Hj & Hbt).
  destruct (combinationRows_total ctx seq (placement_variants _ _ _ _ _ _ Hpl)) as [comb Hcomb].
  exists j, k, node, seq, comb. repeat split; try assumption.
  unfold reconstruct. rewrite Hbt. simpl. rewrite rev_involutive, Hcomb. reflexivity.
Qed.

(** *** What a state records about its build order *)

Lemma sumWhere_snoc p f seq v :
  sumWhere p f (seq ++ [v]) = sumWhere p f seq + (if p v then f v else 0).
Proof. unfold sumWhere. induction seq as [| x seq IH]; simpl; [lia | rewrite IH; lia]. Qed.

Lemma getZ_bump arr i d j :
  (i < length arr)%nat ->
  getZ (bump arr i d) j = getZ arr j + (if Nat.eqb i j then d else 0).
Proof.
  intros Hi. unfold bump, getZ. rewrite !nth_lookup.
  destruct (Nat.eqb_spec i j) as [<- | Hne].
  - rewrite list_lookup_insert_eq by exact Hi. reflexivity.
  - rewrite list_lookup_insert_ne by exact Hne. lia.
Qed.

Lemma length_bump arr i d : length (bump arr i d) = length arr.
Proof. unfold bump. apply length_insert. Qed.


Lemma getZ_replicate n i : getZ (replicate n 0) i = 0.
Proof.
  unfold getZ. rewrite nth_lookup. destruct (replicate n 0 !! i) as [x |] eqn:E; [| reflexivity].
  apply lookup_replicate_1 in E. destruct E as [-> _]. reflexivity.
Qed.

Lemma addPreferences_length ctx v c pref :
  length (addPreferences ctx v c pref) = length pref.
Proof.
  unfold addPreferences.
  assert (Hnames : forall names acc,
             length (fold_left (fun acc prefBizName =>
                                  match indexOf prefBizName (businessNames ctx) with
                                  | Some b => bump acc b c
                                  | None => acc
                                  end) names acc) = length acc).
  { induction names as [| n names IH]; intros acc; simpl; [reflexivity |].
    rewrite IH. destruct (indexOf n (businessNames ctx)); [apply length_bump | reflexivity]. }
  assert (Hall : forall idxs acc,
             length (fold_left (fun acc b => bump acc b c) idxs acc) = length acc).
  { induction idxs as [| b idxs IH]; intros acc; simpl; [reflexivity |].
    rewrite IH. apply length_bump. }
  destruct (v_prefers v) as [[| p ps] |]; auto.
Qed.

(** The preference capacities after a house of capacity [c]. *)
Lemma addPreferences_getZ ctx v c pref bi :
  length pref = nBusinesses ctx -> (bi < nBusinesses ctx)%nat ->
  length (addPreferences ctx v c pref) = nBusinesses ctx
  /\ getZ (addPreferences ctx v c pref) bi = getZ pref bi + c * prefersCount ctx bi v.
Proof.
  intros Hlen Hbi. unfold addPreferences, prefersCount.
  assert (Hnames : forall names acc,
             length acc = nBusinesses ctx ->
             let r := fold_left (fun acc prefBizName =>
                                   match indexOf prefBizName (businessNames ctx) with
                                   | Some b => bump acc b c
                                   | None => acc
                                   end) names acc in
             length r = nBusinesses ctx
             /\ getZ r bi
                = getZ acc bi
                  + c * Z.of_nat (length (List.filter (namesBusiness ctx bi) names))).
  { induction names as [| n names IH]; intros acc Hacc; cbv zeta; simpl.
    - split; [exact Hacc | lia].
    - destruct (indexOf n (businessNames ctx)) as [b |] eqn:Eb.
      + pose proof (indexOf_lt _ _ _ Eb) as Hb.
        assert (Hn : namesBusiness ctx bi n = Nat.eqb b bi)
          by (unfold namesBusiness; rewrite Eb; reflexivity).
        destruct (IH (bump acc b c)) as [H1 H2]; [rewrite length_bump; exact Hacc |].
        split; [exact H1 |]. rewrite H2, getZ_bump by (unfold nBusinesses in Hacc; lia).
        rewrite Hn. destruct (Nat.eqb b bi); simpl; lia.
      + assert (Hn : namesBusiness ctx bi n = false)
          by (unfold namesBusiness; rewrite Eb; reflexivity).
        rewrite Hn. apply IH. exact Hacc. }
  assert (Hall : forall idxs acc,
             length acc = nBusinesses ctx ->
             Forall (fun i => (i < nBusinesses ctx)%nat) idxs ->
             let r := fold_left (fun acc b => bump acc b c) idxs acc in
             length r = nBusinesses ctx
             /\ getZ r bi
                = getZ acc bi + c * Z.of_nat (length (List.filter (Nat.eqb bi) idxs))).
  { induction idxs as [| b idxs IH]; intros acc Hacc Hidx; cbv zeta; simpl.
    - split; [exact Hacc | lia].
    - inversion Hidx as [| ? ? Hb Hrest]; subst.
      destruct (IH (bump acc b c)) as [H1 H2]; [rewrite length_bump; exact Hacc | exact Hrest |].
      split; [exact H1 |]. rewrite H2, getZ_bump by lia.
      rewrite (Nat.eqb_sym bi b). destruct (Nat.eqb b bi); simpl; lia. }
  assert (Hseq : length (List.filter (Nat.eqb bi) (seq 0 (nBusinesses ctx))) = 1%nat).
  { generalize (nBusinesses ctx) Hbi. intros n Hn.
    assert (H : forall start k, length (List.filter (Nat.eqb bi) (seq start k))
                                = if (start <=? bi)%nat && (bi <? start + k)%nat then 1%nat else 0%nat).
    { intros start k. revert start. induction k as [| k IH]; intros start; simpl.
      - destruct (Nat.leb_spec start bi), (Nat.ltb_spec bi (start + 0)); simpl; try reflexivity; lia.
      - destruct (Nat.eqb_spec bi start) as [-> | Hne]; simpl; rewrite IH.
        + destruct (Nat.leb_spec (S start) start), (Nat.leb_spec start start),
            (Nat.ltb_spec start (S start + k)), (Nat.ltb_spec start (start + S k));
            simpl; try reflexivity; lia.
        + destruct (Nat.leb_spec (S start) bi), (Nat.leb_spec start bi),
            (Nat.ltb_spec bi (S start + k)), (Nat.ltb_spec bi (start + S k));
            simpl; try reflexivity; lia. }
    rewrite H. destruct (Nat.leb_spec 0 bi), (Nat.ltb_spec bi (0 + n)); simpl; try reflexivity; lia. }
  assert (Hin : Forall (fun i => (i < nBusinesses ctx)%nat) (seq 0 (nBusinesses ctx))).
  { apply List.Forall_forall. intros i Hi. apply in_seq in Hi. lia. }
  destruct (v_prefers v) as [[| p ps] |].
  - destruct (Hall _ pref Hlen Hin) as [H1 H2]. split; [exact H1 |]. rewrite H2, Hseq. lia.
  - apply (Hnames (p :: ps) pref Hlen).
  - destruct (Hall _ pref Hlen Hin) as [H1 H2]. split; [exact H1 |]. rewrite H2, Hseq. lia.
Qed.

Lemma successor_fields ctx w key node i v nw key' node' :
  successor ctx w key node i v = Some (nw, key', node') ->
  let next := aggregatesNext ctx node v in
  k_mask key' = jsOr (k_mask key) (willBeMask ctx v)
  /\ k_counts key' = countsArr next
  /\ incomeNeutral node' = incomeNeutral next
  /\ houseBaseIncome node' = houseBaseIncome next
  /\ totalHouseCapacity node' = totalHouseCapacity next
  /\ countsArr node' = countsArr next
  /\ businessCapacityArr node' = businessCapacityArr next
  /\ businessIncomeBaseArr node' = businessIncomeBaseArr next
  /\ preferenceCapacity node' = preferenceCapacity next.
Proof.
  unfold successor. destruct (capacity ctx <? w + v_size v); [discriminate |].
  destruct (negb (isStorageBuilding v) && negb (affordable key v)); [discriminate |].
  destruct (staffingRejects ctx node v); [discriminate |].
  destruct (estimate ctx (aggregatesNext ctx node v) (w + v_size v)) as [totalEst alloc].
  intros [= _ <- <-]. simpl. repeat split; reflexivity.
Qed.

(** The root state records the empty sequence, and a trip through the
    transition loop extends what a state records by the variant placed. *)
Lemma records_root ctx res : records ctx 0 (initialKey ctx res) (initialNode ctx) [].
Proof.
  unfold records, initialKey, initialNode. simpl. rewrite !length_replicate.
  repeat split; try reflexivity; apply getZ_replicate.
Qed.

Lemma records_step ctx w key node seq i v nw key' node' :
  records ctx w key node seq ->
  successor ctx (Z.of_nat w) key node i v = Some (Z.of_nat nw, key', node') ->
  records ctx nw key' node' (seq ++ [v]).
Proof.
  intros (Hsz & Hmask & Hcnt & Hneu & Hhi & Hhc & (L1 & L2 & L3 & L4) & Harr) Hs.
  destruct (successor_size _ _ _ _ _ _ _ _ _ Hs) as [Hnw _].
  destruct (successor_fields _ _ _ _ _ _ _ _ _ Hs)
    as (Fm & Fk & F1 & F2 & F3 & F4 & F5 & F6 & F7).
  unfold records. rewrite sequenceSize_app, fold_left_app, !sumWhere_snoc.
  rewrite Fm, Fk, F1, F2, F3, F4, F5, F6, F7. clear Fm Fk F1 F2 F3 F4 F5 F6 F7 Hs.
  split; [unfold sequenceSize in *; simpl; lia |].
  split; [simpl; rewrite Hmask; reflexivity |].
  split; [reflexivity |].
  unfold aggregatesNext.
  destruct (v_workerType v) as [[|] |] eqn:Ew.
  - (* employees *)
    assert (EN : isNeutral v = false) by (unfold isNeutral; rewrite Ew; reflexivity).
    assert (ER : isResidents v = false) by (unfold isResidents; rewrite Ew; reflexivity).
    assert (EE : isEmployees v = true) by (unfold isEmployees; rewrite Ew; reflexivity).
    rewrite EN, ER.
    destruct (indexOf (v_name v) (businessNames ctx)) as [b |] eqn:Eb.
    + pose proof (indexOf_lt _ _ _ Eb) as Hb. cbn [incomeNeutral houseBaseIncome
        totalHouseCapacity countsArr businessCapacityArr businessIncomeBaseArr preferenceCapacity].
      rewrite !length_bump.
      split; [lia |]. split; [lia |]. split; [lia |]. split; [auto |].
      intros bi Hbi. destruct (Harr bi Hbi) as (A1 & A2 & A3 & A4).
      rewrite !sumWhere_snoc, ER. unfold placedAt at 2 4 6. unfold namesBusiness.
      rewrite EE, Eb. rewrite !getZ_bump by (unfold nBusinesses in *; lia).
      destruct (Nat.eqb b bi); simpl; repeat split; lia.
    + split; [lia |]. split; [lia |]. split; [lia |]. split; [auto |].
      intros bi Hbi. destruct (Harr bi Hbi) as (A1 & A2 & A3 & A4).
      rewrite !sumWhere_snoc, ER. unfold placedAt at 2 4 6. unfold namesBusiness.
      rewrite EE, Eb. simpl. repeat split; lia.
  - (* residents *)
    assert (EN : isNeutral v = false) by (unfold isNeutral; rewrite Ew; reflexivity).
    assert (ER : isResidents v = true) by (unfold isResidents; rewrite Ew; reflexivity).
    assert (EE : isEmployees v = false) by (unfold isEmployees; rewrite Ew; reflexivity).
    rewrite EN, ER.
    cbn [incomeNeutral houseBaseIncome
        totalHouseCapacity countsArr businessCapacityArr businessIncomeBaseArr preferenceCapacity].
    rewrite addPreferences_length.
    split; [lia |]. split; [lia |]. split; [lia |]. split; [auto |].
    intros bi Hbi. destruct (Harr bi Hbi) as (A1 & A2 & A3 & A4).
    rewrite !sumWhere_snoc, ER. unfold placedAt at 2 4 6.
    rewrite EE. rewrite (proj2 (addPreferences_getZ ctx v (v_capacity v) _ bi L4 Hbi)).
    simpl. repeat split; lia.
  - (* neither *)
    assert (EN : isNeutral v = true) by (unfold isNeutral; rewrite Ew; reflexivity).
    assert (ER : isResidents v = false) by (unfold isResidents; rewrite Ew; reflexivity).
    assert (EE : isEmployees v = false) by (unfold isEmployees; rewrite Ew; reflexivity).
    rewrite EN, ER.
    cbn [incomeNeutral houseBaseIncome
        totalHouseCapacity countsArr businessCapacityArr businessIncomeBaseArr preferenceCapacity].
    split; [lia |]. split; [lia |]. split; [lia |]. split; [auto |].
    intros bi Hbi. destruct (Harr bi Hbi) as (A1 & A2 & A3 & A4).
    rewrite !sumWhere_snoc, ER. unfold placedAt at 2 4 6.
    rewrite EE. simpl. repeat split; lia.
Qed.

Lemma state_records_its_build_order_aux ctx res w key node seq :
  placement ctx res w key node seq -> records ctx w key node seq.
Proof.
  induction 1 as [| w key node seq i v nw key' node' _ IH _ Hs].
  - apply records_root.
  - eapply records_step; eassumption.
Qed.


(** *** Catalogs without negative sizes *)

Lemma In_buildVariants_inv defs v :
  In v (buildVariantsFromDefinitions defs) ->
  exists typeName group buildingName def,
    In (typeName, group) (buildingTypes defs)
    /\ In (buildingName, def) group
    /\ In v (buildingVariants typeName buildingName def).
Proof.
  unfold buildVariantsFromDefinitions. intros H.
  apply in_flat_map in H. destruct H as ([t g] & Htg & H).
  apply in_flat_map in H. destruct H as ([n d] & Hnd & H).
  exists t, g, n, d. auto.
Qed.

Lemma upgradeVariants_identity t n def ups acc workers v :
  In v (upgradeVariants t n def acc workers ups) ->
  v_type v = t /\ v_name v = n /\ v_size v = orElse (d_size def) 1.
Proof.
  revert acc workers. induction ups as [| up ups IH]; intros acc workers; simpl; [intros [] |].
  intros [<- | H]; [simpl; auto | eapply IH, H].
Qed.

Lemma buildingVariants_identity t n def v :
  In v (buildingVariants t n def) ->
  v_type v = t /\ v_name v = n /\ v_size v = orElse (d_size def) 1.
Proof.
  unfold buildingVariants. intros [<- | H]; [simpl; auto | eapply upgradeVariants_identity, H].
Qed.

Lemma sizesNotNegative_variants defs v :
  sizesNotNegative defs = true ->
  In v (buildVariantsFromDefinitions defs) -> 1 <= v_size v.
Proof.
  unfold sizesNotNegative. intros Hs Hv.
  destruct (In_buildVariants_inv defs v Hv) as (t & g & n & d & Htg & Hnd & Hin).
  rewrite forallb_forall in Hs. specialize (Hs _ Htg). cbn [snd] in Hs.
  rewrite forallb_forall in Hs. specialize (Hs _ Hnd). cbn [snd] in Hs.
  apply Z.leb_le in Hs.
  destruct (buildingVariants_identity _ _ _ _ Hin) as (_ & _ & ->).
  unfold orElse, nullish in *. destruct (d_size d) as [z |]; [| lia].
  destruct (Z.eqb_spec z 0); lia.
Qed.




(** X7.  What a returned combination stands for, for a catalog without a
    negative size and without a colon in a building name: there is a build
    order [seq] within the capacity, each of its placements a trip through
    the transition loop that passed the size, cost and staffing filters,
    such that the rows of the combination are the count map of [seq] and
    the total size is the sum of the rows' sizes.  (The total income is
    left out: the source computes it in doubles.) *)
Theorem returned_combination_is_a_build_order defs sizeLimit opts r :
  sizesNotNegative defs = true ->
  namesWithoutColon defs = true ->
  optimizeBlockIncomeFromDefinitions defs sizeLimit opts = Normal (Some r) ->
  let ctx := makeCtx defs sizeLimit opts in
  let res := nullish (startingResources opts) DEFAULT_BASE_RESOURCES in
  exists (w : nat) key node seq,
    placement ctx res w key node seq
    /\ Z.of_nat w <= capacity ctx
    /\ mapC (combinationRow ctx) (finalCounts seq) = Normal (combination r)
    /\ totalSize r = fold_left (fun s c => s + ci_totalSize c) (combination r) 0.
Proof.
  intros Hs _ Hr ctx res.
  destruct (optimizer_outcome defs sizeLimit opts) as (T & HT & Hout).
  { intros v Hv. pose proof (sizesNotNegative_variants defs v Hs Hv). lia. }
  fold ctx res in HT, Hout.
  destruct (chooseStart ctx (selectBest ctx T)) as [[w key] |]; [| congruence].
  destruct Hout as (j & k & node & seq & comb & Hpl & Hj & Hcomb & Hopt).
  rewrite Hopt in Hr. injection Hr as <-. simpl.
  exists j, k, node, seq. repeat split; assumption.
Qed.

Lemma returned_combination_is_a_build_order_witness :
  let ctx := makeCtx sharedNameCatalog 3 defaultOptions in
  exists r,
    optimizeBlockIncomeFromDefinitions sharedNameCatalog 3 defaultOptions = Normal (Some r)
    /\ exists (w : nat) key node seq,
         placement ctx DEFAULT_BASE_RESOURCES w key node seq
         /\ Z.of_nat w <= capacity ctx
         /\ mapC (combinationRow ctx) (finalCounts seq) = Normal (combination r)
         /\ totalSize r = fold_left (fun s c => s + ci_totalSize c) (combination r) 0.
Proof.
  intros ctx. eexists. split; [vm_compute; reflexivity |].
  apply (returned_combination_is_a_build_order sharedNameCatalog 3 defaultOptions);
    [reflexivity | reflexivity | vm_compute; reflexivity].
Defined.

Lemma storedPlacement_placement ctx res T w key node seq :
  storedPlacement ctx res T w key node seq -> placement ctx res w key node seq.
Proof.
  induction 1 as [| w bucket key node seq i v nw key' node' _ IH _ _ Hv Hs _ _];
    [constructor | econstructor; eassumption].
Qed.

Lemma explained_stored ctx res T :
  (forall x, In x (variants ctx) -> 1 <= v_size x) ->
  explained ctx res T -> Forall keysDistinct T ->
  forall w bucket e,
    T !! w = Some bucket -> In e bucket ->
    exists seq, storedPlacement ctx res T w (fst e) (snd e) seq.
Proof.
  intros Hsize Hexp Hnd w. induction w as [w IH] using lt_wf_ind. intros bucket e Hb He.
  destruct (Hexp w bucket e Hb He) as [[-> ->] | (i & v & p & bp & pk & pn & Hv & Hbp & Hg & Hs)].
  - exists []. apply (stored_root ctx res T bucket Hb).
    apply mapGet_of_In; [eapply Forall_lookup_1; eassumption | exact He].
  - destruct (successor_size _ _ _ _ _ _ _ _ _ Hs) as [Hw _].
    destruct (successor_node _ _ _ _ _ _ _ _ _ Hs) as (Hpk & Hpw & _).
    assert (1 <= v_size v) by (apply Hsize; eapply lookup_In, Hv).
    destruct (IH p ltac:(lia) bp (pk, pn) Hbp (mapGet_In _ _ _ Hg)) as [seq Hseq].
    exists (seq ++ [v]). eapply stored_step; eassumption.
Qed.

(** X8.  Every state the table holds when the outer loop ends is reached
    by a build order whose earlier states are all still in the table, when
    every variant has a size of at least 1: each step of the build order
    is a trip through the transition loop from a state that the table
    holds under the key and in the bucket that the successor's [prevKey]
    and [prevW] name, down to the root state in bucket 0.  Pruning never
    removes a state that a stored state descends from. *)
Theorem every_state_has_a_build_order ctx res dpMaps w bucket e :
  (forall x, In x (variants ctx) -> 1 <= v_size x) ->
  runDP ctx res = Normal dpMaps ->
  dpMaps !! w = Some bucket -> In e bucket ->
  exists seq,
    storedPlacement ctx res dpMaps w (fst e) (snd e) seq
    /\ placement ctx res w (fst e) (snd e) seq.
Proof.
  intros Hsize Hrun Hb He.
  destruct (runDP_explained ctx res dpMaps Hsize Hrun) as [Hexp Hnd].
  destruct (explained_stored ctx res dpMaps Hsize Hexp Hnd w bucket e Hb He) as [seq Hseq].
  exists seq. split; [exact Hseq | eapply storedPlacement_placement, Hseq].
Qed.

Lemma every_state_has_a_build_order_witness :
  let ctx := makeCtx twoHousesCatalog 1 defaultOptions in
  let T := match runDP ctx DEFAULT_BASE_RESOURCES with Normal T => T | _ => [] end in
  let bucket := nth 1 T [] in
  let e := nth 1 bucket (initialKey ctx DEFAULT_BASE_RESOURCES, initialNode ctx) in
  length bucket = 2%nat
  /\ exists seq,
       storedPlacement ctx DEFAULT_BASE_RESOURCES T 1 (fst e) (snd e) seq
       /\ placement ctx DEFAULT_BASE_RESOURCES 1 (fst e) (snd e) seq.
Proof.
  intros ctx T bucket e. split; [vm_compute; reflexivity |].
  apply (every_state_has_a_build_order ctx DEFAULT_BASE_RESOURCES T 1 bucket e).
  - intros x Hx. vm_compute in Hx. decompose [or] Hx; subst; try contradiction; simpl; lia.
  - vm_compute. reflexivity.
  - vm_compute. reflexivity.
  - vm_compute. right. left. reflexivity.
Defined.


(** ** Names, indices and masks *)

Lemma existsb_String_In x l : existsb (String.eqb x) l = true <-> In x l.
Proof.
  rewrite existsb_exists. split.
  - intros (y & Hy & He). apply String.eqb_eq in He. subst. exact Hy.
  - intros H. exists x. split; [exact H | apply String.eqb_refl].
Qed.

Lemma setFromList_spec l :
  List.NoDup (setFromList l) /\ forall x, In x (setFromList l) <-> In x l.
Proof.
  unfold setFromList.
  assert (H : forall acc,
             List.NoDup acc ->
             let r := fold_left (fun acc x => if existsb (String.eqb x) acc then acc else acc ++ [x])
                                l acc in
             List.NoDup r /\ forall x, In x r <-> In x acc \/ In x l).
  { induction l as [| y l IH]; intros acc Hacc; cbv zeta; simpl.
    - split; [exact Hacc | intros x; tauto].
    - destruct (existsb (String.eqb y) acc) eqn:E.
      + destruct (IH acc Hacc) as [H1 H2]. split; [exact H1 |]. intros x. rewrite H2.
        apply existsb_String_In in E. split; [tauto |]. intros [H | [<- | H]]; auto.
      + assert (Hnot : ~ In y acc).
        { intros H. apply existsb_String_In in H. congruence. }
        destruct (IH (acc ++ [y])) as [H1 H2].
        { apply List.NoDup_app; [exact Hacc | constructor; [intros [] | constructor] |].
          intros x Hx [<- | []]. contradiction. }
        split; [exact H1 |]. intros x. rewrite H2, in_app_iff. simpl. tauto. }
  destruct (H [] (List.NoDup_nil _)) as [H1 H2]. split; [exact H1 |].
  intros x. rewrite H2. simpl. tauto.
Qed.



Lemma toInt32_small z : - 2 ^ 31 <= z < 2 ^ 31 -> toInt32 z = z.
Proof. intros H. unfold toInt32. rewrite Z.mod_small; lia. Qed.

Lemma pow2_below_31 k : 0 <= k <= 30 -> 0 < 2 ^ k < 2 ^ 31.
Proof.
  intros H. split; [apply Z.pow_pos_nonneg; lia | apply Z.pow_lt_mono_r; lia].
Qed.

Lemma jsShl_one k : 0 <= k <= 30 -> jsShl 1 k = 2 ^ k.
Proof.
  intros H. unfold jsShl. rewrite (toInt32_small 1) by lia.
  rewrite Z.mod_small by lia. rewrite Z.shiftl_1_l.
  pose proof (pow2_below_31 k H). apply toInt32_small. lia.
Qed.

Lemma lor_below a b k :
  0 <= k -> 0 <= a < 2 ^ k -> 0 <= b < 2 ^ k -> 0 <= Z.lor a b < 2 ^ k.
Proof.
  intros Hk Ha Hb. split; [apply Z.lor_nonneg; lia |].
  destruct (Z.eq_dec a 0) as [-> | Ha0]; [rewrite Z.lor_0_l; lia |].
  destruct (Z.eq_dec b 0) as [-> | Hb0]; [rewrite Z.lor_0_r; lia |].
  assert (Hpos : 0 < Z.lor a b).
  { assert (0 <= Z.lor a b) by (apply Z.lor_nonneg; lia).
    assert (Z.lor a b <> 0) by (intros H0; apply Z.lor_eq_0_iff in H0; lia). lia. }
  apply Z.log2_lt_pow2; [exact Hpos |].
  rewrite Z.log2_lor by lia. apply Z.max_lub_lt; apply Z.log2_lt_pow2; lia.
Qed.

Lemma willBeMask_value ctx v :
  (length (miscNames ctx) <= 30)%nat ->
  willBeMask ctx v = match miscBit ctx v with Some idx => 2 ^ Z.of_nat idx | None => 0 end.
Proof.
  intros Hn. unfold willBeMask, miscBit. destruct (String.eqb (v_type v) "misc"); [| reflexivity].
  destruct (indexOf (v_name v) (miscNames ctx)) as [idx |] eqn:E; [| reflexivity].
  apply indexOf_lt in E. apply jsShl_one. lia.
Qed.

Lemma maskOf_snoc ctx seq v : maskOf ctx (seq ++ [v]) = jsOr (maskOf ctx seq) (willBeMask ctx v).
Proof. unfold maskOf. rewrite fold_left_app. reflexivity. Qed.

(** With at most 30 misc names the masks are plain non-negative numbers,
    and bit [j] of the mask of a build order says whether the build order
    holds a variant for the misc name of index [j]. *)
Lemma maskOf_bits ctx seq :
  (length (miscNames ctx) <= 30)%nat ->
  0 <= maskOf ctx seq < 2 ^ Z.of_nat (length (miscNames ctx))
  /\ forall j : nat,
       Z.testbit (maskOf ctx seq) (Z.of_nat j)
       = existsb (fun v => match miscBit ctx v with Some idx => Nat.eqb idx j | None => false end)
                 seq.
Proof.
  intros Hn. set (n := length (miscNames ctx)) in *.
  induction seq as [| v seq IH] using rev_ind.
  - split; [unfold maskOf; simpl; split; [lia | apply Z.pow_pos_nonneg; lia] |].
    intros j. unfold maskOf. simpl. apply Z.testbit_0_l.
  - destruct IH as [Hb Hbits]. rewrite maskOf_snoc, willBeMask_value by exact Hn.
    assert (Hbit : 0 <= match miscBit ctx v with Some idx => 2 ^ Z.of_nat idx | None => 0 end
                   < 2 ^ Z.of_nat n).
    { unfold miscBit. destruct (String.eqb (v_type v) "misc");
        [| split; [lia | apply Z.pow_pos_nonneg; lia]].
      destruct (indexOf (v_name v) (miscNames ctx)) as [idx |] eqn:E;
        [| split; [lia | apply Z.pow_pos_nonneg; lia]].
      apply indexOf_lt in E. fold n in E.
      split; [apply Z.pow_nonneg; lia | apply Z.pow_lt_mono_r; lia]. }
    assert (H31 : 2 ^ Z.of_nat n < 2 ^ 31) by (apply Z.pow_lt_mono_r; lia).
    unfold jsOr. rewrite !toInt32_small by lia.
    split; [apply lor_below; [lia | assumption | assumption] |].
    intros j. rewrite Z.lor_spec, Hbits, existsb_app. simpl. rewrite orb_false_r. f_equal.
    destruct (miscBit ctx v) as [idx |]; [| apply Z.testbit_0_l].
    rewrite Z.pow2_bits_eqb by lia.
    destruct (Nat.eqb_spec idx j) as [-> | Hne]; [apply Z.eqb_refl | apply Z.eqb_neq; lia].
Qed.


Lemma makeCtx_requiredMask defs sizeLimit opts :
  requiredMask (makeCtx defs sizeLimit opts)
  = if (0 <? length (mandatoryMiscNames defs))%nat
    then jsShl 1 (Z.of_nat (length (mandatoryMiscNames defs))) - 1 else 0.
Proof. reflexivity. Qed.

(** X9.  The names the optimizer indexes.  The mandatory misc names are
    the names of the misc variants flagged mandatory, each once; the
    business names are the names of the employees variants, each once.
    The index object that the loop [index[names[i]] = i] fills from either
    list gives, read under [typeof .. === "number"], the position of every
    name of the list but one: the assignment to ["__proto__"] stores
    nothing, so that name has no index although it is in the list and
    counted in its length.  No other name has an index. *)
Theorem names_are_indexed_by_position defs sizeLimit opts :
  let ctx := makeCtx defs sizeLimit opts in
  (List.NoDup (miscNames ctx)
   /\ (forall name, In name (miscNames ctx)
         <-> exists v, In v (variants ctx) /\ v_type v = "misc"%string
                       /\ v_mandatory v = true /\ v_name v = name)
   /\ forall name i,
        indexOf name (miscNames ctx) = Some i
        <-> miscNames ctx !! i = Some name /\ name <> "__proto__"%string)
  /\ (List.NoDup (businessNames ctx)
      /\ (forall name, In name (businessNames ctx)
            <-> exists v, In v (variants ctx) /\ v_workerType v = Some employees
                          /\ v_name v = name)
      /\ forall name i,
           indexOf name (businessNames ctx) = Some i
           <-> businessNames ctx !! i = Some name /\ name <> "__proto__"%string).
Proof.
  intros ctx. split.
  - destruct (setFromList_spec
                (map v_name (List.filter (fun v => String.eqb (v_type v) "misc" && v_mandatory v)
                                         (variants ctx)))) as [Hnd Hin].
    split; [exact Hnd |]. split.
    + intros name.
      change (miscNames ctx)
        with (setFromList
                (map v_name (List.filter (fun v => String.eqb (v_type v) "misc" && v_mandatory v)
                                         (variants ctx)))).
      rewrite Hin, in_map_iff. split.
      * intros (v & Hname & Hv). apply filter_In in Hv. destruct Hv as [Hv Hc].
        apply andb_true_iff in Hc. destruct Hc as [Ht Hm]. apply String.eqb_eq in Ht.
        exists v. auto.
      * intros (v & Hv & Ht & Hm & Hname). exists v. split; [exact Hname |].
        apply filter_In. split; [exact Hv |]. rewrite Ht, Hm. reflexivity.
    + intros name i. apply indexOf_iff. exact Hnd.
  - destruct (setFromList_spec (map v_name (List.filter isEmployees (variants ctx))))
      as [Hnd Hin].
    split; [exact Hnd |]. split.
    + intros name.
      change (businessNames ctx)
        with (setFromList (map v_name (List.filter isEmployees (variants ctx)))).
      rewrite Hin, in_map_iff. split.
      * intros (v & Hname & Hv). apply filter_In in Hv. destruct Hv as [Hv Hc].
        exists v. split; [exact Hv |]. split; [| exact Hname].
        unfold isEmployees in Hc. destruct (v_workerType v) as [[|] |]; congruence.
      * intros (v & Hv & Hw & Hname). exists v. split; [exact Hname |].
        apply filter_In. split; [exact Hv |]. unfold isEmployees. rewrite Hw. reflexivity.
    + intros name i. apply indexOf_iff. exact Hnd.
Qed.

Lemma required_mask_small defs sizeLimit opts :
  (length (mandatoryMiscNames defs) <= 30)%nat ->
  requiredMask (makeCtx defs sizeLimit opts) = 2 ^ Z.of_nat (length (mandatoryMiscNames defs)) - 1
  /\ List.NoDup (mandatoryMiscNames defs).
Proof.
  intros Hn. split.
  - rewrite makeCtx_requiredMask.
    destruct (length (mandatoryMiscNames defs)) as [| k] eqn:E; [reflexivity |].
    change (0 <? S k)%nat with true. cbv iota. rewrite jsShl_one by lia. reflexivity.
  - apply setFromList_spec.
Qed.

(** X10.  The required mask by the number [n] of mandatory misc names: it
    is 2^n - 1 up to 30 names; with 31 names the shift wraps to the sign
    bit and the mask is -2^31 - 1; with 32 names the shift count wraps to
    0, the mask is 0 like that of a catalog without mandatory buildings,
    and the optimizer never returns [null]. *)
Theorem required_mask_by_number_of_names defs sizeLimit opts :
  let n := length (mandatoryMiscNames defs) in
  let mask := requiredMask (makeCtx defs sizeLimit opts) in
  ((n <= 30)%nat -> mask = 2 ^ Z.of_nat n - 1)
  /\ (n = 31%nat -> mask = - 2 ^ 31 - 1)
  /\ (n = 32%nat ->
      mask = 0 /\ optimizeBlockIncomeFromDefinitions defs sizeLimit opts <> Normal None).
Proof.
  intros n mask. unfold mask. rewrite makeCtx_requiredMask. fold n.
  split; [| split].
  - intros Hn. destruct n as [| k] eqn:E; [reflexivity |].
    change (0 <? S k)%nat with true. cbv iota. rewrite jsShl_one by lia. reflexivity.
  - intros ->. reflexivity.
  - intros Hn. assert (Hmask : requiredMask (makeCtx defs sizeLimit opts) = 0).
    { rewrite makeCtx_requiredMask. fold n. rewrite Hn. reflexivity. }
    split; [rewrite Hn; reflexivity |].
    unfold optimizeBlockIncomeFromDefinitions.
    destruct (runDP _ _) as [T | e |]; simpl; try discriminate.
    unfold chooseStart. rewrite Hmask. simpl.
    destruct (reconstruct _ _ _ _); simpl; discriminate.
Qed.

Lemma required_mask_by_number_of_names_witness :
  (length (mandatoryMiscNames twoMandatoryCatalog) = 2%nat
   /\ requiredMask (makeCtx twoMandatoryCatalog 4 defaultOptions) = 3)
  /\ length (mandatoryMiscNames thirtyTwoMandatoryCatalog) = 32%nat
  /\ requiredMask (makeCtx thirtyTwoMandatoryCatalog 1 defaultOptions) = 0
  /\ optimizeBlockIncomeFromDefinitions thirtyTwoMandatoryCatalog 1 defaultOptions
     <> Normal None.
Proof.
  split; [split; [reflexivity |] | split; [reflexivity |]].
  - apply (proj1 (required_mask_by_number_of_names twoMandatoryCatalog 4 defaultOptions)).
    vm_compute. lia.
  - apply (proj2 (proj2 (required_mask_by_number_of_names thirtyTwoMandatoryCatalog 1
                           defaultOptions))).
    reflexivity.
Defined.

Lemma maskOf_full ctx seq :
  List.NoDup (miscNames ctx) ->
  (length (miscNames ctx) <= 30)%nat ->
  maskOf ctx seq = 2 ^ Z.of_nat (length (miscNames ctx)) - 1
  <-> forall name, In name (miscNames ctx) ->
        placesMisc name seq /\ name <> "__proto__"%string.
Proof.
  intros Hnd Hn. destruct (maskOf_bits ctx seq Hn) as [Hb Hbits].
  set (n := length (miscNames ctx)) in *.
  assert (Hplaced : forall j name,
             miscNames ctx !! j = Some name ->
             (Z.testbit (maskOf ctx seq) (Z.of_nat j) = true
              <-> placesMisc name seq /\ name <> "__proto__"%string)).
  { intros j name Hj. rewrite Hbits, existsb_exists. unfold placesMisc, miscBit. split.
    - intros (v & Hv & Hc).
      destruct (String.eqb_spec (v_type v) "misc") as [Ht | ]; [| discriminate].
      destruct (indexOf (v_name v) (miscNames ctx)) as [idx |] eqn:E; [| discriminate].
      apply Nat.eqb_eq in Hc. subst idx. apply (indexOf_iff _ _ _ Hnd) in E.
      destruct E as [E Hp]. assert (v_name v = name) by congruence. subst name.
      split; [exists v; auto | exact Hp].
    - intros [(v & Hv & Ht & Hname) Hp]. exists v. split; [exact Hv |].
      rewrite Ht. simpl. rewrite Hname, (indexOf_of_lookup _ _ _ Hnd Hp Hj).
      apply Nat.eqb_refl. }
  replace (2 ^ Z.of_nat n - 1) with (Z.ones (Z.of_nat n)) by (rewrite Z.ones_equiv; lia).
  split.
  - intros Hfull name Hin. apply list_elem_of_In, list_elem_of_lookup_1 in Hin.
    destruct Hin as [j Hj]. apply (Hplaced j name Hj). rewrite Hfull.
    apply Z.ones_spec_low. apply lookup_lt_Some in Hj. fold n in Hj. lia.
  - intros Hall. apply Z.bits_inj'. intros k Hk.
    destruct (Z.lt_ge_cases k (Z.of_nat n)) as [Hlt | Hge].
    + rewrite Z.ones_spec_low by lia. rewrite <- (Z2Nat.id k Hk).
      destruct (lookup_lt_is_Some_2 (miscNames ctx) (Z.to_nat k) ltac:(fold n; lia)) as [name Hj].
      apply (Hplaced _ name Hj). apply Hall. eapply lookup_In, Hj.
    + rewrite Z.ones_spec_high by lia.
      destruct (Z.eq_dec (maskOf ctx seq) 0) as [-> | Hnz]; [apply Z.testbit_0_l |].
      apply Z.bits_above_log2; [lia |].
      apply Z.lt_le_trans with (Z.of_nat n); [| exact Hge].
      apply Z.log2_lt_pow2; lia.
Qed.

(** X11.  What the mask of a state means, for a catalog with at most 30
    mandatory misc names: a state reached by a build order carries the
    required mask if and only if the build order holds, for every mandatory
    misc name, a variant of type misc with that name (of any level, flagged
    mandatory or not), and none of the mandatory misc names is
    ["__proto__"].  That name has no index in [miscIndex], so its bit is
    part of the required mask and is never set: with a mandatory misc
    building called ["__proto__"] no state carries the required mask. *)
Theorem full_mask_iff_every_mandatory_name_placed defs sizeLimit opts res w key node seq :
  let ctx := makeCtx defs sizeLimit opts in
  (length (mandatoryMiscNames defs) <= 30)%nat ->
  placement ctx res w key node seq ->
  k_mask key = requiredMask ctx
  <-> forall name, In name (mandatoryMiscNames defs) ->
        placesMisc name seq /\ name <> "__proto__"%string.
Proof.
  intros ctx Hn Hpl.
  destruct (state_records_its_build_order_aux ctx res w key node seq Hpl) as (_ & Hmask & _).
  change (k_mask key = maskOf ctx seq) in Hmask. rewrite Hmask.
  destruct (required_mask_small defs sizeLimit opts Hn) as [Hrm Hnd].
  fold ctx in Hrm. rewrite Hrm.
  apply (maskOf_full ctx seq Hnd Hn).
Qed.

Lemma full_mask_iff_every_mandatory_name_placed_witness :
  let ctx := makeCtx oneMandatoryCatalog 1 defaultOptions in
  exists key node v,
    placement ctx DEFAULT_BASE_RESOURCES 1 key node [v]
    /\ k_mask key = requiredMask ctx
    /\ forall name, In name (mandatoryMiscNames oneMandatoryCatalog) ->
         placesMisc name [v] /\ name <> "__proto__"%string.
Proof.
  intros ctx. eexists _, _, _.
  match goal with |- ?P /\ _ => assert (H : P) end.
  { eapply (placement_step ctx DEFAULT_BASE_RESOURCES 0 _ _ [] 0%nat);
      [constructor | vm_compute; reflexivity | vm_compute; reflexivity]. }
  split; [exact H |]. split; [vm_compute; reflexivity |].
  apply (proj1 (full_mask_iff_every_mandatory_name_placed oneMandatoryCatalog 1 defaultOptions
                  DEFAULT_BASE_RESOURCES _ _ _ _ ltac:(vm_compute; lia) H)).
  vm_compute. reflexivity.
Defined.

(** ** Invariants of the stored states *)

(** A property of the root state that every trip through the transition
    loop hands on from parent to successor holds for every state of the
    final table. *)
Lemma runDP_entries (P : Key * Node -> Prop) ctx res dpMaps :
  P (initialKey ctx res, initialNode ctx) ->
  (forall w key node i v nw key' node',
      P (key, node) -> In v (variants ctx) ->
      successor ctx w key node i v = Some (nw, key', node') -> P (key', node')) ->
  runDP ctx res = Normal dpMaps ->
  forall bucket e, In bucket dpMaps -> In e bucket -> P e.
Proof.
  intros Hroot Hstep Hrun.
  assert (H : Forall (Forall P) dpMaps).
  { revert Hrun. unfold runDP. apply (foldC_invariant (Forall (Forall P))).
    - intros T w T' HT. unfold dpPass.
      destruct (expandBucket ctx w T) as [[T1 upd] | e |] eqn:E; simpl; try discriminate.
      intros [= <-].
      assert (H1 : Forall (Forall P) T1).
      { revert E. unfold expandBucket. destruct (T !! w) as [map |] eqn:Ew; [| discriminate].
        assert (Hmap : Forall P map) by (eapply Forall_lookup_1; eassumption).
        intros E. change T1 with (fst (T1, upd)). revert E.
        apply (foldC_invariant_In (fun s => Forall (Forall P) (fst s))); [| exact HT].
        intros s [key node] s' He Hs.
        apply (foldC_invariant_In (fun s => Forall (Forall P) (fst s))); [| exact Hs].
        intros s1 [i v] s2 Hiv Hs1. unfold transition. cbn [fst snd].
        destruct (successor ctx (Z.of_nat w) key node i v) as [[[nw newKey] newNode] |] eqn:Es;
          [| intros [= <-]; exact Hs1].
        destruct (nw <? 0); [discriminate |].
        destruct (fst s1 !! Z.to_nat nw) as [bucket |] eqn:Eb; [| discriminate].
        destruct (match mapGet bucket newKey with
                  | Some existing => total existing <? total newNode
                  | None => true
                  end); intros [= <-]; [| exact Hs1].
        cbn [fst]. apply Forall_insert; [exact Hs1 |].
        apply List.Forall_forall. intros x Hx. apply mapSet_In in Hx.
        destruct Hx as [-> | Hx].
        - eapply Hstep; [| eapply indexed_In, Hiv | exact Es].
          rewrite List.Forall_forall in Hmap. apply Hmap, He.
        - assert (Hb : Forall P bucket) by (eapply Forall_lookup_1; eassumption).
          rewrite List.Forall_forall in Hb. apply Hb, Hx. }
      clear E. unfold pruneUpdated. revert T1 H1.
      induction upd as [| i upd IH]; intros T1 H1; simpl; [exact H1 |].
      apply IH. destruct (T1 !! i) as [m |] eqn:Em; [| exact H1].
      apply Forall_insert; [exact H1 |].
      assert (Hm : Forall P m) by (eapply Forall_lookup_1; eassumption).
      rewrite List.Forall_forall in Hm |- *. intros x Hx. apply Hm.
      eapply pruneMapToBeam_In, Hx.
    - unfold initialTable. apply Forall_insert; [apply Forall_replicate; constructor |].
      constructor; [exact Hroot | constructor]. }
  intros bucket e Hb He. rewrite List.Forall_forall in H. specialize (H bucket Hb).
  rewrite List.Forall_forall in H. apply H, He.
Qed.

Lemma qmax_nonneg a b : (0 <= a)%Q -> (0 <= qmax a b)%Q.
Proof.
  intros Ha. unfold qmax. destruct (Qle_bool a b) eqn:E; [| exact Ha].
  apply Qle_bool_iff in E. eapply Qle_trans; eassumption.
Qed.

Lemma fold_qmax_nonneg {A : Type} (f : A -> Q) l a :
  (0 <= a)%Q -> (0 <= fold_left (fun m x => qmax m (f x)) l a)%Q.
Proof.
  revert a. induction l as [| x l IH]; intros a Ha; simpl; [exact Ha |].
  apply IH. apply qmax_nonneg. exact Ha.
Qed.

Lemma Qceiling_nonneg x : (0 <= x)%Q -> 0 <= Qceiling x.
Proof. intros H. change 0 with (Qceiling 0). apply Qceiling_resp_le. exact H. Qed.

Lemma makeCtx_limits defs sizeLimit opts :
  let ctx := makeCtx defs sizeLimit opts in
  0 <= maxResidents ctx <= MAX_RESIDENTS
  /\ money (maxResourceUpper ctx) <= MAX_RESOURCE_UPPER
  /\ wood (maxResourceUpper ctx) <= MAX_RESOURCE_UPPER
  /\ cement (maxResourceUpper ctx) <= MAX_RESOURCE_UPPER
  /\ steel (maxResourceUpper ctx) <= MAX_RESOURCE_UPPER.
Proof.
  cbv zeta. unfold makeCtx. cbn [maxResidents maxResourceUpper money wood cement steel].
  unfold upperBound. split; [| repeat split; apply Z.le_min_l].
  split; [| apply Z.le_min_l]. apply Z.min_glb; [unfold MAX_RESIDENTS; lia |].
  apply Qceiling_nonneg. apply Qmult_le_0_compat.
  - change 0%Q with (inject_Z 0). rewrite <- Zle_Qle. lia.
  - apply fold_qmax_nonneg. apply Qle_refl.
Qed.

Lemma successor_within_limits ctx w key node i v nw key' node' :
  0 <= maxResidents ctx <= MAX_RESIDENTS ->
  money (maxResourceUpper ctx) <= MAX_RESOURCE_UPPER ->
  wood (maxResourceUpper ctx) <= MAX_RESOURCE_UPPER ->
  cement (maxResourceUpper ctx) <= MAX_RESOURCE_UPPER ->
  steel (maxResourceUpper ctx) <= MAX_RESOURCE_UPPER ->
  successor ctx w key node i v = Some (nw, key', node') ->
  keyWithinLimits key'.
Proof.
  intros Hr Hm Hw Hc Hs. unfold successor.
  destruct (capacity ctx <? w + v_size v); [discriminate |].
  destruct (negb (isStorageBuilding v) && negb (affordable key v)); [discriminate |].
  destruct (staffingRejects ctx node v); [discriminate |].
  destruct (estimate ctx (aggregatesNext ctx node v) (w + v_size v)) as [totalEst alloc].
  intros [= _ <- _]. unfold keyWithinLimits, newResources, clamp.
  cbn [k_r k_money k_wood k_cement k_steel money wood cement steel].
  unfold MAX_RESOURCE_UPPER, MAX_RESIDENTS in *. repeat split; lia.
Qed.

(** X12.  The state space is bounded: apart from the root state, whose
    resources are the starting resources as given, every state of the
    table carries between 0 and 1000 residents and between 0 and 100000
    of each resource in its key. *)
Theorem stored_keys_are_within_limits defs sizeLimit opts dpMaps :
  let ctx := makeCtx defs sizeLimit opts in
  let res := nullish (startingResources opts) DEFAULT_BASE_RESOURCES in
  runDP ctx res = Normal dpMaps ->
  forall bucket e,
    In bucket dpMaps -> In e bucket ->
    e = (initialKey ctx res, initialNode ctx) \/ keyWithinLimits (fst e).
Proof.
  intros ctx res Hrun.
  apply (runDP_entries
           (fun e => e = (initialKey ctx res, initialNode ctx) \/ keyWithinLimits (fst e))
           ctx res dpMaps); [left; reflexivity | | exact Hrun].
  intros w key node i v nw key' node' _ _ Hs. right.
  destruct (makeCtx_limits defs sizeLimit opts) as (Hr & Hm & Hw & Hc & Hst).
  eapply successor_within_limits; eassumption.
Qed.

Lemma stored_keys_are_within_limits_witness :
  let ctx := makeCtx vaultCatalog 2 defaultOptions in
  let T := match runDP ctx DEFAULT_BASE_RESOURCES with Normal T => T | _ => [] end in
  let bucket := nth 2 T [] in
  let e := nth 0 bucket (initialKey ctx DEFAULT_BASE_RESOURCES, initialNode ctx) in
  k_money (fst e) = 2000 /\ keyWithinLimits (fst e).
Proof.
  intros ctx T bucket e. split; [vm_compute; reflexivity |].
  destruct (stored_keys_are_within_limits vaultCatalog 2 defaultOptions T
              ltac:(vm_compute; reflexivity) bucket e) as [Hroot | H].
  - vm_compute. right. right. left. reflexivity.
  - vm_compute. left. reflexivity.
  - vm_compute in Hroot. discriminate.
  - exact H.
Defined.

(** ** The rows of a combination *)

Lemma countVariant_countOf counts name level name' level' :
  countOf (countVariant counts name level) name' level'
  = countOf counts name' level'
    + (if String.eqb name name' && (level =? level') then 1 else 0).
Proof.
  unfold countOf. induction counts as [| [[n l] c] counts IH]; simpl.
  - destruct (String.eqb name name' && (level =? level')); simpl; lia.
  - destruct (String.eqb_spec n name) as [-> | Hn]; simpl.
    + destruct (Z.eqb_spec l level) as [-> | Hl]; simpl.
      * destruct (String.eqb name name' && (level =? level')); simpl; lia.
      * destruct (String.eqb name name' && (l =? level')) eqn:E; simpl; [| exact IH].
        apply andb_true_iff in E. destruct E as [_ E]. apply Z.eqb_eq in E. subst l.
        destruct (Z.eqb_spec level level'); [congruence |]. rewrite andb_false_r. lia.
    + destruct (String.eqb n name' && (l =? level')) eqn:E; simpl; [| exact IH].
      apply andb_true_iff in E. destruct E as [E _]. apply String.eqb_eq in E. subst n.
      destruct (String.eqb_spec name name'); [congruence |]. simpl. lia.
Qed.

Lemma finalCounts_countOf seq name level :
  countOf (finalCounts seq) name level = occurrences name level seq.
Proof.
  unfold finalCounts, occurrences.
  assert (H : forall counts,
             countOf (fold_left (fun counts v => countVariant counts (v_name v) (v_level v))
                                seq counts) name level
             = countOf counts name level
               + Z.of_nat (length (List.filter (sameNameLevel name level) seq))).
  { induction seq as [| v seq IH]; intros counts; simpl; [lia |].
    rewrite IH, countVariant_countOf. unfold sameNameLevel at 2.
    destruct (String.eqb (v_name v) name && (v_level v =? level)); simpl; lia. }
  rewrite H. unfold countOf. simpl. lia.
Qed.

Lemma countVariant_rows counts name level :
  map fst (countVariant counts name level)
  = if existsb (fun k => String.eqb (fst k) name && (snd k =? level)) (map fst counts)
    then map fst counts else map fst counts ++ [(name, level)].
Proof.
  induction counts as [| [[n l] c] counts IH]; simpl; [reflexivity |].
  destruct (String.eqb n name && (l =? level)); simpl; [reflexivity |].
  rewrite IH. destruct (existsb _ (map fst counts)); reflexivity.
Qed.

Lemma finalCounts_NoDup seq : List.NoDup (map fst (finalCounts seq)).
Proof.
  unfold finalCounts.
  assert (H : forall counts,
             List.NoDup (map fst counts) ->
             List.NoDup (map fst (fold_left (fun counts v =>
                                               countVariant counts (v_name v) (v_level v))
                                            seq counts))).
  { induction seq as [| v seq IH]; intros counts Hnd; simpl; [exact Hnd |].
    apply IH. rewrite countVariant_rows.
    destruct (existsb _ (map fst counts)) eqn:E; [exact Hnd |].
    apply List.NoDup_app; [exact Hnd | constructor; [intros [] | constructor] |].
    intros k Hk [<- | []].
    assert (Hc : existsb (fun k => String.eqb (fst k) (v_name v) && (snd k =? v_level v))
                         (map fst counts) = true).
    { apply existsb_exists. exists (v_name v, v_level v). split; [exact Hk |].
      simpl. rewrite String.eqb_refl, Z.eqb_refl. reflexivity. }
    congruence. }
  apply H. constructor.
Qed.

(** A row of a count map without repeated keys holds the count of its key. *)
Lemma countOf_row counts name level count :
  List.NoDup (map fst counts) -> In (name, level, count) counts ->
  countOf counts name level = count.
Proof.
  unfold countOf. induction counts as [| [[n l] c] counts IH]; simpl; intros Hnd Hin;
    [destruct Hin |].
  inversion Hnd as [| ? ? Hnot Hnd']; subst.
  destruct Hin as [[= -> -> ->] | Hin].
  - rewrite String.eqb_refl, Z.eqb_refl. reflexivity.
  - destruct (String.eqb n name && (l =? level)) eqn:E; simpl; [| apply IH; assumption].
    exfalso. apply andb_true_iff in E. destruct E as [E1 E2].
    apply String.eqb_eq in E1. apply Z.eqb_eq in E2. subst.
    apply Hnot. apply in_map_iff. exists (name, level, count). auto.
Qed.

Lemma finalCounts_total seq :
  fold_right (fun row acc => snd row + acc) 0 (finalCounts seq) = Z.of_nat (length seq).
Proof.
  unfold finalCounts.
  assert (Hone : forall counts name level,
             fold_right (fun row acc => snd row + acc) 0 (countVariant counts name level)
             = fold_right (fun (row : string * Z * Z) acc => snd row + acc) 0 counts + 1).
  { induction counts as [| [[n l] c] counts IH]; intros name level; simpl; [lia |].
    destruct (String.eqb n name && (l =? level)); simpl; [lia | rewrite IH; lia]. }
  assert (H : forall counts,
             fold_right (fun row acc => snd row + acc) 0
               (fold_left (fun counts v => countVariant counts (v_name v) (v_level v)) seq counts)
             = fold_right (fun (row : string * Z * Z) acc => snd row + acc) 0 counts
               + Z.of_nat (length seq)).
  { induction seq as [| v seq IH]; intros counts; simpl length; simpl fold_left; [lia |].
    rewrite IH, Hone. lia. }
  rewrite H. simpl. lia.
Qed.

Lemma finalCounts_covers seq v :
  In v seq -> exists count, In (v_name v, v_level v, count) (finalCounts seq).
Proof.
  intros Hv.
  assert (Hpos : 0 < countOf (finalCounts seq) (v_name v) (v_level v)).
  { rewrite finalCounts_countOf. unfold occurrences.
    assert (Hin : In v (List.filter (sameNameLevel (v_name v) (v_level v)) seq)).
    { apply filter_In. split; [exact Hv |]. unfold sameNameLevel.
      rewrite String.eqb_refl, Z.eqb_refl. reflexivity. }
    destruct (List.filter _ seq); [destruct Hin | simpl; lia]. }
  unfold countOf in Hpos.
  destruct (find _ (finalCounts seq)) as [[[n l] c] |] eqn:E; [| lia].
  apply find_some in E. destruct E as [Hin Hk]. simpl in Hk.
  apply andb_true_iff in Hk. destruct Hk as [Hn Hl].
  apply String.eqb_eq in Hn. apply Z.eqb_eq in Hl. subst. exists c. exact Hin.
Qed.

Lemma mapC_Forall2 {A B : Type} (f : A -> completion B) l bs :
  mapC f l = Normal bs -> Forall2 (fun a b => f a = Normal b) l bs.
Proof.
  revert bs. induction l as [| a l IH]; intros bs; simpl.
  - intros [= <-]. constructor.
  - destruct (f a) as [b | e |] eqn:E; simpl; try discriminate.
    destruct (mapC f l) as [bs' | e |]; simpl; try discriminate.
    intros [= <-]. constructor; [exact E | apply IH; reflexivity].
Qed.

Lemma combinationRow_fields ctx name level count c :
  combinationRow ctx (name, level, count) = Normal c ->
  ci_name c = name /\ ci_level c = level /\ ci_count c = count
  /\ exists x,
       find (sameNameLevel name level) (variants ctx) = Some x
       /\ ci_size c = v_size x /\ ci_incomePerBuilding c = v_income x
       /\ ci_capacity c = v_capacity x /\ ci_storageCapacity c = v_storageCapacity x
       /\ ci_workerType c = v_workerType x /\ ci_type c = Some (v_type x)
       /\ ci_totalIncome c = v_income x * count /\ ci_totalSize c = v_size x * count.
Proof.
  unfold combinationRow.
  destruct (find (sameNameLevel name level) (variants ctx)) as [x |]; [| discriminate].
  intros [= <-]. simpl. repeat split. exists x. repeat split.
Qed.

(** X13.  The rows of a combination tally the build order they are made
    from, when no name of the build order holds a colon.  There is one row
    for every pair of a name and a level that occurs in the build order,
    and none else; the count of a row is the
    number of placements with that name and level; the counts add up to
    the number of placements; and size, income and the other catalog data
    of a row are those of the first variant of the catalog with that name
    and level, the totals being the per-building values times the count. *)
Theorem combination_rows_tally_the_build_order ctx seq comb :
  (forall v, In v seq -> hasColon (v_name v) = false) ->
  mapC (combinationRow ctx) (finalCounts seq) = Normal comb ->
  List.NoDup (map (fun c => (ci_name c, ci_level c)) comb)
  /\ (forall c, In c comb ->
        ci_count c = occurrences (ci_name c) (ci_level c) seq
        /\ 1 <= ci_count c
        /\ exists x,
             find (sameNameLevel (ci_name c) (ci_level c)) (variants ctx) = Some x
             /\ ci_size c = v_size x /\ ci_incomePerBuilding c = v_income x
             /\ ci_capacity c = v_capacity x /\ ci_storageCapacity c = v_storageCapacity x
             /\ ci_workerType c = v_workerType x /\ ci_type c = Some (v_type x)
             /\ ci_totalIncome c = ci_incomePerBuilding c * ci_count c
             /\ ci_totalSize c = ci_size c * ci_count c)
  /\ (forall v, In v seq ->
        exists c, In c comb /\ ci_name c = v_name v /\ ci_level c = v_level v)
  /\ fold_right (fun c acc => ci_count c + acc) 0 comb = Z.of_nat (length seq).
Proof.
  intros _ Hmap. apply mapC_Forall2 in Hmap.
  assert (Hrows : Forall2 (fun row c => fst row = (ci_name c, ci_level c) /\ snd row = ci_count c)
                          (finalCounts seq) comb).
  { eapply Forall2_impl; [exact Hmap |]. intros [[n l] cnt] c Hc.
    destruct (combinationRow_fields _ _ _ _ _ Hc) as (-> & -> & -> & _). auto. }
  assert (Hkeys : map fst (finalCounts seq) = map (fun c => (ci_name c, ci_level c)) comb).
  { clear Hmap. induction Hrows as [| row c rows cs [Hk _] _ IH]; simpl; [reflexivity |].
    rewrite Hk, IH. reflexivity. }
  assert (Hsum : fold_right (fun row acc => snd row + acc) 0 (finalCounts seq)
                 = fold_right (fun c acc => ci_count c + acc) 0 comb).
  { clear Hmap Hkeys. induction Hrows as [| row c rows cs [_ Hc] _ IH]; simpl; [reflexivity |].
    rewrite Hc, IH. reflexivity. }
  split; [rewrite <- Hkeys; apply finalCounts_NoDup |].
  split; [| split].
  - intros c Hc.
    assert (Hex : exists row, In row (finalCounts seq) /\ combinationRow ctx row = Normal c).
    { clear Hrows Hkeys Hsum. induction Hmap as [| row c' rows cs Hrow _ IH]; [destruct Hc |].
      destruct Hc as [<- | Hc]; [exists row; split; [left; reflexivity | exact Hrow] |].
      destruct (IH Hc) as (r & Hr & Hcr). exists r. split; [right; exact Hr | exact Hcr]. }
    destruct Hex as ([[n l] cnt] & Hin & Hrow).
    destruct (combinationRow_fields _ _ _ _ _ Hrow)
      as (Hn & Hl & Hcnt & x & Hx & F1 & F2 & F3 & F4 & F5 & F6 & F7 & F8).
    subst n l cnt.
    assert (Hocc : ci_count c = occurrences (ci_name c) (ci_level c) seq).
    { rewrite <- finalCounts_countOf. symmetry.
      apply countOf_row; [apply finalCounts_NoDup | exact Hin]. }
    split; [exact Hocc |]. split.
    + rewrite Hocc. destruct (finalCounts_names seq _ Hin) as (v & Hv & Hk). simpl in Hk.
      injection Hk as Hn Hl. unfold occurrences.
      assert (Hf : In v (List.filter (sameNameLevel (ci_name c) (ci_level c)) seq)).
      { apply filter_In. split; [exact Hv |]. unfold sameNameLevel.
        rewrite Hn, Hl, String.eqb_refl, Z.eqb_refl. reflexivity. }
      destruct (List.filter _ seq); [destruct Hf | simpl; lia].
    + exists x. rewrite F1, F2. repeat split; assumption.
  - intros v Hv. destruct (finalCounts_covers seq v Hv) as [cnt Hin].
    clear Hkeys Hsum Hmap. induction Hrows as [| row c rows cs [Hk _] _ IH]; [destruct Hin |].
    destruct Hin as [-> | Hin].
    + exists c. split; [left; reflexivity |]. simpl in Hk. injection Hk as -> ->. auto.
    + destruct (IH Hin) as (c' & Hc' & Hn & Hl). exists c'. split; [right; exact Hc' | auto].
  - rewrite <- Hsum. apply finalCounts_total.
Qed.

Lemma combination_rows_tally_the_build_order_witness :
  let ctx := makeCtx twoHousesCatalog 2 defaultOptions in
  let hut := nth 0 (variants ctx) (baseVariant "" "" emptyDefinition) in
  (forall v, In v [hut; hut] -> hasColon (v_name v) = false)
  /\ exists comb,
       mapC (combinationRow ctx) (finalCounts [hut; hut]) = Normal comb
       /\ map ci_count comb = [2]
       /\ fold_right (fun c acc => ci_count c + acc) 0 comb = 2.
Proof.
  intros ctx hut.
  assert (Hc : forall v, In v [hut; hut] -> hasColon (v_name v) = false).
  { intros v [<- | [<- | []]]; reflexivity. }
  split; [exact Hc |]. eexists.
  match goal with |- ?P /\ _ => assert (H : P) by (vm_compute; reflexivity) end.
  split; [exact H |]. split; [reflexivity |].
  exact (proj2 (proj2 (proj2 (combination_rows_tally_the_build_order ctx [hut; hut] _ Hc H)))).
Defined.

(** ** Houses, pools and businesses *)

Lemma splitComma_nonempty s : splitComma s <> [].
Proof.
  induction s as [| c s IH]; simpl; [discriminate |].
  destruct (Ascii.eqb c ","); [discriminate |].
  destruct (splitComma s); discriminate.
Qed.

Lemma splitComma_plain s : hasComma s = false -> splitComma s = [s].
Proof.
  induction s as [| c s IH]; simpl; [reflexivity |].
  intros H. apply orb_false_iff in H. destruct H as [Hc Hs].
  rewrite Hc, (IH Hs). reflexivity.
Qed.

Lemma splitComma_append s rest :
  hasComma s = false ->
  splitComma (String.append s (String "," rest)) = s :: splitComma rest.
Proof.
  induction s as [| c s IH]; simpl; [reflexivity |].
  intros H. apply orb_false_iff in H. destruct H as [Hc Hs].
  rewrite Hc, (IH Hs). reflexivity.
Qed.

(** Splitting a joined list gives the list back, when no entry holds a
    comma. *)
Lemma splitComma_joinComma l :
  l <> [] -> (forall s, In s l -> hasComma s = false) -> splitComma (joinComma l) = l.
Proof.
  induction l as [| s l IH]; [congruence |]. intros _ Hall.
  destruct l as [| s' l].
  - simpl. apply splitComma_plain. apply Hall. left. reflexivity.
  - change (joinComma (s :: s' :: l)) with (String.append s (String "," (joinComma (s' :: l)))).
    rewrite splitComma_append by (apply Hall; left; reflexivity).
    f_equal. apply IH; [discriminate |]. intros x Hx. apply Hall. right. exact Hx.
Qed.

Lemma insertString_In s l x : In x (insertString s l) <-> x = s \/ In x l.
Proof.
  induction l as [| y l IH]; simpl; [intuition |].
  destruct (String.compare s y); simpl; rewrite ?IH; intuition.
Qed.

Lemma sortStrings_In l x : In x (sortStrings l) <-> In x l.
Proof.
  induction l as [| s l IH]; simpl; [tauto |].
  rewrite insertString_In, IH. intuition.
Qed.

Lemma insertString_length s l : length (insertString s l) = S (length l).
Proof.
  induction l as [| y l IH]; simpl; [reflexivity |].
  destruct (String.compare s y); simpl; rewrite ?IH; reflexivity.
Qed.

Lemma sortStrings_length l : length (sortStrings l) = length l.
Proof.
  induction l as [| s l IH]; simpl; [reflexivity |]. rewrite insertString_length, IH. reflexivity.
Qed.

(** A joined list is the wildcard string only when it is the one-entry
    list of that string. *)
Lemma joinComma_star l :
  l <> [] -> (String.eqb (joinComma l) "*" = true <-> l = ["*"%string]).
Proof.
  intros Hne. split; [| intros ->; reflexivity].
  intros H. apply String.eqb_eq in H. destruct l as [| s l]; [congruence |].
  destruct l as [| s' l]; [simpl in H; congruence |].
  exfalso. change (joinComma (s :: s' :: l)) with (String.append s (String "," (joinComma (s' :: l)))) in H.
  destruct s as [| c s]; simpl in H; [discriminate |].
  injection H as _ H. destruct s; discriminate.
Qed.

(** X14.  Matching of houses and businesses in the income simulation.  A
    house joins the pool named by its sorted, comma-joined preferences
    (or the wildcard pool); a business draws from a pool whose name is the
    wildcard or holds the business name between commas.  For preferences
    without commas the two fit together: a business draws from the pool of
    a house exactly when the house has no preferences, or lists the
    business, or lists the wildcard string alone; and then it draws the
    smaller of what the pool holds and what it needs. *)
Theorem business_draws_from_the_pools_of_its_houses v name cap available pools :
  (forall p, In p (nullish (v_prefers v) []) -> hasComma p = false) ->
  0 < available ->
  fst (drawWorkers name cap [(prefKeyOf v, available)] 0 pools)
  = if servesBusiness v name then Z.min available cap else 0.
Proof.
  intros Hplain Hav. simpl. destruct (Z.leb_spec available 0) as [| _]; [lia |].
  assert (Hserve : (String.eqb (prefKeyOf v) "*"
                    || existsb (String.eqb name) (splitComma (prefKeyOf v)))
                   = servesBusiness v name).
  { unfold prefKeyOf, servesBusiness. destruct (v_prefers v) as [[| p ps] |] eqn:Ep;
      [reflexivity | | reflexivity].
    cbn [nullish] in Hplain.
    assert (Hsorted : forall s, In s (sortStrings (p :: ps)) -> hasComma s = false).
    { intros s Hs. apply Hplain. apply sortStrings_In. exact Hs. }
    assert (Hne : sortStrings (p :: ps) <> []).
    { intros H. apply (f_equal (@length string)) in H. rewrite sortStrings_length in H.
      discriminate. }
    rewrite (splitComma_joinComma _ Hne Hsorted).
    assert (Hmem : existsb (String.eqb name) (sortStrings (p :: ps))
                   = existsb (String.eqb name) (p :: ps)).
    { apply eq_true_iff_eq. rewrite !existsb_String_In. apply sortStrings_In. }
    rewrite Hmem, orb_comm. f_equal.
    apply eq_true_iff_eq. rewrite (joinComma_star _ Hne).
    destruct ps as [| q ps].
    - simpl. rewrite String.eqb_eq. split; [intros [= ->]; reflexivity | intros ->; reflexivity].
    - split; [| discriminate]. intros H. apply (f_equal (@length string)) in H.
      rewrite sortStrings_length in H. discriminate. }
  rewrite Hserve. destruct (servesBusiness v name); simpl; [| reflexivity].
  replace (cap - 0) with cap by lia. destruct (cap <=? 0 + Z.min available cap); simpl; lia.
Qed.

Lemma business_draws_from_the_pools_of_its_houses_witness :
  let house := mkVariant "houses" "Hut" 1 1 0 4 (StoNum 0) false noCost (Some residents)
                         (Some ["Mill"; "Bakery"]%string) in
  prefKeyOf house = "Bakery,Mill"%string
  /\ fst (drawWorkers "Mill" 3 [(prefKeyOf house, 4)] 0 [(prefKeyOf house, 4)]) = 3
  /\ fst (drawWorkers "Forge" 3 [(prefKeyOf house, 4)] 0 [(prefKeyOf house, 4)]) = 0.
Proof.
  intros house. split; [reflexivity |]. split.
  - rewrite (business_draws_from_the_pools_of_its_houses house "Mill" 3 4).
    + reflexivity.
    + intros p Hp. simpl in Hp. decompose [or] Hp; subst; try contradiction; reflexivity.
    + lia.
  - rewrite (business_draws_from_the_pools_of_its_houses house "Forge" 3 4).
    + reflexivity.
    + intros p Hp. simpl in Hp. decompose [or] Hp; subst; try contradiction; reflexivity.
    + lia.
Defined.

(** ** The income simulation *)

Lemma jsRound_inject_Z n : jsRound (inject_Z n) = n.
Proof.
  unfold jsRound, Qfloor, Qplus, inject_Z. simpl.
  replace (n * 2 + 1 * 1) with (1 + n * 2) by lia.
  rewrite Z.div_add by lia. reflexivity.
Qed.

Lemma jsRound_Qeq x y : (x == y)%Q -> jsRound x = jsRound y.
Proof. intros H. unfold jsRound. apply Qfloor_comp. rewrite H. reflexivity. Qed.

(** The first pass of the simulation: the totals it gathers. *)
Lemma inventory_totals seq :
  let inv := fold_left inventoryStep seq (mkInventory [] 0 0 0) in
  inv_totalHouseCapacity inv = sumWhere isResidents v_capacity seq
  /\ inv_houseBaseIncome inv = sumWhere isResidents v_income seq
  /\ inv_neutralIncome inv = sumWhere isNeutral v_income seq.
Proof.
  cbv zeta. induction seq as [| v seq IH] using rev_ind; [repeat split |].
  rewrite fold_left_app, !sumWhere_snoc. simpl.
  destruct IH as (I1 & I2 & I3). unfold inventoryStep at 1 3 5, isResidents, isNeutral.
  destruct (v_workerType v) as [[|] |]; simpl; unfold isResidents, isNeutral in *;
    repeat split; lia.
Qed.

Lemma staffing_without_businesses seq l st :
  (forall v, In v l -> isEmployees v = false) ->
  fold_left (staffStep seq) l st = st.
Proof.
  revert st. induction l as [| v l IH]; intros st H; simpl; [reflexivity |].
  rewrite IH by (intros x Hx; apply H; right; exact Hx).
  unfold staffStep. destruct st as [[pools bi] ta].
  rewrite (H v (or_introl eq_refl)). reflexivity.
Qed.

(** X15.  The simulated income of a build order without businesses: the
    neutral buildings earn their listed income; the houses earn nothing as
    soon as they have any capacity, because no resident is employed, and
    their listed income when their capacities add up to 0. *)
Theorem income_without_businesses seq :
  (forall v, In v seq -> isEmployees v = false) ->
  simulateSequence seq
  = sumWhere isNeutral v_income seq
    + (if 0 <? sumWhere isResidents v_capacity seq
       then 0 else sumWhere isResidents v_income seq).
Proof.
  intros Hno. unfold simulateSequence.
  destruct (inventory_totals seq) as (I1 & I2 & I3). cbv zeta in I1, I2, I3.
  rewrite (staffing_without_businesses seq seq _ Hno). rewrite I1, I2, I3.
  destruct (0 <? sumWhere isResidents v_capacity seq).
  - rewrite <- (jsRound_inject_Z (sumWhere isNeutral v_income seq + 0)).
    apply jsRound_Qeq. rewrite inject_Z_plus. unfold Qdiv. simpl inject_Z. ring.
  - rewrite <- (jsRound_inject_Z (sumWhere isNeutral v_income seq
                                  + sumWhere isResidents v_income seq)).
    apply jsRound_Qeq. rewrite inject_Z_plus. ring.
Qed.

Lemma income_without_businesses_witness :
  let hut := mkVariant "houses" "Hut" 1 1 5 2 (StoNum 0) false noCost (Some residents) None in
  let stall := mkVariant "shops" "Stall" 1 1 7 0 (StoNum 0) false noCost None None in
  simulateSequence [hut; stall] = 7.
Proof.
  intros hut stall.
  rewrite (income_without_businesses [hut; stall]).
  - reflexivity.
  - intros v Hv. simpl in Hv. decompose [or] Hv; subst; try contradiction; reflexivity.
Defined.

Lemma poolsTotal_poolSet pools k n :
  poolsTotal (poolSet pools k n) = poolsTotal pools - poolGet pools k + n.
Proof.
  unfold poolsTotal, poolGet. induction pools as [| [k0 a0] pools IH]; simpl; [lia |].
  destruct (String.eqb k0 k); simpl; [lia |]. rewrite IH. lia.
Qed.

Lemma poolGet_poolSet pools k n k' :
  poolGet (poolSet pools k n) k' = if String.eqb k k' then n else poolGet pools k'.
Proof.
  unfold poolGet. induction pools as [| [k0 a0] pools IH]; simpl.
  - destruct (String.eqb k k'); reflexivity.
  - destruct (String.eqb_spec k0 k) as [-> | Hne]; simpl.
    + destruct (String.eqb k k'); reflexivity.
    + destruct (String.eqb_spec k0 k') as [-> | Hne'].
      * destruct (String.eqb_spec k k'); [congruence | reflexivity].
      * exact IH.
Qed.

Lemma poolSet_keys pools k n :
  map fst (poolSet pools k n)
  = if existsb (String.eqb k) (map fst pools) then map fst pools else map fst pools ++ [k].
Proof.
  induction pools as [| [k0 a0] pools IH]; simpl; [reflexivity |].
  destruct (String.eqb_spec k0 k) as [-> | Hne]; simpl.
  - rewrite String.eqb_refl. reflexivity.
  - rewrite IH. destruct (String.eqb_spec k k0); [congruence |]. simpl.
    destruct (existsb (String.eqb k) (map fst pools)); reflexivity.
Qed.

Lemma poolSet_In pools k n e : In e (poolSet pools k n) -> e = (k, n) \/ In e pools.
Proof.
  induction pools as [| [k0 a0] pools IH]; simpl; [intros [<- | []]; auto |].
  destruct (String.eqb k0 k); simpl.
  - intros [<- | H]; auto.
  - intros [<- | H]; [auto |]. destruct (IH H); auto.
Qed.

Lemma poolSet_ok pools k n : 0 <= n -> poolsOk pools -> poolsOk (poolSet pools k n).
Proof.
  intros Hn [Hnd Hpos]. split.
  - rewrite poolSet_keys. destruct (existsb (String.eqb k) (map fst pools)) eqn:E; [exact Hnd |].
    apply List.NoDup_app; [exact Hnd | constructor; [intros [] | constructor] |].
    intros x Hx [<- | []]. apply existsb_String_In in Hx. congruence.
  - apply List.Forall_forall. intros e He. apply poolSet_In in He.
    destruct He as [-> | He]; [exact Hn |]. rewrite List.Forall_forall in Hpos. apply Hpos, He.
Qed.

Lemma poolGet_of_In pools k a :
  List.NoDup (map fst pools) -> In (k, a) pools -> poolGet pools k = a.
Proof.
  unfold poolGet. induction pools as [| [k0 a0] pools IH]; simpl; intros Hnd Hin; [destruct Hin |].
  inversion Hnd as [| ? ? Hnot Hnd']; subst.
  destruct Hin as [[= -> ->] | Hin]; [rewrite String.eqb_refl; reflexivity |].
  destruct (String.eqb_spec k0 k) as [-> | Hne]; [| apply IH; assumption].
  exfalso. apply Hnot. apply in_map_iff. exists (k, a). auto.
Qed.

(** One business draws its workers: it gets between nothing and its
    capacity, what it gets leaves the pools, and no pool turns negative. *)
Lemma drawWorkers_conserves name cap entries allocated pools :
  List.NoDup (map fst entries) ->
  (forall k a, In (k, a) entries -> poolGet pools k = a) ->
  poolsOk pools -> 0 <= allocated <= cap ->
  let r := drawWorkers name cap entries allocated pools in
  allocated <= fst r <= cap
  /\ poolsTotal (snd r) + fst r = poolsTotal pools + allocated
  /\ poolsOk (snd r).
Proof.
  revert allocated pools. induction entries as [| [k a] entries IH];
    intros allocated pools Hnd Hagree Hok Hal; cbv zeta; simpl.
  - split; [lia | split; [lia | exact Hok]].
  - inversion Hnd as [| ? ? Hnot Hnd']; subst.
    assert (Hrest : forall k' a', In (k', a') entries -> poolGet pools k' = a').
    { intros k' a' H. apply Hagree. right. exact H. }
    destruct (Z.leb_spec a 0) as [| Hpos]; [apply IH; assumption |].
    destruct (negb (String.eqb k "*" || existsb (String.eqb name) (splitComma k)));
      [apply IH; assumption |].
    set (toAllocate := Z.min a (cap - allocated)).
    assert (Hget : poolGet pools k = a) by (apply Hagree; left; reflexivity).
    assert (Htot : poolsTotal (poolSet pools k (a - toAllocate)) + (allocated + toAllocate)
                   = poolsTotal pools + allocated).
    { rewrite poolsTotal_poolSet, Hget. lia. }
    assert (Hok' : poolsOk (poolSet pools k (a - toAllocate))).
    { apply poolSet_ok; [unfold toAllocate; lia | exact Hok]. }
    destruct (Z.leb_spec cap (allocated + toAllocate)); simpl.
    + split; [unfold toAllocate in *; lia |]. split; [exact Htot | exact Hok'].
    + specialize (IH (allocated + toAllocate) (poolSet pools k (a - toAllocate)) Hnd').
      cbv zeta in IH. destruct IH as (I1 & I2 & I3); try assumption.
      * intros k' a' Hk'. rewrite poolGet_poolSet.
        destruct (String.eqb_spec k k') as [<- | Hne]; [| apply Hrest, Hk'].
        exfalso. apply Hnot. apply in_map_iff. exists (k, a'). auto.
      * unfold toAllocate. lia.
      * split; [unfold toAllocate in *; lia |]. split; [lia | exact I3].
Qed.

Lemma penaltyMultiplier_range cnt : (0 <= penaltyMultiplier cnt <= 1)%Q.
Proof.
  unfold penaltyMultiplier, qmax, DUPLICATE_PENALTY_THRESHOLD, DUPLICATE_PENALTY_RATE.
  destruct (Z.ltb_spec 2 cnt) as [Hlt | Hge].
  - assert (Hp : (0 <= (1 # 10) * inject_Z (cnt - 2))%Q).
    { apply Qmult_le_0_compat; [lra |]. change 0%Q with (inject_Z 0). rewrite <- Zle_Qle. lia. }
    destruct (Qle_bool 0 (1 - (1 # 10) * inject_Z (cnt - 2))) eqn:E.
    + apply Qle_bool_iff in E. split; [exact E | lra].
    + split; lra.
  - destruct (Qle_bool 0 (1 - 0)) eqn:E; split; lra.
Qed.

Lemma poolGet_nonneg pools k : poolsOk pools -> 0 <= poolGet pools k.
Proof.
  intros [_ Hpos]. unfold poolGet.
  destruct (find (fun e => String.eqb (fst e) k) pools) as [e |] eqn:E; [| lia].
  apply find_some in E. rewrite List.Forall_forall in Hpos. apply Hpos, E.
Qed.

(** The pools after the first pass hold the house capacity. *)
Lemma inventory_pools seq :
  (forall v, In v seq -> 0 <= v_capacity v) ->
  let inv := fold_left inventoryStep seq (mkInventory [] 0 0 0) in
  poolsOk (inv_pools inv) /\ poolsTotal (inv_pools inv) = inv_totalHouseCapacity inv.
Proof.
  cbv zeta. induction seq as [| v seq IH] using rev_ind; intros Hcap.
  - simpl. split; [split; constructor | reflexivity].
  - rewrite fold_left_app. cbn [fold_left].
    destruct IH as [Hok Htot]; [intros x Hx; apply Hcap, in_or_app; left; exact Hx |].
    assert (Hv : 0 <= v_capacity v) by (apply Hcap, in_or_app; right; left; reflexivity).
    set (inv0 := fold_left inventoryStep seq (mkInventory [] 0 0 0)) in *. clearbody inv0.
    unfold inventoryStep. destruct (v_workerType v) as [[|] |];
      cbn [inv_pools inv_totalHouseCapacity]; [split; assumption | | split; assumption].
    pose proof (poolGet_nonneg _ (prefKeyOf v) Hok).
    split; [apply poolSet_ok; [lia | exact Hok] |]. rewrite poolsTotal_poolSet. lia.
Qed.

Lemma jsRound_range x lo hi :
  (inject_Z lo <= x)%Q -> (x <= inject_Z hi)%Q -> lo <= jsRound x <= hi.
Proof.
  intros Hlo Hhi. split.
  - rewrite <- (jsRound_inject_Z lo) at 1. unfold jsRound. apply Qfloor_resp_le. lra.
  - rewrite <- (jsRound_inject_Z hi). unfold jsRound. apply Qfloor_resp_le. lra.
Qed.

Lemma sumWhere_classes f seq :
  sumWhere (fun _ => true) f seq
  = sumWhere isEmployees f seq + sumWhere isResidents f seq + sumWhere isNeutral f seq.
Proof.
  unfold sumWhere. induction seq as [| v seq IH]; simpl; [reflexivity |].
  rewrite IH. unfold isEmployees, isResidents, isNeutral.
  destruct (v_workerType v) as [[|] |]; lia.
Qed.

Lemma sumWhere_nonneg p f seq : (forall v, In v seq -> 0 <= f v) -> 0 <= sumWhere p f seq.
Proof.
  unfold sumWhere. induction seq as [| v seq IH]; intros H; simpl; [lia |].
  specialize (IH (fun x Hx => H x (or_intror Hx))). specialize (H v (or_introl eq_refl)).
  destruct (p v); lia.
Qed.

(** The second pass: what the businesses draw leaves the pools, and the
    business income stays between 0 and the listed incomes. *)
Lemma staffing_conserves seq total0 l done st :
  (forall v, In v l -> 0 <= v_income v /\ 0 <= v_capacity v) ->
  (let '(pools, businessIncome, allocated) := st in
   poolsOk pools /\ poolsTotal pools + allocated = total0 /\ 0 <= allocated
   /\ (0 <= businessIncome <= inject_Z (sumWhere isEmployees v_income done))%Q) ->
  let '(pools, businessIncome, allocated) := fold_left (staffStep seq) l st in
  poolsOk pools /\ poolsTotal pools + allocated = total0 /\ 0 <= allocated
  /\ (0 <= businessIncome <= inject_Z (sumWhere isEmployees v_income (done ++ l)))%Q.
Proof.
  revert done st. induction l as [| v l IH]; intros done st Hl Hst; simpl.
  - rewrite app_nil_r. exact Hst.
  - replace (done ++ v :: l) with ((done ++ [v]) ++ l) by (rewrite <- app_assoc; reflexivity).
    apply IH; [intros x Hx; apply Hl; right; exact Hx |].
    destruct (Hl v (or_introl eq_refl)) as [Hinc Hcap].
    destruct st as [[pools bi] ta]. destruct Hst as (Hok & Htot & Hta & Hbi).
    unfold staffStep. rewrite sumWhere_snoc.
    destruct (isEmployees v) eqn:Ee; [| rewrite Z.add_0_r; auto].
    pose proof (drawWorkers_conserves (v_name v) (v_capacity v) pools 0 pools
                  (proj1 Hok) (fun k a => poolGet_of_In pools k a (proj1 Hok)) Hok
                  ltac:(lia)) as Hdraw.
    cbv zeta in Hdraw. destruct (drawWorkers (v_name v) (v_capacity v) pools 0 pools)
      as [allocated pools'].
    cbn [fst snd] in Hdraw. destruct Hdraw as (Hal & Hcons & Hok').
    split; [exact Hok' |]. split; [lia |]. split; [lia |].
    set (cnt := Z.of_nat (length (List.filter
                 (fun x => String.eqb (v_name x) (v_name v) && isEmployees x) seq))).
    pose proof (penaltyMultiplier_range cnt) as Hpm.
    set (pm := penaltyMultiplier cnt) in *.
    set (eff := if 0 <? v_capacity v
                then (inject_Z allocated / inject_Z (v_capacity v))%Q else 1%Q).
    assert (Heff : (0 <= eff <= 1)%Q).
    { unfold eff. destruct (Z.ltb_spec 0 (v_capacity v)) as [Hpos | _]; [| split; lra].
      assert (0 < inject_Z (v_capacity v))%Q
        by (change 0%Q with (inject_Z 0); rewrite <- Zlt_Qlt; exact Hpos).
      assert (0 <= inject_Z allocated)%Q
        by (change 0%Q with (inject_Z 0); rewrite <- Zle_Qle; lia).
      assert (inject_Z allocated <= inject_Z (v_capacity v))%Q by (rewrite <- Zle_Qle; lia).
      split; [apply Qle_shift_div_l; lra | apply Qle_shift_div_r; lra]. }
    assert (Hi : (0 <= inject_Z (v_income v))%Q)
      by (change 0%Q with (inject_Z 0); rewrite <- Zle_Qle; exact Hinc).
    rewrite inject_Z_plus.
    set (inc := inject_Z (v_income v)) in *.
    set (sofar := inject_Z (sumWhere isEmployees v_income done)) in *.
    assert (H1 : (0 <= inc * eff <= inc)%Q) by nra.
    set (x := (inc * eff)%Q) in *. split; nra.
Qed.

(** X16.  The simulated income of a sequence of buildings whose listed
    incomes and capacities are not negative lies between 0 and the sum of
    the listed incomes: staffing and the duplicate penalty only ever take
    away from what the catalog lists. *)
Theorem simulated_income_within_listed_incomes seq :
  (forall v, In v seq -> 0 <= v_income v /\ 0 <= v_capacity v) ->
  0 <= simulateSequence seq <= sumWhere (fun _ => true) v_income seq.
Proof.
  intros Hseq. unfold simulateSequence.
  destruct (inventory_totals seq) as (I1 & I2 & I3). cbv zeta in I1, I2, I3.
  destruct (inventory_pools seq (fun v Hv => proj2 (Hseq v Hv))) as [Hok Htot].
  cbv zeta in Hok, Htot.
  set (inv := fold_left inventoryStep seq (mkInventory [] 0 0 0)) in *.
  pose proof (staffing_conserves seq (inv_totalHouseCapacity inv) seq []
                (inv_pools inv, 0%Q, 0) Hseq) as Hstaff.
  destruct (fold_left (staffStep seq) seq (inv_pools inv, 0%Q, 0)) as [[pools bi] ta].
  destruct Hstaff as (Hok' & Hcons & Hta & Hbi).
  { split; [exact Hok |]. split; [lia |]. split; [lia |].
    change (0 <= 0 <= 0)%Q. split; apply Qle_refl. }
  simpl app in Hbi.
  assert (Hpools : 0 <= poolsTotal pools).
  { destruct Hok' as [_ Hpos]. unfold poolsTotal. clear -Hpos.
    induction Hpos as [| e l He _ IH]; simpl; lia. }
  assert (Hhe : (0 <= (if 0 <? inv_totalHouseCapacity inv
                       then inject_Z ta / inject_Z (inv_totalHouseCapacity inv) else 1) <= 1)%Q).
  { destruct (Z.ltb_spec 0 (inv_totalHouseCapacity inv)) as [Hpos | _]; [| split; lra].
    assert (0 < inject_Z (inv_totalHouseCapacity inv))%Q
      by (change 0%Q with (inject_Z 0); rewrite <- Zlt_Qlt; exact Hpos).
    assert (0 <= inject_Z ta)%Q by (change 0%Q with (inject_Z 0); rewrite <- Zle_Qle; lia).
    assert (inject_Z ta <= inject_Z (inv_totalHouseCapacity inv))%Q
      by (rewrite <- Zle_Qle; lia).
    split; [apply Qle_shift_div_l; lra | apply Qle_shift_div_r; lra]. }
  set (he := if 0 <? inv_totalHouseCapacity inv
             then (inject_Z ta / inject_Z (inv_totalHouseCapacity inv))%Q else 1%Q) in *.
  rewrite sumWhere_classes, <- I2, <- I3.
  assert (Hhb : 0 <= inv_houseBaseIncome inv).
  { rewrite I2. apply sumWhere_nonneg. intros v Hv. apply Hseq, Hv. }
  assert (Hne : 0 <= inv_neutralIncome inv).
  { rewrite I3. apply sumWhere_nonneg. intros v Hv. apply Hseq, Hv. }
  assert (Hb : (0 <= inject_Z (inv_houseBaseIncome inv))%Q)
    by (change 0%Q with (inject_Z 0); rewrite <- Zle_Qle; exact Hhb).
  assert (Hn : (0 <= inject_Z (inv_neutralIncome inv))%Q)
    by (change 0%Q with (inject_Z 0); rewrite <- Zle_Qle; exact Hne).
  apply jsRound_range; [change (inject_Z 0) with 0%Q | rewrite !inject_Z_plus];
    set (hb := inject_Z (inv_houseBaseIncome inv)) in *;
    set (ne := inject_Z (inv_neutralIncome inv)) in *;
    set (em := inject_Z (sumWhere isEmployees v_income seq)) in *;
    clearbody he hb ne em;
    assert (Hprod : (0 <= hb * he <= hb)%Q) by nra;
    set (x := (hb * he)%Q) in *; clearbody x; lra.
Qed.

Lemma simulated_income_within_listed_incomes_witness :
  let hut := mkVariant "houses" "Hut" 1 1 4 2 (StoNum 0) false noCost (Some residents) None in
  let mill := mkVariant "shops" "Mill" 1 1 10 4 (StoNum 0) false noCost (Some employees) None in
  simulateSequence [hut; mill] = 9
  /\ 0 <= simulateSequence [hut; mill] <= sumWhere (fun _ => true) v_income [hut; mill].
Proof.
  intros hut mill. split; [vm_compute; reflexivity |].
  apply (simulated_income_within_listed_incomes [hut; mill]).
  intros v Hv. simpl in Hv. decompose [or] Hv; subst; try contradiction; simpl; lia.
Defined.

(** ** The blocks of the driver, one by one *)

(** One iteration of the block loop on a store in which [defs] refers to
    the catalog [d]: the outcome is that of the single-block optimizer on
    the stripped copy, which is the one object added to the store. *)
Lemma solveBlock_run defs d numBlocks sizeLimit opts st blockIdx h :
  h !! defs = Some d ->
  let isLast := Z.of_nat blockIdx =? numBlocks - 1 in
  let reserved := reserveMandatory d in
  solveBlock defs numBlocks sizeLimit opts reserved st blockIdx h
  = (match optimizeBlockIncomeFromDefinitions
             (strippedCatalog d isLast)
             (if isLast then sizeLimit - fold_left (fun s v => s + v_size v) reserved 0
              else sizeLimit)
             (mkOpts (drv_debug opts) (drv_beamWidth opts)
                     (Some (addResources DEFAULT_BASE_RESOURCES
                                         (aggregateStorageFromBuildings st)))) with
     | Normal (Some sol) =>
         let b := recordedBlock (Z.of_nat blockIdx + 1)
                                (isLast && (0 <? length reserved)%nat) reserved sol in
         Normal (Some {| blockResults := blockResults st ++ [b];
                         aggregateIncome := aggregateIncome st + b_totalIncome b;
                         aggregateStorageFromBuildings :=
                           addResources (aggregateStorageFromBuildings st) (blockStorage b) |})
     | Normal None => Normal None
     | Throw e => Throw e
     | Diverge => Diverge
     end, h ++ [strippedCatalog d isLast]).
Proof.
  intros Hd isLast reserved. unfold solveBlock, ebind, jsonClone. rewrite Hd.
  cbv beta iota zeta. unfold assign.
  assert (Hnew : (h ++ [d]) !! length h = Some d).
  { rewrite lookup_app_r by lia. rewrite Nat.sub_diag. reflexivity. }
  rewrite Hnew. cbv beta iota zeta. unfold deref.
  rewrite list_lookup_insert_eq by (rewrite length_app; simpl; lia).
  cbv beta iota zeta. unfold liftC.
  rewrite insert_app_r_alt by lia. rewrite Nat.sub_diag. cbn [insert list_insert].
  fold isLast. fold reserved. unfold strippedCatalog.
  destruct (optimizeBlockIncomeFromDefinitions _ _ _) as [[sol |] | e |]; try reflexivity.
Qed.

Lemma storageOf_snoc bs b : storageOf (bs ++ [b]) = addResources (storageOf bs) (blockStorage b).
Proof. unfold storageOf. rewrite fold_left_app. reflexivity. Qed.

Lemma incomeOf_snoc bs b : incomeOf (bs ++ [b]) = incomeOf bs + b_totalIncome b.
Proof. unfold incomeOf. rewrite fold_left_app. reflexivity. Qed.

Lemma solveBlock_record defs d numBlocks sizeLimit opts st h st' h' :
  h !! defs = Some d ->
  loopRecord d numBlocks sizeLimit opts (length (blockResults st)) st ->
  solveBlock defs numBlocks sizeLimit opts (reserveMandatory d) st (length (blockResults st)) h
  = (Normal (Some st'), h') ->
  h' !! defs = Some d
  /\ loopRecord d numBlocks sizeLimit opts (S (length (blockResults st))) st'.
Proof.
  intros Hd (_ & Hsto & Hinc & Hblocks) Hsolve.
  rewrite (solveBlock_run defs d numBlocks sizeLimit opts st _ h Hd) in Hsolve.
  cbv zeta in Hsolve.
  destruct (optimizeBlockIncomeFromDefinitions _ _ _) as [[sol |] | e |] eqn:Eopt;
    try discriminate.
  injection Hsolve as <- <-.
  split; [rewrite lookup_app_l by (eapply lookup_lt_Some, Hd); exact Hd |].
  unfold loopRecord. cbn [blockResults aggregateIncome aggregateStorageFromBuildings].
  rewrite length_app, storageOf_snoc, incomeOf_snoc, Hsto, Hinc. simpl length.
  split; [lia |]. split; [reflexivity |]. split; [reflexivity |].
  intros i b Hb. destruct (Nat.lt_ge_cases i (length (blockResults st))) as [Hlt | Hge].
  - rewrite lookup_app_l in Hb by exact Hlt.
    rewrite take_app_le by lia. apply Hblocks, Hb.
  - assert (i = length (blockResults st)) as ->.
    { apply lookup_lt_Some in Hb. rewrite length_app in Hb. simpl in Hb. lia. }
    rewrite list_lookup_middle in Hb by reflexivity. injection Hb as <-.
    rewrite take_app_length. exists sol. split; [| reflexivity].
    unfold blockCall. rewrite <- Hsto. exact Eopt.
Qed.

Lemma blockLoop_record defs d numBlocks sizeLimit opts m st h st' h' :
  h !! defs = Some d ->
  loopRecord d numBlocks sizeLimit opts (length (blockResults st)) st ->
  blockLoop defs numBlocks sizeLimit opts (reserveMandatory d)
            (seq (length (blockResults st)) m) st h
  = (Normal (Some st'), h') ->
  loopRecord d numBlocks sizeLimit opts (length (blockResults st) + m) st'.
Proof.
  revert st h. induction m as [| m IH]; intros st h Hd Hrec; simpl.
  - unfold eret. intros [= <- _]. rewrite Nat.add_0_r. exact Hrec.
  - unfold ebind.
    destruct (solveBlock defs numBlocks sizeLimit opts (reserveMandatory d) st
                         (length (blockResults st)) h) as [[[st1 |] | e |] h1] eqn:E;
      try discriminate.
    destruct (solveBlock_record _ _ _ _ _ _ _ _ _ Hd Hrec E) as [Hd1 Hrec1].
    assert (Hlen : length (blockResults st1) = S (length (blockResults st))) by apply Hrec1.
    intros Hloop. rewrite <- Hlen in Hloop, Hrec1.
    specialize (IH st1 h1 Hd1 Hrec1 Hloop).
    replace (length (blockResults st) + S m)%nat with (length (blockResults st1) + m)%nat by lia.
    exact IH.
Qed.

Lemma driver_record defs numBlocks sizeLimit opts h d r h' :
  h !! defs = Some d -> 2 <= numBlocks ->
  optimizeMultipleBlocks defs numBlocks sizeLimit opts h = (Normal (Some r), h') ->
  exists st,
    loopRecord d numBlocks sizeLimit opts (Z.to_nat numBlocks) st
    /\ r = {| blocks := blockResults st;
              aggregateTotalIncome := aggregateIncome st;
              aggregateTotalStorage :=
                addResources DEFAULT_BASE_RESOURCES (aggregateStorageFromBuildings st);
              mb_baseStorage := DEFAULT_BASE_RESOURCES |}.
Proof.
  intros Hd Hn. unfold optimizeMultipleBlocks.
  destruct (Z.ltb_spec numBlocks 1); [lia |].
  destruct (Z.eqb_spec numBlocks 1); [lia |].
  unfold ebind, deref. rewrite Hd.
  destruct (blockLoop _ _ _ _ _ _ _ h) as [[[st |] | e |] h2] eqn:E; try discriminate.
  unfold eret. intros [= <- _]. exists st. split; [| reflexivity].
  apply (blockLoop_record defs d numBlocks sizeLimit opts (Z.to_nat numBlocks)
           (mkDriverState [] 0 zeroResources) h st h2 Hd); [| exact E].
  split; [reflexivity |]. split; [reflexivity |]. split; [reflexivity |].
  intros i b Hb. discriminate.
Qed.

(** X17.  The blocks of a result with two or more blocks, one by one.
    There are [numBlocks] of them.  Block [i] (from 0) is what the
    single-block optimizer returns for the catalog with the mandatory flags
    of its misc buildings cleared, with the size limit (less the reserved
    size for the last block) and with starting resources that are the
    default resources plus the storage of the blocks before it; it is
    numbered [i + 1]; and the last block, and only the last, has the
    reserved buildings appended, one of each, with their income and size
    added to its totals. *)
Theorem blocks_are_solved_in_turn defs numBlocks sizeLimit opts h d r h' :
  h !! defs = Some d -> 2 <= numBlocks ->
  optimizeMultipleBlocks defs numBlocks sizeLimit opts h = (Normal (Some r), h') ->
  length (blocks r) = Z.to_nat numBlocks
  /\ forall i b,
       blocks r !! i = Some b ->
       exists sol,
         blockCall d numBlocks sizeLimit opts (firstn i (blocks r)) i = Normal (Some sol)
         /\ b = recordedBlock (Z.of_nat i + 1)
                  ((Z.of_nat i =? numBlocks - 1) && (0 <? length (reserveMandatory d))%nat)
                  (reserveMandatory d) sol.
Proof.
  intros Hd Hn Hrun.
  destruct (driver_record _ _ _ _ _ _ _ _ Hd Hn Hrun) as (st & (Hlen & _ & _ & Hb) & ->).
  split; [exact Hlen | exact Hb].
Qed.

Lemma blocks_are_solved_in_turn_witness :
  exists r h',
    optimizeMultipleBlocks 0%nat 2 1 plainDriverOptions [vaultCatalog] = (Normal (Some r), h')
    /\ length (blocks r) = 2%nat
    /\ exists b sol,
         blocks r !! 1%nat = Some b
         /\ blockCall vaultCatalog 2 1 plainDriverOptions (firstn 1 (blocks r)) 1
            = Normal (Some sol)
         /\ k_money (initialKey (makeCtx vaultCatalog 1 defaultOptions)
                                (addResources DEFAULT_BASE_RESOURCES
                                              (storageOf (firstn 1 (blocks r))))) = 1500
         /\ b_combination b = combination sol.
Proof.
  eexists _, _.
  match goal with |- ?P /\ _ => assert (H : P) by (vm_compute; reflexivity) end.
  split; [exact H |].
  destruct (blocks_are_solved_in_turn 0%nat 2 1 plainDriverOptions [vaultCatalog] vaultCatalog
              _ _ eq_refl ltac:(lia) H) as [Hlen Hall].
  split; [exact Hlen |].
  eexists. destruct (Hall 1%nat _ eq_refl) as (sol & Hcall & Hb).
  exists sol. split; [reflexivity |]. split; [exact Hcall |].
  split; [reflexivity |]. rewrite Hb. reflexivity.
Defined.

(** X18.  The totals of a result of the driver.  The blocks are numbered
    1, 2, ... up to [numBlocks]; the aggregate income is the sum of the
    incomes of the blocks; the aggregate storage is the default resources
    plus the storage of the blocks; and the storage of a block is the
    storage contribution of its combination. *)
Theorem driver_totals_add_up defs numBlocks sizeLimit opts h r h' :
  optimizeMultipleBlocks defs numBlocks sizeLimit opts h = (Normal (Some r), h') ->
  map blockNumber (blocks r) = map (fun i => Z.of_nat i + 1) (seq 0 (Z.to_nat numBlocks))
  /\ aggregateTotalIncome r = incomeOf (blocks r)
  /\ aggregateTotalStorage r = addResources DEFAULT_BASE_RESOURCES (storageOf (blocks r))
  /\ Forall (fun b => blockStorage b = storageContribution (b_combination b)) (blocks r).
Proof.
  intros Hrun.
  destruct (Z.le_gt_cases 2 numBlocks) as [Hn | Hn].
  - destruct (h !! defs) as [d |] eqn:Hd.
    + destruct (driver_record _ _ _ _ _ _ _ _ Hd Hn Hrun)
        as (st & (Hlen & Hsto & Hinc & Hb) & ->).
      cbn [blocks aggregateTotalIncome aggregateTotalStorage]. rewrite Hsto, Hinc.
      split; [| split; [reflexivity | split; [reflexivity |]]].
      * apply list_eq. intros i. rewrite !list_lookup_fmap.
        destruct (blockResults st !! i) as [b |] eqn:Ei; simpl.
        -- destruct (Hb i b Ei) as (sol & _ & ->). simpl.
           apply lookup_lt_Some in Ei. rewrite lookup_seq_lt by lia. reflexivity.
        -- apply lookup_ge_None in Ei. rewrite lookup_seq_ge by lia. reflexivity.
      * apply Forall_lookup_2. intros i b Ei.
        destruct (Hb i b Ei) as (sol & _ & ->). reflexivity.
    + exfalso. revert Hrun. unfold optimizeMultipleBlocks.
      destruct (numBlocks <? 1); [discriminate |].
      destruct (numBlocks =? 1); unfold ebind, deref; rewrite Hd; discriminate.
  - revert Hrun. unfold optimizeMultipleBlocks.
    destruct (Z.ltb_spec numBlocks 1); [discriminate |].
    assert (numBlocks = 1) as -> by lia. simpl.
    unfold ebind, deref. destruct (h !! defs) as [d |]; [| discriminate].
    unfold liftC.
    destruct (optimizeBlockIncomeFromDefinitions _ _ _) as [[result |] | e |]; try discriminate.
    unfold eret. intros [= <- _]. simpl.
    split; [reflexivity |]. split; [reflexivity |]. split; [reflexivity |].
    constructor; [reflexivity | constructor].
Qed.

Lemma driver_totals_add_up_witness :
  exists r h',
    optimizeMultipleBlocks 0%nat 2 1 plainDriverOptions [payingMandatoryCatalog]
    = (Normal (Some r), h')
    /\ map blockNumber (blocks r) = [1; 2]
    /\ map b_totalIncome (blocks r) = [5; 5]
    /\ aggregateTotalIncome r = incomeOf (blocks r).
Proof.
  eexists _, _.
  match goal with |- ?P /\ _ => assert (H : P) by (vm_compute; reflexivity) end.
  split; [exact H |]. split; [reflexivity |]. split; [reflexivity |].
  exact (proj1 (proj2 (driver_totals_add_up _ _ _ _ _ _ _ H))).
Defined.

(** *** The stripped catalog *)














(** *** The errors of the driver *)

Lemma foldC_throws {A S : Type} (f : S -> A -> completion S) l s e :
  foldC f l s = Throw e -> exists s' a, f s' a = Throw e.
Proof.
  revert s. induction l as [| a l IH]; intros s; simpl; [discriminate |].
  destruct (f s a) as [s1 | e1 |] eqn:E; simpl; [apply IH | | discriminate].
  intros [= <-]. exists s, a. exact E.
Qed.

Lemma mapC_throws {A B : Type} (f : A -> completion B) l e :
  mapC f l = Throw e -> exists a, f a = Throw e.
Proof.
  induction l as [| a l IH]; simpl; [discriminate |].
  destruct (f a) as [b | e1 |] eqn:E; simpl; [| | discriminate].
  - destruct (mapC f l) as [bs | e2 |]; simpl; [discriminate | | discriminate].
    intros [= <-]. apply IH. reflexivity.
  - intros [= <-]. exists a. exact E.
Qed.

Lemma backtrack_throws ctx T fuel curW key chosen e :
  backtrack ctx T fuel curW key chosen = Throw e -> e = TypeError.
Proof.
  revert curW key chosen. induction fuel as [| fuel IH]; intros curW key chosen; simpl;
    [discriminate |].
  destruct key as [k |]; [| discriminate].
  destruct (curW <=? 0); [discriminate |].
  destruct (T !! Z.to_nat curW) as [m |]; [| intros [= <-]; reflexivity].
  destruct (mapGet m k) as [node |]; [| discriminate].
  destruct (0 <=? variantIndex node); [| apply IH].
  destruct (variants ctx !! Z.to_nat (variantIndex node)); [apply IH |].
  intros [= <-]. reflexivity.
Qed.

(** The single-block optimizer throws nothing but the [TypeError] of a
    property read on [undefined]. *)
Lemma optimizer_throws defs sizeLimit opts e :
  optimizeBlockIncomeFromDefinitions defs sizeLimit opts = Throw e -> e = TypeError.
Proof.
  unfold optimizeBlockIncomeFromDefinitions.
  destruct (runDP _ _) as [T | e1 |] eqn:Erun; simpl; [| | discriminate].
  - destruct (chooseStart _ _) as [[w key] |]; [| discriminate].
    unfold reconstruct.
    destruct (backtrack _ _ _ _ _ _) as [chosen | e1 |] eqn:Eb; simpl; [| | discriminate].
    + destruct (mapC _ _) as [comb | e1 |] eqn:Em; simpl; [discriminate | | discriminate].
      intros [= <-]. apply mapC_throws in Em. destruct Em as ([[name level] count] & Hrow).
      unfold combinationRow in Hrow. destruct (find _ _); [discriminate |].
      injection Hrow as <-. reflexivity.
    + intros [= <-]. eapply backtrack_throws, Eb.
  - intros [= <-]. unfold runDP in Erun. apply foldC_throws in Erun.
    destruct Erun as (T & w & Hpass). unfold dpPass in Hpass.
    destruct (expandBucket _ w T) as [st | e2 |] eqn:Ee; simpl in Hpass; try discriminate.
    injection Hpass as <-. unfold expandBucket in Ee.
    destruct (T !! w) as [map |]; [| injection Ee as <-; reflexivity].
    apply foldC_throws in Ee. destruct Ee as (st1 & entry & Hinner).
    apply foldC_throws in Hinner. destruct Hinner as (st2 & iv & Ht).
    unfold transition in Ht. destruct (successor _ _ _ _ _ _) as [[[nw k] n] |]; [| discriminate].
    destruct (nw <? 0); [injection Ht as <-; reflexivity |].
    destruct (fst st2 !! Z.to_nat nw) as [bucket |]; [| injection Ht as <-; reflexivity].
    destruct (match mapGet bucket k with
              | Some existing => total existing <? total n
              | None => true
              end); discriminate.
Qed.

Lemma blockLoop_throws defs numBlocks sizeLimit opts reserved indices st h e :
  fst (blockLoop defs numBlocks sizeLimit opts reserved indices st h) = Throw e ->
  e = TypeError.
Proof.
  revert st h. induction indices as [| i rest IH]; intros st h; simpl; [discriminate |].
  unfold ebind.
  destruct (solveBlock defs numBlocks sizeLimit opts reserved st i h)
    as [[[st1 |] | e1 |] h1] eqn:E; simpl; [apply IH | discriminate | | discriminate].
  intros [= <-]. revert E. unfold solveBlock, ebind, jsonClone.
  destruct (h !! defs) as [d |]; [| intros [= <- _]; reflexivity].
  unfold assign. destruct ((h ++ [d]) !! length h) as [d1 |]; [| intros [= <- _]; reflexivity].
  unfold deref. destruct (_ !! length h) as [d2 |]; [| intros [= <- _]; reflexivity].
  unfold liftC.
  destruct (optimizeBlockIncomeFromDefinitions _ _ _) as [[sol |] | e2 |] eqn:Eopt;
    try discriminate.
  intros [= <- _]. eapply optimizer_throws, Eopt.
Qed.

(** X20.  The error of the driver.  The call throws "Number of blocks must
    be at least 1" exactly when [numBlocks] is below 1, and then it has
    done nothing else: the store is as it was. *)
Theorem driver_throws_block_count_error_iff defs numBlocks sizeLimit opts h :
  (fst (optimizeMultipleBlocks defs numBlocks sizeLimit opts h) = Throw BlockCountError
   <-> numBlocks < 1)
  /\ (numBlocks < 1 ->
      optimizeMultipleBlocks defs numBlocks sizeLimit opts h = (Throw BlockCountError, h)).
Proof.
  assert (Hother : 1 <= numBlocks ->
                   forall e, fst (optimizeMultipleBlocks defs numBlocks sizeLimit opts h) = Throw e ->
                             e = TypeError).
  { intros Hn e. unfold optimizeMultipleBlocks.
    destruct (Z.ltb_spec numBlocks 1); [lia |].
    destruct (numBlocks =? 1); unfold ebind, deref.
    - destruct (h !! defs) as [d |]; [| intros [= <-]; reflexivity].
      unfold liftC.
      destruct (optimizeBlockIncomeFromDefinitions _ _ _) as [[sol |] | e1 |] eqn:Eopt;
        simpl; try discriminate.
      intros [= <-]. eapply optimizer_throws, Eopt.
    - destruct (h !! defs) as [d |]; [| intros [= <-]; reflexivity].
      pose proof (blockLoop_throws defs numBlocks sizeLimit opts (reserveMandatory d)
                    (seq 0 (Z.to_nat numBlocks)) (mkDriverState [] 0 zeroResources) h) as Hloop.
      destruct (blockLoop _ _ _ _ _ _ _ h) as [[[st |] | e1 |] h2]; simpl in *;
        try discriminate.
      intros [= <-]. apply Hloop. reflexivity. }
  assert (Hlow : numBlocks < 1 ->
                 optimizeMultipleBlocks defs numBlocks sizeLimit opts h
                 = (Throw BlockCountError, h)).
  { intros Hn. unfold optimizeMultipleBlocks.
    destruct (Z.ltb_spec numBlocks 1); [reflexivity | lia]. }
  split; [| exact Hlow].
  split.
  - intros Hthrow. destruct (Z.lt_ge_cases numBlocks 1) as [Hlt | Hge]; [exact Hlt |].
    specialize (Hother Hge _ Hthrow). discriminate.
  - intros Hn. rewrite (Hlow Hn). reflexivity.
Qed.

Lemma driver_throws_block_count_error_iff_witness :
  runDriver oneMandatoryCatalog 0 16 plainDriverOptions = Throw BlockCountError
  /\ optimizeMultipleBlocks 0%nat 0 16 plainDriverOptions [oneMandatoryCatalog]
     = (Throw BlockCountError, [oneMandatoryCatalog]).
Proof.
  split; [reflexivity |].
  apply (proj2 (driver_throws_block_count_error_iff 0%nat 0 16 plainDriverOptions
                  [oneMandatoryCatalog])).
  lia.
Defined.

(** ** Negative sizes *)

Lemma foldC_hits {A S : Type} (f : S -> A -> completion S) l a e :
  In a l ->
  (forall s, f s a = Throw e) ->
  (forall s x, match f s x with Normal _ => True | Throw e' => e' = e | Diverge => False end) ->
  forall s, foldC f l s = Throw e.
Proof.
  intros Hin Ha Hall. induction l as [| x l IH]; intros s; [destruct Hin |]. simpl.
  destruct Hin as [-> | Hin]; [rewrite Ha; reflexivity |].
  specialize (Hall s x). destruct (f s x) as [s1 | e1 |]; simpl;
    [apply IH, Hin | congruence | contradiction].
Qed.

Lemma transition_outcome ctx w key node st iv :
  match transition ctx w key node st iv with
  | Normal _ => True
  | Throw e => e = TypeError
  | Diverge => False
  end.
Proof.
  unfold transition. destruct (successor _ _ _ _ _ _) as [[[nw k] n] |]; [| exact I].
  destruct (nw <? 0); [reflexivity |].
  destruct (fst st !! Z.to_nat nw) as [bucket |]; [| reflexivity].
  destruct (match mapGet bucket k with
            | Some existing => total existing <? total n
            | None => true
            end); exact I.
Qed.

(** X21.  What a negative size does.  For a catalog that holds a building
    with a negative size, without cost and without employees, and for
    starting resources that are not negative, the call throws a
    [TypeError] at every size limit below [MAX_TABLE_LIMIT]: the building
    fits any capacity from the root state, and the bucket of its negative
    size does not exist.  (From [MAX_TABLE_LIMIT] on the source throws a
    [RangeError] before that, when it allocates the table.) *)
Theorem negative_size_throws_type_error defs sizeLimit opts typeName group buildingName def s :
  sizeLimit < MAX_TABLE_LIMIT ->
  In (typeName, group) (buildingTypes defs) ->
  In (buildingName, def) group ->
  d_size def = Some s -> s < 0 ->
  d_baseCost def = None -> d_employees def = None ->
  (let res := nullish (startingResources opts) DEFAULT_BASE_RESOURCES in
   0 <= money res /\ 0 <= wood res /\ 0 <= cement res /\ 0 <= steel res) ->
  optimizeBlockIncomeFromDefinitions defs sizeLimit opts = Throw TypeError.
Proof.
  intros _ Htg Hdef Hsize Hneg Hcost Hemp Hres. cbv zeta in Hres.
  set (ctx := makeCtx defs sizeLimit opts).
  set (res := nullish (startingResources opts) DEFAULT_BASE_RESOURCES) in *.
  set (v := baseVariant typeName buildingName def).
  assert (Hv : In v (variants ctx)).
  { eapply In_buildVariants; [exact Htg | exact Hdef | left; reflexivity]. }
  destruct (In_indexed_from (variants ctx) 0 v Hv) as [i Hi].
  assert (Hvsize : v_size v = s).
  { unfold v. cbn [baseVariant v_size]. rewrite Hsize. unfold orElse.
    destruct (Z.eqb_spec s 0); [lia | reflexivity]. }
  assert (Hsucc : exists k n,
             successor ctx 0 (initialKey ctx res) (initialNode ctx) i v = Some (s, k, n)).
  { unfold successor. rewrite Hvsize.
    destruct (Z.ltb_spec (capacity ctx) (0 + s)) as [Hc | _].
    { exfalso. unfold ctx in Hc. cbn [makeCtx capacity] in Hc. lia. }
    assert (Haff : affordable (initialKey ctx res) v = true).
    { unfold affordable, v. cbn [baseVariant v_costs initialKey k_money k_wood k_cement k_steel].
      rewrite Hcost. cbn [nullish noCost c_money c_wood c_cement c_steel costAxis orElse].
      destruct (Z.ltb_spec (money res) 0), (Z.ltb_spec (wood res) 0),
        (Z.ltb_spec (cement res) 0), (Z.ltb_spec (steel res) 0); first [reflexivity | lia]. }
    rewrite Haff, andb_false_r.
    assert (Hstaff : staffingRejects ctx (initialNode ctx) v = false).
    { unfold staffingRejects, isEmployees, v. cbn [baseVariant v_workerType].
      unfold baseWorkerType. rewrite Hemp. cbn [truthy].
      destruct (truthy (d_peopleCapacity def)); reflexivity. }
    rewrite Hstaff.
    destruct (estimate ctx (aggregatesNext ctx (initialNode ctx) v) (0 + s)) as [t a].
    eexists _, _. reflexivity. }
  destruct Hsucc as (k & n & Hsucc).
  assert (Hthrow : forall st,
             transition ctx (Z.of_nat 0) (initialKey ctx res) (initialNode ctx) st (i, v)
             = Throw TypeError).
  { intros st. unfold transition. cbn [fst snd]. change (Z.of_nat 0) with 0. rewrite Hsucc.
    destruct (Z.ltb_spec s 0); [reflexivity | lia]. }
  unfold optimizeBlockIncomeFromDefinitions. fold ctx. fold res.
  assert (Hrun : runDP ctx res = Throw TypeError).
  { unfold runDP. simpl seq. cbn [foldC]. unfold dpPass at 1, expandBucket.
    rewrite initialTable_root. cbn [foldC fst snd].
    rewrite (foldC_hits _ _ (i, v) TypeError Hi Hthrow
               (fun st x => transition_outcome ctx _ _ _ st x)).
    reflexivity. }
  rewrite Hrun. reflexivity.
Qed.

Lemma negative_size_throws_type_error_witness :
  let shed := mkDef (Some 4) (Some (-1)) None None None None false None None None in
  optimizeBlockIncomeFromDefinitions (mkDefs [("sheds"%string, [("Shed"%string, shed)])]) 16
                                     defaultOptions
  = Throw TypeError.
Proof.
  intros shed.
  apply (negative_size_throws_type_error _ 16 defaultOptions "sheds" [("Shed"%string, shed)]
           "Shed" shed (-1)); try reflexivity.
  - left. reflexivity.
  - left. reflexivity.
  - simpl. lia.
Defined.

(** ** A beam width of 0 *)











(** ** The levels of a building *)

(** The worker capacity of the variant at position [k] among the variants
    of a building: the running capacity after the first [k] upgrades. *)
Lemma upgradeVariants_capacity t n def ups acc workers k v :
  nth_error (upgradeVariants t n def acc workers ups) k = Some v ->
  v_capacity v = fold_left stepWorkers (firstn (S k) ups) workers.
Proof.
  revert acc workers k. induction ups as [| up ups IH]; intros acc workers k.
  - destruct k; discriminate.
  - destruct k as [| k]; simpl.
    + intros [= <-]. destruct ups; reflexivity.
    + intros H. apply (IH _ _ _ H).
Qed.

Lemma buildingVariants_capacity t n def k v :
  nth_error (buildingVariants t n def) k = Some v ->
  v_capacity v
  = fold_left stepWorkers (firstn k (sortUpgrades (nullish (d_upgrades def) []))) (baseWorkers def).
Proof.
  unfold buildingVariants. destruct k as [| k]; simpl.
  - intros [= <-]. reflexivity.
  - intros H. apply upgradeVariants_capacity in H. exact H.
Qed.

Lemma upgradeVariants_at t n def pre up post acc workers :
  nth_error (upgradeVariants t n def acc workers (pre ++ up :: post)) (length pre)
  = Some (upgradeVariant t n def
            (stepIncome (fold_left stepIncome pre acc) up)
            (stepWorkers (fold_left stepWorkers pre workers) up) up).
Proof.
  revert acc workers. induction pre as [| p pre IH]; intros acc workers; simpl; [reflexivity |].
  apply IH.
Qed.

(** X23.  Workers from level to level.  The variant of an upgrade takes its
    worker capacity from the upgrade's [peopleCapacity], else from its
    [employees], and else keeps the capacity of the level before it.  Its
    worker kind is not carried along in that way: it is "employees" or
    "residents" when the upgrade lists a non-zero [employees] or
    [peopleCapacity], and otherwise the kind of level 1, so a level can
    keep a capacity without a kind. *)
Theorem upgrade_workers_carry_forward t n def pre up post :
  sortUpgrades (nullish (d_upgrades def) []) = pre ++ up :: post ->
  exists base prev v,
    nth_error (buildingVariants t n def) 0 = Some base
    /\ nth_error (buildingVariants t n def) (length pre) = Some prev
    /\ nth_error (buildingVariants t n def) (S (length pre)) = Some v
    /\ v_level v = u_level up
    /\ v_capacity v = match u_peopleCapacity up, u_employees up with
                      | Some p, _ => p
                      | None, Some e => e
                      | None, None => v_capacity prev
                      end
    /\ v_workerType v = if truthy (u_employees up) then Some employees
                        else if truthy (u_peopleCapacity up) then Some residents
                        else v_workerType base.
Proof.
  intros Hsorted.
  assert (Hlen : (length pre < length (buildingVariants t n def))%nat).
  { unfold buildingVariants. simpl.
    assert (Hl : forall ups acc w, length (upgradeVariants t n def acc w ups) = length ups).
    { induction ups as [| u ups IH]; intros acc w; simpl; [reflexivity | rewrite IH; reflexivity]. }
    rewrite Hl, Hsorted, length_app. simpl. lia. }
  destruct (nth_error (buildingVariants t n def) (length pre)) as [prev |] eqn:Eprev;
    [| apply nth_error_None in Eprev; lia].
  exists (baseVariant t n def), prev. eexists.
  split; [reflexivity |]. split; [reflexivity |].
  split.
  { unfold buildingVariants. rewrite Hsorted. simpl. apply upgradeVariants_at. }
  split; [reflexivity |]. split; [| reflexivity].
  cbn [v_capacity upgradeVariant].
  rewrite (buildingVariants_capacity _ _ _ _ _ Eprev), Hsorted.
  rewrite firstn_app, firstn_all, Nat.sub_diag. simpl. rewrite app_nil_r.
  unfold stepWorkers at 1.
  destruct (u_peopleCapacity up), (u_employees up); reflexivity.
Qed.

Lemma upgrade_workers_carry_forward_witness :
  let def := staffedUpgradeDefinition in
  let staff := mkUpgrade 2 None None (Some 5) None None None false None None in
  sortUpgrades (nullish (d_upgrades def) []) = [staff] ++ plainUpgrade 3 None None :: []
  /\ exists v,
       nth_error (buildingVariants "shops" "Stall" def) 2 = Some v
       /\ v_level v = 3 /\ v_capacity v = 5 /\ v_workerType v = None.
Proof.
  intros def staff.
  assert (H : sortUpgrades (nullish (d_upgrades def) []) = [staff] ++ plainUpgrade 3 None None :: [])
    by reflexivity.
  split; [exact H |].
  destruct (upgrade_workers_carry_forward "shops" "Stall" def _ _ _ H)
    as (base & prev & v & Hb & Hp & Hv & Hl & Hc & Hk).
  exists v. split; [exact Hv |]. split; [exact Hl |].
  injection Hb as <-. injection Hp as <-. split; [exact Hc | exact Hk].
Defined.

(** X24.  Storage from level to level.  A level of a building counts as a
    storage building, one with an object-shaped storage capacity and no
    worker kind, only if level 1 does, and its storage capacity is then
    the one of level 1: an upgrade can replace the storage capacity by a
    number, but an object-shaped capacity listed by an upgrade is not
    read. *)
Theorem storage_levels_share_the_base_storage t n def v :
  In v (buildingVariants t n def) ->
  isStorageBuilding v = true ->
  isStorageBuilding (baseVariant t n def) = true
  /\ v_storageCapacity v = v_storageCapacity (baseVariant t n def).
Proof.
  unfold buildingVariants. intros [<- | Hin] Hsto; [split; [exact Hsto | reflexivity] |].
  revert Hin.
  generalize (orElse (d_baseIncome def) 0) (baseWorkers def).
  induction (sortUpgrades (nullish (d_upgrades def) [])) as [| up ups IH];
    intros acc workers; simpl; [intros [] |].
  intros [<- | Hin]; [| eapply IH, Hin].
  revert Hsto. unfold isStorageBuilding. cbn [v_storageCapacity v_workerType upgradeVariant baseVariant].
  unfold upgradeStorage, upgradeWorkerType.
  destruct (u_capacity up); [discriminate |].
  destruct (u_storageCapacity up) as [[z | c] |];
    destruct (truthy (u_employees up)); try discriminate;
    destruct (truthy (u_peopleCapacity up)); try discriminate;
    destruct (baseStorage def); try discriminate;
    destruct (baseWorkerType def); try discriminate; auto.
Qed.

Lemma storage_levels_share_the_base_storage_witness :
  exists v,
    nth_error (buildingVariants "storage" "Depot" depotDefinition) 1 = Some v
    /\ v_level v = 2
    /\ isStorageBuilding v = true
    /\ v_storageCapacity v = StoObj (mkCost (Some 500) None None None).
Proof.
  eexists. split; [reflexivity |]. split; [reflexivity |].
  match goal with |- isStorageBuilding ?x = true /\ _ =>
    assert (Hin : In x (buildingVariants "storage" "Depot" depotDefinition))
      by (right; left; reflexivity);
    assert (Hsto : isStorageBuilding x = true) by reflexivity;
    split; [exact Hsto |];
    exact (proj2 (storage_levels_share_the_base_storage _ _ _ _ Hin Hsto))
  end.
Defined.

(** ** The variants of a stripped catalog *)

Lemma upgradeVariants_clear t n def ups acc workers :
  upgradeVariants t n (clearMandatory def) acc workers
    (map (fun up =>
            {| u_level := u_level up; u_income := u_income up;
               u_additionalIncome := u_additionalIncome up; u_employees := u_employees up;
               u_peopleCapacity := u_peopleCapacity up;
               u_storageCapacity := u_storageCapacity up;
               u_capacity := u_capacity up; u_mandatory := false; u_cost := u_cost up;
               u_prefers := u_prefers up |}) ups)
  = map (fun v =>
           {| v_type := v_type v; v_name := v_name v; v_level := v_level v;
              v_size := v_size v; v_income := v_income v; v_capacity := v_capacity v;
              v_storageCapacity := v_storageCapacity v; v_mandatory := false;
              v_costs := v_costs v; v_workerType := v_workerType v;
              v_prefers := v_prefers v |})
        (upgradeVariants t n def acc workers ups).
Proof.
  revert acc workers. induction ups as [| up ups IH]; intros acc workers; [reflexivity |].
  cbn [map upgradeVariants]. rewrite <- IH. f_equal.
Qed.

Lemma buildingVariants_clear n def :
  buildingVariants "misc" n (clearMandatory def)
  = map withoutMiscFlag (buildingVariants "misc" n def).
Proof.
  assert (Hmap : forall vs,
             Forall (fun v => v_type v = "misc"%string) vs ->
             map (fun v =>
                    {| v_type := v_type v; v_name := v_name v; v_level := v_level v;
                       v_size := v_size v; v_income := v_income v; v_capacity := v_capacity v;
                       v_storageCapacity := v_storageCapacity v; v_mandatory := false;
                       v_costs := v_costs v; v_workerType := v_workerType v;
                       v_prefers := v_prefers v |}) vs
             = map withoutMiscFlag vs).
  { induction 1 as [| v vs Hv _ IH]; [reflexivity |]. simpl. rewrite IH. f_equal.
    unfold withoutMiscFlag. rewrite Hv. reflexivity. }
  rewrite <- Hmap.
  - unfold buildingVariants. cbn [map]. f_equal.
    cbn [clearMandatory d_upgrades d_baseIncome].
    destruct (d_upgrades def) as [ups |]; cbn [option_map nullish]; [| reflexivity].
    rewrite clearUpgrade_sort. apply upgradeVariants_clear.
  - apply List.Forall_forall. intros v Hv.
    apply buildingVariants_identity in Hv. apply Hv.
Qed.

Lemma withoutMiscFlag_other t n def :
  t <> "misc"%string ->
  map withoutMiscFlag (buildingVariants t n def) = buildingVariants t n def.
Proof.
  intros Hne. rewrite <- (map_id (buildingVariants t n def)) at 2.
  apply map_ext_in. intros v Hv. apply buildingVariants_identity in Hv.
  destruct Hv as (Ht & _). unfold withoutMiscFlag. rewrite Ht.
  destruct (String.eqb_spec t "misc"); [contradiction | reflexivity].
Qed.

Lemma groupVariants_clear g :
  flat_map (fun bd : string * BuildingDefinition => buildingVariants "misc" (fst bd) (snd bd))
           (clearGroup g)
  = map withoutMiscFlag
        (flat_map (fun bd : string * BuildingDefinition =>
                     buildingVariants "misc" (fst bd) (snd bd)) g).
Proof.
  unfold clearGroup. induction g as [| [n def] g IH]; [reflexivity |].
  cbn [map flat_map fst snd]. rewrite map_app, IH, buildingVariants_clear. reflexivity.
Qed.

Lemma groupVariants_other t g :
  t <> "misc"%string ->
  map withoutMiscFlag
      (flat_map (fun bd : string * BuildingDefinition => buildingVariants t (fst bd) (snd bd)) g)
  = flat_map (fun bd : string * BuildingDefinition => buildingVariants t (fst bd) (snd bd)) g.
Proof.
  intros Hne. induction g as [| [n def] g IH]; [reflexivity |].
  cbn [flat_map fst snd]. rewrite map_app, IH, withoutMiscFlag_other by exact Hne. reflexivity.
Qed.

Lemma typesVariants_other (types : list (string * list (string * BuildingDefinition))) :
  ~ In "misc"%string (map fst types) ->
  map withoutMiscFlag
      (flat_map (fun tg : string * list (string * BuildingDefinition) =>
                   flat_map (fun bd : string * BuildingDefinition =>
                               buildingVariants (fst tg) (fst bd) (snd bd))
                            (snd tg)) types)
  = flat_map (fun tg : string * list (string * BuildingDefinition) =>
                flat_map (fun bd : string * BuildingDefinition =>
                            buildingVariants (fst tg) (fst bd) (snd bd))
                         (snd tg)) types.
Proof.
  induction types as [| [t g] types IH]; intros Hnot; [reflexivity |].
  cbn [flat_map fst snd]. rewrite map_app, IH, groupVariants_other; [reflexivity | |].
  - intros ->. apply Hnot. left. reflexivity.
  - intros Hc. apply Hnot. right. exact Hc.
Qed.

(** X25.  What the driver solves a block on.  The variants of the stripped
    copy of a catalog are the variants of the catalog itself, in the same
    order, with the mandatory flag of every variant of type "misc"
    cleared: nothing else is changed, and the flags of the other types
    stay.  The types of a catalog are the keys of an object, so no type
    name occurs twice. *)
Theorem stripping_clears_the_misc_flags_only d isLast :
  List.NoDup (map fst (buildingTypes d)) ->
  buildVariantsFromDefinitions (strippedCatalog d isLast)
  = map withoutMiscFlag (buildVariantsFromDefinitions d).
Proof.
  intros Hnd. unfold strippedCatalog, buildVariantsFromDefinitions. cbn [buildingTypes].
  destruct isLast.
  - revert Hnd. induction (buildingTypes d) as [| [t g] types IH]; intros Hnd; [reflexivity |].
    inversion Hnd as [| ? ? Hnot Hnd']; subst.
    cbn [stripMiscProperty]. destruct (String.eqb_spec t "misc") as [-> | Hne].
    + cbn [flat_map fst snd]. rewrite map_app, groupVariants_clear, typesVariants_other by exact Hnot.
      reflexivity.
    + cbn [flat_map fst snd]. rewrite map_app, <- (IH Hnd'), groupVariants_other by exact Hne.
      reflexivity.
  - clear Hnd. unfold stripMiscTypes.
    induction (buildingTypes d) as [| [t g] types IH]; [reflexivity |].
    cbn [map flat_map fst snd]. rewrite map_app, <- IH. f_equal.
    destruct (String.eqb_spec t "misc") as [-> | Hne]; cbn [fst snd].
    + apply groupVariants_clear.
    + symmetry. apply groupVariants_other. exact Hne.
Qed.

Lemma stripping_clears_the_misc_flags_only_witness :
  List.NoDup (map fst (buildingTypes flaggedCatalog))
  /\ buildVariantsFromDefinitions (strippedCatalog flaggedCatalog true)
     = map withoutMiscFlag (buildVariantsFromDefinitions flaggedCatalog)
  /\ map v_mandatory (buildVariantsFromDefinitions flaggedCatalog) = [true; true; true]
  /\ map v_mandatory (buildVariantsFromDefinitions (strippedCatalog flaggedCatalog true))
     = [false; false; true].
Proof.
  assert (Hnd : List.NoDup (map fst (buildingTypes flaggedCatalog))).
  { simpl. constructor; [intros [H | []]; discriminate |].
    constructor; [intros [] | constructor]. }
  split; [exact Hnd |].
  split; [exact (stripping_clears_the_misc_flags_only flaggedCatalog true Hnd) |].
  split; reflexivity.
Defined.

(** ** The block class of the earlier copy *)

Lemma totalBuildingSize_snoc id bs x :
  getTotalBuildingSize (mkBlockOf id (bs ++ [x]))
  = getTotalBuildingSize (mkBlockOf id bs) + bld_size x.
Proof. unfold getTotalBuildingSize. cbn [buildings]. rewrite fold_left_app. reflexivity. Qed.

Lemma addBuilding_returns b x b' :
  addBuilding b x = inr b' ->
  bld_size x + getTotalBuildingSize b <= 16
  /\ b' = mkBlockOf (blk_id b) (buildings b ++ [x]).
Proof.
  unfold addBuilding. destruct (Z.ltb_spec 16 (bld_size x + getTotalBuildingSize b)); [discriminate |].
  intros [= <-]. split; [assumption | reflexivity].
Qed.

(** X26.  The size of a block.  A block that starts empty and is filled by
    calls of [addBuilding] never holds more than 16 units of size,
    whatever the sizes of the buildings offered to it; the buildings it
    holds are those of the calls that returned, in the order of the
    calls. *)
Theorem block_holds_at_most_16 b :
  filled b ->
  getTotalBuildingSize b <= 16
  /\ forall x b',
       addBuilding b x = inr b' ->
       buildings b' = buildings b ++ [x]
       /\ getTotalBuildingSize b' = getTotalBuildingSize b + bld_size x
       /\ getTotalBuildingSize b' <= 16.
Proof.
  intros Hb.
  assert (Hadd : forall b0 x b',
             addBuilding b0 x = inr b' ->
             buildings b' = buildings b0 ++ [x]
             /\ getTotalBuildingSize b' = getTotalBuildingSize b0 + bld_size x
             /\ getTotalBuildingSize b' <= 16).
  { intros b0 x b' H. destruct (addBuilding_returns _ _ _ H) as [Hle ->].
    split; [reflexivity |]. rewrite totalBuildingSize_snoc.
    destruct b0 as [id bs]. cbn [blk_id buildings]. split; [reflexivity | lia]. }
  split; [| apply Hadd].
  induction Hb as [id | b0 x b' _ _ H].
  - unfold getTotalBuildingSize. simpl. lia.
  - apply (Hadd _ _ _ H).
Qed.

Lemma block_holds_at_most_16_witness :
  let hall := mkBuilding "Hall" 1 10 "a" in
  let mill := mkBuilding "Mill" 1 7 "b" in
  let hut := mkBuilding "Hut" 1 6 "c" in
  let b := mkBlockOf "north" [hall] in
  filled b
  /\ getTotalBuildingSize b <= 16
  /\ addBuilding b mill = inl BlockIsFull
  /\ exists b', addBuilding b hut = inr b' /\ getTotalBuildingSize b' = 16.
Proof.
  intros hall mill hut b.
  assert (Hf : filled b).
  { apply (filled_add (newBlock "north") hall); [apply filled_new | reflexivity]. }
  split; [exact Hf |].
  split; [exact (proj1 (block_holds_at_most_16 b Hf)) |].
  split; [reflexivity |].
  eexists. split; reflexivity.
Defined.

Lemma find_snoc {A : Type} (p : A -> bool) l x :
  find p (l ++ [x]) = match find p l with
                      | Some y => Some y
                      | None => if p x then Some x else None
                      end.
Proof.
  induction l as [| y l IH]; simpl; [reflexivity |].
  destruct (p y); [reflexivity | exact IH].
Qed.

(** X27.  Looking a building up.  After a call of [addBuilding] that
    returned, [getBuilding] finds a building under the identifier of the
    added one: the added building itself, unless the block already held a
    building with that identifier, which is then still the one found.
    Every other lookup gives what it gave before the call. *)
Theorem added_building_is_found b x b' :
  addBuilding b x = inr b' ->
  (exists y, getBuilding b' (buildingId x) = Some y /\ buildingId y = buildingId x)
  /\ (getBuilding b (buildingId x) = None -> getBuilding b' (buildingId x) = Some x)
  /\ (forall id y, getBuilding b id = Some y -> getBuilding b' id = Some y)
  /\ (forall id, id <> buildingId x -> getBuilding b' id = getBuilding b id).
Proof.
  intros H. destruct (addBuilding_returns _ _ _ H) as [_ ->].
  unfold getBuilding. cbn [buildings].
  assert (Hsame : String.eqb (buildingId x) (buildingId x) = true) by apply String.eqb_refl.
  split; [| split; [| split]].
  - rewrite find_snoc.
    destruct (find (fun building => String.eqb (buildingId building) (buildingId x)) (buildings b))
      as [y |] eqn:E.
    + exists y. split; [reflexivity |]. apply find_some in E. apply String.eqb_eq, E.
    + rewrite Hsame. exists x. auto.
  - intros Hnone. rewrite find_snoc, Hnone, Hsame. reflexivity.
  - intros id y Hy. rewrite find_snoc, Hy. reflexivity.
  - intros id Hne. rewrite find_snoc.
    destruct (find (fun building => String.eqb (buildingId building) id) (buildings b));
      [reflexivity |].
    destruct (String.eqb_spec (buildingId x) id); [congruence | reflexivity].
Qed.

Lemma added_building_is_found_witness :
  let hall := mkBuilding "Hall" 1 10 "a" in
  let hut := mkBuilding "Hut" 1 6 "c" in
  let b := mkBlockOf "north" [hall] in
  let b' := mkBlockOf "north" [hall; hut] in
  addBuilding b hut = inr b'
  /\ getBuilding b "c" = None
  /\ getBuilding b' "c" = Some hut
  /\ getBuilding b' "a" = Some hall.
Proof.
  intros hall hut b b'.
  assert (H : addBuilding b hut = inr b') by reflexivity.
  assert (Hn : getBuilding b "c" = None) by reflexivity.
  split; [exact H |]. split; [exact Hn |].
  destruct (added_building_is_found b hut b' H) as (_ & Hnew & Hold & _).
  split; [exact (Hnew Hn) |].
  apply Hold. reflexivity.
Defined.

(** ** The efficiency report *)

Lemma fold_left_ext {A S : Type} (f g : S -> A -> S) l s :
  (forall s a, f s a = g s a) -> fold_left f l s = fold_left g l s.
Proof.
  intros H. revert s. induction l as [| a l IH]; intros s; simpl; [reflexivity |].
  rewrite H. apply IH.
Qed.

Lemma poolSet_NoDup pools k n : List.NoDup (map fst pools) -> List.NoDup (map fst (poolSet pools k n)).
Proof.
  intros Hnd. rewrite poolSet_keys.
  destruct (existsb (String.eqb k) (map fst pools)) eqn:E; [exact Hnd |].
  apply List.NoDup_app; [exact Hnd | constructor; [intros [] | constructor] |].
  intros x Hx [Heq | []]. subst x.
  assert (existsb (String.eqb k) (map fst pools) = true); [| congruence].
  apply existsb_exists. exists k. split; [exact Hx | apply String.eqb_refl].
Qed.

Lemma poolSet_key_In pools k n x :
  In x (map fst (poolSet pools k n)) <-> x = k \/ In x (map fst pools).
Proof.
  rewrite poolSet_keys.
  destruct (existsb (String.eqb k) (map fst pools)) eqn:E.
  - split; [auto |]. intros [-> | H]; [| exact H].
    apply existsb_exists in E. destruct E as (y & Hy & He).
    apply String.eqb_eq in He. subst. exact Hy.
  - rewrite in_app_iff. simpl. split; [intros [H | [<- | []]]; auto | intros [-> | H]; auto].
Qed.

(** A map of capacities by name, as the first loop fills it. *)
Lemma capacityMap p seq m :
  List.NoDup (map fst m) ->
  let r := fold_left (fun m v => if p v : bool then addCapacity m v else m) seq m in
  List.NoDup (map fst r)
  /\ (forall name,
        poolGet r name
        = poolGet m name + sumWhere (fun v => p v && String.eqb (v_name v) name) v_capacity seq)
  /\ (forall name,
        In name (map fst r)
        <-> In name (map fst m)
            \/ existsb (fun v => p v && String.eqb (v_name v) name) seq = true).
Proof.
  revert m. induction seq as [| v seq IH]; intros m Hnd; cbv zeta; simpl.
  - split; [exact Hnd |]. split; [intros; lia |]. intros name. split; [auto |].
    intros [H | H]; [exact H | discriminate].
  - destruct (p v) eqn:Ep; simpl.
    + destruct (IH (addCapacity m v) (poolSet_NoDup _ _ _ Hnd)) as (I1 & I2 & I3).
      split; [exact I1 |]. split.
      * intros name. rewrite I2. unfold addCapacity. rewrite poolGet_poolSet.
        destruct (String.eqb_spec (v_name v) name) as [-> | Hne]; lia.
      * intros name. rewrite I3. unfold addCapacity. rewrite poolSet_key_In.
        destruct (String.eqb_spec (v_name v) name) as [-> | Hne]; simpl; [tauto |].
        split; [intros [[-> | H] | H]; [contradiction | auto | auto] | intros [H | H]; auto].
    + destruct (IH m Hnd) as (I1 & I2 & I3).
      split; [exact I1 |]. split; [intros name; rewrite I2; lia | exact I3].
Qed.

Lemma businessCapacityByName_fold seq :
  businessCapacityByName seq
  = fold_left (fun m v => if isEmployees v then addCapacity m v else m) seq [].
Proof.
  unfold businessCapacityByName. apply fold_left_ext. intros m v.
  unfold isResidents, isEmployees. destruct (v_workerType v) as [[|] |]; reflexivity.
Qed.

Lemma reportGet_reportSet r k e k' :
  reportGet (reportSet r k e) k' = if String.eqb k k' then Some e else reportGet r k'.
Proof.
  unfold reportGet. induction r as [| [k0 e0] r IH]; simpl.
  - destruct (String.eqb k k'); reflexivity.
  - destruct (String.eqb_spec k0 k) as [-> | Hne]; simpl.
    + destruct (String.eqb k k'); reflexivity.
    + destruct (String.eqb_spec k0 k') as [-> | Hne'].
      * destruct (String.eqb_spec k k'); [congruence | reflexivity].
      * exact IH.
Qed.

Lemma reportGet_reportAssign r k e k' :
  reportGet (reportAssign r k e) k'
  = if String.eqb k k' && negb (String.eqb k "__proto__") then Some e else reportGet r k'.
Proof.
  unfold reportAssign. destruct (String.eqb k "__proto__"); simpl.
  - rewrite andb_false_r. reflexivity.
  - rewrite andb_true_r. apply reportGet_reportSet.
Qed.

Lemma reportHas_own r name :
  reportHas r name = match reportGet r name with
                     | Some _ => true
                     | None => existsb (String.eqb name) inheritedNames
                     end.
Proof.
  unfold reportHas, reportGet.
  destruct (find (fun e => String.eqb (fst e) name) r) as [e |] eqn:E.
  - apply find_some in E. destruct E as [Hin He].
    assert (H : existsb (fun e => String.eqb (fst e) name) r = true)
      by (apply existsb_exists; exists e; auto).
    rewrite H. reflexivity.
  - assert (H : existsb (fun e => String.eqb (fst e) name) r = false).
    { apply not_true_is_false. intros Hc. apply existsb_exists in Hc.
      destruct Hc as (x & Hx & Hk). pose proof (find_none _ _ E x Hx). congruence. }
    rewrite H. reflexivity.
Qed.

(** A loop of assignments over the entries of a map with distinct keys. *)
Lemma assignments_get (g : string -> Z -> Efficiency) (m : Pools) r name :
  List.NoDup (map fst m) ->
  reportGet (fold_left (fun r e => reportAssign r (fst e) (g (fst e) (snd e))) m r) name
  = if existsb (String.eqb name) (map fst m) && negb (String.eqb name "__proto__")
    then Some (g name (poolGet m name))
    else reportGet r name.
Proof.
  revert r. induction m as [| [k a] m IH]; intros r Hnd; [reflexivity |].
  inversion Hnd as [| ? ? Hnot Hnd']; subst. cbn [fold_left fst snd map existsb].
  rewrite (IH _ Hnd'), reportGet_reportAssign.
  unfold poolGet. cbn [find fst snd]. rewrite (String.eqb_sym name k).
  destruct (String.eqb_spec k name) as [-> | Hne]; cbn [orb andb].
  - assert (Hno : existsb (String.eqb name) (map fst m) = false).
    { apply not_true_is_false. intros Hc. apply existsb_exists in Hc.
      destruct Hc as (x & Hx & He). apply String.eqb_eq in He. subst. contradiction. }
    rewrite Hno. cbn [andb]. destruct (String.eqb name "__proto__"); reflexivity.
  - destruct (existsb (String.eqb name) (map fst m) && negb (String.eqb name "__proto__"));
      reflexivity.
Qed.

(** The last loop of the report: the rows of the combination. *)
Lemma rows_get comb r name :
  reportGet (fold_left (fun r item =>
                          if reportHas r (ci_name item) then r
                          else reportAssign r (ci_name item) (neutralEfficiency item))
                       comb r) name
  = match reportGet r name with
    | Some e => Some e
    | None =>
        if existsb (String.eqb name) inheritedNames then None
        else option_map neutralEfficiency (find (fun c => String.eqb (ci_name c) name) comb)
    end.
Proof.
  revert r. induction comb as [| c comb IH]; intros r; cbn [fold_left find].
  - destruct (reportGet r name); [reflexivity |].
    destruct (existsb (String.eqb name) inheritedNames); reflexivity.
  - rewrite IH. rewrite reportHas_own.
    destruct (String.eqb_spec (ci_name c) name) as [Hn | Hne].
    + rewrite Hn. destruct (reportGet r name) as [e |] eqn:Er; [rewrite Er; reflexivity |].
      destruct (existsb (String.eqb name) inheritedNames) eqn:Ei; [rewrite Er; reflexivity |].
      rewrite reportGet_reportAssign, String.eqb_refl.
      assert (Hp : String.eqb name "__proto__" = false).
      { apply not_true_is_false. intros Hc. apply String.eqb_eq in Hc.
        rewrite Hc in Ei. discriminate. }
      rewrite Hp. reflexivity.
    + destruct (match reportGet r (ci_name c) with
                | Some _ => true
                | None => existsb (String.eqb (ci_name c)) inheritedNames
                end); [reflexivity |].
      rewrite reportGet_reportAssign.
      destruct (String.eqb_spec (ci_name c) name); [contradiction | reflexivity].
Qed.

(** Every own entry of the report, by the kind of its name. *)
Lemma report_lookup seq comb name :
  reportGet (averageEfficiencyByType seq comb) name
  = if String.eqb name "__proto__" then None
    else if isHouseName seq name then Some (houseEfficiency seq)
    else if isBusinessName seq name
         then Some (businessEfficiency seq name
                      (sumWhere (fun v => isEmployees v && String.eqb (v_name v) name)
                                v_capacity seq))
    else if existsb (String.eqb name) inheritedNames then None
    else option_map neutralEfficiency (find (fun c => String.eqb (ci_name c) name) comb).
Proof.
  unfold averageEfficiencyByType.
  destruct (capacityMap isEmployees seq [] ltac:(constructor)) as (B1 & B2 & B3).
  destruct (capacityMap isResidents seq [] ltac:(constructor)) as (H1 & H2 & H3).
  rewrite <- businessCapacityByName_fold in B1, B2, B3.
  fold (houseCapacityByName seq) in H1, H2, H3.
  assert (Hkeys : forall (m : Pools) p,
             (forall name, In name (map fst m)
                           <-> In name (map fst (@nil (string * Z)))
                               \/ existsb (fun v => p v && String.eqb (v_name v) name) seq = true) ->
             existsb (String.eqb name) (map fst m)
             = existsb (fun v => p v && String.eqb (v_name v) name) seq).
  { intros m p Hm. apply eq_true_iff_eq. rewrite existsb_exists. split.
    - intros (x & Hx & He). apply String.eqb_eq in He. subst x.
      apply Hm in Hx. destruct Hx as [[] | Hx]. exact Hx.
    - intros H. exists name. split; [apply Hm; right; exact H | apply String.eqb_refl]. }
  rewrite rows_get, (assignments_get (fun _ _ => houseEfficiency seq)) by exact H1.
  rewrite (assignments_get (businessEfficiency seq)) by exact B1.
  rewrite (Hkeys _ _ H3), (Hkeys _ _ B3). fold (isHouseName seq name) (isBusinessName seq name).
  rewrite B2. cbn [poolGet find]. rewrite Z.add_0_l.
  destruct (String.eqb_spec name "__proto__") as [-> | Hne]; cbn [negb].
  - rewrite !andb_false_r. reflexivity.
  - rewrite !andb_true_r. destruct (isHouseName seq name); [reflexivity |].
    destruct (isBusinessName seq name); reflexivity.
Qed.

Lemma rows_cover_names ctx seq comb v :
  mapC (combinationRow ctx) (finalCounts seq) = Normal comb ->
  In v seq -> exists c, In c comb /\ ci_name c = v_name v.
Proof.
  intros Hmap Hv. apply mapC_Forall2 in Hmap.
  destruct (finalCounts_covers seq v Hv) as [cnt Hin].
  induction Hmap as [| row c rows cs Hrow _ IH]; [destruct Hin |].
  destruct Hin as [-> | Hin].
  - exists c. split; [left; reflexivity |].
    apply combinationRow_fields in Hrow. apply Hrow.
  - destruct (IH Hin) as (c' & Hc' & Hn). exists c'. split; [right; exact Hc' | exact Hn].
Qed.

Lemma rows_name_placed ctx seq comb c :
  mapC (combinationRow ctx) (finalCounts seq) = Normal comb ->
  In c comb -> exists v, In v seq /\ v_name v = ci_name c.
Proof.
  intros Hmap Hc. apply mapC_Forall2 in Hmap.
  assert (Hex : exists row, In row (finalCounts seq) /\ combinationRow ctx row = Normal c).
  { induction Hmap as [| row c' rows cs Hrow _ IH]; [destruct Hc |].
    destruct Hc as [<- | Hc]; [exists row; split; [left; reflexivity | exact Hrow] |].
    destruct (IH Hc) as (r & Hr & Hcr). exists r. split; [right; exact Hr | exact Hcr]. }
  destruct Hex as ([[n l] cnt] & Hin & Hrow).
  destruct (combinationRow_fields _ _ _ _ _ Hrow) as (Hn & _).
  destruct (finalCounts_names seq _ Hin) as (v & Hv & Hk). simpl in Hk.
  injection Hk as Hvn _. exists v. split; [exact Hv | congruence].
Qed.

(** X28.  The entries of the efficiency report of a result, when no name
    of the build order holds a colon.  Under the name of a house or of a
    business the report holds a percentage; under any other name of the
    combination it holds "N/A" for a row with an object-shaped storage
    capacity and no worker kind and "100%" otherwise, as the first row of
    that name says.  Every name of the build order has an entry and no
    other name has one, with the exception that the object the report is
    kept in inherits some names: "__proto__" never gets an entry, and a
    building that is neither house nor business and has another inherited
    name, such as "constructor", gets none either. *)
Theorem efficiency_report_entries ctx seq comb :
  (forall v, In v seq -> hasColon (v_name v) = false) ->
  mapC (combinationRow ctx) (finalCounts seq) = Normal comb ->
  let report := averageEfficiencyByType seq comb in
  reportGet report "__proto__" = None
  /\ (forall name,
        name <> "__proto__"%string ->
        isHouseName seq name || isBusinessName seq name = true ->
        exists p, reportGet report name = Some (Percent p))
  /\ (forall name,
        isHouseName seq name || isBusinessName seq name = false ->
        reportGet report name
        = if existsb (String.eqb name) inheritedNames then None
          else option_map neutralEfficiency
                          (find (fun c => String.eqb (ci_name c) name) comb))
  /\ (forall v, In v seq -> ~ In (v_name v) inheritedNames ->
        exists e, reportGet report (v_name v) = Some e)
  /\ (forall name e, reportGet report name = Some e -> exists v, In v seq /\ v_name v = name).
Proof.
  intros _ Hmap report. split; [unfold report; rewrite report_lookup; reflexivity |].
  split; [| split; [| split]].
  - intros name Hp Hk. unfold report. rewrite report_lookup.
    rewrite (proj2 (String.eqb_neq _ _) Hp).
    destruct (isHouseName seq name); [unfold houseEfficiency; eexists; reflexivity |].
    simpl in Hk. rewrite Hk. unfold businessEfficiency. eexists. reflexivity.
  - intros name Hk. apply orb_false_iff in Hk. destruct Hk as [Hh Hb].
    unfold report. rewrite report_lookup, Hh, Hb.
    destruct (String.eqb_spec name "__proto__") as [-> | _]; reflexivity.
  - intros v Hv Hinh. unfold report. rewrite report_lookup.
    assert (Hi : existsb (String.eqb (v_name v)) inheritedNames = false).
    { apply not_true_is_false. intros Hc. apply existsb_exists in Hc.
      destruct Hc as (x & Hx & He). apply String.eqb_eq in He. subst x. contradiction. }
    assert (Hp : String.eqb (v_name v) "__proto__" = false).
    { apply not_true_is_false. intros Hc. apply String.eqb_eq in Hc. rewrite Hc in Hi.
      discriminate. }
    rewrite Hp, Hi.
    destruct (isHouseName seq (v_name v)); [eexists; reflexivity |].
    destruct (isBusinessName seq (v_name v)); [eexists; reflexivity |].
    destruct (rows_cover_names ctx seq comb v Hmap Hv) as (c & Hc & Hn).
    destruct (find (fun c => String.eqb (ci_name c) (v_name v)) comb) as [c' |] eqn:E;
      [eexists; reflexivity |].
    pose proof (find_none _ _ E c Hc) as Hno. cbv beta in Hno.
    rewrite Hn, String.eqb_refl in Hno. discriminate.
  - intros name e. unfold report. rewrite report_lookup.
    destruct (String.eqb name "__proto__"); [discriminate |].
    destruct (isHouseName seq name) eqn:Eh.
    { intros _. apply existsb_exists in Eh. destruct Eh as (v & Hv & Hk).
      apply andb_true_iff in Hk. destruct Hk as [_ Hk]. apply String.eqb_eq in Hk. eauto. }
    destruct (isBusinessName seq name) eqn:Eb.
    { intros _. apply existsb_exists in Eb. destruct Eb as (v & Hv & Hk).
      apply andb_true_iff in Hk. destruct Hk as [_ Hk]. apply String.eqb_eq in Hk. eauto. }
    destruct (existsb (String.eqb name) inheritedNames); [discriminate |].
    destruct (find (fun c => String.eqb (ci_name c) name) comb) as [c |] eqn:E; [| discriminate].
    intros _. apply find_some in E. destruct E as [Hc Hk]. apply String.eqb_eq in Hk.
    destruct (rows_name_placed ctx seq comb c Hmap Hc) as (v & Hv & Hn).
    exists v. split; [exact Hv | congruence].
Qed.

Lemma poolsTotal_nonneg pools : poolsOk pools -> 0 <= poolsTotal pools.
Proof.
  intros [_ H]. unfold poolsTotal. induction H as [| e pools He _ IH]; simpl; lia.
Qed.

(** The second loop hands out no more residents than the pools hold, and
    to the businesses of a name no more than their jobs. *)
Lemma allocations_bounded l pools ta byName total0 :
  (forall v, In v l -> 0 <= v_capacity v) ->
  poolsOk pools -> poolsTotal pools + ta = total0 -> 0 <= ta ->
  let '(pools', ta', byName') := fold_left allocationStep l (pools, ta, byName) in
  poolsOk pools' /\ poolsTotal pools' + ta' = total0 /\ 0 <= ta'
  /\ forall name,
       poolGet byName name <= poolGet byName' name
       <= poolGet byName name
          + sumWhere (fun v => isEmployees v && String.eqb (v_name v) name) v_capacity l.
Proof.
  revert pools ta byName. induction l as [| v l IH]; intros pools ta byName Hl Hok Htot Hta.
  - simpl. split; [exact Hok |]. split; [exact Htot |]. split; [exact Hta |]. intros; lia.
  - cbn [fold_left]. unfold allocationStep at 2.
    assert (Hrest : forall x, In x l -> 0 <= v_capacity x) by (intros x Hx; apply Hl; right; exact Hx).
    pose proof (Hl v (or_introl eq_refl)) as Hcap.
    destruct (isEmployees v) eqn:Ee.
    + pose proof (drawWorkers_conserves (v_name v) (v_capacity v) pools 0 pools
                    (proj1 Hok) (fun k a => poolGet_of_In pools k a (proj1 Hok)) Hok
                    ltac:(lia)) as Hdraw.
      cbv zeta in Hdraw. destruct (drawWorkers (v_name v) (v_capacity v) pools 0 pools)
        as [allocated pools1].
      cbn [fst snd] in Hdraw. destruct Hdraw as (Hal & Hcons & Hok1).
      specialize (IH pools1 (ta + allocated)
                     (poolSet byName (v_name v) (poolGet byName (v_name v) + allocated))
                     Hrest Hok1 ltac:(lia) ltac:(lia)).
      destruct (fold_left allocationStep l _) as [[pools' ta'] byName'].
      destruct IH as (I1 & I2 & I3 & I4). split; [exact I1 |]. split; [exact I2 |].
      split; [exact I3 |]. intros name. specialize (I4 name).
      rewrite poolGet_poolSet in I4. cbn [sumWhere fold_right]. rewrite Ee.
      fold (sumWhere (fun v => isEmployees v && String.eqb (v_name v) name) v_capacity l).
      destruct (String.eqb_spec (v_name v) name) as [-> | Hne]; cbn [andb]; lia.
    + specialize (IH pools ta byName Hrest Hok Htot Hta).
      destruct (fold_left allocationStep l _) as [[pools' ta'] byName'].
      destruct IH as (I1 & I2 & I3 & I4). split; [exact I1 |]. split; [exact I2 |].
      split; [exact I3 |]. intros name. specialize (I4 name).
      cbn [sumWhere fold_right]. rewrite Ee.
      fold (sumWhere (fun v => isEmployees v && String.eqb (v_name v) name) v_capacity l).
      cbn [andb]. lia.
Qed.

Lemma share_range a c : 0 <= a <= c -> 0 < c -> (0 <= inject_Z a / inject_Z c <= 1)%Q.
Proof.
  intros Ha Hc.
  assert (0 < inject_Z c)%Q by (change 0%Q with (inject_Z 0); rewrite <- Zlt_Qlt; exact Hc).
  assert (0 <= inject_Z a)%Q by (change 0%Q with (inject_Z 0); rewrite <- Zle_Qle; lia).
  assert (inject_Z a <= inject_Z c)%Q by (rewrite <- Zle_Qle; lia).
  split; [apply Qle_shift_div_l; lra | apply Qle_shift_div_r; lra].
Qed.

Lemma percent_range eff : (0 <= eff <= 1)%Q -> 0 <= jsRound (eff * 100) <= 100.
Proof.
  intros H. apply jsRound_range.
  - change (inject_Z 0) with 0%Q. lra.
  - change (inject_Z 100) with 100%Q. lra.
Qed.

(** X29.  The percentages of the efficiency report.  For a build order
    whose capacities are not negative, every percentage of the report
    lies between 0 and 100. *)
Theorem efficiency_percentages_within_0_and_100 seq comb name p :
  (forall v, In v seq -> 0 <= v_capacity v) ->
  reportGet (averageEfficiencyByType seq comb) name = Some (Percent p) ->
  0 <= p <= 100.
Proof.
  intros Hcap. rewrite report_lookup.
  pose proof (inventory_pools seq Hcap) as Hinv. cbv zeta in Hinv. destruct Hinv as [Hok Htot].
  pose proof (allocations_bounded seq _ 0 [] _ Hcap Hok ltac:(rewrite Z.add_0_r; exact Htot)
                ltac:(lia)) as Hal.
  fold (allocations seq) in Hal.
  destruct (String.eqb name "__proto__"); [discriminate |].
  destruct (isHouseName seq name).
  { unfold houseEfficiency. destruct (allocations seq) as [[pools' ta'] byName'].
    destruct Hal as (Hok' & Hsum & Hta & _). cbn [fst snd].
    pose proof (poolsTotal_nonneg _ Hok') as Hnn.
    intros [= <-]. apply percent_range.
    destruct (Z.ltb_spec 0 (inv_totalHouseCapacity
                              (fold_left inventoryStep seq (mkInventory [] 0 0 0))));
      [apply share_range; lia | lra]. }
  destruct (isBusinessName seq name).
  { unfold businessEfficiency, businessAllocatedByName.
    destruct (allocations seq) as [[pools' ta'] byName'].
    destruct Hal as (_ & _ & _ & Hby). specialize (Hby name). cbn [snd].
    change (poolGet [] name) with 0 in Hby.
    intros [= <-]. apply percent_range.
    set (cnt := Z.of_nat (length (List.filter _ seq))).
    set (cap := sumWhere _ v_capacity seq) in *.
    set (pen := if DUPLICATE_PENALTY_THRESHOLD <? cnt
                then (DUPLICATE_PENALTY_RATE * inject_Z (cnt - DUPLICATE_PENALTY_THRESHOLD))%Q
                else 0%Q).
    assert (Hpen : (0 <= pen)%Q).
    { unfold pen, DUPLICATE_PENALTY_THRESHOLD, DUPLICATE_PENALTY_RATE.
      destruct (Z.ltb_spec 2 cnt); [| lra].
      apply Qmult_le_0_compat; [lra |]. change 0%Q with (inject_Z 0). rewrite <- Zle_Qle. lia. }
    set (base := if 0 <? cap then (inject_Z (poolGet byName' name) / inject_Z cap)%Q else 1%Q).
    assert (Hbase : (0 <= base <= 1)%Q).
    { unfold base. destruct (Z.ltb_spec 0 cap); [apply share_range; lia | lra]. }
    unfold qmax. destruct (Qle_bool 0 (base - pen)) eqn:E.
    - apply Qle_bool_iff in E. split; [exact E | lra].
    - split; lra. }
  destruct (existsb (String.eqb name) inheritedNames); [discriminate |].
  destruct (find (fun c => String.eqb (ci_name c) name) comb) as [c |]; [| discriminate].
  unfold neutralEfficiency. cbn [option_map].
  destruct (ci_storageCapacity c), (ci_workerType c); intros [= <-]; lia.
Qed.

Lemma efficiency_report_entries_witness :
  let ctx := makeCtx townCatalog 16 defaultOptions in
  let seq := variants ctx in
  (forall v, In v seq -> hasColon (v_name v) = false)
  /\ exists comb,
       mapC (combinationRow ctx) (finalCounts seq) = Normal comb
       /\ map v_name seq = ["Hut"; "Mill"; "Depot"; "Well"]%string
       /\ (exists p, reportGet (averageEfficiencyByType seq comb) "Hut" = Some (Percent p))
       /\ (exists p, reportGet (averageEfficiencyByType seq comb) "Mill" = Some (Percent p))
       /\ reportGet (averageEfficiencyByType seq comb) "Depot" = Some NotApplicable
       /\ reportGet (averageEfficiencyByType seq comb) "Well" = Some (Percent 100)
       /\ reportGet (averageEfficiencyByType seq comb) "Forge" = None.
Proof.
  intros ctx seq.
  assert (Hc : forall v, In v seq -> hasColon (v_name v) = false).
  { intros v Hv. vm_compute in Hv. decompose [or] Hv; subst; try contradiction; reflexivity. }
  split; [exact Hc |]. eexists.
  match goal with |- ?P /\ _ => assert (H : P) by (vm_compute; reflexivity) end.
  split; [exact H |]. split; [reflexivity |].
  destruct (efficiency_report_entries ctx seq _ Hc H) as (_ & Hpct & Hother & _ & _).
  split; [apply Hpct; [discriminate | vm_compute; reflexivity] |].
  split; [apply Hpct; [discriminate | vm_compute; reflexivity] |].
  rewrite !Hother by (vm_compute; reflexivity).
  repeat split; vm_compute; reflexivity.
Defined.

Lemma efficiency_percentages_within_0_and_100_witness :
  let hut := mkVariant "houses" "Hut" 1 1 4 2 (StoNum 0) false noCost (Some residents) None in
  let mill := mkVariant "shops" "Mill" 1 1 10 4 (StoNum 0) false noCost (Some employees) None in
  (forall v, In v [hut; mill] -> 0 <= v_capacity v)
  /\ reportGet (averageEfficiencyByType [hut; mill] []) "Mill" = Some (Percent 50)
  /\ 0 <= 50 <= 100.
Proof.
  intros hut mill.
  assert (Hcap : forall v, In v [hut; mill] -> 0 <= v_capacity v).
  { intros v [<- | [<- | []]]; simpl; lia. }
  assert (Hget : reportGet (averageEfficiencyByType [hut; mill] []) "Mill" = Some (Percent 50))
    by (vm_compute; reflexivity).
  split; [exact Hcap |]. split; [exact Hget |].
  exact (efficiency_percentages_within_0_and_100 [hut; mill] [] "Mill" 50 Hcap Hget).
Defined.
